(** * The DDP gradient reducer (torch/csrc/distributed/c10d/reducer.cpp)

    A shallow embedding of the bucket assigner, the bucket store, the
    readiness state machine and the bucket-index broadcast of the Reducer,
    with the properties its specification states about them.

    Conventions of the embedding:
    - a [std::vector] is a [list]; positions in vectors and the [size_t]
      values used as positions are [nat]; [size_t] quantities on which the
      code does arithmetic (byte sizes, pending counters) are [Z] with the
      64-bit wrap-around written out;
    - [std::unordered_map] is a [gmap]; where the code iterates over one,
      the order is a parameter of the model;
    - a C++ exception is the [Err] result; reading a vector outside its
      bounds (undefined behaviour in C++) is the error [OutOfRange];
    - methods of [Reducer] are computations in a state-and-error monad over
      the record [Reducer]; after an exception the state holds whatever the
      method had written before throwing;
    - the reducer computes no tensor element itself: it calls kernels of the
      tensor library, whose floating-point arithmetic depends on the dtype
      and the device of the tensors. A tensor element is therefore the term
      that says which kernels produced it ([Element]); [eval] gives its
      value under a given arithmetic. *)

From Stdlib Require Import ZArith Lia String.
From Stdlib Require Floats.SpecFloat.
From stdpp Require Import base tactics option list gmap sorting.

Open Scope Z_scope.
Open Scope nat_scope.

(** ** Errors and results *)

Inductive error :=
| TorchCheck (msg : string)
| InternalAssert (msg : string)
| OutOfRange.

Inductive result (A : Type) :=
| Ok (a : A)
| Err (e : error).
Arguments Ok {A} a.
Arguments Err {A} e.

Definition is_ok {A} (r : result A) : bool :=
  match r with Ok _ => true | Err _ => false end.

Global Instance result_ret : MRet result := λ A a, Ok a.

Global Instance result_bind : MBind result := λ A B k r,
  match r with Ok a => k a | Err e => Err e end.

(** [v.at(i)] and, for the embedding, [v[i]]. *)
Definition at_ {A} (v : list A) (i : nat) : result A :=
  match v !! i with Some a => Ok a | None => Err OutOfRange end.

Definition torch_check (c : bool) (msg : string) : result unit :=
  if c then Ok tt else Err (TorchCheck msg).

Definition internal_assert (c : bool) (msg : string) : result unit :=
  if c then Ok tt else Err (InternalAssert msg).

(** ** Machine integers *)

Definition two64 : Z := 2 ^ 64.

(** Conversion of an [int64_t] to [size_t]. *)
Definition to_size_t (z : Z) : Z := z mod two64.

(** [--x] on a [size_t]. *)
Definition size_t_dec (x : Z) : Z := if (x =? 0)%Z then (two64 - 1)%Z else (x - 1)%Z.

(** Conversion of a [size_t] to [int] (32 bits, two's complement). *)
Definition to_int32 (z : Z) : Z := ((z + 2 ^ 31) mod 2 ^ 32 - 2 ^ 31)%Z.

(** ** The tensor library, as far as the Reducer uses it *)

Inductive ScalarType :=
| Byte | Char | Short | Int | Long | Half | Float | Double
| ComplexHalf | ComplexFloat | ComplexDouble | Bool
| QInt8 | QUInt8 | QInt32 | BFloat16.

Inductive DeviceType := CPU | CUDA.

Record Device := { dev_type : DeviceType; dev_index : Z }.

Inductive Layout := Strided | Sparse.

(** A tensor handle: a view (offset, sizes, strides) of a storage.
    [t_element_size] and [t_non_overlapping_and_dense] are what
    [element_size()] and [is_non_overlapping_and_dense()] return. *)
Record Tensor := {
  t_storage : nat;
  t_offset : nat;
  t_sizes : list nat;
  t_strides : list nat;
  t_dtype : ScalarType;
  t_device : Device;
  t_layout : Layout;
  t_element_size : Z;
  t_non_overlapping_and_dense : bool }.

Definition numel (t : Tensor) : nat := foldr Nat.mul 1 (t_sizes t).

Definition is_sparse (t : Tensor) : bool :=
  match t_layout t with Sparse => true | Strided => false end.

Global Instance ScalarType_eq_dec : EqDecision ScalarType.
Proof. solve_decision. Defined.
Global Instance DeviceType_eq_dec : EqDecision DeviceType.
Proof. solve_decision. Defined.
Global Instance Device_eq_dec : EqDecision Device.
Proof. solve_decision. Defined.
Global Instance Layout_eq_dec : EqDecision Layout.
Proof. solve_decision. Defined.

Definition ScalarType_to_nat (s : ScalarType) : nat :=
  match s with
  | Byte => 0 | Char => 1 | Short => 2 | Int => 3 | Long => 4 | Half => 5
  | Float => 6 | Double => 7 | ComplexHalf => 8 | ComplexFloat => 9
  | ComplexDouble => 10 | Bool => 11 | QInt8 => 12 | QUInt8 => 13
  | QInt32 => 14 | BFloat16 => 15
  end.

Definition ScalarType_of_nat (n : nat) : ScalarType :=
  match n with
  | 0 => Byte | 1 => Char | 2 => Short | 3 => Int | 4 => Long | 5 => Half
  | 6 => Float | 7 => Double | 8 => ComplexHalf | 9 => ComplexFloat
  | 10 => ComplexDouble | 11 => Bool | 12 => QInt8 | 13 => QUInt8
  | 14 => QInt32 | _ => BFloat16
  end.

Lemma ScalarType_of_to_nat s : ScalarType_of_nat (ScalarType_to_nat s) = s.
Proof. by destruct s. Qed.

Global Instance ScalarType_countable : Countable ScalarType :=
  inj_countable' ScalarType_to_nat ScalarType_of_nat ScalarType_of_to_nat.

Definition DeviceType_to_bool (d : DeviceType) : bool :=
  match d with CPU => false | CUDA => true end.

Definition DeviceType_of_bool (b : bool) : DeviceType :=
  if b then CUDA else CPU.

Lemma DeviceType_of_to_bool d : DeviceType_of_bool (DeviceType_to_bool d) = d.
Proof. by destruct d. Qed.

Global Instance DeviceType_countable : Countable DeviceType :=
  inj_countable' DeviceType_to_bool DeviceType_of_bool DeviceType_of_to_bool.

Definition Device_to_pair (d : Device) : DeviceType * Z := (dev_type d, dev_index d).

Definition Device_of_pair (p : DeviceType * Z) : Device :=
  {| dev_type := p.1; dev_index := p.2 |}.

Lemma Device_of_to_pair d : Device_of_pair (Device_to_pair d) = d.
Proof. by destruct d. Qed.

Global Instance Device_countable : Countable Device :=
  inj_countable' Device_to_pair Device_of_pair Device_of_to_pair.

(** ** BucketAssigner: [compute_bucket_assignment_by_size] *)

(** [struct BucketKey]: scalar type and device. *)
Definition BucketKey : Type := ScalarType * Device.

Definition bucket_key (t : Tensor) : BucketKey := (t_dtype t, t_device t).

(** [struct BucketAccumulator]. *)
Record BucketAccumulator := {
  acc_indices : list nat;
  acc_size : Z }.

Definition BucketAccumulator_new : BucketAccumulator :=
  {| acc_indices := []; acc_size := 0 |}.

(** The locals of the function: [result], [bucket_size_limit_iterators]
    (an iterator is a position in [bucket_size_limits]) and [buckets]. *)
Record AssignState := {
  as_result : list (list nat);
  as_iterators : gmap BucketKey nat;
  as_buckets : gmap BucketKey BucketAccumulator }.

Definition AssignState_init : AssignState :=
  {| as_result := []; as_iterators := ∅; as_buckets := ∅ |}.

(** [tensor_index]: [i], or [tensor_indices[i]] converted to [size_t]. *)
Definition tensor_index_at (tensor_indices : list Z) (i : nat) : result nat :=
  match tensor_indices with
  | [] => Ok i
  | _ => z ← at_ tensor_indices i; Ok (Z.to_nat (to_size_t z))
  end.

(** [!expect_sparse_gradient.empty() && expect_sparse_gradient[tensor_index]]. *)
Definition expects_sparse (expect_sparse_gradient : list bool) (tensor_index : nat)
  : result bool :=
  match expect_sparse_gradient with
  | [] => Ok false
  | _ => at_ expect_sparse_gradient tensor_index
  end.

(** The part of the loop body after the [continue] of the sparse case. *)
Definition assign_dense (bucket_size_limits : list Z) (tensor : Tensor)
    (tensor_index : nat) (st : AssignState) : result AssignState :=
  let key := bucket_key tensor in
  let bucket0 := default BucketAccumulator_new (as_buckets st !! key) in
  let indices := acc_indices bucket0 ++ [tensor_index] in
  let size := ((acc_size bucket0 +
                (Z.of_nat (numel tensor) * t_element_size tensor) mod two64)
               mod two64)%Z in
  let iterators :=
    match as_iterators st !! key with
    | None => <[key := 0]> (as_iterators st)
    | Some _ => as_iterators st
    end in
  let it := default 0 (iterators !! key) in
  bucket_size_limit ← at_ bucket_size_limits it;
  if (bucket_size_limit <=? size)%Z then
    Ok {| as_result := as_result st ++ [indices];
          as_iterators :=
            (if decide (S it = length bucket_size_limits) then iterators
             else <[key := S it]> iterators);
          as_buckets := <[key := BucketAccumulator_new]> (as_buckets st) |}
  else
    Ok {| as_result := as_result st;
          as_iterators := iterators;
          as_buckets :=
            <[key := {| acc_indices := indices; acc_size := size |}]> (as_buckets st) |}.

(** One iteration of the loop over [tensors]. *)
Definition assign_step (bucket_size_limits : list Z)
    (expect_sparse_gradient : list bool) (tensor_indices : list Z)
    (i : nat) (tensor : Tensor) (st : AssignState) : result AssignState :=
  _ ← torch_check (negb (is_sparse tensor)) "No support for sparse tensors.";
  tensor_index ← tensor_index_at tensor_indices i;
  sparse ← expects_sparse expect_sparse_gradient tensor_index;
  if (sparse : bool) then
    Ok {| as_result := as_result st ++ [[tensor_index]];
          as_iterators := as_iterators st;
          as_buckets := as_buckets st |}
  else assign_dense bucket_size_limits tensor tensor_index st.

Fixpoint assign_loop (bucket_size_limits : list Z)
    (expect_sparse_gradient : list bool) (tensor_indices : list Z)
    (i : nat) (tensors : list Tensor) (st : AssignState) : result AssignState :=
  match tensors with
  | [] => Ok st
  | tensor :: rest =>
      st' ← assign_step bucket_size_limits expect_sparse_gradient
                    tensor_indices i tensor st;
      assign_loop bucket_size_limits expect_sparse_gradient tensor_indices
        (S i) rest st'
  end.

(** Iteration over a [std::unordered_map]: the standard leaves the order
    open. The model visits the keys by ascending [rank], where [rank] is any
    function; an injective [rank] gives any wanted order of a given table. *)
Definition rank_le {K} (rank : K → nat) (a b : K) : Prop := rank a ≤ rank b.

Global Instance rank_le_dec {K} (rank : K → nat) a b : Decision (rank_le rank a b).
Proof. unfold rank_le. apply _. Defined.

Definition unordered_map_items {V} (rank : BucketKey → nat)
    (m : gmap BucketKey V) : list (BucketKey * V) :=
  omap (λ k, (k,.) <$> m !! k) (merge_sort (rank_le rank) (elements (dom m))).

(** "Add remaining buckets." *)
Definition remaining_buckets (rank : BucketKey → nat)
    (buckets : gmap BucketKey BucketAccumulator) : list (list nat) :=
  filter (λ l, l ≠ []) (acc_indices ∘ snd <$> unordered_map_items rank buckets).

(** [*std::min_element(a.begin(), a.end())]; the buckets compared are never
    empty (lemma [assign_loop_nonempty]). *)
Definition min_element (a : list nat) : nat :=
  match a with
  | [] => 0
  | x :: a' => foldl Nat.min x a'
  end.

Definition min_le (a b : list nat) : Prop := min_element a ≤ min_element b.

Global Instance min_le_dec a b : Decision (min_le a b).
Proof. unfold min_le. apply _. Defined.

(** [std::sort] with the comparator on minimum elements. [std::sort] is not
    stable; the lists sorted here have pairwise different minima, so every
    sorting algorithm gives the same list (lemma [sorted_by_min_unique]). *)
Definition std_sort_by_min (l : list (list nat)) : list (list nat) :=
  merge_sort min_le l.

Definition compute_bucket_assignment_by_size (rank : BucketKey → nat)
    (tensors : list Tensor) (bucket_size_limits : list Z)
    (expect_sparse_gradient : list bool) (tensor_indices : list Z)
  : result (list (list nat)) :=
  _ ← internal_assert
    (bool_decide (expect_sparse_gradient = []) ||
     bool_decide (length tensors = length expect_sparse_gradient))
    "expect_sparse_gradient.empty() || (tensors.size() == expect_sparse_gradient.size())";
  _ ← internal_assert (bool_decide (0 < length tensors)) "tensors.size() > 0";
  st ← assign_loop bucket_size_limits expect_sparse_gradient tensor_indices
               0 tensors AssignState_init;
  let result := as_result st ++ remaining_buckets rank (as_buckets st) in
  Ok (match tensor_indices with
      | [] => std_sort_by_min result
      | _ => result
      end).

(** The index recorded for the tensor at position [i], and the sparse flag
    the loop reads for a recorded index, as total functions. *)
Definition intended_index (tensor_indices : list Z) (i : nat) : nat :=
  match tensor_indices with
  | [] => i
  | _ => Z.to_nat (to_size_t (default 0%Z (tensor_indices !! i)))
  end.

Definition intended_indices (tensor_indices : list Z) (n : nat) : list nat :=
  intended_index tensor_indices <$> seq 0 n.

Definition sparse_flag (expect_sparse_gradient : list bool) (tensor_index : nat) : bool :=
  default false (expect_sparse_gradient !! tensor_index).

(** *** The algorithm as the specification words it *)

(** One group per (dtype, device): its accumulator of indices, its running
    size in bytes and its pointer into the budget sequence. *)
Record Group := {
  g_accumulator : list nat;
  g_running_size : Z;
  g_budget_pointer : nat }.

Definition Group_new : Group :=
  {| g_accumulator := []; g_running_size := 0; g_budget_pointer := 0 |}.

(** A tensor whose flag is set is emitted as a singleton and skipped;
    otherwise its index joins the accumulator of its group and its bytes the
    running size, and a group that reached its current budget is emitted,
    reset, and moves to the next budget, staying at the last one. *)
Definition reference_step (budgets : list Z) (index : nat) (flagged : bool)
    (tensor : Tensor) (s : list (list nat) * gmap BucketKey Group)
  : list (list nat) * gmap BucketKey Group :=
  let '(emitted, groups) := s in
  if flagged then (emitted ++ [[index]], groups)
  else
    let key := bucket_key tensor in
    let g := default Group_new (groups !! key) in
    let accumulator := g_accumulator g ++ [index] in
    let running := (g_running_size g + Z.of_nat (numel tensor) * t_element_size tensor)%Z in
    let budget := default 0%Z (budgets !! g_budget_pointer g) in
    if (budget <=? running)%Z then
      (emitted ++ [accumulator],
       <[key := {| g_accumulator := []; g_running_size := 0;
                   g_budget_pointer :=
                     Nat.min (S (g_budget_pointer g)) (length budgets - 1) |}]> groups)
    else
      (emitted,
       <[key := {| g_accumulator := accumulator; g_running_size := running;
                   g_budget_pointer := g_budget_pointer g |}]> groups).

Fixpoint reference_loop (budgets : list Z) (flags : list bool)
    (tensor_indices : list Z) (i : nat) (tensors : list Tensor)
    (s : list (list nat) * gmap BucketKey Group)
  : list (list nat) * gmap BucketKey Group :=
  match tensors with
  | [] => s
  | tensor :: rest =>
      let index := intended_index tensor_indices i in
      reference_loop budgets flags tensor_indices (S i) rest
        (reference_step budgets index (sparse_flag flags index) tensor s)
  end.

(** Sorting ascending by the minimum index, by insertion. *)
Fixpoint insert_by_min (b : list nat) (l : list (list nat)) : list (list nat) :=
  match l with
  | [] => [b]
  | c :: l' =>
      if decide (min_element b ≤ min_element c) then b :: c :: l'
      else c :: insert_by_min b l'
  end.

Definition sort_by_min (l : list (list nat)) : list (list nat) :=
  foldr insert_by_min [] l.

Definition bucket_assignment_reference (rank : BucketKey → nat)
    (tensors : list Tensor) (budgets : list Z) (flags : list bool)
    (tensor_indices : list Z) : list (list nat) :=
  let '(emitted, groups) :=
    reference_loop budgets flags tensor_indices 0 tensors ([], ∅) in
  let buckets :=
    emitted ++
    filter (λ l, l ≠ []) (g_accumulator ∘ snd <$> unordered_map_items rank groups) in
  match tensor_indices with
  | [] => sort_by_min buckets
  | _ => buckets
  end.

(** *** Auxiliary definitions for the proofs about the assigner *)

(** The indices waiting in the accumulators. *)
Definition pending_indices (m : gmap BucketKey BucketAccumulator) : list nat :=
  concat (acc_indices ∘ snd <$> map_to_list m).

(** The loop over (recorded index, flag read, tensor) triples: what
    [assign_loop] does once the index and the flag of every position are
    known to be readable and every tensor to be dense (lemma
    [assign_loop_items]). *)
Definition AssignItem : Type := nat * bool * Tensor.

Definition assign_item (bucket_size_limits : list Z) (it : AssignItem)
    (st : AssignState) : result AssignState :=
  let '(tensor_index, sparse, tensor) := it in
  if sparse then
    Ok {| as_result := as_result st ++ [[tensor_index]];
          as_iterators := as_iterators st;
          as_buckets := as_buckets st |}
  else assign_dense bucket_size_limits tensor tensor_index st.

Fixpoint assign_items (bucket_size_limits : list Z) (items : list AssignItem)
    (st : AssignState) : result AssignState :=
  match items with
  | [] => Ok st
  | it :: rest =>
      st' ← assign_item bucket_size_limits it st;
      assign_items bucket_size_limits rest st'
  end.

Fixpoint items_from (flags : list bool) (tensor_indices : list Z) (i : nat)
    (tensors : list Tensor) : list AssignItem :=
  match tensors with
  | [] => []
  | tensor :: rest =>
      let index := intended_index tensor_indices i in
      (index, sparse_flag flags index, tensor) ::
      items_from flags tensor_indices (S i) rest
  end.

Definition item_index (it : AssignItem) : nat := it.1.1.
Definition item_flag (it : AssignItem) : bool := it.1.2.
Definition item_tensor (it : AssignItem) : Tensor := it.2.

(** Every index of [b] is the recorded index of an unflagged tensor of key [k]. *)
Definition bucket_of_key (items : list AssignItem) (k : BucketKey) (b : list nat) : Prop :=
  ∀ x, x ∈ b → ∃ t, (x, false, t) ∈ items ∧ bucket_key t = k.

(** Bytes of a tensor and of a list of items, without wrap-around. *)
Definition tensor_bytes (t : Tensor) : Z := (Z.of_nat (numel t) * t_element_size t)%Z.

Definition total_bytes (tensors : list Tensor) : Z :=
  foldr (λ t acc, (tensor_bytes t + acc)%Z) 0%Z tensors.

(** Invariants of the loop. *)
Definition iters_ok (limits : list Z) (st : AssignState) : Prop :=
  ∀ k it, as_iterators st !! k = Some it → it < length limits.

Definition assign_inv (limits : list Z) (done : list AssignItem) (st : AssignState) : Prop :=
  iters_ok limits st ∧
  concat (as_result st) ++ pending_indices (as_buckets st) ≡ₚ item_index <$> done ∧
  Forall (λ b, b ≠ []) (as_result st) ∧
  (∀ x t, (x, true, t) ∈ done → [x] ∈ as_result st) ∧
  (∀ b, b ∈ as_result st →
     (∃ x t, (x, true, t) ∈ done ∧ b = [x]) ∨ ∃ k, bucket_of_key done k b) ∧
  (∀ k acc, as_buckets st !! k = Some acc → bucket_of_key done k (acc_indices acc)).


(** What the specification asks of the returned buckets: they partition the
    recorded indices (each index in exactly one bucket), none is empty, every
    tensor whose flag is set is a bucket of its own, and the tensors of one
    bucket agree in dtype and device. *)
Definition is_bucket_assignment (tensors : list Tensor) (flags : list bool)
    (tensor_indices : list Z) (buckets : list (list nat)) : Prop :=
  let indices := intended_indices tensor_indices (length tensors) in
  concat buckets ≡ₚ indices ∧
  (∀ x, x ∈ indices → length (filter (λ b, x ∈ b) buckets) = 1) ∧
  Forall (λ b, b ≠ []) buckets ∧
  (∀ i, i < length tensors →
     sparse_flag flags (intended_index tensor_indices i) = true →
     [intended_index tensor_indices i] ∈ buckets) ∧
  (∀ b i j t u, b ∈ buckets →
     tensors !! i = Some t → tensors !! j = Some u →
     intended_index tensor_indices i ∈ b → intended_index tensor_indices j ∈ b →
     t_dtype t = t_dtype u ∧ t_device t = t_device u).

(** Explicit indices the loop can read: none, or one per tensor, pairwise
    different as [size_t] values and, when flags are given, positions of the
    flag vector. *)
Definition explicit_indices_ok (tensors : list Tensor) (flags : list bool)
    (tensor_indices : list Z) : Prop :=
  tensor_indices = [] ∨
  (length tensor_indices = length tensors ∧
   NoDup (Z.to_nat ∘ to_size_t <$> tensor_indices) ∧
   (flags ≠ [] → Forall (λ z, Z.to_nat (to_size_t z) < length flags) tensor_indices)).

(** *** Sample tensors *)

Definition cpu0 : Device := {| dev_type := CPU; dev_index := 0 |}.

(** A contiguous one-dimensional tensor of [n] elements of [es] bytes. *)
Definition sample_tensor (dt : ScalarType) (layout : Layout) (n : nat) (es : Z) : Tensor :=
  {| t_storage := 0; t_offset := 0; t_sizes := [n]; t_strides := [1];
     t_dtype := dt; t_device := cpu0; t_layout := layout; t_element_size := es;
     t_non_overlapping_and_dense := true |}.

Definition sample_rank (k : BucketKey) : nat := ScalarType_to_nat k.1.

(** Four float parameters of four bytes each (scenario S6). *)
Definition sample_params : list Tensor :=
  [sample_tensor Float Strided 1 4; sample_tensor Float Strided 1 4;
   sample_tensor Float Strided 1 4; sample_tensor Float Strided 1 4].

(** *** Auxiliary definitions for the comparison with the reference *)

Definition Group_accumulator (g : Group) : BucketAccumulator :=
  {| acc_indices := g_accumulator g; acc_size := g_running_size g |}.

(** The locals of the code and the state of the reference describe the same
    groups; [bound] limits the running sizes. *)
Definition refines (limits : list Z) (bound : Z) (st : AssignState)
    (s : list (list nat) * gmap BucketKey Group) : Prop :=
  as_result st = s.1 ∧
  as_buckets st = Group_accumulator <$> s.2 ∧
  as_iterators st = g_budget_pointer <$> s.2 ∧
  ∀ k g, s.2 !! k = Some g →
    (0 ≤ g_running_size g ≤ bound)%Z ∧ g_budget_pointer g < length limits.

(** ** Tensors and their storages *)

(** A wrapped scalar handed to a kernel: the reducer builds only
    [double(1.) / size]. *)
Inductive Scalar :=
| reciprocal (size : Z).

(** A tensor element: a number that is stored (an IEEE value), the
    unspecified content of a fresh [at::empty] tensor, or what a kernel made
    of an element: [at::native::mul_out] with a wrapped scalar, [div_] with
    an integer. *)
Inductive Element :=
| number (x : SpecFloat.spec_float)
| unspecified
| mul_scalar (self : Element) (other : Scalar)
| div_scalar (self : Element) (other : Z).

(** An arithmetic of the kernels: the value a kernel sees for a wrapped
    scalar, and the two operations. *)
Record Arithmetic := {
  ar_scalar : Scalar → SpecFloat.spec_float;
  ar_mul : SpecFloat.spec_float → SpecFloat.spec_float → SpecFloat.spec_float;
  ar_div : SpecFloat.spec_float → Z → SpecFloat.spec_float }.

(** The value of an element under an arithmetic; an element computed from
    unspecified content has none. *)
Fixpoint eval (a : Arithmetic) (e : Element) : option SpecFloat.spec_float :=
  match e with
  | number x => Some x
  | unspecified => None
  | mul_scalar self other => (λ x, ar_mul a x (ar_scalar a other)) <$> eval a self
  | div_scalar self other => (λ x, ar_div a x other) <$> eval a self
  end.

(** The integer [n] as a float of precision [prec] and exponent bound
    [emax], and a float rounded to this format. *)
Definition float_of_int (prec emax : Z) (n : Z) : SpecFloat.spec_float :=
  SpecFloat.binary_normalize prec emax n 0 false.

Definition float_round (prec emax : Z) (x : SpecFloat.spec_float)
  : SpecFloat.spec_float :=
  SpecFloat.SFmul prec emax x (float_of_int prec emax 1).

(** IEEE 754 arithmetic, rounding to nearest even, in the format of
    precision [prec] and exponent bound [emax] (24 and 128 for [float], 53
    and 1024 for [double]): the scalar [double(1.) / size] is computed in
    double precision and converted to the format, an integer divisor is
    converted to the format, and the operations round once. *)
Definition ieee_arithmetic (prec emax : Z) : Arithmetic :=
  {| ar_scalar := λ s,
       match s with
       | reciprocal size =>
           float_round prec emax
             (SpecFloat.SFdiv 53 1024 (float_of_int 53 1024 1)
                (float_of_int 53 1024 size))
       end;
     ar_mul := SpecFloat.SFmul prec emax;
     ar_div := λ x n, SpecFloat.SFdiv prec emax x (float_of_int prec emax n) |}.

(** The storages of all tensors; a storage is the list of its elements. *)
Abbreviation Storages := (list (list Element)).

(** Storage positions of the elements of a strided view, in logical
    (row-major) order. *)
Fixpoint strided_positions (sizes strides : list nat) (offset : nat) {struct sizes}
  : list nat :=
  match sizes, strides with
  | [], _ => [offset]
  | n :: sizes', s :: strides' =>
      flat_map (λ i, strided_positions sizes' strides' (offset + i * s)) (seq 0 n)
  | _ :: _, [] => []
  end.

Definition positions (t : Tensor) : list nat :=
  strided_positions (t_sizes t) (t_strides t) (t_offset t).

Definition storage_of (h : Storages) (t : Tensor) : list Element :=
  default [] (h !! t_storage t).

(** The elements of a tensor, in logical order. *)
Definition read_tensor (h : Storages) (t : Tensor) : list Element :=
  (λ p, default unspecified (storage_of h t !! p)) <$> positions t.

Definition write_positions (ps : list nat) (vs : list Element) (s : list Element)
  : list Element :=
  foldl (λ s pv, <[pv.1 := pv.2]> s) s (zip ps vs).

(** Elementwise assignment of [vs] to the elements of [t]. *)
Definition write_tensor (h : Storages) (t : Tensor) (vs : list Element) : Storages :=
  <[t_storage t := write_positions (positions t) vs (storage_of h t)]> h.

(** [dst.copy_(src)]. *)
Definition copy_ (h : Storages) (dst src : Tensor) : Storages :=
  write_tensor h dst (read_tensor h src).

(** [at::native::mul_out(out, self, other)] with [other] a wrapped scalar. *)
Definition mul_out (h : Storages) (out self : Tensor) (other : Scalar) : Storages :=
  write_tensor h out ((λ x, mul_scalar x other) <$> read_tensor h self).

(** [t.div_(n)]. *)
Definition div_ (h : Storages) (t : Tensor) (n : Z) : Storages :=
  write_tensor h t ((λ x, div_scalar x n) <$> read_tensor h t).

(** The number 0, which every format holds. *)
Definition zero : Element := number (SpecFloat.S754_zero false).

(** [t.zero_()]. *)
Definition zero_ (h : Storages) (t : Tensor) : Storages :=
  write_tensor h t (replicate (length (positions t)) zero).

(** [a.is_alias_of(b)]: the two handles share their storage. *)
Definition is_alias_of (a b : Tensor) : bool :=
  bool_decide (t_storage a = t_storage b).

(** [a.options().type_equal(b.options())]: same backend (device type and
    layout) and same scalar type. *)
Definition type_equal (a b : Tensor) : bool :=
  bool_decide (t_dtype a = t_dtype b ∧ t_layout a = t_layout b ∧
               dev_type (t_device a) = dev_type (t_device b)).

(** [contents.as_strided(sizes, strides, storage_offset)]. *)
Definition as_strided (contents : Tensor) (sizes strides : list nat) (offset : nat)
  : Tensor :=
  {| t_storage := t_storage contents; t_offset := offset;
     t_sizes := sizes; t_strides := strides;
     t_dtype := t_dtype contents; t_device := t_device contents;
     t_layout := t_layout contents; t_element_size := t_element_size contents;
     t_non_overlapping_and_dense := true |}.

(** Strides of a row-major contiguous tensor of the given sizes. *)
Fixpoint contiguous_strides (sizes : list nat) : list nat :=
  match sizes with
  | [] => []
  | _ :: sizes' => foldr Nat.mul 1 sizes' :: contiguous_strides sizes'
  end.

(** [contents.narrow(0, offset, length).view(sizes)]. *)
Definition narrow_view (contents : Tensor) (offset : nat) (sizes : list nat) : Tensor :=
  {| t_storage := t_storage contents; t_offset := t_offset contents + offset;
     t_sizes := sizes; t_strides := contiguous_strides sizes;
     t_dtype := t_dtype contents; t_device := t_device contents;
     t_layout := t_layout contents; t_element_size := t_element_size contents;
     t_non_overlapping_and_dense := true |}.

(** [at::TensorOptions], as far as [initialize_buckets] fills it. *)
Record TensorOptions := {
  opt_device : option Device;
  opt_dtype : option ScalarType;
  opt_element_size : Z }.

Definition TensorOptions_new : TensorOptions :=
  {| opt_device := None; opt_dtype := None; opt_element_size := 0 |}.

(** [at::empty({n}, options)]: a fresh storage of [n] elements, whose
    values are unspecified, and a handle on it.
    Options without device or dtype fall back to the library defaults. *)
Definition at_empty (h : Storages) (n : nat) (options : TensorOptions)
  : Tensor * Storages :=
  ({| t_storage := length h; t_offset := 0; t_sizes := [n]; t_strides := [1];
      t_dtype := default Float (opt_dtype options);
      t_device := default {| dev_type := CPU; dev_index := 0 |} (opt_device options);
      t_layout := Strided; t_element_size := opt_element_size options;
      t_non_overlapping_and_dense := true |},
   h ++ [replicate n unspecified]).

(** ** The Reducer: data model *)

(** [struct VariableIndex]. *)
Record VariableIndex := { replica_index : nat; variable_index : nat }.

(** [struct VariableLocator]. *)
Record VariableLocator := { bucket_index : nat; intra_bucket_index : nat }.

Global Instance VariableIndex_eq_dec : EqDecision VariableIndex.
Proof. solve_decision. Defined.
Global Instance VariableLocator_eq_dec : EqDecision VariableLocator.
Proof. solve_decision. Defined.

(** [struct BucketReplica]. [contents] is an undefined tensor ([None]) until
    it is assigned. [variables] holds handles of the parameters in
    [replicas_]: a handle is the parameter's (replica, variable) position,
    so that two handles of one parameter see one gradient. *)
Record BucketReplica := {
  contents : option Tensor;
  bucket_views : list Tensor;
  variables : list VariableIndex;
  offsets : list nat;
  lengths : list nat;
  replica_pending : Z }.

Definition set_contents (v : option Tensor) (r : BucketReplica) : BucketReplica :=
  {| contents := v; bucket_views := bucket_views r; variables := variables r;
     offsets := offsets r; lengths := lengths r;
     replica_pending := replica_pending r |}.

Definition set_bucket_views (v : list Tensor) (r : BucketReplica) : BucketReplica :=
  {| contents := contents r; bucket_views := v; variables := variables r;
     offsets := offsets r; lengths := lengths r;
     replica_pending := replica_pending r |}.

Definition set_replica_pending (v : Z) (r : BucketReplica) : BucketReplica :=
  {| contents := contents r; bucket_views := bucket_views r;
     variables := variables r; offsets := offsets r; lengths := lengths r;
     replica_pending := v |}.

Definition BucketReplica_new : BucketReplica :=
  {| contents := None; bucket_views := []; variables := []; offsets := [];
     lengths := []; replica_pending := 0 |}.

(** [struct Bucket]. [work] and [future_work] are handles: positions in the
    log of collectives. *)
Record Bucket := {
  replicas : list BucketReplica;
  variable_indices : list nat;
  bucket_pending : Z;
  expect_sparse_gradient : bool;
  work : option nat;
  future_work : option nat }.

Definition set_replicas (v : list BucketReplica) (r : Bucket) : Bucket :=
  {| replicas := v; variable_indices := variable_indices r;
     bucket_pending := bucket_pending r;
     expect_sparse_gradient := expect_sparse_gradient r; work := work r;
     future_work := future_work r |}.

Definition set_bucket_pending (v : Z) (r : Bucket) : Bucket :=
  {| replicas := replicas r; variable_indices := variable_indices r;
     bucket_pending := v; expect_sparse_gradient := expect_sparse_gradient r;
     work := work r; future_work := future_work r |}.

Definition set_work (v : option nat) (r : Bucket) : Bucket :=
  {| replicas := replicas r; variable_indices := variable_indices r;
     bucket_pending := bucket_pending r;
     expect_sparse_gradient := expect_sparse_gradient r; work := v;
     future_work := future_work r |}.

Definition set_future_work (v : option nat) (r : Bucket) : Bucket :=
  {| replicas := replicas r; variable_indices := variable_indices r;
     bucket_pending := bucket_pending r;
     expect_sparse_gradient := expect_sparse_gradient r; work := work r;
     future_work := v |}.

(** A call handed to the process group or to the communication hook. The
    bucket position is recorded with the tensors. *)
Inductive Collective :=
| Allreduce (bucket : nat) (tensors : list (option Tensor))
| RunHook (bucket : nat) (tensors : list (option Tensor))
| AllreduceUsedMaps (maps : list (list Z)).

(** [class Reducer], with the part of the world its methods act on:
    - [grads]: the gradient of every parameter ([None] is an undefined
      gradient), read and written through [runGradCallbackForVariable];
    - [storages]: the elements of all tensors;
    - [world_size]: what [process_group_->getSize()] returns;
    - [collectives]: the calls issued so far to the process group and to the
      communication hook, oldest first;
    - [callbacks]: the [finalize_backward] callbacks queued on the autograd
      engine, each with the device whose stream it captured.
    [func_] maps the address of a gradient accumulator to its parameter.
    [comm_hook_] is [None] for [nullptr]. The distributed autograd context
    ([rpc_context_]) is not modelled: gradients live in [grads]. *)
Record Reducer := {
  replicas_ : list (list Tensor);
  expect_sparse_gradients_ : list (list bool);
  buckets_ : list Bucket;
  variable_locators_ : list VariableLocator;
  expect_autograd_hooks_ : bool;
  require_finalize_ : bool;
  next_bucket_ : nat;
  has_marked_unused_parameters_ : bool;
  find_unused_parameters_ : bool;
  unused_parameters_ : list VariableIndex;
  local_used_maps_ : list (list Z);
  local_used_maps_dev_ : list (list Z);
  local_used_work_ : option nat;
  backward_stats_ : list (list Z);
  backward_stats_base_ : Z;
  has_rebuilt_bucket_ : bool;
  rebuilt_params_ : list Tensor;
  rebuilt_param_indices_ : list Z;
  func_ : gmap nat VariableIndex;
  comm_hook_ : option nat;
  world_size : Z;
  grads : list (list (option Tensor));
  storages : Storages;
  collectives : list Collective;
  callbacks : list Device }.

Definition set_buckets_ (v : list Bucket) (r : Reducer) : Reducer :=
  {| replicas_ := replicas_ r;
     expect_sparse_gradients_ := expect_sparse_gradients_ r; buckets_ := v;
     variable_locators_ := variable_locators_ r;
     expect_autograd_hooks_ := expect_autograd_hooks_ r;
     require_finalize_ := require_finalize_ r; next_bucket_ := next_bucket_ r;
     has_marked_unused_parameters_ := has_marked_unused_parameters_ r;
     find_unused_parameters_ := find_unused_parameters_ r;
     unused_parameters_ := unused_parameters_ r;
     local_used_maps_ := local_used_maps_ r;
     local_used_maps_dev_ := local_used_maps_dev_ r;
     local_used_work_ := local_used_work_ r; backward_stats_ := backward_stats_ r;
     backward_stats_base_ := backward_stats_base_ r;
     has_rebuilt_bucket_ := has_rebuilt_bucket_ r;
     rebuilt_params_ := rebuilt_params_ r;
     rebuilt_param_indices_ := rebuilt_param_indices_ r; func_ := func_ r;
     comm_hook_ := comm_hook_ r; world_size := world_size r; grads := grads r;
     storages := storages r; collectives := collectives r; callbacks := callbacks r |}.

Definition set_variable_locators_ (v : list VariableLocator) (r : Reducer) : Reducer :=
  {| replicas_ := replicas_ r;
     expect_sparse_gradients_ := expect_sparse_gradients_ r;
     buckets_ := buckets_ r; variable_locators_ := v;
     expect_autograd_hooks_ := expect_autograd_hooks_ r;
     require_finalize_ := require_finalize_ r; next_bucket_ := next_bucket_ r;
     has_marked_unused_parameters_ := has_marked_unused_parameters_ r;
     find_unused_parameters_ := find_unused_parameters_ r;
     unused_parameters_ := unused_parameters_ r;
     local_used_maps_ := local_used_maps_ r;
     local_used_maps_dev_ := local_used_maps_dev_ r;
     local_used_work_ := local_used_work_ r; backward_stats_ := backward_stats_ r;
     backward_stats_base_ := backward_stats_base_ r;
     has_rebuilt_bucket_ := has_rebuilt_bucket_ r;
     rebuilt_params_ := rebuilt_params_ r;
     rebuilt_param_indices_ := rebuilt_param_indices_ r; func_ := func_ r;
     comm_hook_ := comm_hook_ r; world_size := world_size r; grads := grads r;
     storages := storages r; collectives := collectives r; callbacks := callbacks r |}.

Definition set_expect_autograd_hooks_ (v : bool) (r : Reducer) : Reducer :=
  {| replicas_ := replicas_ r;
     expect_sparse_gradients_ := expect_sparse_gradients_ r;
     buckets_ := buckets_ r; variable_locators_ := variable_locators_ r;
     expect_autograd_hooks_ := v; require_finalize_ := require_finalize_ r;
     next_bucket_ := next_bucket_ r;
     has_marked_unused_parameters_ := has_marked_unused_parameters_ r;
     find_unused_parameters_ := find_unused_parameters_ r;
     unused_parameters_ := unused_parameters_ r;
     local_used_maps_ := local_used_maps_ r;
     local_used_maps_dev_ := local_used_maps_dev_ r;
     local_used_work_ := local_used_work_ r; backward_stats_ := backward_stats_ r;
     backward_stats_base_ := backward_stats_base_ r;
     has_rebuilt_bucket_ := has_rebuilt_bucket_ r;
     rebuilt_params_ := rebuilt_params_ r;
     rebuilt_param_indices_ := rebuilt_param_indices_ r; func_ := func_ r;
     comm_hook_ := comm_hook_ r; world_size := world_size r; grads := grads r;
     storages := storages r; collectives := collectives r; callbacks := callbacks r |}.

Definition set_require_finalize_ (v : bool) (r : Reducer) : Reducer :=
  {| replicas_ := replicas_ r;
     expect_sparse_gradients_ := expect_sparse_gradients_ r;
     buckets_ := buckets_ r; variable_locators_ := variable_locators_ r;
     expect_autograd_hooks_ := expect_autograd_hooks_ r; require_finalize_ := v;
     next_bucket_ := next_bucket_ r;
     has_marked_unused_parameters_ := has_marked_unused_parameters_ r;
     find_unused_parameters_ := find_unused_parameters_ r;
     unused_parameters_ := unused_parameters_ r;
     local_used_maps_ := local_used_maps_ r;
     local_used_maps_dev_ := local_used_maps_dev_ r;
     local_used_work_ := local_used_work_ r; backward_stats_ := backward_stats_ r;
     backward_stats_base_ := backward_stats_base_ r;
     has_rebuilt_bucket_ := has_rebuilt_bucket_ r;
     rebuilt_params_ := rebuilt_params_ r;
     rebuilt_param_indices_ := rebuilt_param_indices_ r; func_ := func_ r;
     comm_hook_ := comm_hook_ r; world_size := world_size r; grads := grads r;
     storages := storages r; collectives := collectives r; callbacks := callbacks r |}.

Definition set_next_bucket_ (v : nat) (r : Reducer) : Reducer :=
  {| replicas_ := replicas_ r;
     expect_sparse_gradients_ := expect_sparse_gradients_ r;
     buckets_ := buckets_ r; variable_locators_ := variable_locators_ r;
     expect_autograd_hooks_ := expect_autograd_hooks_ r;
     require_finalize_ := require_finalize_ r; next_bucket_ := v;
     has_marked_unused_parameters_ := has_marked_unused_parameters_ r;
     find_unused_parameters_ := find_unused_parameters_ r;
     unused_parameters_ := unused_parameters_ r;
     local_used_maps_ := local_used_maps_ r;
     local_used_maps_dev_ := local_used_maps_dev_ r;
     local_used_work_ := local_used_work_ r; backward_stats_ := backward_stats_ r;
     backward_stats_base_ := backward_stats_base_ r;
     has_rebuilt_bucket_ := has_rebuilt_bucket_ r;
     rebuilt_params_ := rebuilt_params_ r;
     rebuilt_param_indices_ := rebuilt_param_indices_ r; func_ := func_ r;
     comm_hook_ := comm_hook_ r; world_size := world_size r; grads := grads r;
     storages := storages r; collectives := collectives r; callbacks := callbacks r |}.

Definition set_has_marked_unused_parameters_ (v : bool) (r : Reducer) : Reducer :=
  {| replicas_ := replicas_ r;
     expect_sparse_gradients_ := expect_sparse_gradients_ r;
     buckets_ := buckets_ r; variable_locators_ := variable_locators_ r;
     expect_autograd_hooks_ := expect_autograd_hooks_ r;
     require_finalize_ := require_finalize_ r; next_bucket_ := next_bucket_ r;
     has_marked_unused_parameters_ := v;
     find_unused_parameters_ := find_unused_parameters_ r;
     unused_parameters_ := unused_parameters_ r;
     local_used_maps_ := local_used_maps_ r;
     local_used_maps_dev_ := local_used_maps_dev_ r;
     local_used_work_ := local_used_work_ r; backward_stats_ := backward_stats_ r;
     backward_stats_base_ := backward_stats_base_ r;
     has_rebuilt_bucket_ := has_rebuilt_bucket_ r;
     rebuilt_params_ := rebuilt_params_ r;
     rebuilt_param_indices_ := rebuilt_param_indices_ r; func_ := func_ r;
     comm_hook_ := comm_hook_ r; world_size := world_size r; grads := grads r;
     storages := storages r; collectives := collectives r; callbacks := callbacks r |}.

Definition set_unused_parameters_ (v : list VariableIndex) (r : Reducer) : Reducer :=
  {| replicas_ := replicas_ r;
     expect_sparse_gradients_ := expect_sparse_gradients_ r;
     buckets_ := buckets_ r; variable_locators_ := variable_locators_ r;
     expect_autograd_hooks_ := expect_autograd_hooks_ r;
     require_finalize_ := require_finalize_ r; next_bucket_ := next_bucket_ r;
     has_marked_unused_parameters_ := has_marked_unused_parameters_ r;
     find_unused_parameters_ := find_unused_parameters_ r; unused_parameters_ := v;
     local_used_maps_ := local_used_maps_ r;
     local_used_maps_dev_ := local_used_maps_dev_ r;
     local_used_work_ := local_used_work_ r; backward_stats_ := backward_stats_ r;
     backward_stats_base_ := backward_stats_base_ r;
     has_rebuilt_bucket_ := has_rebuilt_bucket_ r;
     rebuilt_params_ := rebuilt_params_ r;
     rebuilt_param_indices_ := rebuilt_param_indices_ r; func_ := func_ r;
     comm_hook_ := comm_hook_ r; world_size := world_size r; grads := grads r;
     storages := storages r; collectives := collectives r; callbacks := callbacks r |}.

Definition set_local_used_maps_ (v : list (list Z)) (r : Reducer) : Reducer :=
  {| replicas_ := replicas_ r;
     expect_sparse_gradients_ := expect_sparse_gradients_ r;
     buckets_ := buckets_ r; variable_locators_ := variable_locators_ r;
     expect_autograd_hooks_ := expect_autograd_hooks_ r;
     require_finalize_ := require_finalize_ r; next_bucket_ := next_bucket_ r;
     has_marked_unused_parameters_ := has_marked_unused_parameters_ r;
     find_unused_parameters_ := find_unused_parameters_ r;
     unused_parameters_ := unused_parameters_ r; local_used_maps_ := v;
     local_used_maps_dev_ := local_used_maps_dev_ r;
     local_used_work_ := local_used_work_ r; backward_stats_ := backward_stats_ r;
     backward_stats_base_ := backward_stats_base_ r;
     has_rebuilt_bucket_ := has_rebuilt_bucket_ r;
     rebuilt_params_ := rebuilt_params_ r;
     rebuilt_param_indices_ := rebuilt_param_indices_ r; func_ := func_ r;
     comm_hook_ := comm_hook_ r; world_size := world_size r; grads := grads r;
     storages := storages r; collectives := collectives r; callbacks := callbacks r |}.

Definition set_local_used_maps_dev_ (v : list (list Z)) (r : Reducer) : Reducer :=
  {| replicas_ := replicas_ r;
     expect_sparse_gradients_ := expect_sparse_gradients_ r;
     buckets_ := buckets_ r; variable_locators_ := variable_locators_ r;
     expect_autograd_hooks_ := expect_autograd_hooks_ r;
     require_finalize_ := require_finalize_ r; next_bucket_ := next_bucket_ r;
     has_marked_unused_parameters_ := has_marked_unused_parameters_ r;
     find_unused_parameters_ := find_unused_parameters_ r;
     unused_parameters_ := unused_parameters_ r;
     local_used_maps_ := local_used_maps_ r; local_used_maps_dev_ := v;
     local_used_work_ := local_used_work_ r; backward_stats_ := backward_stats_ r;
     backward_stats_base_ := backward_stats_base_ r;
     has_rebuilt_bucket_ := has_rebuilt_bucket_ r;
     rebuilt_params_ := rebuilt_params_ r;
     rebuilt_param_indices_ := rebuilt_param_indices_ r; func_ := func_ r;
     comm_hook_ := comm_hook_ r; world_size := world_size r; grads := grads r;
     storages := storages r; collectives := collectives r; callbacks := callbacks r |}.

Definition set_local_used_work_ (v : option nat) (r : Reducer) : Reducer :=
  {| replicas_ := replicas_ r;
     expect_sparse_gradients_ := expect_sparse_gradients_ r;
     buckets_ := buckets_ r; variable_locators_ := variable_locators_ r;
     expect_autograd_hooks_ := expect_autograd_hooks_ r;
     require_finalize_ := require_finalize_ r; next_bucket_ := next_bucket_ r;
     has_marked_unused_parameters_ := has_marked_unused_parameters_ r;
     find_unused_parameters_ := find_unused_parameters_ r;
     unused_parameters_ := unused_parameters_ r;
     local_used_maps_ := local_used_maps_ r;
     local_used_maps_dev_ := local_used_maps_dev_ r; local_used_work_ := v;
     backward_stats_ := backward_stats_ r;
     backward_stats_base_ := backward_stats_base_ r;
     has_rebuilt_bucket_ := has_rebuilt_bucket_ r;
     rebuilt_params_ := rebuilt_params_ r;
     rebuilt_param_indices_ := rebuilt_param_indices_ r; func_ := func_ r;
     comm_hook_ := comm_hook_ r; world_size := world_size r; grads := grads r;
     storages := storages r; collectives := collectives r; callbacks := callbacks r |}.

Definition set_backward_stats_ (v : list (list Z)) (r : Reducer) : Reducer :=
  {| replicas_ := replicas_ r;
     expect_sparse_gradients_ := expect_sparse_gradients_ r;
     buckets_ := buckets_ r; variable_locators_ := variable_locators_ r;
     expect_autograd_hooks_ := expect_autograd_hooks_ r;
     require_finalize_ := require_finalize_ r; next_bucket_ := next_bucket_ r;
     has_marked_unused_parameters_ := has_marked_unused_parameters_ r;
     find_unused_parameters_ := find_unused_parameters_ r;
     unused_parameters_ := unused_parameters_ r;
     local_used_maps_ := local_used_maps_ r;
     local_used_maps_dev_ := local_used_maps_dev_ r;
     local_used_work_ := local_used_work_ r; backward_stats_ := v;
     backward_stats_base_ := backward_stats_base_ r;
     has_rebuilt_bucket_ := has_rebuilt_bucket_ r;
     rebuilt_params_ := rebuilt_params_ r;
     rebuilt_param_indices_ := rebuilt_param_indices_ r; func_ := func_ r;
     comm_hook_ := comm_hook_ r; world_size := world_size r; grads := grads r;
     storages := storages r; collectives := collectives r; callbacks := callbacks r |}.

Definition set_backward_stats_base_ (v : Z) (r : Reducer) : Reducer :=
  {| replicas_ := replicas_ r;
     expect_sparse_gradients_ := expect_sparse_gradients_ r;
     buckets_ := buckets_ r; variable_locators_ := variable_locators_ r;
     expect_autograd_hooks_ := expect_autograd_hooks_ r;
     require_finalize_ := require_finalize_ r; next_bucket_ := next_bucket_ r;
     has_marked_unused_parameters_ := has_marked_unused_parameters_ r;
     find_unused_parameters_ := find_unused_parameters_ r;
     unused_parameters_ := unused_parameters_ r;
     local_used_maps_ := local_used_maps_ r;
     local_used_maps_dev_ := local_used_maps_dev_ r;
     local_used_work_ := local_used_work_ r; backward_stats_ := backward_stats_ r;
     backward_stats_base_ := v; has_rebuilt_bucket_ := has_rebuilt_bucket_ r;
     rebuilt_params_ := rebuilt_params_ r;
     rebuilt_param_indices_ := rebuilt_param_indices_ r; func_ := func_ r;
     comm_hook_ := comm_hook_ r; world_size := world_size r; grads := grads r;
     storages := storages r; collectives := collectives r; callbacks := callbacks r |}.

Definition set_rebuilt_params_ (v : list Tensor) (r : Reducer) : Reducer :=
  {| replicas_ := replicas_ r;
     expect_sparse_gradients_ := expect_sparse_gradients_ r;
     buckets_ := buckets_ r; variable_locators_ := variable_locators_ r;
     expect_autograd_hooks_ := expect_autograd_hooks_ r;
     require_finalize_ := require_finalize_ r; next_bucket_ := next_bucket_ r;
     has_marked_unused_parameters_ := has_marked_unused_parameters_ r;
     find_unused_parameters_ := find_unused_parameters_ r;
     unused_parameters_ := unused_parameters_ r;
     local_used_maps_ := local_used_maps_ r;
     local_used_maps_dev_ := local_used_maps_dev_ r;
     local_used_work_ := local_used_work_ r; backward_stats_ := backward_stats_ r;
     backward_stats_base_ := backward_stats_base_ r;
     has_rebuilt_bucket_ := has_rebuilt_bucket_ r; rebuilt_params_ := v;
     rebuilt_param_indices_ := rebuilt_param_indices_ r; func_ := func_ r;
     comm_hook_ := comm_hook_ r; world_size := world_size r; grads := grads r;
     storages := storages r; collectives := collectives r; callbacks := callbacks r |}.

Definition set_rebuilt_param_indices_ (v : list Z) (r : Reducer) : Reducer :=
  {| replicas_ := replicas_ r;
     expect_sparse_gradients_ := expect_sparse_gradients_ r;
     buckets_ := buckets_ r; variable_locators_ := variable_locators_ r;
     expect_autograd_hooks_ := expect_autograd_hooks_ r;
     require_finalize_ := require_finalize_ r; next_bucket_ := next_bucket_ r;
     has_marked_unused_parameters_ := has_marked_unused_parameters_ r;
     find_unused_parameters_ := find_unused_parameters_ r;
     unused_parameters_ := unused_parameters_ r;
     local_used_maps_ := local_used_maps_ r;
     local_used_maps_dev_ := local_used_maps_dev_ r;
     local_used_work_ := local_used_work_ r; backward_stats_ := backward_stats_ r;
     backward_stats_base_ := backward_stats_base_ r;
     has_rebuilt_bucket_ := has_rebuilt_bucket_ r;
     rebuilt_params_ := rebuilt_params_ r; rebuilt_param_indices_ := v;
     func_ := func_ r; comm_hook_ := comm_hook_ r; world_size := world_size r;
     grads := grads r; storages := storages r; collectives := collectives r;
     callbacks := callbacks r |}.

Definition set_grads (v : list (list (option Tensor))) (r : Reducer) : Reducer :=
  {| replicas_ := replicas_ r;
     expect_sparse_gradients_ := expect_sparse_gradients_ r;
     buckets_ := buckets_ r; variable_locators_ := variable_locators_ r;
     expect_autograd_hooks_ := expect_autograd_hooks_ r;
     require_finalize_ := require_finalize_ r; next_bucket_ := next_bucket_ r;
     has_marked_unused_parameters_ := has_marked_unused_parameters_ r;
     find_unused_parameters_ := find_unused_parameters_ r;
     unused_parameters_ := unused_parameters_ r;
     local_used_maps_ := local_used_maps_ r;
     local_used_maps_dev_ := local_used_maps_dev_ r;
     local_used_work_ := local_used_work_ r; backward_stats_ := backward_stats_ r;
     backward_stats_base_ := backward_stats_base_ r;
     has_rebuilt_bucket_ := has_rebuilt_bucket_ r;
     rebuilt_params_ := rebuilt_params_ r;
     rebuilt_param_indices_ := rebuilt_param_indices_ r; func_ := func_ r;
     comm_hook_ := comm_hook_ r; world_size := world_size r; grads := v;
     storages := storages r; collectives := collectives r; callbacks := callbacks r |}.

Definition set_storages (v : Storages) (r : Reducer) : Reducer :=
  {| replicas_ := replicas_ r;
     expect_sparse_gradients_ := expect_sparse_gradients_ r;
     buckets_ := buckets_ r; variable_locators_ := variable_locators_ r;
     expect_autograd_hooks_ := expect_autograd_hooks_ r;
     require_finalize_ := require_finalize_ r; next_bucket_ := next_bucket_ r;
     has_marked_unused_parameters_ := has_marked_unused_parameters_ r;
     find_unused_parameters_ := find_unused_parameters_ r;
     unused_parameters_ := unused_parameters_ r;
     local_used_maps_ := local_used_maps_ r;
     local_used_maps_dev_ := local_used_maps_dev_ r;
     local_used_work_ := local_used_work_ r; backward_stats_ := backward_stats_ r;
     backward_stats_base_ := backward_stats_base_ r;
     has_rebuilt_bucket_ := has_rebuilt_bucket_ r;
     rebuilt_params_ := rebuilt_params_ r;
     rebuilt_param_indices_ := rebuilt_param_indices_ r; func_ := func_ r;
     comm_hook_ := comm_hook_ r; world_size := world_size r; grads := grads r;
     storages := v; collectives := collectives r; callbacks := callbacks r |}.

Definition set_collectives (v : list Collective) (r : Reducer) : Reducer :=
  {| replicas_ := replicas_ r;
     expect_sparse_gradients_ := expect_sparse_gradients_ r;
     buckets_ := buckets_ r; variable_locators_ := variable_locators_ r;
     expect_autograd_hooks_ := expect_autograd_hooks_ r;
     require_finalize_ := require_finalize_ r; next_bucket_ := next_bucket_ r;
     has_marked_unused_parameters_ := has_marked_unused_parameters_ r;
     find_unused_parameters_ := find_unused_parameters_ r;
     unused_parameters_ := unused_parameters_ r;
     local_used_maps_ := local_used_maps_ r;
     local_used_maps_dev_ := local_used_maps_dev_ r;
     local_used_work_ := local_used_work_ r; backward_stats_ := backward_stats_ r;
     backward_stats_base_ := backward_stats_base_ r;
     has_rebuilt_bucket_ := has_rebuilt_bucket_ r;
     rebuilt_params_ := rebuilt_params_ r;
     rebuilt_param_indices_ := rebuilt_param_indices_ r; func_ := func_ r;
     comm_hook_ := comm_hook_ r; world_size := world_size r; grads := grads r;
     storages := storages r; collectives := v; callbacks := callbacks r |}.

Definition set_callbacks (v : list Device) (r : Reducer) : Reducer :=
  {| replicas_ := replicas_ r;
     expect_sparse_gradients_ := expect_sparse_gradients_ r;
     buckets_ := buckets_ r; variable_locators_ := variable_locators_ r;
     expect_autograd_hooks_ := expect_autograd_hooks_ r;
     require_finalize_ := require_finalize_ r; next_bucket_ := next_bucket_ r;
     has_marked_unused_parameters_ := has_marked_unused_parameters_ r;
     find_unused_parameters_ := find_unused_parameters_ r;
     unused_parameters_ := unused_parameters_ r;
     local_used_maps_ := local_used_maps_ r;
     local_used_maps_dev_ := local_used_maps_dev_ r;
     local_used_work_ := local_used_work_ r; backward_stats_ := backward_stats_ r;
     backward_stats_base_ := backward_stats_base_ r;
     has_rebuilt_bucket_ := has_rebuilt_bucket_ r;
     rebuilt_params_ := rebuilt_params_ r;
     rebuilt_param_indices_ := rebuilt_param_indices_ r; func_ := func_ r;
     comm_hook_ := comm_hook_ r; world_size := world_size r; grads := grads r;
     storages := storages r; collectives := collectives r; callbacks := v |}.

Definition set_comm_hook_ (v : option nat) (r : Reducer) : Reducer :=
  {| replicas_ := replicas_ r;
     expect_sparse_gradients_ := expect_sparse_gradients_ r;
     buckets_ := buckets_ r; variable_locators_ := variable_locators_ r;
     expect_autograd_hooks_ := expect_autograd_hooks_ r;
     require_finalize_ := require_finalize_ r; next_bucket_ := next_bucket_ r;
     has_marked_unused_parameters_ := has_marked_unused_parameters_ r;
     find_unused_parameters_ := find_unused_parameters_ r;
     unused_parameters_ := unused_parameters_ r;
     local_used_maps_ := local_used_maps_ r;
     local_used_maps_dev_ := local_used_maps_dev_ r;
     local_used_work_ := local_used_work_ r; backward_stats_ := backward_stats_ r;
     backward_stats_base_ := backward_stats_base_ r;
     has_rebuilt_bucket_ := has_rebuilt_bucket_ r;
     rebuilt_params_ := rebuilt_params_ r;
     rebuilt_param_indices_ := rebuilt_param_indices_ r; func_ := func_ r;
     comm_hook_ := v; world_size := world_size r; grads := grads r;
     storages := storages r; collectives := collectives r; callbacks := callbacks r |}.

Definition set_has_rebuilt_bucket_ (v : bool) (r : Reducer) : Reducer :=
  {| replicas_ := replicas_ r;
     expect_sparse_gradients_ := expect_sparse_gradients_ r;
     buckets_ := buckets_ r; variable_locators_ := variable_locators_ r;
     expect_autograd_hooks_ := expect_autograd_hooks_ r;
     require_finalize_ := require_finalize_ r; next_bucket_ := next_bucket_ r;
     has_marked_unused_parameters_ := has_marked_unused_parameters_ r;
     find_unused_parameters_ := find_unused_parameters_ r;
     unused_parameters_ := unused_parameters_ r;
     local_used_maps_ := local_used_maps_ r;
     local_used_maps_dev_ := local_used_maps_dev_ r;
     local_used_work_ := local_used_work_ r; backward_stats_ := backward_stats_ r;
     backward_stats_base_ := backward_stats_base_ r;
     has_rebuilt_bucket_ := v;
     rebuilt_params_ := rebuilt_params_ r;
     rebuilt_param_indices_ := rebuilt_param_indices_ r; func_ := func_ r;
     comm_hook_ := comm_hook_ r; world_size := world_size r; grads := grads r;
     storages := storages r; collectives := collectives r; callbacks := callbacks r |}.



(** ** The monad of the methods: state of the Reducer, and exceptions *)

Definition M (A : Type) : Type := Reducer → result A * Reducer.

Global Instance M_ret : MRet M := λ A a st, (Ok a, st).

Global Instance M_bind : MBind M := λ A B k m st,
  match m st with
  | (Ok a, st') => k a st'
  | (Err e, st') => (Err e, st')
  end.

Definition get {A} (f : Reducer → A) : M A := λ st, (Ok (f st), st).
Definition modify (f : Reducer → Reducer) : M unit := λ st, (Ok tt, f st).
Definition lift {A} (r : result A) : M A := λ st, (r, st).

Definition TORCH_CHECK (c : bool) (msg : string) : M unit := lift (torch_check c msg).
Definition TORCH_INTERNAL_ASSERT (c : bool) (msg : string) : M unit :=
  lift (internal_assert c msg).

(** A loop over a vector that threads a local value. *)
Fixpoint foldM {A B} (f : A → B → M B) (l : list A) (b : B) : M B :=
  match l with
  | [] => mret b
  | a :: l' => b' ← f a b; foldM f l' b'
  end.

(** A loop over a vector for its effects. *)
Fixpoint for_each {A} (l : list A) (f : A → M unit) : M unit :=
  match l with
  | [] => mret tt
  | a :: l' => f a;; for_each l' f
  end.

(** [replicas_[replica_index][variable_index]]. *)
Definition variable_at (v : VariableIndex) : M Tensor :=
  rs ← get replicas_;
  lift (row ← at_ rs (replica_index v); at_ row (variable_index v)).

(** [Reducer::runGradCallbackForVariable] without a distributed autograd
    context: [cb(variable.mutable_grad())]. The callback receives the
    gradient and returns the gradient it leaves in place. *)
Definition runGradCallbackForVariable (variable : VariableIndex)
    (cb : option Tensor → M (option Tensor)) : M unit :=
  gs ← get grads;
  grad ← lift (row ← at_ gs (replica_index variable); at_ row (variable_index variable));
  grad' ← cb grad;
  modify (λ st, set_grads
    (alter (λ row, <[variable_index variable := grad']> row)
           (replica_index variable) (grads st)) st).

(** ** BucketStore *)

(** The body of the loop of [Reducer::initialize_bucket_views]. [narrow]
    checks its range and [view] the number of elements. *)
Definition initialize_bucket_view (contents : Tensor) (copy_to_bucket_view : bool)
    (i : nat) (replica : BucketReplica) : M BucketReplica :=
  v ← lift (at_ (variables replica) i);
  vt ← variable_at v;
  offset ← lift (at_ (offsets replica) i);
  length ← lift (at_ (lengths replica) i);
  bucket_view ←
    (if t_non_overlapping_and_dense vt then
       mret (as_strided contents (t_sizes vt) (t_strides vt) offset)
     else
       TORCH_CHECK (bool_decide (offset + length ≤ numel contents))
         "start + length exceeds dimension size.";;
       TORCH_CHECK (bool_decide (numel vt = length))
         "shape is invalid for input size.";;
       mret (narrow_view contents offset (t_sizes vt)));
  runGradCallbackForVariable v (λ grad,
    match grad with
    | Some g =>
        if negb (is_alias_of g bucket_view) then
          (if copy_to_bucket_view then
             modify (λ st, set_storages (copy_ (storages st) bucket_view g) st)
           else mret tt);;
          mret (Some bucket_view)
        else mret grad
    | None => mret grad
    end);;
  mret (set_bucket_views (bucket_views replica ++ [bucket_view]) replica).

(** [Reducer::initialize_bucket_views]. *)
Definition initialize_bucket_views (replica : BucketReplica) (contents : Tensor)
    (copy_to_bucket_view : bool) : M BucketReplica :=
  foldM (initialize_bucket_view contents copy_to_bucket_view)
        (seq 0 (length (variables replica))) replica.

(** The locals of the loop over the variables of a dense bucket replica. *)
Record DenseLayout := {
  dl_options : TensorOptions;
  dl_offset : nat;
  dl_replica : BucketReplica }.

(** The body of "Iterate over bucket variables". *)
Definition layout_variable (replica_index : nat) (variable_index : nat)
    (l : DenseLayout) : M DenseLayout :=
  rs ← get replicas_;
  row ← lift (at_ rs replica_index);
  TORCH_CHECK (bool_decide (variable_index < length row))
    "Out of range variable index specified.";;
  variable ← lift (at_ row variable_index);
  let options := dl_options l in
  device ←
    match opt_device options with
    | None => mret (Some (t_device variable))
    | Some d =>
        TORCH_CHECK (bool_decide (t_device variable = d))
          "All parameters in a bucket must be placed on the same device.";;
        mret (Some d)
    end;
  dtype ←
    match opt_dtype options with
    | None => mret (Some (t_dtype variable), t_element_size variable)
    | Some d =>
        TORCH_CHECK (bool_decide (t_dtype variable = d))
          "All parameters in a bucket must have the same dtype.";;
        mret (Some d, opt_element_size options)
    end;
  let length := numel variable in
  let replica := dl_replica l in
  mret {| dl_options := {| opt_device := device; opt_dtype := dtype.1;
                           opt_element_size := dtype.2 |};
          dl_offset := dl_offset l + length;
          dl_replica :=
            {| contents := contents replica;
               bucket_views := bucket_views replica;
               variables := variables replica ++
                 [{| replica_index := replica_index; variable_index := variable_index |}];
               offsets := offsets replica ++ [dl_offset l];
               lengths := lengths replica ++ [length];
               replica_pending := replica_pending replica |} |}.

(** The body of "Iterate over model replicas": one [BucketReplica]. *)
Definition initialize_replica (sparse : bool) (indices : list nat)
    (replica_index : nat) : M BucketReplica :=
  if sparse then
    variable_index ← lift (at_ indices 0);
    _ ← variable_at {| replica_index := replica_index; variable_index := variable_index |};
    TORCH_INTERNAL_ASSERT (bool_decide (length indices = 1))
      "bucket_indices[bucket_index].size() == 1";;
    mret {| contents := None; bucket_views := [];
            variables := [{| replica_index := replica_index;
                             variable_index := variable_index |}];
            offsets := []; lengths := []; replica_pending := 0 |}
  else
    l ← foldM (layout_variable replica_index) indices
          {| dl_options := TensorOptions_new; dl_offset := 0;
             dl_replica := BucketReplica_new |};
    h ← get storages;
    let '(contents, h') := at_empty h (dl_offset l) (dl_options l) in
    modify (set_storages h');;
    initialize_bucket_views (set_contents (Some contents) (dl_replica l)) contents true.

(** "Variables that expect sparse gradients must have their own bucket." *)
Definition bucket_expects_sparse (indices : list nat) : M bool :=
  flags ← get expect_sparse_gradients_;
  flags0 ← lift (at_ flags 0);
  match indices with
  | [variable_index] => lift (at_ flags0 variable_index)
  | _ =>
      for_each indices (λ variable_index,
        flag ← lift (at_ flags0 variable_index);
        TORCH_CHECK (negb flag)
          "Buckets with more than one variable cannot include variables that expect a sparse gradient.");;
      mret false
  end.

(** "Map participating variables to this bucket." *)
Definition map_variables (bucket_index : nat) (indices : list nat) : M unit :=
  _ ← foldM (λ variable_index intra_bucket_index,
         n ← get (λ st, length (variable_locators_ st));
         TORCH_CHECK (bool_decide (variable_index < n))
           "Out of range variable index specified.";;
         modify (λ st, set_variable_locators_
           (<[variable_index := {| bucket_index := bucket_index;
                                   intra_bucket_index := intra_bucket_index |}]>
              (variable_locators_ st)) st);;
         mret (S intra_bucket_index))
       indices 0;
  mret tt.

(** The body of "Iterate over buckets". *)
Definition initialize_bucket (bucket_index : nat) (indices : list nat) : M unit :=
  TORCH_CHECK (bool_decide (0 < length indices)) "Empty bucket specified.";;
  sparse ← bucket_expects_sparse indices;
  replica_count ← get (λ st, length (replicas_ st));
  replicas ← foldM (λ replica_index replicas,
                replica ← initialize_replica sparse indices replica_index;
                mret (replicas ++ [replica]))
              (seq 0 replica_count) [];
  map_variables bucket_index indices;;
  modify (λ st, set_buckets_
    (buckets_ st ++
       [{| replicas := replicas; variable_indices := indices; bucket_pending := 0;
           expect_sparse_gradient := sparse; work := None; future_work := None |}])
    st).

(** [Reducer::initialize_buckets]. *)
Definition initialize_buckets (bucket_indices : list (list nat)) : M unit :=
  hooks ← get expect_autograd_hooks_;
  TORCH_CHECK (negb hooks)
    "`initialize_buckets` must NOT be called during autograd execution.";;
  modify (set_buckets_ []);;
  rs ← get replicas_;
  replica0 ← lift (at_ rs 0);
  modify (set_variable_locators_
    (replicate (length replica0) {| bucket_index := 0; intra_bucket_index := 0 |}));;
  for_each (imap (λ i indices, (i, indices)) bucket_indices)
    (λ p, initialize_bucket p.1 p.2).
(** ** ReadinessTracker *)

(** The autograd graph, as [prepare_for_backward] sees it: nodes are
    addresses; [next_edges] gives, for a node, the functions of its edges
    ([None] for an edge without function). *)
Abbreviation Graph := (gmap nat (list (option nat))).

Definition next_edges (g : Graph) (fn : nat) : list (option nat) :=
  default [] (g !! fn).

(** The loop over [fn->next_edges()]. The queue is a stack: its back is the
    head of the list. *)
Definition visit_edges (edges : list (option nat)) (seen : gset nat) (queue : list nat)
  : gset nat * list nat :=
  foldl (λ sq edge,
           match edge with
           | Some next_ptr =>
               if decide (next_ptr ∈ sq.1) then sq
               else ({[next_ptr]} ∪ sq.1, next_ptr :: sq.2)
           | None => sq
           end)
        (seen, queue) edges.

(** "Traverse the autograd graph starting at the specified output."
    [None] when the fuel runs out before the queue is empty. *)
Fixpoint traverse (fuel : nat) (g : Graph) (seen : gset nat) (queue : list nat)
  : option (gset nat) :=
  match fuel with
  | 0 => None
  | S fuel' =>
      match queue with
      | [] => Some seen
      | fn :: queue' =>
          let '(seen', queue'') := visit_edges (next_edges g fn) seen queue' in
          traverse fuel' g seen' queue''
      end
  end.

(** All nodes that some edge of the graph leads to. *)
Definition edge_targets (g : Graph) : gset nat :=
  list_to_set (omap id (concat (snd <$> map_to_list g))).

(** Fuel that suffices for every traversal of [g] (lemma [traverse_fuel]). *)
Definition traverse_bound (g : Graph) (queue : list nat) : nat :=
  S (length queue + size (edge_targets g)).

(** Iteration over an unordered map with any key type, by ascending [rank]. *)
Definition unordered_items {K} `{Countable K} {V} (rank : K → nat) (m : gmap K V)
  : list (K * V) :=
  omap (λ k, (k,.) <$> m !! k) (merge_sort (rank_le rank) (elements (dom m))).

(** "Find accumulator functions that don't show up in this graph." *)
Definition unused_in_graph (rank : nat → nat) (func : gmap nat VariableIndex)
    (seen : gset nat) : list VariableIndex :=
  snd <$> filter (λ it, it.1 ∉ seen) (unordered_items rank func).

Definition reset_replica (replica : BucketReplica) : BucketReplica :=
  set_replica_pending (Z.of_nat (length (variables replica))) replica.

Definition reset_bucket (bucket : Bucket) : Bucket :=
  set_bucket_pending (Z.of_nat (length (replicas bucket)))
    (set_replicas (reset_replica <$> replicas bucket) bucket).

(** [Reducer::prepare_for_backward]. [outputs] holds the [grad_fn] of every
    output ([None] when it has none), [now] is the reading of the clock and
    [rank] fixes the iteration order over [func_]. *)
Definition prepare_for_backward (rank : nat → nat) (g : Graph)
    (outputs : list (option nat)) (now : Z) : M unit :=
  require_finalize ← get require_finalize_;
  TORCH_CHECK (negb require_finalize)
    "Expected to have finished reduction in the prior iteration before starting a new one.";;
  modify (set_expect_autograd_hooks_ true);;
  modify (set_next_bucket_ 0);;
  modify (set_backward_stats_base_ now);;
  modify (λ st, set_buckets_ (reset_bucket <$> buckets_ st) st);;
  modify (set_has_marked_unused_parameters_ false);;
  modify (set_unused_parameters_ []);;
  find_unused ← get find_unused_parameters_;
  if negb find_unused then mret tt
  else
    let queue := reverse (omap id outputs) in
    match traverse (traverse_bound g queue) g ∅ queue with
    | None => lift (Err (InternalAssert "graph traversal does not terminate"))
    | Some seen =>
        modify (λ st, set_unused_parameters_
          (unused_parameters_ st ++ unused_in_graph rank (func_ st) seen) st)
    end.

Definition get_bucket (bucket_index : nat) : M Bucket :=
  bs ← get buckets_; lift (at_ bs bucket_index).

Definition get_replica (bucket_index replica_index : nat) : M BucketReplica :=
  bucket ← get_bucket bucket_index; lift (at_ (replicas bucket) replica_index).

Definition update_bucket (bucket_index : nat) (f : Bucket → Bucket) : M unit :=
  modify (λ st, set_buckets_ (alter f bucket_index (buckets_ st)) st).

Definition update_replica (bucket_index replica_index : nat)
    (f : BucketReplica → BucketReplica) : M unit :=
  update_bucket bucket_index
    (λ b, set_replicas (alter f replica_index (replicas b)) b).

(** [double(1.) / process_group_->getSize()], the wrapped scalar. *)
Definition reciprocal_world_size (st : Reducer) : Scalar := reciprocal (world_size st).

(** [Reducer::mark_variable_ready_dense]. *)
Definition mark_variable_ready_dense (index : VariableIndex) : M unit :=
  locators ← get variable_locators_;
  locator ← lift (at_ locators (variable_index index));
  replica ← get_replica (bucket_index locator) (replica_index index);
  variable ← lift (at_ (variables replica) (intra_bucket_index locator));
  _ ← lift (at_ (offsets replica) (intra_bucket_index locator));
  _ ← lift (at_ (lengths replica) (intra_bucket_index locator));
  bucket_view ← lift (at_ (bucket_views replica) (intra_bucket_index locator));
  hook ← get comm_hook_;
  runGradCallbackForVariable variable (λ grad,
    match grad with
    | Some g =>
        if negb (is_alias_of g bucket_view) then
          TORCH_CHECK (type_equal g bucket_view) "Expected the type of the bucket view.";;
          TORCH_INTERNAL_ASSERT (bool_decide (t_device g = t_device bucket_view))
            "grad.device() == bucket_view.device()";;
          TORCH_INTERNAL_ASSERT (bool_decide (numel g = numel bucket_view))
            "grad.numel() == bucket_view.numel()";;
          (match hook with
           | None =>
               modify (λ st, set_storages
                 (mul_out (storages st) bucket_view g (reciprocal_world_size st)) st)
           | Some _ =>
               modify (λ st, set_storages (copy_ (storages st) bucket_view g) st)
           end);;
          mret (Some bucket_view)
        else
          (match hook with
           | None =>
               modify (λ st, set_storages
                 (div_ (storages st) bucket_view (world_size st)) st)
           | Some _ => mret tt
           end);;
          mret grad
    | None =>
        modify (λ st, set_storages (zero_ (storages st) bucket_view) st);;
        mret grad
    end).

(** [Reducer::mark_variable_ready_sparse]. *)
Definition mark_variable_ready_sparse (index : VariableIndex) : M unit :=
  locators ← get variable_locators_;
  locator ← lift (at_ locators (variable_index index));
  replica ← get_replica (bucket_index locator) (replica_index index);
  variable ← lift (at_ (variables replica) (intra_bucket_index locator));
  hook ← get comm_hook_;
  runGradCallbackForVariable variable (λ grad,
    TORCH_CHECK (bool_decide (is_Some grad)) "Expected sparse gradient to be defined.";;
    match grad with
    | Some g =>
        TORCH_CHECK (bool_decide (t_layout g = Sparse))
          "Expected variable to have sparse gradient.";;
        update_replica (bucket_index locator) (replica_index index)
          (set_contents (Some g));;
        (match hook with
         | None => modify (λ st, set_storages (div_ (storages st) g (world_size st)) st)
         | Some _ => mret tt
         end);;
        mret grad
    | None => mret grad
    end).

(** One turn of the loop of [mark_bucket_ready]: kick off the reduction of
    bucket [next_bucket_]. *)
Definition launch_next_bucket (bucket : Bucket) : M unit :=
  next ← get next_bucket_;
  let tensors := contents <$> replicas bucket in
  hook ← get comm_hook_;
  log ← get collectives;
  (match hook with
   | None =>
       modify (λ st, set_collectives (log ++ [Allreduce next tensors]) st);;
       update_bucket next (set_work (Some (length log)))
   | Some _ =>
       modify (λ st, set_collectives (log ++ [RunHook next tensors]) st);;
       update_bucket next (set_future_work (Some (length log)))
   end);;
  modify (set_next_bucket_ (S next)).

(** The loop of [mark_bucket_ready]. Every turn advances [next_bucket_], so
    [buckets_.size() - next_bucket_] turns are enough: with no fuel left
    the loop condition [next_bucket_ < buckets_.size()] is false. *)
Fixpoint mark_bucket_ready_loop (fuel : nat) : M unit :=
  match fuel with
  | 0 => mret tt
  | S fuel' =>
      next ← get next_bucket_;
      bs ← get buckets_;
      match bs !! next with
      | Some bucket =>
          if (bucket_pending bucket =? 0)%Z then
            launch_next_bucket bucket;; mark_bucket_ready_loop fuel'
          else mret tt
      | None => mret tt
      end
  end.

(** [Reducer::mark_bucket_ready]. *)
Definition mark_bucket_ready (bucket_index : nat) : M unit :=
  next ← get next_bucket_;
  TORCH_INTERNAL_ASSERT (bool_decide (next ≤ bucket_index)) "bucket_index >= next_bucket_";;
  if bool_decide (next < bucket_index) then mret tt
  else
    n ← get (λ st, length (buckets_ st));
    mark_bucket_ready_loop (n - next).

Definition common_error : string :=
  "Expected to mark a variable ready only once. This error is caused by one of the following reasons: 1) Use of a module parameter outside the `forward` function. 2) Reused parameters in multiple reentrant backward passes. ".

(** "Run finalizer function and kick off reduction for local_used_maps once
    the final bucket was marked ready." *)
Definition queue_finalize (bucket_index replica_index : nat) : M unit :=
  find_unused ← get find_unused_parameters_;
  (if (find_unused : bool) then
     maps ← get local_used_maps_;
     for_each (imap (λ i m, (i, m)) maps) (λ p,
       dev ← get local_used_maps_dev_;
       _ ← lift (at_ dev p.1);
       modify (set_local_used_maps_dev_ (<[p.1 := p.2]> dev)));;
     dev ← get local_used_maps_dev_;
     log ← get collectives;
     modify (set_collectives (log ++ [AllreduceUsedMaps dev]));;
     modify (set_local_used_work_ (Some (length log)))
   else mret tt);;
  replica ← get_replica bucket_index replica_index;
  match contents replica with
  | Some t => modify (λ st, set_callbacks (callbacks st ++ [t_device t]) st)
  | None => lift (Err (InternalAssert "tensor does not have a device"))
  end.

(** The block of [mark_variable_ready] under "Check if this was the final
    gradient for this bucket": [--replica.pending], then [--bucket.pending]
    when the replica is complete, then [mark_bucket_ready] when the bucket
    is. *)
Definition decrement_pending (bucket_index replica_index : nat) : M unit :=
  update_replica bucket_index replica_index
    (λ r, set_replica_pending (size_t_dec (replica_pending r)) r);;
  replica ← get_replica bucket_index replica_index;
  if (replica_pending replica =? 0)%Z then
    update_bucket bucket_index
      (λ b, set_bucket_pending (size_t_dec (bucket_pending b)) b);;
    bucket ← get_bucket bucket_index;
    if (bucket_pending bucket =? 0)%Z then mark_bucket_ready bucket_index
    else mret tt
  else mret tt.

(** [Reducer::mark_variable_ready]. [now] is the reading of the clock. *)
Definition mark_variable_ready (now : Z) (index : VariableIndex) : M unit :=
  let replica_index := replica_index index in
  let variable_index := variable_index index in
  replica_count ← get (λ st, length (replicas_ st));
  TORCH_CHECK (bool_decide (replica_index < replica_count)) "Out of range replica index.";;
  locator_count ← get (λ st, length (variable_locators_ st));
  TORCH_CHECK (bool_decide (variable_index < locator_count)) "Out of range variable index.";;
  stats ← get backward_stats_;
  row ← lift (at_ stats replica_index);
  _ ← lift (at_ row variable_index);
  modify (λ st, set_backward_stats_
    (<[replica_index := <[variable_index := (now - backward_stats_base_ st)%Z]> row]> stats)
    st);;
  modify (set_require_finalize_ true);;
  locators ← get variable_locators_;
  locator ← lift (at_ locators variable_index);
  bucket ← get_bucket (bucket_index locator);
  replica ← lift (at_ (replicas bucket) replica_index);
  (if (replica_pending replica =? 0)%Z then
     marked ← get has_marked_unused_parameters_;
     TORCH_CHECK marked
       (common_error ++ "3) Incorrect unused parameter detection.");;
     TORCH_CHECK (negb marked) common_error
   else mret tt);;
  (if expect_sparse_gradient bucket then mark_variable_ready_sparse index
   else mark_variable_ready_dense index);;
  decrement_pending (bucket_index locator) replica_index;;
  next ← get next_bucket_;
  n ← get (λ st, length (buckets_ st));
  if bool_decide (next = n) then queue_finalize (bucket_index locator) replica_index
  else mret tt.

(** [Reducer::autograd_hook]. *)
Definition autograd_hook (now : Z) (index : VariableIndex) : M unit :=
  find_unused ← get find_unused_parameters_;
  (if (find_unused : bool) then
     maps ← get local_used_maps_;
     row ← lift (at_ maps (replica_index index));
     _ ← lift (at_ row (variable_index index));
     modify (set_local_used_maps_
       (<[replica_index index := <[variable_index index := 1%Z]> row]> maps))
   else mret tt);;
  hooks ← get expect_autograd_hooks_;
  if negb hooks then mret tt
  else
    rebuilt ← get has_rebuilt_bucket_;
    (if negb rebuilt && negb find_unused && bool_decide (replica_index index = 0) then
       t ← variable_at index;
       modify (λ st, set_rebuilt_params_ (rebuilt_params_ st ++ [t]) st);;
       modify (λ st, set_rebuilt_param_indices_
         (rebuilt_param_indices_ st ++ [Z.of_nat (variable_index index)]) st)
     else mret tt);;
    marked ← get has_marked_unused_parameters_;
    (if negb marked && find_unused then
       modify (set_has_marked_unused_parameters_ true);;
       unused ← get unused_parameters_;
       for_each unused (mark_variable_ready now)
     else mret tt);;
    mark_variable_ready now index.
(** ** CrossProcessVerifier: [sync_bucket_indices] *)

(** In this function the indices are data that is narrowed to 32 bits and
    widened again, so they are [Z] ([size_t] values) here. *)

(** Conversion of an [int] to [size_t] (sign extension). *)
Definition int32_to_size_t (z : Z) : Z := to_size_t z.

(** [bucket_sizes], the vector of the lengths of the buckets. *)
Definition bucket_sizes (bucket_indices : list (list Z)) : list Z :=
  (λ b, Z.of_nat (length b)) <$> bucket_indices.

(** [indices_accessor_Index++]: the position counter is an [int]
    ([auto indices_accessor_Index = 0]); an increment past 2^31 - 1 wraps
    around. *)
Definition int_next (i : Z) : Z := to_int32 (i + 1).

(** [accessor[i]] of a [TensorAccessor<int, 1>] for an [int] position: a
    read or a write outside the tensor is [OutOfRange]; a value written is
    converted to [int]. *)
Definition accessor_get (t : list Z) (i : Z) : result Z :=
  if (i <? 0)%Z then Err OutOfRange else at_ t (Z.to_nat i).

Definition accessor_set (t : list Z) (i : Z) (v : Z) : result (list Z) :=
  if (i <? 0)%Z then Err OutOfRange
  else _ ← at_ t (Z.to_nat i); Ok (<[Z.to_nat i := to_int32 v]> t).

(** The inner loop of "Group indices and num_bucket together into
    indices_tensor", on the tensor and the position counter. *)
Fixpoint write_bucket (bucket : list Z) (p : list Z * Z) : result (list Z * Z) :=
  match bucket with
  | [] => Ok p
  | x :: rest =>
      t ← accessor_set p.1 p.2 x;
      write_bucket rest (t, int_next p.2)
  end.

(** The outer loop. *)
Fixpoint write_buckets (bucket_indices : list (list Z)) (p : list Z * Z)
  : result (list Z * Z) :=
  match bucket_indices with
  | [] => Ok p
  | bucket :: rest => p' ← write_bucket bucket p; write_buckets rest p'
  end.

(** "Group indices and num_bucket together into indices_tensor": the tensor
    of [total_size + 1] elements ([at::empty]; the model starts from zeros)
    after the loops and the write of [num_buckets], with the final value of
    the position counter. *)
Definition pack_indices (bucket_indices : list (list Z)) : result (list Z * Z) :=
  let total_size := length (concat bucket_indices) in
  p ← write_buckets bucket_indices (replicate (total_size + 1) 0%Z, 0%Z);
  t ← accessor_set p.1 p.2 (Z.of_nat (length bucket_indices));
  Ok (t, p.2).

(** The tensor [pack_indices] builds while the position counter stays in
    range (lemma [pack_indices_fits]). *)
Definition indices_tensor (bucket_indices : list (list Z)) : list Z :=
  (to_int32 <$> concat bucket_indices) ++
  [to_int32 (Z.of_nat (length bucket_indices))].

(** The tensor of bucket sizes a rank hands to the second broadcast:
    [bucket_sizes.at(std::min(i, bucket_sizes.size() - 1))] for every
    [i < num_buckets], where [bucket_sizes.size() - 1] wraps around when
    the rank has no bucket. *)
Definition bucket_sizes_tensor (bucket_sizes : list Z) (num_buckets : Z)
  : result (list Z) :=
  _ ← torch_check (num_buckets <? 2 ^ 63)%Z
        "Trying to create tensor with negative dimension";
  let last := to_size_t (Z.of_nat (length bucket_sizes) - 1) in
  foldr (λ i acc,
           tail ← acc;
           size ← at_ bucket_sizes (Z.to_nat (Z.min (Z.of_nat i) last));
           Ok (to_int32 size :: tail))
        (Ok []) (seq 0 (Z.to_nat num_buckets)).

(** The inner loop of the reconstruction: [count] reads of
    [indices_accessor] at the position counter, each converted from [int]
    to [size_t]; the bucket read and the counter after it. *)
Fixpoint read_bucket (count : nat) (indices : list Z) (idx : Z)
  : result (list Z * Z) :=
  match count with
  | 0 => Ok ([], idx)
  | S count' =>
      x ← accessor_get indices idx;
      rest ← read_bucket count' indices (int_next idx);
      Ok (int32_to_size_t x :: rest.1, rest.2)
  end.

(** The outer loop of the reconstruction, over the bucket positions
    [range]. The loop counter [j] is a [size_t], so the [int] [bucket_size]
    is converted to [size_t] for the comparison [j < bucket_size]. *)
Fixpoint reconstruct_buckets (sizes indices : list Z) (idx : Z) (range : list nat)
  : result (list (list Z)) :=
  match range with
  | [] => Ok []
  | i :: rest =>
      bucket_size ← at_ sizes i;
      bucket ← read_bucket (Z.to_nat (int32_to_size_t bucket_size)) indices idx;
      tail ← reconstruct_buckets sizes indices bucket.2 rest;
      Ok (bucket.1 :: tail)
  end.

(** [Reducer::sync_bucket_indices]. The two broadcasts are parameters: each
    maps the tensor the rank holds before the call to the tensor it holds
    after it (on rank 0 the same tensor, elsewhere the tensor of rank 0). *)
Definition sync_bucket_indices (broadcast_indices broadcast_sizes : list Z → list Z)
    (bucket_indices : list (list Z)) : result (list (list Z)) :=
  let bucket_sizes := bucket_sizes bucket_indices in
  packed ← pack_indices bucket_indices;
  let indices_tensor := broadcast_indices packed.1 in
  trailer ← accessor_get indices_tensor packed.2;
  let num_buckets := int32_to_size_t trailer in
  sizes_tensor ← bucket_sizes_tensor bucket_sizes num_buckets;
  let sizes_tensor := broadcast_sizes sizes_tensor in
  reconstruct_buckets sizes_tensor indices_tensor 0%Z (seq 0 (Z.to_nat num_buckets)).

(** The broadcast as rank 0 sees it, and as another rank sees it when rank 0
    holds [root]. *)
Definition broadcast_at_root (local : list Z) : list Z := local.
Definition broadcast_from (root : list Z) (local : list Z) : list Z := root.

(** The values a rank writes into the [int] tensors fit in an [int], and
    so does the position counter: there are fewer than 2^31 indices. *)
Definition fits_int32 (bucket_indices : list (list Z)) : Prop :=
  (Z.of_nat (length (concat bucket_indices)) < 2 ^ 31)%Z ∧
  (Z.of_nat (length bucket_indices) < 2 ^ 31)%Z ∧
  Forall (λ b, (Z.of_nat (length b) < 2 ^ 31)%Z ∧
               Forall (λ x, (0 ≤ x < 2 ^ 31)%Z) b) bucket_indices.

(** ** Construction and configuration *)

(** [Reducer::register_comm_hook]; the hook is identified by a number. *)
Definition register_comm_hook (iface : nat) : M unit :=
  hook ← get comm_hook_;
  TORCH_CHECK (bool_decide (hook = None)) "register_comm_hook can only be called once.";;
  replica_count ← get (λ st, length (replicas_ st));
  TORCH_CHECK (bool_decide (replica_count = 1))
    "Communication hook does not support single-process multiple-device mode.";;
  modify (set_comm_hook_ (Some iface)).

(** [Reducer::verify_replicas_within_process]. [requires_grad] tells, for a
    replica and a variable index, what [requires_grad()] of the parameter
    returns. *)
Definition verify_replicas_within_process (requires_grad : nat → nat → bool) : M unit :=
  rs ← get replicas_;
  flags ← get expect_sparse_gradients_;
  for_each (seq 0 (length rs)) (λ replica_index,
    row ← lift (at_ rs replica_index);
    row0 ← lift (at_ rs 0);
    TORCH_CHECK (bool_decide (length row = length row0))
      "Model replicas must have an equal number of parameters.";;
    frow ← lift (at_ flags replica_index);
    frow0 ← lift (at_ flags 0);
    TORCH_CHECK (bool_decide (length frow = length frow0))
      "Expected number of entries in expect_sparse_gradients to be equal across replicas.";;
    for_each (seq 0 (length row)) (λ variable_index,
      v ← lift (at_ row variable_index);
      TORCH_CHECK (requires_grad replica_index variable_index)
        "Variables must require gradients (have `requires_grad` set).";;
      v0 ← lift (at_ row0 variable_index);
      TORCH_CHECK (bool_decide (t_sizes v = t_sizes v0))
        "Variables across model replicas must have identical sizes.";;
      TORCH_CHECK (bool_decide (t_strides v = t_strides v0))
        "Variables across model replicas must have identical strides.";;
      TORCH_CHECK (bool_decide (t_dtype v = t_dtype v0))
        "Variables across model replicas must have identical dtype.";;
      f ← lift (at_ frow variable_index);
      f0 ← lift (at_ frow0 variable_index);
      TORCH_CHECK (bool_decide (f = f0))
        "Expected the same variables across replicas to either both or neither expect a sparse gradient.")).

(** The sizes and strides of the parameters of replica 0, as
    [verify_replica0_across_processes] writes them into [metadata]. *)
Definition replica0_metadata (row0 : list Tensor) : list Z :=
  concat ((λ t, (Z.of_nat <$> t_sizes t) ++ (Z.of_nat <$> t_strides t)) <$> row0).

(** The comparison of one value with [control_accessor[i++]]. *)
Definition check_control (control : list Z) (what : string) (value : nat) (i : nat)
  : result nat :=
  c ← at_ control i;
  _ ← torch_check (bool_decide (Z.of_nat value = c)) what;
  Ok (S i).

Fixpoint check_values (control : list Z) (what : string) (values : list nat) (i : nat)
  : result nat :=
  match values with
  | [] => Ok i
  | value :: rest => i' ← check_control control what value i; check_values control what rest i'
  end.

(** The last loop of [verify_replica0_across_processes], over the
    parameters of replica 0. *)
Fixpoint check_replica0 (control : list Z) (row0 : list Tensor) (i : nat) : result nat :=
  match row0 with
  | [] => Ok i
  | t :: rest =>
      i ← check_values control
            "appears not to match sizes of the same param in process 0." (t_sizes t) i;
      i ← check_values control
            "appears not to match strides of the same param in process 0." (t_strides t) i;
      check_replica0 control rest i
  end.

(** [Reducer::verify_replica0_across_processes]. [broadcast] maps the
    metadata tensor the process holds to the tensor it holds after the
    broadcast. [metadata] has [2 * t.dim()] entries per parameter; a write
    or a read outside a tensor is [OutOfRange], and [control.copy_] throws
    when the received tensor has another size. *)
Definition verify_replica0_across_processes (broadcast : list Z → list Z) : M unit :=
  rs ← get replicas_;
  row0 ← lift (at_ rs 0);
  let size := sum_list ((λ t, 2 * length (t_sizes t)) <$> row0) in
  let metadata := replica0_metadata row0 in
  lift (if bool_decide (length metadata = size) then Ok tt else Err OutOfRange);;
  _ ← lift (at_ row0 0);
  let received := broadcast metadata in
  TORCH_CHECK (bool_decide (length received = size))
    "The size of tensor a must match the size of tensor b";;
  _ ← lift (check_replica0 received row0 0);
  mret tt.

(** ** Well-formed states *)

(** The pending counter of a replica of a bucket, and of a bucket. *)
Definition replica_pending_at (st : Reducer) (b r : nat) : Z :=
  default 0%Z (bkt ← buckets_ st !! b; rep ← replicas bkt !! r; Some (replica_pending rep)).


(** The buckets whose reduction has been kicked off, oldest first. *)
Definition launched (st : Reducer) : list nat :=
  omap (λ c, match c with
             | Allreduce b _ | RunHook b _ => Some b
             | AllreduceUsedMaps _ => None
             end) (collectives st).

(** The layout [initialize_buckets] leaves behind when the bucket indices
    are a partition of the parameters. *)
Record layout_ok (st : Reducer) : Prop := {
  lo_replicas : 0 < length (replicas_ st);
  lo_rows : Forall (λ row, length row = length (variable_locators_ st)) (replicas_ st);
  lo_stats : length (backward_stats_ st) = length (replicas_ st) ∧
             Forall (λ row, length row = length (variable_locators_ st))
                    (backward_stats_ st);
  lo_grads : length (grads st) = length (replicas_ st) ∧
             Forall (λ row, length row = length (variable_locators_ st)) (grads st);
  lo_partition : concat (variable_indices <$> buckets_ st)
                   ≡ₚ seq 0 (length (variable_locators_ st));
  lo_locators : ∀ v loc, variable_locators_ st !! v = Some loc →
      ∃ bkt, buckets_ st !! bucket_index loc = Some bkt ∧
             variable_indices bkt !! intra_bucket_index loc = Some v;
  lo_buckets : ∀ b bkt, buckets_ st !! b = Some bkt →
      variable_indices bkt ≠ [] ∧
      length (replicas bkt) = length (replicas_ st) ∧
      ∀ r rep, replicas bkt !! r = Some rep →
        variables rep =
          (λ v, {| replica_index := r; variable_index := v |}) <$> variable_indices bkt ∧
        if expect_sparse_gradient bkt then length (variable_indices bkt) = 1
        else is_Some (contents rep) ∧
             length (offsets rep) = length (variable_indices bkt) ∧
             length (lengths rep) = length (variable_indices bkt) ∧
             length (bucket_views rep) = length (variable_indices bkt) }.

(** The counters as [prepare_for_backward] leaves them. *)
Record prepared (st : Reducer) : Prop := {
  pr_next : next_bucket_ st = 0;
  pr_launched : launched st = [];
  pr_maps : find_unused_parameters_ st = true →
            length (local_used_maps_dev_ st) = length (local_used_maps_ st);
  pr_pending : ∀ b bkt, buckets_ st !! b = Some bkt →
      bucket_pending bkt = Z.of_nat (length (replicas bkt)) ∧
      ∀ r rep, replicas bkt !! r = Some rep →
        replica_pending rep = Z.of_nat (length (variables rep)) }.

(** The gradient of a parameter passes the checks made when it is marked
    ready: in a sparse bucket it is defined and sparse; in a dense bucket it
    is undefined, or aliases its bucket view, or agrees with the view in
    type, device and number of elements. *)
Definition grad_ok (st : Reducer) (r v : nat) : Prop :=
  ∀ loc bkt rep, variable_locators_ st !! v = Some loc →
    buckets_ st !! bucket_index loc = Some bkt →
    replicas bkt !! r = Some rep →
    ∃ grad, (grads st !! r) ≫= (.!! v) = Some grad ∧
      if expect_sparse_gradient bkt then ∃ g, grad = Some g ∧ t_layout g = Sparse
      else ∀ g view, grad = Some g →
             bucket_views rep !! intra_bucket_index loc = Some view →
             is_alias_of g view = false →
             type_equal g view = true ∧ t_device g = t_device view ∧
             numel g = numel view.

Definition grads_ok (st : Reducer) : Prop := ∀ r v, grad_ok st r v.

(** All parameters of all replicas. *)
Definition all_variable_indices (st : Reducer) : list VariableIndex :=
  r ← seq 0 (length (replicas_ st));
  v ← seq 0 (length (variable_locators_ st));
  [{| replica_index := r; variable_index := v |}].

(** A sequence of [mark_variable_ready] calls; every call comes with the
    reading of the clock it sees. *)
Definition mark_all (calls : list (Z * VariableIndex)) : M unit :=
  for_each calls (λ c, mark_variable_ready c.1 c.2).

(** ** The counters during a backward pass *)

(** A bucket, and a state, without the handles of the collectives: the
    state of the counters does not depend on them. *)
Definition erase_work (b : Bucket) : Bucket := set_future_work None (set_work None b).

Definition forget_work (st : Reducer) : Reducer :=
  set_buckets_ (erase_work <$> buckets_ st) st.

(** The bucket a parameter is assigned to. *)
Definition bucket_of (st : Reducer) (v : nat) : nat :=
  default 0 (bucket_index <$> variable_locators_ st !! v).

(** How many of the calls [marked] were for replica [r] of bucket [b]. *)
Definition marked_in (st : Reducer) (b r : nat) (marked : list VariableIndex) : nat :=
  length (filter (λ vi, replica_index vi = r ∧ bucket_of st (variable_index vi) = b)
                 marked).

(** The number of replicas of a bucket that still wait for a gradient. *)
Definition waiting_replicas (reps : list BucketReplica) : nat :=
  length (filter (λ rep, (0 < replica_pending rep)%Z) reps).

(** The counters after the calls [marked]: a replica waits for the
    gradients not yet marked, a bucket for the replicas that still wait;
    the buckets below [next_bucket_] are complete and are those launched, in
    order; the bucket at [next_bucket_] is not complete. *)
Record counters_ok (marked : list VariableIndex) (st : Reducer) : Prop := {
  co_replica : ∀ b bkt r rep, buckets_ st !! b = Some bkt → replicas bkt !! r = Some rep →
      replica_pending rep =
        (Z.of_nat (length (variables rep)) - Z.of_nat (marked_in st b r marked))%Z;
  co_bucket : ∀ b bkt, buckets_ st !! b = Some bkt →
      bucket_pending bkt = Z.of_nat (waiting_replicas (replicas bkt));
  co_next : next_bucket_ st ≤ length (buckets_ st);
  co_launched : launched st = seq 0 (next_bucket_ st);
  co_done : ∀ b bkt, b < next_bucket_ st → buckets_ st !! b = Some bkt →
      bucket_pending bkt = 0%Z;
  co_waiting : ∀ bkt, buckets_ st !! next_bucket_ st = Some bkt → bucket_pending bkt ≠ 0%Z;
  co_maps : find_unused_parameters_ st = true →
      length (local_used_maps_dev_ st) = length (local_used_maps_ st) }.

(** What a run of the loop of [mark_bucket_ready] leaves behind: the
    complete buckets from [next_bucket_] up to the first incomplete one were
    launched, in order; only the handles of the buckets, the log and
    [next_bucket_] changed. *)
Definition launch_post (s : Reducer) (res : result unit * Reducer) : Prop :=
  ∃ bs' log' next',
    res = (Ok tt, set_next_bucket_ next' (set_collectives log' (set_buckets_ bs' s))) ∧
    erase_work <$> bs' = erase_work <$> buckets_ s ∧
    next_bucket_ s ≤ next' ∧ next' ≤ length (buckets_ s) ∧
    launched (set_collectives log' s) =
      launched s ++ seq (next_bucket_ s) (next' - next_bucket_ s) ∧
    (∀ b bkt, next_bucket_ s ≤ b < next' →
       (erase_work <$> buckets_ s) !! b = Some bkt → bucket_pending bkt = 0%Z) ∧
    (∀ bkt, (erase_work <$> buckets_ s) !! next' = Some bkt → bucket_pending bkt ≠ 0%Z).

(** A replica, and its bucket, after one of its gradients was marked ready
    ([c] is the new contents of the replica). *)
Definition count_down_replica (c : option Tensor) (rep : BucketReplica) : BucketReplica :=
  set_replica_pending (replica_pending rep - 1) (set_contents c rep).

Definition count_down_bucket (r : nat) (c : option Tensor) (bkt : Bucket)
    (rep : BucketReplica) : Bucket :=
  let reps := <[r := count_down_replica c rep]> (replicas bkt) in
  set_bucket_pending (Z.of_nat (waiting_replicas reps)) (set_replicas reps bkt).

(** The invariant of a backward pass. *)
Definition pass_inv (marked : list VariableIndex) (st : Reducer) : Prop :=
  layout_ok (forget_work st) ∧ grads_ok (forget_work st) ∧
  counters_ok marked (forget_work st).

(** ** The functions a graph traversal reaches *)

(** The functions the traversal of [prepare_for_backward] inserts into
    [seen]: those an edge leads to, from a root or from a function reached
    before. A root is not reached by being a root. *)
Inductive reached (g : Graph) (roots : list nat) : nat → Prop :=
  | reached_root fn next :
      fn ∈ roots → Some next ∈ next_edges g fn → reached g roots next
  | reached_step fn next :
      reached g roots fn → Some next ∈ next_edges g fn → reached g roots next.

(** ** What the methods of a backward pass leave alone *)

(** [m] relates every state to the state it leaves behind, whether it
    returns or throws. *)
Definition keeps {A} (R : relation Reducer) (m : M A) : Prop :=
  ∀ st, R st (m st).2.

(** The part of a bucket replica, and of a bucket, that [initialize_buckets]
    lays out. *)
Definition replica_shape (rep : BucketReplica)
  : list VariableIndex * list nat * list nat * list Tensor :=
  (variables rep, offsets rep, lengths rep, bucket_views rep).

Definition bucket_shape (bkt : Bucket)
  : list nat * bool * list (list VariableIndex * list nat * list nat * list Tensor) :=
  (variable_indices bkt, expect_sparse_gradient bkt, replica_shape <$> replicas bkt).

(** [st'] has the configuration, the bucket layout, the bookkeeping of
    unused and rebuilt parameters and the sizes of the per-parameter tables
    of [st]; its [next_bucket_] is not below that of [st], and
    [require_finalize_] is still set if it was. *)
Record pass_frame (st st' : Reducer) : Prop := {
  pf_replicas : replicas_ st' = replicas_ st;
  pf_expect_sparse : expect_sparse_gradients_ st' = expect_sparse_gradients_ st;
  pf_locators : variable_locators_ st' = variable_locators_ st;
  pf_hooks : expect_autograd_hooks_ st' = expect_autograd_hooks_ st;
  pf_find_unused : find_unused_parameters_ st' = find_unused_parameters_ st;
  pf_unused : unused_parameters_ st' = unused_parameters_ st;
  pf_stats_base : backward_stats_base_ st' = backward_stats_base_ st;
  pf_has_rebuilt : has_rebuilt_bucket_ st' = has_rebuilt_bucket_ st;
  pf_func : func_ st' = func_ st;
  pf_comm_hook : comm_hook_ st' = comm_hook_ st;
  pf_world_size : world_size st' = world_size st;
  pf_marked : has_marked_unused_parameters_ st' = has_marked_unused_parameters_ st;
  pf_used_maps : local_used_maps_ st' = local_used_maps_ st;
  pf_rebuilt_params : rebuilt_params_ st' = rebuilt_params_ st;
  pf_rebuilt_indices : rebuilt_param_indices_ st' = rebuilt_param_indices_ st;
  pf_shape : bucket_shape <$> buckets_ st' = bucket_shape <$> buckets_ st;
  pf_stats_shape : length <$> backward_stats_ st' = length <$> backward_stats_ st;
  pf_grads_shape : length <$> grads st' = length <$> grads st;
  pf_used_maps_dev : length (local_used_maps_dev_ st') = length (local_used_maps_dev_ st);
  pf_next : next_bucket_ st ≤ next_bucket_ st';
  pf_finalize : require_finalize_ st = true → require_finalize_ st' = true }.

(** ** Sample reducers *)

(** A float tensor of four elements on its own storage. *)
Definition sample_vector (storage : nat) : Tensor :=
  {| t_storage := storage; t_offset := 0; t_sizes := [4]; t_strides := [1];
     t_dtype := Float; t_device := cpu0; t_layout := Strided; t_element_size := 4;
     t_non_overlapping_and_dense := true |}.

(** The integer [n] as an element of a [float] tensor. *)
Definition float32 (n : Z) : Element := number (float_of_int 24 128 n).

(** Four storages of four elements: zeros for two parameters, and the
    numbers [x] and [y] for their gradients. *)
Definition sample_heap (x y : Z) : Storages :=
  [replicate 4 (float32 0); replicate 4 (float32 0);
   replicate 4 (float32 x); replicate 4 (float32 y)].

(** One replica with two parameters (storages 0 and 1) whose gradients are
    on the storages 2 and 3 of [heap]; no buckets yet. The accumulators of
    the parameters are the graph nodes 100 and 101. *)
Definition make_reducer_with (process_group_size : Z) (heap : Storages)
    (find_unused : bool) (hook : option nat) : Reducer :=
  {| replicas_ := [[sample_vector 0; sample_vector 1]];
     expect_sparse_gradients_ := [[false; false]];
     buckets_ := [];
     variable_locators_ := [];
     expect_autograd_hooks_ := false;
     require_finalize_ := false;
     next_bucket_ := 0;
     has_marked_unused_parameters_ := false;
     find_unused_parameters_ := find_unused;
     unused_parameters_ := [];
     local_used_maps_ := if find_unused then [[0; 0]%Z] else [];
     local_used_maps_dev_ := if find_unused then [[0; 0]%Z] else [];
     local_used_work_ := None;
     backward_stats_ := [[0; 0]%Z];
     backward_stats_base_ := 0;
     has_rebuilt_bucket_ := false;
     rebuilt_params_ := [];
     rebuilt_param_indices_ := [];
     func_ := {[ 100 := {| replica_index := 0; variable_index := 0 |};
                 101 := {| replica_index := 0; variable_index := 1 |} ]};
     comm_hook_ := hook;
     world_size := process_group_size;
     grads := [[Some (sample_vector 2); Some (sample_vector 3)]];
     storages := heap;
     collectives := [];
     callbacks := [] |}.

(** World size 2; the gradients are [1,1,1,1] and [2,2,2,2]. *)
Definition make_reducer (find_unused : bool) (hook : option nat) : Reducer :=
  make_reducer_with 2 (sample_heap 1 2) find_unused hook.

(** Scenario S1: no detection of unused parameters, no communication hook. *)
Definition sample_reducer : Reducer := make_reducer false None.

Definition v0 : VariableIndex := {| replica_index := 0; variable_index := 0 |}.
Definition v1 : VariableIndex := {| replica_index := 0; variable_index := 1 |}.

(** The state of a computation after it ran. *)
Definition state_after {A} (m : M A) (st : Reducer) : Reducer := (m st).2.

(** [sample_reducer] with the single bucket [[0, 1]]. *)
Definition sample_initialized : Reducer :=
  state_after (initialize_buckets [[0; 1]]) sample_reducer.

(** ... and prepared for a backward pass over a graph without edges. *)
Definition sample_prepared : Reducer :=
  state_after (prepare_for_backward id ∅ [] 0) sample_initialized.

(** A reducer that looks for unused parameters, with the single bucket
    [[0, 1]], prepared for the backward pass of an output whose graph reaches
    the accumulator of parameter 0 only, after the hook of parameter 0 fired:
    parameter 1 was marked ready as unused, parameter 0 as used, and the
    bucket was launched. *)
Definition sample_graph : Graph := {[ 1 := [Some 100] ]}.

Definition sample_after_unused_marked : Reducer :=
  state_after (initialize_buckets [[0; 1]];;
               prepare_for_backward id sample_graph [Some 1] 0;;
               autograd_hook 5 v0)
              (make_reducer true None).

(** [sample_reducer] with the two buckets [[0]] and [[1]], prepared for a
    backward pass over a graph without edges. *)
Definition sample_two_buckets : Reducer :=
  state_after (initialize_buckets [[0]; [1]];; prepare_for_backward id ∅ [] 0)
              sample_reducer.

(** ** Auxiliary definitions for the proofs about gradients *)

(** A strided tensor with as many strides as sizes. *)
Definition strides_ok (t : Tensor) : Prop := length (t_strides t) = length (t_sizes t).

(** A view whose elements lie, without overlap, inside an existing storage. *)
Definition view_ok (h : Storages) (view : Tensor) : Prop :=
  t_storage view < length h ∧
  NoDup (positions view) ∧
  Forall (λ p, p < length (storage_of h view)) (positions view) ∧
  strides_ok view.

(** [variable.grad()]. *)
Definition grad_of (st : Reducer) (v : VariableIndex) : option (option Tensor) :=
  (grads st !! replica_index v) ≫= (.!! variable_index v).

(** [sample_prepared] after the user replaced the gradients by fresh
    tensors (on storages 2 and 3) that do not alias the bucket views. *)
Definition sample_fresh_grads : Reducer :=
  set_grads [[Some (sample_vector 2); Some (sample_vector 3)]] sample_prepared.

(** The same with world size 3 and the gradients [5,5,5,5] and [7,7,7,7]. *)
Definition sample_world_of_three : Reducer :=
  set_grads [[Some (sample_vector 2); Some (sample_vector 3)]]
    (state_after (initialize_buckets [[0; 1]];; prepare_for_backward id ∅ [] 0)
       (make_reducer_with 3 (sample_heap 5 7) false None)).

(** The bucket view of parameter 0 in [sample_initialized]. *)
Definition sample_view0 : Tensor := sample_vector 4.

(** ** Auxiliary definitions for the proofs about [initialize_buckets] *)

(** The offsets of consecutive ranges of the given lengths. *)
Fixpoint prefix_sums (start : nat) (lengths : list nat) : list nat :=
  match lengths with
  | [] => []
  | l :: rest => start :: prefix_sums (start + l) rest
  end.

(** The layout of a dense bucket replica: [contents] has as many elements as
    the lengths add up to, the offsets are the prefix sums of the lengths,
    and every bucket view shares the storage of [contents]. *)
Definition dense_replica_ok (rep : BucketReplica) : Prop :=
  ∃ c, contents rep = Some c ∧
       numel c = sum_list (lengths rep) ∧
       offsets rep = prefix_sums 0 (lengths rep) ∧
       Forall (λ view, is_alias_of view c = true) (bucket_views rep) ∧
       length (bucket_views rep) = length (variables rep) ∧
       length (lengths rep) = length (variables rep).

(** The layout of replica [r] of a dense bucket of the parameters [indices],
    in a reducer whose replicas are [rs]: one variable, one length, one
    offset and one bucket view for every parameter, in the order of
    [indices]. The length is the number of elements of the parameter; the
    offsets are the prefix sums of the lengths, which add up to the number
    of elements of [contents]; every view has the sizes of its parameter,
    starts at the offset of its parameter and shares the storage of
    [contents]. *)
Definition dense_replica_laid_out (rs : list (list Tensor)) (r : nat)
    (indices : list nat) (rep : BucketReplica) : Prop :=
  ∃ c, contents rep = Some c ∧
    variables rep =
      (λ v, {| replica_index := r; variable_index := v |}) <$> indices ∧
    Forall2 (λ v len, ∃ row t, rs !! r = Some row ∧ row !! v = Some t ∧ len = numel t)
            indices (lengths rep) ∧
    offsets rep = prefix_sums 0 (lengths rep) ∧
    numel c = sum_list (lengths rep) ∧
    Forall2 (λ v view, ∃ row t, rs !! r = Some row ∧ row !! v = Some t ∧
                                t_sizes view = t_sizes t)
            indices (bucket_views rep) ∧
    Forall2 (λ off view, is_alias_of view c = true ∧ t_offset view = off)
            (offsets rep) (bucket_views rep).

(** A locator that leads back to the parameter it belongs to. *)
Definition locator_resolves (buckets : list Bucket) (p : nat) (loc : VariableLocator)
  : Prop :=
  ∃ bkt, buckets !! bucket_index loc = Some bkt ∧
         variable_indices bkt !! intra_bucket_index loc = Some p.

(** ** Computations that return *)

(** [m] returns from [st], with a result and a state that satisfy [Q]. *)
Definition runs {A} (m : M A) (st : Reducer) (Q : A → Reducer → Prop) : Prop :=
  ∃ a st', m st = (Ok a, st') ∧ Q a st'.

(** What [initialize_buckets] leaves alone while it builds the buckets. *)
Record init_frame (st st' : Reducer) : Prop := {
  if_replicas : replicas_ st' = replicas_ st;
  if_flags : expect_sparse_gradients_ st' = expect_sparse_gradients_ st;
  if_stats : backward_stats_ st' = backward_stats_ st;
  if_grads : length <$> grads st' = length <$> grads st;
  if_locators : length (variable_locators_ st') = length (variable_locators_ st);
  if_hooks : expect_autograd_hooks_ st' = expect_autograd_hooks_ st;
  if_has_rebuilt : has_rebuilt_bucket_ st' = has_rebuilt_bucket_ st;
  if_rebuilt_params : rebuilt_params_ st' = rebuilt_params_ st;
  if_rebuilt_indices : rebuilt_param_indices_ st' = rebuilt_param_indices_ st;
  if_require_finalize : require_finalize_ st' = require_finalize_ st;
  if_next : next_bucket_ st' = next_bucket_ st;
  if_find_unused : find_unused_parameters_ st' = find_unused_parameters_ st;
  if_has_marked :
    has_marked_unused_parameters_ st' = has_marked_unused_parameters_ st;
  if_unused : unused_parameters_ st' = unused_parameters_ st;
  if_used_maps : local_used_maps_ st' = local_used_maps_ st;
  if_used_maps_dev : local_used_maps_dev_ st' = local_used_maps_dev_ st;
  if_func : func_ st' = func_ st;
  if_comm_hook : comm_hook_ st' = comm_hook_ st;
  if_world_size : world_size st' = world_size st;
  if_collectives : collectives st' = collectives st }.

(** The bucket [initialize_bucket] builds for [indices] in a reducer with
    [replica_count] replicas. *)
Definition bucket_built (replica_count : nat) (indices : list nat) (bkt : Bucket) : Prop :=
  variable_indices bkt = indices ∧
  length (replicas bkt) = replica_count ∧
  ∀ r rep, replicas bkt !! r = Some rep →
    variables rep =
      (λ v, {| replica_index := r; variable_index := v |}) <$> indices ∧
    if expect_sparse_gradient bkt then length indices = 1
    else is_Some (contents rep) ∧
         length (offsets rep) = length indices ∧
         length (lengths rep) = length indices ∧
         length (bucket_views rep) = length indices.

(** What [initialize_bucket] needs of the indices of a bucket: the bucket is
    not empty; every index has a sparse flag, which is off when the bucket
    has several parameters; every index has a locator; in every replica the
    indices name parameters of one device and one dtype, and the replica
    has a row of gradients as long as its row of parameters. *)
Definition bucket_legal (st : Reducer) (indices : list nat) : Prop :=
  indices ≠ [] ∧
  (∃ flags0, expect_sparse_gradients_ st !! 0 = Some flags0 ∧
     ∀ v, v ∈ indices →
       ∃ f, flags0 !! v = Some f ∧ (1 < length indices → f = false)) ∧
  (∀ v, v ∈ indices → v < length (variable_locators_ st)) ∧
  ∀ r row, replicas_ st !! r = Some row →
    (∃ grow, grads st !! r = Some grow ∧ length grow = length row) ∧
    ∃ ts d dt, Forall2 (λ v t, row !! v = Some t) indices ts ∧
               Forall (λ t, t_device t = d ∧ t_dtype t = dt) ts.

(** What the [i]-th round of [initialize_bucket_views] needs: the variable,
    its offset and its length are there, a view that has to be made with
    [narrow] and [view] fits, and the variable has a gradient slot. *)
Definition view_ready (contents : Tensor) (replica : BucketReplica) (st : Reducer)
    (i : nat) : Prop :=
  ∃ v row vt off len grow,
    variables replica !! i = Some v ∧
    replicas_ st !! replica_index v = Some row ∧ row !! variable_index v = Some vt ∧
    offsets replica !! i = Some off ∧ lengths replica !! i = Some len ∧
    (t_non_overlapping_and_dense vt = false →
       off + len ≤ numel contents ∧ numel vt = len) ∧
    grads st !! replica_index v = Some grow ∧ variable_index v < length grow.

(** [Reducer::rebuild_buckets]. [kDefaultFirstBucketBytes] and
    [bucket_bytes_cap_] are the two limits as they are pushed into
    [bucket_size_limits]; [rank] is the iteration order of the unordered map
    of [compute_bucket_assignment_by_size], and the two broadcasts are those
    of [sync_bucket_indices]. *)
Definition rebuild_buckets (rank : BucketKey → nat)
    (kDefaultFirstBucketBytes bucket_bytes_cap_ : Z)
    (broadcast_indices broadcast_sizes : list Z → list Z) : M unit :=
  rebuilt_params ← get rebuilt_params_;
  if bool_decide (rebuilt_params = []) then mret tt
  else
    rebuilt_param_indices ← get rebuilt_param_indices_;
    TORCH_INTERNAL_ASSERT
      (bool_decide (length rebuilt_params = length rebuilt_param_indices))
      "rebuilt parameter tensors size is not same as rebuilt parameter indices size.";;
    rs ← get replicas_;
    replica0 ← lift (at_ rs 0);
    TORCH_INTERNAL_ASSERT
      (bool_decide (length replica0 = length rebuilt_param_indices))
      "rebuilt parameter indices size is not same as original model parameters size.";;
    let bucket_size_limits := [kDefaultFirstBucketBytes; bucket_bytes_cap_] in
    flags ← get expect_sparse_gradients_;
    flags0 ← lift (at_ flags 0);
    rebuilt_bucket_indices ← lift
      (compute_bucket_assignment_by_size rank rebuilt_params bucket_size_limits
         flags0 rebuilt_param_indices);
    rebuilt_bucket_indices ← lift
      (sync_bucket_indices broadcast_indices broadcast_sizes
         (fmap (M:=list) Z.of_nat <$> (rebuilt_bucket_indices : list (list nat))));
    modify (set_has_rebuilt_bucket_ true);;
    modify (set_rebuilt_params_ []);;
    modify (set_rebuilt_param_indices_ []);;
    initialize_buckets (fmap (M:=list) Z.to_nat <$> (rebuilt_bucket_indices : list (list Z))).

(** ** The constructor *)








(** ** Finalization *)

(** What the process group and the communication hook deliver when the
    reducer waits for them:
    - [wait_work w h]: the storages once the collective behind the handle
      [w] has completed, [h] being the storages before;
    - [process_future w]: the tensors
      [comm_hook_->processFuture(future_work->value())] returns for the
      future behind [w];
    - [wait_used_maps w dev]: [local_used_maps_dev_] once its reduction,
      behind [w], has completed. *)
Record Completion := {
  wait_work : nat → Storages → Storages;
  process_future : nat → list Tensor;
  wait_used_maps : nat → list (list Z) → list (list Z) }.

(** [local_used_work_->wait()]; a call through a null handle is
    [OutOfRange]. *)
Definition wait_local_used_work (pg : Completion) : M unit :=
  used_work ← get local_used_work_;
  match used_work with
  | Some w =>
      modify (λ st, set_local_used_maps_dev_
        (wait_used_maps pg w (local_used_maps_dev_ st)) st)
  | None => lift (Err OutOfRange)
  end.

(** [local_used_maps_[replica_index][variable_index].item<int>()]. *)
Definition local_used_at (replica_index variable_index : nat) : M Z :=
  maps ← get local_used_maps_;
  row ← lift (at_ maps replica_index);
  lift (at_ row variable_index).

(** The body of the inner loop of [Reducer::finalize_bucket_dense]. The
    member [local_used_maps_reduced_], which only the finalization reads
    and writes, is passed in and returned. *)
Definition finalize_variable (pg : Completion) (bucket : Bucket) (replica_index : nat)
    (replica : BucketReplica) (intra_bucket_index : nat)
    (local_used_maps_reduced_ : bool) : M bool :=
  variable ← lift (at_ (variables replica) intra_bucket_index);
  _ ← lift (at_ (offsets replica) intra_bucket_index);
  _ ← lift (at_ (lengths replica) intra_bucket_index);
  find_unused ← get find_unused_parameters_;
  unused ←
    (if (find_unused : bool) then
       variable_index ← lift (at_ (variable_indices bucket) intra_bucket_index);
       used ← local_used_at replica_index variable_index;
       if (used =? 0)%Z && negb local_used_maps_reduced_ then
         wait_local_used_work pg;;
         maps ← get local_used_maps_;
         for_each (seq 0 (length maps)) (λ i,
           dev ← get local_used_maps_dev_;
           d ← lift (at_ dev i);
           modify (λ st, set_local_used_maps_ (<[i := d]> (local_used_maps_ st)) st));;
         used ← local_used_at replica_index variable_index;
         mret ((used =? 0)%Z, true)
       else mret ((used =? 0)%Z, local_used_maps_reduced_)
     else mret (false, local_used_maps_reduced_));
  bucket_view ← lift (at_ (bucket_views replica) intra_bucket_index);
  runGradCallbackForVariable variable (λ grad,
    if negb unused.1 then
      match grad with
      | None => mret (Some bucket_view)
      | Some g =>
          TORCH_INTERNAL_ASSERT (is_alias_of g bucket_view)
            "Grad should have been pointed to bucket_view if grad is defined";;
          mret grad
      end
    else mret grad);;
  mret unused.2.

(** [Reducer::finalize_bucket_dense]. *)
Definition finalize_bucket_dense (pg : Completion) (bucket : Bucket)
    (local_used_maps_reduced_ : bool) : M bool :=
  foldM (λ p reduced,
           foldM (finalize_variable pg bucket p.1 p.2)
                 (seq 0 (length (variables p.2))) reduced)
        (imap (λ replica_index replica, (replica_index, replica)) (replicas bucket))
        local_used_maps_reduced_.

(** The use of the result of the communication hook for one bucket. *)
Definition use_future_result (bucket_index : nat) (future_result : list Tensor)
    : M unit :=
  for_each (imap (λ i t, (i, t)) future_result) (λ p,
    bucket ← get_bucket bucket_index;
    replica ← lift (at_ (replicas bucket) p.1);
    if expect_sparse_gradient bucket then
      match contents replica with
      | Some c => modify (λ st, set_storages (copy_ (storages st) c p.2) st)
      | None => lift (Err (TorchCheck "Copy into an undefined tensor."))
      end
    else
      replica' ← initialize_bucket_views (set_bucket_views [] replica) p.2 false;
      update_replica bucket_index p.1 (λ _, replica')).

(** The body of the loop of [Reducer::finalize_backward] over the buckets. *)
Definition finalize_bucket (pg : Completion) (bucket_index : nat)
    (local_used_maps_reduced_ : bool) : M bool :=
  bucket ← get_bucket bucket_index;
  hook ← get comm_hook_;
  (match hook with
   | None =>
       TORCH_INTERNAL_ASSERT (bool_decide (is_Some (work bucket)))
         "Expected bucket.work not to be null. This may indicate that allreduce hooks were not properly installed.";;
       match work bucket with
       | Some w => modify (λ st, set_storages (wait_work pg w (storages st)) st)
       | None => mret tt
       end
   | Some _ =>
       TORCH_INTERNAL_ASSERT (bool_decide (is_Some (future_work bucket)))
         "Expected bucket.future_work not to be null. This may indicate that communication hook was not properly installed.";;
       match future_work bucket with
       | Some w =>
           modify (λ st, set_storages (wait_work pg w (storages st)) st);;
           use_future_result bucket_index (process_future pg w)
       | None => mret tt
       end
   end);;
  if expect_sparse_gradient bucket then mret local_used_maps_reduced_
  else
    bucket ← get_bucket bucket_index;
    finalize_bucket_dense pg bucket local_used_maps_reduced_.

(** [Reducer::finalize_backward]; it takes and returns
    [local_used_maps_reduced_]. *)
Definition finalize_backward (pg : Completion) (local_used_maps_reduced_ : bool)
    : M bool :=
  hooks ← get expect_autograd_hooks_;
  TORCH_INTERNAL_ASSERT hooks "expect_autograd_hooks_";;
  modify (set_expect_autograd_hooks_ false);;
  require_finalize ← get require_finalize_;
  TORCH_INTERNAL_ASSERT require_finalize "require_finalize_";;
  modify (set_require_finalize_ false);;
  next ← get next_bucket_;
  n ← get (λ st, length (buckets_ st));
  TORCH_INTERNAL_ASSERT (bool_decide (next = n)) "next_bucket_ == buckets_.size()";;
  reduced ← foldM (finalize_bucket pg) (seq 0 n) local_used_maps_reduced_;
  find_unused ← get find_unused_parameters_;
  if (find_unused : bool) then
    modify (λ st, set_local_used_maps_
      ((λ m, replicate (length m) 0%Z) <$> local_used_maps_ st) st);;
    (if negb reduced then wait_local_used_work pg else mret tt);;
    mret false
  else mret reduced.

(** What the finalization leaves alone. *)
Definition bucket_skeleton (bkt : Bucket)
  : list nat * bool * Z * option nat * option nat * nat :=
  (variable_indices bkt, expect_sparse_gradient bkt, bucket_pending bkt, work bkt,
   future_work bkt, length (replicas bkt)).

Record finalize_frame (st st' : Reducer) : Prop := {
  ff_hooks : expect_autograd_hooks_ st' = expect_autograd_hooks_ st;
  ff_require_finalize : require_finalize_ st' = require_finalize_ st;
  ff_next : next_bucket_ st' = next_bucket_ st;
  ff_replicas : replicas_ st' = replicas_ st;
  ff_flags : expect_sparse_gradients_ st' = expect_sparse_gradients_ st;
  ff_locators : variable_locators_ st' = variable_locators_ st;
  ff_collectives : collectives st' = collectives st;
  ff_callbacks : callbacks st' = callbacks st;
  ff_find_unused : find_unused_parameters_ st' = find_unused_parameters_ st;
  ff_has_marked :
    has_marked_unused_parameters_ st' = has_marked_unused_parameters_ st;
  ff_unused : unused_parameters_ st' = unused_parameters_ st;
  ff_comm_hook : comm_hook_ st' = comm_hook_ st;
  ff_func : func_ st' = func_ st;
  ff_stats : backward_stats_ st' = backward_stats_ st;
  ff_has_rebuilt : has_rebuilt_bucket_ st' = has_rebuilt_bucket_ st;
  ff_rebuilt_params : rebuilt_params_ st' = rebuilt_params_ st;
  ff_rebuilt_indices : rebuilt_param_indices_ st' = rebuilt_param_indices_ st;
  ff_used_work : local_used_work_ st' = local_used_work_ st;
  ff_grads : length <$> grads st' = length <$> grads st;
  ff_buckets : bucket_skeleton <$> buckets_ st' = bucket_skeleton <$> buckets_ st }.

(** What a finalization without communication hook and without
    [find_unused_parameters_] leaves alone: the buckets and the two
    settings, and every gradient that is defined. *)
Record plain_frame (st st' : Reducer) : Prop := {
  pl_buckets : buckets_ st' = buckets_ st;
  pl_comm_hook : comm_hook_ st' = comm_hook_ st;
  pl_find_unused : find_unused_parameters_ st' = find_unused_parameters_ st;
  pl_grads : ∀ v g, grad_of st v = Some (Some g) → grad_of st' v = Some (Some g) }.

(** The gradient of [v] is defined and shares the storage of [view]. *)
Definition points_to (st : Reducer) (v : VariableIndex) (view : Tensor) : Prop :=
  ∃ g, grad_of st v = Some (Some g) ∧ is_alias_of g view = true.

(** A process group that completes every collective without changing
    anything, and [sample_two_buckets] after both parameters were marked
    ready, with the gradients undefined. *)
Definition sample_completion : Completion :=
  {| wait_work := λ _ h, h; process_future := λ _, []; wait_used_maps := λ _ m, m |}.

Definition sample_launched : Reducer :=
  set_grads [[None; None]]
    (state_after (mark_all [(1%Z, v0); (2%Z, v1)]) sample_two_buckets).

(** ** From a backward pass to its finalization *)

(** Every bucket below [next_bucket_] has its work handle. *)
Definition work_set (st : Reducer) : Prop :=
  ∀ b, b < next_bucket_ st → ∃ bkt, buckets_ st !! b = Some bkt ∧ is_Some (work bkt).

(** Without communication hook, a step of a backward pass keeps the work
    handles of the launched buckets in place. *)
Record pass_handles (st st' : Reducer) : Prop := {
  ph_hook : comm_hook_ st' = comm_hook_ st;
  ph_work : comm_hook_ st = None → work_set st → work_set st' }.

(** [view] is a bucket view of [v]: at one position of a replica of a
    bucket, [v] is the variable and [view] the view. *)
Definition slot (st : Reducer) (v : VariableIndex) (view : Tensor) : Prop :=
  ∃ b bkt r rep i,
    buckets_ st !! b = Some bkt ∧ replicas bkt !! r = Some rep ∧
    variables rep !! i = Some v ∧ bucket_views rep !! i = Some view.

(** The gradient of [v] is undefined or shares the storage of [view]. *)
Definition settled (st : Reducer) (v : VariableIndex) (view : Tensor) : Prop :=
  ∃ grad, grad_of st v = Some grad ∧ ∀ g, grad = Some g → is_alias_of g view = true.

(** A step of a backward pass leaves a gradient as it is or replaces it by
    a bucket view of its variable. *)
Record pass_grads (st st' : Reducer) : Prop := {
  pg_frame : pass_frame st st';
  pg_grads : ∀ v, grad_of st' v = grad_of st v ∨
                  ∃ view, slot st v view ∧ grad_of st' v = Some (Some view) }.

(** In [s], every variable of a bucket of dense gradients of [st] has its
    gradient settled on its bucket view. *)
Definition dense_settled (st s : Reducer) : Prop :=
  ∀ b bkt r rep i v view,
    buckets_ st !! b = Some bkt → expect_sparse_gradient bkt = false →
    replicas bkt !! r = Some rep → variables rep !! i = Some v →
    bucket_views rep !! i = Some view → settled s v view.

(** A state [s] of the loop of a finalization that started in [st],
    without communication hook and without [find_unused_parameters_]. *)
Record finalizing (st s : Reducer) : Prop := {
  fz_buckets : buckets_ s = buckets_ st;
  fz_comm_hook : comm_hook_ s = None;
  fz_find_unused : find_unused_parameters_ s = false;
  fz_grads : length <$> grads s = length <$> grads st;
  fz_hooks : expect_autograd_hooks_ s = false;
  fz_require_finalize : require_finalize_ s = false;
  fz_next : next_bucket_ s = next_bucket_ st;
  fz_settled : dense_settled st s }.
(** * Properties *)

(** ** BucketAssigner *)

Lemma at_lookup {A} (v : list A) i a : v !! i = Some a → at_ v i = Ok a.
Proof. unfold at_. by intros ->. Qed.

Lemma tensor_index_at_intended tensor_indices i :
  tensor_indices = [] ∨ i < length tensor_indices →
  tensor_index_at tensor_indices i = Ok (intended_index tensor_indices i).
Proof.
  intros H. unfold tensor_index_at, intended_index.
  destruct tensor_indices as [|z l]; [done|].
  destruct H as [|H]; [done|].
  apply lookup_lt_is_Some in H as [y Hy].
  rewrite (at_lookup _ _ _ Hy), Hy. done.
Qed.

Lemma expects_sparse_flag flags idx :
  flags = [] ∨ idx < length flags →
  expects_sparse flags idx = Ok (sparse_flag flags idx).
Proof.
  intros H. unfold expects_sparse, sparse_flag.
  destruct flags as [|b l]; [done|].
  destruct H as [|H]; [done|].
  apply lookup_lt_is_Some in H as [y Hy].
  rewrite (at_lookup _ _ _ Hy), Hy. done.
Qed.
Section maps.
Context {V : Type}.

Lemma unordered_map_items_Permutation (rank : BucketKey → nat) (m : gmap BucketKey V) :
  unordered_map_items rank m ≡ₚ map_to_list m.
Proof.
  unfold unordered_map_items.
  rewrite merge_sort_Permutation.
  apply NoDup_Permutation.
  - generalize (NoDup_elements (dom m)).
    induction 1 as [|k l Hk Hl IH]; simpl; [constructor|].
    destruct (m !! k) as [v|] eqn:E; simpl; [|done].
    constructor; [|done].
    rewrite list_elem_of_omap. intros (y & Hy & Hf).
    destruct (m !! y); simplify_eq/=. done.
  - apply NoDup_map_to_list.
  - intros [k v]. rewrite list_elem_of_omap, elem_of_map_to_list. split.
    + intros (y & Hy & Hf). destruct (m !! y) eqn:E; simplify_eq/=. done.
    + intros Hk. exists k. rewrite Hk. split; [|done].
      apply elem_of_elements, elem_of_dom. eauto.
Qed.

Lemma unordered_map_items_fmap {W} (f : V → W) (rank : BucketKey → nat)
    (m : gmap BucketKey V) :
  unordered_map_items rank (f <$> m) = prod_map id f <$> unordered_map_items rank m.
Proof.
  unfold unordered_map_items. rewrite dom_fmap_L.
  induction (merge_sort (rank_le rank) (elements (dom m))) as [|k l IH]; [done|].
  simpl. rewrite lookup_fmap. destruct (m !! k); simpl; [f_equal|]; apply IH.
Qed.
End maps.

Lemma pending_indices_insert m k b :
  pending_indices (<[k := b]> m) ≡ₚ acc_indices b ++ pending_indices (delete k m).
Proof.
  unfold pending_indices. rewrite <- insert_delete_eq.
  rewrite map_to_list_insert by apply lookup_delete_eq. done.
Qed.

Lemma pending_indices_lookup m k :
  pending_indices m ≡ₚ
  acc_indices (default BucketAccumulator_new (m !! k)) ++ pending_indices (delete k m).
Proof.
  unfold pending_indices. destruct (m !! k) as [b|] eqn:E; simpl.
  - rewrite <- (map_to_list_delete m k b E) at 1. done.
  - by rewrite delete_id.
Qed.

Lemma concat_filter_nonempty {A} (l : list (list A)) :
  concat (filter (λ b, b ≠ []) l) = concat l.
Proof.
  induction l as [|b l IH]; [done|].
  rewrite filter_cons. destruct (decide (b ≠ [])) as [|Hn]; simpl; rewrite IH; [done|].
  apply dec_stable in Hn. by subst.
Qed.

Lemma remaining_buckets_Permutation rank m :
  concat (remaining_buckets rank m) ≡ₚ pending_indices m.
Proof.
  unfold remaining_buckets, pending_indices.
  rewrite concat_filter_nonempty.
  by rewrite unordered_map_items_Permutation.
Qed.

Lemma assign_loop_items limits flags tidx ts : ∀ i st,
  Forall (λ t, is_sparse t = false) ts →
  (tidx = [] ∨ i + length ts ≤ length tidx) →
  (flags = [] ∨ ∀ j, i ≤ j < i + length ts → intended_index tidx j < length flags) →
  assign_loop limits flags tidx i ts st =
  assign_items limits (items_from flags tidx i ts) st.
Proof.
  induction ts as [|t ts IH]; intros i st Hd Hi Hf; [done|].
  apply Forall_cons in Hd as [Ht Hd]. simpl in *.
  unfold assign_step. rewrite Ht. simpl.
  rewrite tensor_index_at_intended by (destruct Hi; [by left|right; lia]). simpl.
  rewrite expects_sparse_flag by (destruct Hf as [|Hf]; [by left|right; apply Hf; lia]).
  simpl.
  assert (∀ st', assign_loop limits flags tidx (S i) ts st' =
                 assign_items limits (items_from flags tidx (S i) ts) st') as IH'.
  { intros st'. apply IH; [done| |].
    - destruct Hi; [by left|right; lia].
    - destruct Hf as [|Hf]; [by left|right; intros j Hj; apply Hf; lia]. }
  destruct (sparse_flag flags (intended_index tidx i)); simpl; [apply IH'|].
  destruct (assign_dense limits t (intended_index tidx i) st); simpl; [apply IH'|done].
Qed.

Lemma assign_dense_effect limits t idx st :
  limits ≠ [] → iters_ok limits st →
  let k := bucket_key t in
  let acc0 := acc_indices (default BucketAccumulator_new (as_buckets st !! k)) in
  ∃ st', assign_dense limits t idx st = Ok st' ∧ iters_ok limits st' ∧
    ((as_result st' = as_result st ++ [acc0 ++ [idx]] ∧
      as_buckets st' = <[k := BucketAccumulator_new]> (as_buckets st)) ∨
     (as_result st' = as_result st ∧
      ∃ sz, as_buckets st' =
            <[k := {| acc_indices := acc0 ++ [idx]; acc_size := sz |}]> (as_buckets st))).
Proof.
  intros Hl Hok k acc0. unfold assign_dense. fold k.
  set (iterators := match as_iterators st !! k with
                    | None => <[k:=0]> (as_iterators st)
                    | Some _ => as_iterators st end).
  assert (∀ k' it, iterators !! k' = Some it → it < length limits) as Hok'.
  { intros k' it. unfold iterators. destruct (as_iterators st !! k) eqn:E; [apply Hok|].
    rewrite lookup_insert. case_decide; [|apply Hok].
    intros [= <-]. destruct limits; [done|simpl; lia]. }
  assert (∃ it, iterators !! k = Some it) as [it Hit].
  { unfold iterators. destruct (as_iterators st !! k) eqn:E; [eauto|].
    rewrite lookup_insert_eq. eauto. }
  rewrite Hit. simpl.
  pose proof (Hok' _ _ Hit) as Hlt.
  apply lookup_lt_is_Some in Hlt as [limit Hlimit].
  rewrite (at_lookup _ _ _ Hlimit). simpl.
  destruct (Z.leb_spec limit
    ((acc_size (default BucketAccumulator_new (as_buckets st !! k)) +
        (Z.of_nat (numel t) * t_element_size t) mod two64) mod two64)%Z).
  - eexists. split; [done|]. split; [|left; done].
    intros k' it'. simpl. case_decide; [apply Hok'|].
    rewrite lookup_insert. case_decide; [|apply Hok'].
    intros [= <-]. apply lookup_lt_Some in Hlimit. lia.
  - eexists. split; [done|]. split; [done|]. right. split; [done|]. eauto.
Qed.

Lemma bucket_of_key_mono done done' k b :
  done ⊆ done' → bucket_of_key done k b → bucket_of_key done' k b.
Proof. intros Hs Hb x Hx. destruct (Hb x Hx) as (t & Ht & Hk). eauto. Qed.

Lemma assign_inv_init limits : assign_inv limits [] AssignState_init.
Proof.
  repeat split.
  - intros k it. simpl. by rewrite lookup_empty.
  - simpl. unfold pending_indices. by rewrite map_to_list_empty.
  - constructor.
  - intros x t Hx. by apply elem_of_nil in Hx.
  - intros b Hb. simpl in Hb. by apply elem_of_nil in Hb.
  - intros k acc. simpl. by rewrite lookup_empty.
Qed.

Lemma assign_item_inv limits done it st :
  limits ≠ [] → assign_inv limits done st →
  ∃ st', assign_item limits it st = Ok st' ∧ assign_inv limits (done ++ [it]) st'.
Proof.
  intros Hl (Hok & Hperm & Hne & Hsp & Hres & Hacc).
  assert (done ⊆ done ++ [it]) as Hsub by (intros y Hy; apply elem_of_app; by left).
  destruct it as [[idx sp] t]. unfold assign_item. destruct sp.
  - eexists. split; [done|]. repeat split; simpl.
    + done.
    + rewrite fmap_app, concat_app. simpl. rewrite <- Hperm.
      rewrite <- !(assoc_L (++)). f_equiv. apply Permutation_app_comm.
    + apply Forall_app. split; [done|]. by repeat constructor.
    + intros x t' Hx. apply elem_of_app in Hx as [Hx|Hx]; apply elem_of_app.
      * left. eauto.
      * right. apply list_elem_of_singleton in Hx. simplify_eq. by left.
    + intros b Hb. apply elem_of_app in Hb as [Hb|Hb].
      * destruct (Hres b Hb) as [(x & t' & Hx & ->)|[k Hk]].
        -- left. exists x, t'. split; [|done]. apply elem_of_app. by left.
        -- right. exists k. by eapply bucket_of_key_mono.
      * apply list_elem_of_singleton in Hb. subst. left. exists idx, t.
        split; [|done]. apply elem_of_app. right. by left.
    + intros k acc Hk. eapply bucket_of_key_mono; [done|]. by eapply Hacc.
  - destruct (assign_dense_effect limits t idx st Hl Hok) as (st' & -> & Hok' & Heff).
    exists st'. split; [done|].
    set (k := bucket_key t) in *.
    set (acc0 := acc_indices (default BucketAccumulator_new (as_buckets st !! k))) in *.
    assert (bucket_of_key (done ++ [(idx, false, t)]) k (acc0 ++ [idx])) as Hnew.
    { intros x Hx. apply elem_of_app in Hx as [Hx|Hx].
      - unfold acc0 in Hx. destruct (as_buckets st !! k) as [acc|] eqn:E; simpl in Hx.
        + destruct (Hacc k acc E x Hx) as (t' & Ht' & Hk'). exists t'.
          split; [|done]. apply elem_of_app. by left.
        + by apply elem_of_nil in Hx.
      - apply list_elem_of_singleton in Hx. subst. exists t. split; [|done].
        apply elem_of_app. right. by left. }
    assert (concat (as_result st) ++ acc0 ++ [idx] ++ pending_indices (delete k (as_buckets st))
            ≡ₚ item_index <$> done ++ [(idx, false, t)]) as Hperm'.
    { rewrite fmap_app. simpl. rewrite <- Hperm.
      rewrite (pending_indices_lookup (as_buckets st) k). fold acc0.
      rewrite <- !(assoc_L (++)). do 2 f_equiv. apply Permutation_cons_append. }
    assert (∀ x t', (x, true, t') ∈ done ++ [(idx, false, t)] → (x, true, t') ∈ done) as Hflag.
    { intros x t' Hx. apply elem_of_app in Hx as [Hx|Hx]; [done|].
      apply list_elem_of_singleton in Hx. simplify_eq. }
    destruct Heff as [[Hr Hb]|[Hr [sz Hb]]]; unfold assign_inv; rewrite Hr, Hb; repeat split.
    + done.
    + rewrite concat_app, pending_indices_insert. simpl. rewrite app_nil_r.
      rewrite <- Hperm'. by rewrite <- !(assoc_L (++)).
    + apply Forall_app. split; [done|]. repeat constructor. by destruct acc0.
    + intros x t' Hx. apply elem_of_app. left. eauto.
    + intros b Hb'. apply elem_of_app in Hb' as [Hb'|Hb'].
      * destruct (Hres b Hb') as [(x & t' & Hx & ->)|[k' Hk']].
        -- left. exists x, t'. split; [|done]. apply elem_of_app. by left.
        -- right. exists k'. by eapply bucket_of_key_mono.
      * apply list_elem_of_singleton in Hb'. subst. right. by exists k.
    + intros k' acc. rewrite lookup_insert. case_decide.
      * intros [= <-]. intros x Hx. by apply elem_of_nil in Hx.
      * intros Hk'. eapply bucket_of_key_mono; [done|]. by eapply Hacc.
    + done.
    + rewrite pending_indices_insert. simpl. rewrite <- Hperm'.
      by rewrite <- !(assoc_L (++)).
    + done.
    + intros x t' Hx. eauto.
    + intros b Hb'.
      destruct (Hres b Hb') as [(x & t' & Hx & ->)|[k' Hk']].
      * left. exists x, t'. split; [|done]. apply elem_of_app. by left.
      * right. exists k'. by eapply bucket_of_key_mono.
    + intros k' acc. rewrite lookup_insert. case_decide.
      * intros [= <-]. subst. done.
      * intros Hk'. eapply bucket_of_key_mono; [done|]. by eapply Hacc.
Qed.

Lemma assign_items_inv limits items : ∀ done st,
  limits ≠ [] → assign_inv limits done st →
  ∃ st', assign_items limits items st = Ok st' ∧ assign_inv limits (done ++ items) st'.
Proof.
  induction items as [|it items IH]; intros done st Hl Hinv; simpl.
  - exists st. by rewrite app_nil_r.
  - destruct (assign_item_inv limits done it st Hl Hinv) as (st1 & -> & Hinv1). simpl.
    destruct (IH _ _ Hl Hinv1) as (st' & Hst' & Hinv').
    exists st'. split; [done|]. by rewrite <- (assoc_L (++)) in Hinv'.
Qed.

Lemma concat_Permutation_proper {A} (l l' : list (list A)) :
  l ≡ₚ l' → concat l ≡ₚ concat l'.
Proof.
  induction 1 as [|x l l' _ IH|x y l|l1 l2 l3 _ IH1 _ IH2]; simpl.
  - done.
  - by rewrite IH.
  - rewrite !(assoc_L (++)). f_equiv. apply Permutation_app_comm.
  - by rewrite IH1.
Qed.

Lemma filter_none {A} (P : A → Prop) `{∀ x, Decision (P x)} (l : list A) :
  Forall (λ x, ¬ P x) l → filter P l = [].
Proof.
  induction 1 as [|x l Hx _ IH]; [done|].
  rewrite filter_cons. by destruct (decide (P x)).
Qed.

Lemma in_one_bucket (l : list (list nat)) x :
  NoDup (concat l) → x ∈ concat l → length (filter (λ b, x ∈ b) l) = 1.
Proof.
  induction l as [|b l IH]; simpl; intros Hnd Hx.
  - by apply elem_of_nil in Hx.
  - apply NoDup_app in Hnd as (Hb & Hdisj & Hl).
    rewrite filter_cons. destruct (decide (x ∈ b)) as [Hxb|Hxb]; simpl.
    + f_equal. rewrite filter_none; [done|].
      apply Forall_forall. intros c Hc Hxc.
      apply (Hdisj x Hxb). apply list_elem_of_In, in_concat.
      exists c. split; by apply list_elem_of_In.
    + apply IH; [done|]. apply elem_of_app in Hx as [|]; done.
Qed.

Lemma items_from_index flags tidx ts : ∀ i,
  item_index <$> items_from flags tidx i ts = intended_index tidx <$> seq i (length ts).
Proof. induction ts as [|t ts IH]; intros i; simpl; [done|]. by rewrite IH. Qed.

Lemma elem_of_items_from flags tidx ts x sp t : ∀ i,
  (x, sp, t) ∈ items_from flags tidx i ts ↔
  ∃ j, ts !! j = Some t ∧ x = intended_index tidx (i + j) ∧ sp = sparse_flag flags x.
Proof.
  induction ts as [|u ts IH]; intros i; simpl.
  - split; [by intros ?%elem_of_nil|]. by intros (j & ? & _).
  - rewrite elem_of_cons, IH. split.
    + intros [?|(j & Hj & -> & ->)]; simplify_eq.
      * exists 0. by rewrite Nat.add_0_r.
      * exists (S j). by rewrite Nat.add_succ_r.
    + intros ([|j] & Hj & -> & ->); simpl in Hj.
      * left. rewrite Nat.add_0_r. by simplify_eq.
      * right. exists j. by rewrite Nat.add_succ_r.
Qed.

Lemma intended_index_inj tidx n i j :
  NoDup (intended_indices tidx n) → i < n → j < n →
  intended_index tidx i = intended_index tidx j → i = j.
Proof.
  intros Hnd Hi Hj Heq.
  eapply (NoDup_lookup _ i j _ Hnd); unfold intended_indices;
    rewrite list_lookup_fmap, lookup_seq_lt by done; simpl; [done|by rewrite Heq].
Qed.

Lemma is_bucket_assignment_Permutation tensors flags tidx l l' :
  l ≡ₚ l' → is_bucket_assignment tensors flags tidx l →
  is_bucket_assignment tensors flags tidx l'.
Proof.
  intros Hp (H1 & H2 & H3 & H4 & H5). repeat split.
  - by rewrite <- (concat_Permutation_proper _ _ Hp).
  - intros x Hx. rewrite <- Hp. by apply H2.
  - by rewrite <- Hp.
  - intros i Hi Hf. rewrite <- Hp. by apply H4.
  - eapply H5; [by rewrite Hp|done..].
  - eapply H5; [by rewrite Hp|done..].
Qed.

(** The loop succeeds on well-formed input and keeps its invariant. *)
Lemma assign_loop_inv limits flags tidx tensors :
  limits ≠ [] →
  Forall (λ t, is_sparse t = false) tensors →
  (tidx = [] ∨ length tidx = length tensors) →
  (flags ≠ [] → ∀ i, i < length tensors → intended_index tidx i < length flags) →
  ∃ st, assign_loop limits flags tidx 0 tensors AssignState_init = Ok st ∧
        assign_inv limits (items_from flags tidx 0 tensors) st.
Proof.
  intros Hl Hd Hi Hf.
  rewrite assign_loop_items; [|done| |].
  - apply (assign_items_inv limits _ [] _ Hl (assign_inv_init limits)).
  - destruct Hi as [|Hi]; [by left|right; simpl; lia].
  - destruct flags as [|b flags]; [by left|right].
    intros j Hj. apply Hf; [done|lia].
Qed.

Lemma assign_inv_buckets rank limits items st b :
  assign_inv limits items st →
  b ∈ as_result st ++ remaining_buckets rank (as_buckets st) →
  (∃ x t, (x, true, t) ∈ items ∧ b = [x]) ∨ ∃ k, bucket_of_key items k b.
Proof.
  intros (_ & _ & _ & _ & Hres & Hacc) Hb.
  apply elem_of_app in Hb as [Hb|Hb]; [by apply Hres|].
  right. unfold remaining_buckets in Hb.
  apply list_elem_of_filter in Hb as [_ Hb].
  apply list_elem_of_fmap in Hb as ([k acc] & -> & Hb).
  rewrite unordered_map_items_Permutation in Hb.
  apply elem_of_map_to_list in Hb. exists k. by apply Hacc.
Qed.

Lemma assign_inv_assignment rank limits flags tidx tensors st :
  NoDup (intended_indices tidx (length tensors)) →
  assign_inv limits (items_from flags tidx 0 tensors) st →
  is_bucket_assignment tensors flags tidx
    (as_result st ++ remaining_buckets rank (as_buckets st)).
Proof.
  intros Hnd Hinv.
  pose proof (λ b, assign_inv_buckets rank _ _ _ b Hinv) as Hall.
  destruct Hinv as (_ & Hperm & Hne & Hsp & Hres & Hacc).
  rewrite items_from_index in Hperm. fold (intended_indices tidx (length tensors)) in Hperm.
  assert (concat (as_result st ++ remaining_buckets rank (as_buckets st))
          ≡ₚ intended_indices tidx (length tensors)) as Hc.
  { by rewrite concat_app, remaining_buckets_Permutation. }
  assert (∀ b i j t u, b ∈ as_result st ++ remaining_buckets rank (as_buckets st) →
            tensors !! i = Some t → tensors !! j = Some u →
            intended_index tidx i ∈ b → intended_index tidx j ∈ b →
            bucket_key t = bucket_key u) as Hmix.
  { intros b i j t u Hb Hi Hj Hib Hjb.
    destruct (Hall b Hb) as [(x & ? & _ & ->)|[k Hk]].
    - apply list_elem_of_singleton in Hib, Hjb.
      assert (i = j) as ->; [|by simplify_eq].
      eapply intended_index_inj; [done|by eapply lookup_lt_Some..|congruence].
    - destruct (Hk _ Hib) as (t1 & Hit1 & Hk1). destruct (Hk _ Hjb) as (t2 & Hit2 & Hk2).
      apply elem_of_items_from in Hit1 as (j1 & Hj1 & Heq1 & _).
      apply elem_of_items_from in Hit2 as (j2 & Hj2 & Heq2 & _). simpl in *.
      apply intended_index_inj with (n := length tensors) in Heq1;
        [|done|by eapply lookup_lt_Some..].
      apply intended_index_inj with (n := length tensors) in Heq2;
        [|done|by eapply lookup_lt_Some..].
      subst i j. congruence. }
  repeat split.
  - done.
  - intros x Hx. apply in_one_bucket; by rewrite Hc.
  - apply Forall_app. split; [done|]. unfold remaining_buckets.
    apply Forall_forall. by intros b [? _]%list_elem_of_filter.
  - intros i Hi Hfl. apply elem_of_app. left.
    apply lookup_lt_is_Some in Hi as [t Ht].
    apply (Hsp _ t). apply elem_of_items_from. exists i. by rewrite Hfl.
  - by injection (Hmix _ _ _ _ _ H H0 H1 H2 H3).
  - by injection (Hmix _ _ _ _ _ H H0 H1 H2 H3).
Qed.

Lemma intended_indices_default n : intended_indices [] n = seq 0 n.
Proof. unfold intended_indices. simpl. apply list_fmap_id. Qed.

Lemma intended_indices_explicit tidx :
  tidx ≠ [] → intended_indices tidx (length tidx) = Z.to_nat ∘ to_size_t <$> tidx.
Proof.
  intros Hne. apply list_eq. intros i. unfold intended_indices.
  rewrite !list_lookup_fmap.
  destruct (decide (i < length tidx)) as [Hi|Hi].
  - rewrite lookup_seq_lt by done. simpl.
    apply lookup_lt_is_Some in Hi as [z Hz]. rewrite Hz. simpl.
    unfold intended_index. destruct tidx; [done|]. by rewrite Hz.
  - rewrite lookup_seq_ge by lia. by rewrite lookup_ge_None_2 by lia.
Qed.

Lemma explicit_indices_ok_facts tensors flags tidx :
  (flags = [] ∨ length flags = length tensors) →
  explicit_indices_ok tensors flags tidx →
  (tidx = [] ∨ length tidx = length tensors) ∧
  (flags ≠ [] → ∀ i, i < length tensors → intended_index tidx i < length flags) ∧
  NoDup (intended_indices tidx (length tensors)).
Proof.
  intros Hf [->|(Hlen & Hnd & Hin)].
  - split; [by left|]. split.
    + intros Hne i Hi. simpl. destruct Hf; [done|lia].
    + rewrite intended_indices_default. apply NoDup_seq.
  - split; [by right|]. split.
    + intros Hne i Hi. specialize (Hin Hne).
      rewrite <- Hlen in Hi. apply lookup_lt_is_Some in Hi as [z Hz].
      unfold intended_index. destruct tidx; [done|]. rewrite Hz. simpl.
      rewrite Forall_forall in Hin. apply Hin. by eapply list_elem_of_lookup_2.
    + destruct (decide (tidx = [])) as [->|Hne].
      * rewrite intended_indices_default. apply NoDup_seq.
      * rewrite <- Hlen. by rewrite intended_indices_explicit.
Qed.

Lemma compute_bucket_assignment_unfold rank tensors limits flags tidx st :
  tensors ≠ [] → (flags = [] ∨ length flags = length tensors) →
  assign_loop limits flags tidx 0 tensors AssignState_init = Ok st →
  compute_bucket_assignment_by_size rank tensors limits flags tidx =
  Ok (let result := as_result st ++ remaining_buckets rank (as_buckets st) in
      match tidx with [] => std_sort_by_min result | _ => result end).
Proof.
  intros Hne Hf Hst. unfold compute_bucket_assignment_by_size.
  assert (bool_decide (flags = []) || bool_decide (length tensors = length flags) = true) as ->.
  { destruct Hf as [->|Hf]; [done|]. apply orb_true_iff. right.
    by apply bool_decide_eq_true. }
  simpl. rewrite bool_decide_eq_true_2 by (destruct tensors; [done|simpl; lia]).
  simpl. by rewrite Hst.
Qed.

(** C2, amended. Given a non-empty list of dense-layout tensors, at least one
    budget, a flag vector that is empty or has one flag per tensor, and
    explicit indices that are absent or else one per tensor, pairwise
    different and inside the flag vector, the function returns buckets that
    partition the recorded indices, each in exactly one bucket; no bucket is
    empty; every tensor whose flag is set is a bucket of its own; the tensors
    of one bucket have the same dtype and device. *)
Theorem compute_bucket_assignment_partition rank tensors limits flags tidx :
  tensors ≠ [] →
  limits ≠ [] →
  (flags = [] ∨ length flags = length tensors) →
  Forall (λ t, is_sparse t = false) tensors →
  explicit_indices_ok tensors flags tidx →
  ∃ buckets,
    compute_bucket_assignment_by_size rank tensors limits flags tidx = Ok buckets ∧
    is_bucket_assignment tensors flags tidx buckets.
Proof.
  intros Hne Hl Hf Hd Hidx.
  destruct (explicit_indices_ok_facts _ _ _ Hf Hidx) as (Hi & Hin & Hnd).
  destruct (assign_loop_inv limits flags tidx tensors Hl Hd Hi Hin) as (st & Hst & Hinv).
  rewrite (compute_bucket_assignment_unfold _ _ _ _ _ _ Hne Hf Hst).
  eexists. split; [done|].
  pose proof (assign_inv_assignment rank _ _ _ _ _ Hnd Hinv) as Hprops.
  simpl. destruct tidx; [|done].
  eapply is_bucket_assignment_Permutation; [|done].
  unfold std_sort_by_min. by rewrite merge_sort_Permutation.
Qed.
Lemma compute_bucket_assignment_partition_witness :
  sample_params ≠ [] ∧ [8; 16]%Z ≠ [] ∧
  (([] : list bool) = [] ∨ length ([] : list bool) = length sample_params) ∧
  Forall (λ t, is_sparse t = false) sample_params ∧
  explicit_indices_ok sample_params [] [3; 1; 0; 2]%Z ∧
  ∃ buckets,
    compute_bucket_assignment_by_size sample_rank sample_params [8; 16]%Z []
      [3; 1; 0; 2]%Z = Ok buckets ∧
    is_bucket_assignment sample_params [] [3; 1; 0; 2]%Z buckets.
Proof.
  assert (sample_params ≠ []) as H1 by done.
  assert ([8; 16]%Z ≠ []) as H2 by done.
  assert (([] : list bool) = [] ∨ length ([] : list bool) = length sample_params) as H3 by (by left).
  assert (Forall (λ t, is_sparse t = false) sample_params) as H4
    by (repeat constructor).
  assert (explicit_indices_ok sample_params [] [3; 1; 0; 2]%Z) as H5.
  { right. split; [reflexivity|]. split; [|done].
    apply (bool_decide_unpack _). vm_compute. exact I. }
  exact (conj H1 (conj H2 (conj H3 (conj H4 (conj H5
    (compute_bucket_assignment_partition sample_rank _ _ _ _ H1 H2 H3 H4 H5)))))).
Defined.

(** C2 as stated fails: a one-element list holding a tensor of sparse layout
    is a non-empty tensor list, [[1]] is a budget sequence of length one and
    the flag vector is empty, yet the function throws. *)
Lemma compute_bucket_assignment_sparse_layout_counterexample :
  let tensors := [sample_tensor Float Sparse 1 4] in
  tensors ≠ [] ∧ length [1%Z] ≥ 1 ∧
  compute_bucket_assignment_by_size sample_rank tensors [1%Z] [] [] =
    Err (TorchCheck "No support for sparse tensors.") ∧
  ¬ ∃ buckets,
      compute_bucket_assignment_by_size sample_rank tensors [1%Z] [] [] = Ok buckets ∧
      is_bucket_assignment tensors [] [] buckets.
Proof.
  split; [done|]. split; [simpl; lia|]. split; [reflexivity|].
  intros (buckets & Hb & _). discriminate Hb.
Qed.

Lemma assign_loop_app limits flags tidx l1 l2 : ∀ i st,
  assign_loop limits flags tidx i (l1 ++ l2) st =
  st' ← assign_loop limits flags tidx i l1 st;
  assign_loop limits flags tidx (i + length l1) l2 st'.
Proof.
  induction l1 as [|t l1 IH]; intros i st; simpl.
  - by rewrite Nat.add_0_r.
  - destruct (assign_step limits flags tidx i t st); simpl; [|done].
    rewrite IH. by rewrite Nat.add_succ_r.
Qed.

Lemma assign_loop_sparse_layout limits flags tidx ts t : ∀ i st,
  t ∈ ts → is_sparse t = true →
  ∃ e, assign_loop limits flags tidx i ts st = Err e.
Proof.
  induction ts as [|u ts IH]; intros i st Hin Ht; [by apply elem_of_nil in Hin|].
  simpl. apply elem_of_cons in Hin as [<-|Hin].
  - unfold assign_step. rewrite Ht. simpl. eauto.
  - destruct (assign_step limits flags tidx i u st); simpl; eauto.
Qed.

(** C10. A tensor of sparse layout anywhere in the input makes the function
    fail, whatever the flag vector says about it; when everything before it
    is in order, the failure is the check "No support for sparse tensors.". *)
Theorem compute_bucket_assignment_rejects_sparse_layout
    rank pre t post limits flags tidx :
  is_sparse t = true →
  (∃ e, compute_bucket_assignment_by_size rank (pre ++ t :: post) limits flags tidx
        = Err e) ∧
  (limits ≠ [] →
   Forall (λ u, is_sparse u = false) pre →
   (flags = [] ∨ length flags = length (pre ++ t :: post)) →
   (tidx = [] ∨ length tidx = length (pre ++ t :: post)) →
   (flags ≠ [] → ∀ i, i < length pre → intended_index tidx i < length flags) →
   compute_bucket_assignment_by_size rank (pre ++ t :: post) limits flags tidx
   = Err (TorchCheck "No support for sparse tensors.")).
Proof.
  intros Ht. split.
  - unfold compute_bucket_assignment_by_size.
    destruct (bool_decide (flags = []) || _); simpl; [|eauto].
    destruct (bool_decide (0 < _)); simpl; [|eauto].
    assert (t ∈ pre ++ t :: post) as Hin by (apply elem_of_app; right; by left).
    destruct (assign_loop_sparse_layout limits flags tidx (pre ++ t :: post) t 0
                AssignState_init Hin Ht) as [e ->].
    simpl. eauto.
  - intros Hl Hpre Hf Hi Hin.
    unfold compute_bucket_assignment_by_size.
    assert (bool_decide (flags = []) ||
            bool_decide (length (pre ++ t :: post) = length flags) = true) as ->.
    { destruct Hf as [->|Hf]; [done|]. apply orb_true_iff. right.
      by apply bool_decide_eq_true. }
    simpl. rewrite bool_decide_eq_true_2 by (rewrite length_app; simpl; lia).
    simpl. rewrite assign_loop_app.
    rewrite assign_loop_items; [|done| |].
    + destruct (assign_items_inv limits (items_from flags tidx 0 pre) [] _ Hl
                  (assign_inv_init limits)) as (st & -> & _).
      simpl. unfold assign_step. by rewrite Ht.
    + destruct Hi as [|Hi]; [by left|right]. rewrite Hi, length_app. simpl. lia.
    + destruct flags as [|b flags]; [by left|right].
      intros j Hj. apply Hin; [done|lia].
Qed.

Lemma compute_bucket_assignment_rejects_sparse_layout_witness :
  let t := sample_tensor Float Sparse 1 4 in
  let pre := [sample_tensor Float Strided 1 4] in
  is_sparse t = true ∧
  (∃ e, compute_bucket_assignment_by_size sample_rank (pre ++ t :: []) [8%Z]
          [false; true] [] = Err e) ∧
  compute_bucket_assignment_by_size sample_rank (pre ++ t :: []) [8%Z]
    [false; true] [] = Err (TorchCheck "No support for sparse tensors.").
Proof.
  intros t pre.
  assert (is_sparse t = true) as Ht by reflexivity.
  destruct (compute_bucket_assignment_rejects_sparse_layout sample_rank pre t []
              [8%Z] [false; true] [] Ht) as [H1 H2].
  split; [exact Ht|]. split; [exact H1|].
  apply H2.
  - discriminate.
  - repeat constructor.
  - right. reflexivity.
  - left. reflexivity.
  - intros _ i Hi. simpl in *. lia.
Defined.
(** Where the loop has put an unflagged tensor: into a finished bucket of
    its dtype and device, or into the open bucket of its dtype and device. *)
Lemma assign_item_placed limits done it st st' :
  limits ≠ [] → assign_inv limits done st →
  (∀ x t, (x, false, t) ∈ done →
     (∃ b, b ∈ as_result st ∧ x ∈ b ∧ bucket_of_key done (bucket_key t) b) ∨
     (∃ acc, as_buckets st !! bucket_key t = Some acc ∧ x ∈ acc_indices acc)) →
  assign_item limits it st = Ok st' →
  ∀ x t, (x, false, t) ∈ done ++ [it] →
    (∃ b, b ∈ as_result st' ∧ x ∈ b ∧ bucket_of_key (done ++ [it]) (bucket_key t) b) ∨
    (∃ acc, as_buckets st' !! bucket_key t = Some acc ∧ x ∈ acc_indices acc).
Proof.
  intros Hl Hinv Hplaced Hrun x u Hx.
  pose proof Hinv as (Hok & _ & _ & _ & _ & Hacc).
  assert (done ⊆ done ++ [it]) as Hsub by (intros y Hy; apply elem_of_app; by left).
  destruct it as [[idx sp] t]. unfold assign_item in Hrun. destruct sp.
  - injection Hrun as <-. simpl.
    apply elem_of_app in Hx as [Hx|Hx]; [|by apply list_elem_of_singleton in Hx].
    destruct (Hplaced x u Hx) as [(b & Hb & Hxb & Hkey)|Hpending]; [left|by right].
    exists b. split; [apply elem_of_app; by left|]. split; [done|].
    by eapply bucket_of_key_mono.
  - destruct (assign_dense_effect limits t idx st Hl Hok) as (st1 & Hrun1 & _ & Heff).
    rewrite Hrun1 in Hrun. injection Hrun as ->.
    set (k := bucket_key t) in *.
    set (acc0 := acc_indices (default BucketAccumulator_new (as_buckets st !! k))) in *.
    assert (bucket_of_key (done ++ [(idx, false, t)]) k (acc0 ++ [idx])) as Hnew.
    { intros y Hy. apply elem_of_app in Hy as [Hy|Hy].
      - unfold acc0 in Hy. destruct (as_buckets st !! k) as [acc|] eqn:E; simpl in Hy.
        + destruct (Hacc k acc E y Hy) as (t' & Ht' & Hk'). exists t'.
          split; [|done]. apply elem_of_app. by left.
        + by apply elem_of_nil in Hy.
      - apply list_elem_of_singleton in Hy. subst. exists t. split; [|done].
        apply elem_of_app. right. by left. }
    assert (x ∈ acc0 ++ [idx] ∧ bucket_key u = k ∨
            (∃ b, b ∈ as_result st ∧ x ∈ b ∧ bucket_of_key done (bucket_key u) b) ∨
            (bucket_key u ≠ k ∧
             ∃ acc, as_buckets st !! bucket_key u = Some acc ∧ x ∈ acc_indices acc))
      as Hcases.
    { apply elem_of_app in Hx as [Hx|Hx].
      - destruct (Hplaced x u Hx) as [Hres|(acc & Hlook & Hxa)]; [by right; left|].
        destruct (decide (bucket_key u = k)) as [Hk|Hk]; [|right; right; eauto].
        left. split; [|done]. apply elem_of_app. left. unfold acc0.
        by rewrite <- Hk, Hlook.
      - apply list_elem_of_singleton in Hx. injection Hx as -> ->. left.
        split; [|done]. apply elem_of_app. right. by left. }
    destruct Heff as [[Hr Hb]|[Hr [sz Hb]]]; rewrite Hr, Hb.
    + destruct Hcases as [[Hin Hk]|[(b & Hb' & Hxb & Hkey)|(Hk & acc & Hlook & Hxa)]].
      * left. exists (acc0 ++ [idx]). split; [apply elem_of_app; right; by left|].
        split; [done|]. by rewrite Hk.
      * left. exists b. split; [apply elem_of_app; by left|]. split; [done|].
        by eapply bucket_of_key_mono.
      * right. exists acc. by rewrite lookup_insert_ne.
    + destruct Hcases as [[Hin Hk]|[(b & Hb' & Hxb & Hkey)|(Hk & acc & Hlook & Hxa)]].
      * right. eexists. rewrite Hk, lookup_insert_eq. split; [done|]. done.
      * left. exists b. split; [done|]. split; [done|]. by eapply bucket_of_key_mono.
      * right. exists acc. by rewrite lookup_insert_ne.
Qed.

Lemma assign_items_placed limits items : ∀ done st st',
  limits ≠ [] → assign_inv limits done st →
  (∀ x t, (x, false, t) ∈ done →
     (∃ b, b ∈ as_result st ∧ x ∈ b ∧ bucket_of_key done (bucket_key t) b) ∨
     (∃ acc, as_buckets st !! bucket_key t = Some acc ∧ x ∈ acc_indices acc)) →
  assign_items limits items st = Ok st' →
  ∀ x t, (x, false, t) ∈ done ++ items →
    (∃ b, b ∈ as_result st' ∧ x ∈ b ∧ bucket_of_key (done ++ items) (bucket_key t) b) ∨
    (∃ acc, as_buckets st' !! bucket_key t = Some acc ∧ x ∈ acc_indices acc).
Proof.
  induction items as [|it items IH]; intros done st st' Hl Hinv Hplaced Hrun; simpl in Hrun.
  - injection Hrun as <-. by rewrite app_nil_r.
  - destruct (assign_item_inv limits done it st Hl Hinv) as (st1 & Hst1 & Hinv1).
    rewrite Hst1 in Hrun. simpl in Hrun.
    rewrite (cons_middle it), (assoc_L (++)).
    apply (IH _ st1); [done|done| |done].
    by apply (assign_item_placed limits done it st).
Qed.

(** Every unflagged tensor is in a returned bucket of its dtype and device. *)
Lemma assign_loop_placed rank limits flags tidx tensors st :
  limits ≠ [] →
  Forall (λ t, is_sparse t = false) tensors →
  (tidx = [] ∨ length tidx = length tensors) →
  (flags ≠ [] → ∀ i, i < length tensors → intended_index tidx i < length flags) →
  assign_loop limits flags tidx 0 tensors AssignState_init = Ok st →
  ∀ x t, (x, false, t) ∈ items_from flags tidx 0 tensors →
    ∃ b, b ∈ as_result st ++ remaining_buckets rank (as_buckets st) ∧ x ∈ b ∧
         bucket_of_key (items_from flags tidx 0 tensors) (bucket_key t) b.
Proof.
  intros Hl Hd Hi Hf Hrun x t Hx.
  destruct (assign_loop_inv limits flags tidx tensors Hl Hd Hi Hf) as (st1 & Hst1 & Hinv).
  rewrite Hrun in Hst1. injection Hst1 as <-.
  rewrite assign_loop_items in Hrun; [|done| |].
  2:{ destruct Hi as [|Hi]; [by left|right; simpl; lia]. }
  2:{ destruct flags as [|b flags]; [by left|right].
      intros j Hj. apply Hf; [done|lia]. }
  destruct (assign_items_placed limits (items_from flags tidx 0 tensors) []
              AssignState_init st Hl (assign_inv_init limits)) with x t
    as [(b & Hb & Hxb & Hkey)|(acc & Hlook & Hxa)]; [|done|done| |].
  - intros y u Hy. by apply elem_of_nil in Hy.
  - exists b. split; [apply elem_of_app; by left|done].
  - destruct Hinv as (_ & _ & _ & _ & _ & Hacc).
    exists (acc_indices acc). split; [|split; [done|by eapply Hacc]].
    apply elem_of_app. right. unfold remaining_buckets.
    apply list_elem_of_filter. split; [by intros Hnil; rewrite Hnil in Hxa; apply elem_of_nil in Hxa|].
    apply list_elem_of_fmap. exists (bucket_key t, acc). split; [done|].
    rewrite unordered_map_items_Permutation. by apply elem_of_map_to_list.
Qed.

(** C9. With explicit indices, the flag that decides about the tensor at
    position [i] is the one stored at [tensor_indices[i]], and the buckets
    are made of the recorded indices: a tensor whose recorded index is
    flagged is a bucket of its own, whatever the flag at its position is; a
    tensor whose recorded index is not flagged is put, under its recorded
    index, into a bucket that holds only recorded indices of unflagged
    tensors of the same dtype and device; and it shares no bucket with a
    flagged index. The flag vector is therefore indexed by recorded index,
    not by position. *)
Theorem compute_bucket_assignment_flag_by_recorded_index
    rank tensors limits flags tidx :
  tensors ≠ [] →
  limits ≠ [] →
  tidx ≠ [] →
  length flags = length tensors →
  length tidx = length tensors →
  Forall (λ t, is_sparse t = false) tensors →
  Forall (λ z, Z.to_nat (to_size_t z) < length flags) tidx →
  ∃ buckets,
    compute_bucket_assignment_by_size rank tensors limits flags tidx = Ok buckets ∧
    concat buckets ≡ₚ Z.to_nat ∘ to_size_t <$> tidx ∧
    (∀ i z, tidx !! i = Some z →
       flags !! Z.to_nat (to_size_t z) = Some true →
       [Z.to_nat (to_size_t z)] ∈ buckets) ∧
    (∀ i z t, tidx !! i = Some z → tensors !! i = Some t →
       flags !! Z.to_nat (to_size_t z) = Some false →
       ∃ b, b ∈ buckets ∧ Z.to_nat (to_size_t z) ∈ b ∧
         ∀ y, y ∈ b →
           flags !! y = Some false ∧
           ∃ j zj u, tidx !! j = Some zj ∧ Z.to_nat (to_size_t zj) = y ∧
                     tensors !! j = Some u ∧
                     t_dtype u = t_dtype t ∧ t_device u = t_device t) ∧
    (∀ i z b, tidx !! i = Some z →
       flags !! Z.to_nat (to_size_t z) = Some false →
       b ∈ buckets → Z.to_nat (to_size_t z) ∈ b →
       ∀ x, x ∈ b → flags !! x = Some false).
Proof.
  intros Hne Hl Hti Hfl Htl Hd Hin.
  assert (∀ i z, tidx !! i = Some z → intended_index tidx i = Z.to_nat (to_size_t z)) as Hint.
  { intros i z Hz. unfold intended_index. destruct tidx; [done|]. by rewrite Hz. }
  assert (∀ i, i < length tensors → intended_index tidx i < length flags) as Hin'.
  { intros i Hi. rewrite <- Htl in Hi. apply lookup_lt_is_Some in Hi as [z Hz].
    rewrite (Hint _ _ Hz). rewrite Forall_forall in Hin. apply Hin.
    by eapply list_elem_of_lookup_2. }
  destruct (assign_loop_inv limits flags tidx tensors Hl Hd (or_intror Htl)
              (λ _, Hin')) as (st & Hst & Hinv).
  pose proof (assign_loop_placed rank limits flags tidx tensors st Hl Hd (or_intror Htl)
                (λ _, Hin') Hst) as Hplaced.
  rewrite (compute_bucket_assignment_unfold _ _ _ _ _ _ Hne (or_intror Hfl) Hst).
  eexists. split; [done|]. simpl.
  assert ((match tidx with
           | [] => std_sort_by_min (as_result st ++ remaining_buckets rank (as_buckets st))
           | _ :: _ => as_result st ++ remaining_buckets rank (as_buckets st)
           end) = as_result st ++ remaining_buckets rank (as_buckets st)) as ->
    by (by destruct tidx).
  assert (∀ y u, (y, false, u) ∈ items_from flags tidx 0 tensors →
            flags !! y = Some false ∧
            ∃ j zj, tidx !! j = Some zj ∧ Z.to_nat (to_size_t zj) = y ∧
                    tensors !! j = Some u) as Hitem.
  { intros y u Hit. apply elem_of_items_from in Hit as (j & Hj & Hy & Hsf). simpl in Hy.
    assert (j < length tidx) as Hlt by (rewrite Htl; by eapply lookup_lt_Some).
    apply lookup_lt_is_Some in Hlt as [zj Hzj]. rewrite (Hint _ _ Hzj) in Hy.
    split; [|by exists j, zj].
    assert (y < length flags) as Hyl.
    { subst y. rewrite Forall_forall in Hin. apply Hin. by eapply list_elem_of_lookup_2. }
    apply lookup_lt_is_Some in Hyl as [f Hf]. unfold sparse_flag in Hsf.
    rewrite Hf in Hsf. simpl in Hsf. by subst f. }
  split_and!.
  - destruct Hinv as (_ & Hperm & _).
    rewrite concat_app, remaining_buckets_Permutation, Hperm, items_from_index.
    fold (intended_indices tidx (length tensors)).
    by rewrite <- Htl, intended_indices_explicit.
  - intros i z Hz Hflag. destruct Hinv as (_ & _ & _ & Hsp & _).
    assert (i < length tensors) as Hi by (rewrite <- Htl; by eapply lookup_lt_Some).
    apply lookup_lt_is_Some in Hi as [t Ht].
    apply elem_of_app. left. apply (Hsp _ t). apply elem_of_items_from.
    exists i. split; [done|]. simpl. split; [symmetry; by apply Hint|].
    unfold sparse_flag. by rewrite Hflag.
  - intros i z t Hz Ht Hflag.
    destruct (Hplaced (Z.to_nat (to_size_t z)) t) as (b & Hb & Hxb & Hkey).
    { apply elem_of_items_from. exists i. split; [done|]. simpl.
      split; [symmetry; by apply Hint|]. unfold sparse_flag. by rewrite Hflag. }
    exists b. split; [done|]. split; [done|]. intros y Hy.
    destruct (Hkey y Hy) as (u & Hit & Hk).
    destruct (Hitem y u Hit) as (Hfy & j & zj & Hj & Hzj & Hu).
    split; [done|]. exists j, zj, u. injection Hk as Hdt Hdev. done.
  - intros i z b Hz Hflag Hb Hzb x Hx.
    destruct (assign_inv_buckets rank _ _ _ b Hinv Hb) as [(x' & t & Hit & ->)|[k Hk]].
    + apply list_elem_of_singleton in Hx, Hzb. by subst.
    + destruct (Hk _ Hx) as (t & Hit & _). by destruct (Hitem x t Hit).
Qed.

(** Three tensors recorded as 2, 0 and 1: the float tensor at position 0 is
    a bucket of its own because index 2 is flagged, although the flag at
    position 0 is not set; the float tensor at position 2 is not, although
    the flag at position 2 is set. *)
Lemma compute_bucket_assignment_flag_by_recorded_index_witness :
  let tensors := [sample_tensor Float Strided 1 4; sample_tensor Double Strided 1 8;
                  sample_tensor Float Strided 1 4] in
  let flags := [false; false; true] in
  let tidx := [2; 0; 1]%Z in
  compute_bucket_assignment_by_size sample_rank tensors [100%Z] flags tidx
    = Ok [[2]; [1]; [0]] ∧
  ∃ buckets,
    compute_bucket_assignment_by_size sample_rank tensors [100%Z] flags tidx = Ok buckets ∧
    concat buckets ≡ₚ Z.to_nat ∘ to_size_t <$> tidx ∧
    (∀ i z, tidx !! i = Some z →
       flags !! Z.to_nat (to_size_t z) = Some true →
       [Z.to_nat (to_size_t z)] ∈ buckets) ∧
    (∀ i z t, tidx !! i = Some z → tensors !! i = Some t →
       flags !! Z.to_nat (to_size_t z) = Some false →
       ∃ b, b ∈ buckets ∧ Z.to_nat (to_size_t z) ∈ b ∧
         ∀ y, y ∈ b →
           flags !! y = Some false ∧
           ∃ j zj u, tidx !! j = Some zj ∧ Z.to_nat (to_size_t zj) = y ∧
                     tensors !! j = Some u ∧
                     t_dtype u = t_dtype t ∧ t_device u = t_device t) ∧
    (∀ i z b, tidx !! i = Some z →
       flags !! Z.to_nat (to_size_t z) = Some false →
       b ∈ buckets → Z.to_nat (to_size_t z) ∈ b →
       ∀ x, x ∈ b → flags !! x = Some false).
Proof.
  intros tensors flags tidx. split; [reflexivity|].
  apply compute_bucket_assignment_flag_by_recorded_index.
  - discriminate.
  - discriminate.
  - discriminate.
  - reflexivity.
  - reflexivity.
  - repeat constructor.
  - repeat constructor; vm_compute; lia.
Defined.
Local Arguments Nat.min : simpl never.

Lemma total_bytes_nonneg tensors :
  Forall (λ t, (0 ≤ t_element_size t)%Z) tensors → (0 ≤ total_bytes tensors)%Z.
Proof.
  induction 1 as [|t l Ht _ IH]; simpl; [done|]. unfold tensor_bytes. nia.
Qed.

Lemma refines_step limits bound st s idx sp t :
  limits ≠ [] →
  (0 ≤ bound)%Z → (0 ≤ t_element_size t)%Z → (bound + tensor_bytes t < two64)%Z →
  refines limits bound st s →
  ∃ st', assign_item limits (idx, sp, t) st = Ok st' ∧
         refines limits (bound + tensor_bytes t) st' (reference_step limits idx sp t s).
Proof.
  intros Hl Hb Hes Hov (Hres & Hbk & Hit & Hg). destruct s as [emitted groups].
  simpl in *.
  assert (0 ≤ tensor_bytes t)%Z as Hbytes by (unfold tensor_bytes; nia).
  destruct sp; simpl.
  { eexists. split; [done|]. split_and!; simpl; [by rewrite Hres|done..|].
    intros k g Hk. destruct (Hg k g Hk). lia. }
  unfold assign_dense.
  set (k := bucket_key t).
  rewrite Hbk, Hit, !lookup_fmap.
  assert (∃ g, default Group_new (groups !! k) = g ∧
               (0 ≤ g_running_size g ≤ bound)%Z ∧ g_budget_pointer g < length limits)
    as (g & Hgdef & Hgs & Hgp).
  { destruct (groups !! k) as [g|] eqn:E; simpl.
    - exists g. split; [done|]. by apply (Hg k).
    - exists Group_new. split; [done|]. simpl. split; [lia|].
      destruct limits; [done|simpl; lia]. }
  assert (default 0 ((match g_budget_pointer <$> groups !! k with
                      | Some _ => g_budget_pointer <$> groups
                      | None => <[k:=0]> (g_budget_pointer <$> groups)
                      end) !! k) = g_budget_pointer g) as ->.
  { destruct (groups !! k) as [g'|] eqn:E; simpl in *.
    - rewrite lookup_fmap, E. simpl. by subst.
    - rewrite lookup_insert_eq. by subst. }
  assert (acc_indices (default BucketAccumulator_new (Group_accumulator <$> groups !! k))
          = g_accumulator g) as ->.
  { destruct (groups !! k); simpl in *; by subst. }
  assert (acc_size (default BucketAccumulator_new (Group_accumulator <$> groups !! k))
          = g_running_size g) as ->.
  { destruct (groups !! k); simpl in *; by subst. }
  fold (tensor_bytes t).
  assert (((g_running_size g + tensor_bytes t mod two64) mod two64)%Z
          = (g_running_size g + tensor_bytes t)%Z) as ->.
  { rewrite (Z.mod_small (tensor_bytes t)) by lia. apply Z.mod_small. lia. }
  pose proof Hgp as Hgp'. apply lookup_lt_is_Some in Hgp' as [limit Hlimit].
  rewrite (at_lookup _ _ _ Hlimit). simpl. fold k. rewrite Hgdef, Hlimit. simpl.
  destruct (Z.leb_spec limit (g_running_size g + tensor_bytes t)).
  - eexists. split; [done|]. split_and!; cbn -[Nat.min].
    + by rewrite Hres.
    + by rewrite fmap_insert.
    + rewrite fmap_insert. cbn -[Nat.min].
      case_decide as Hlast.
      * assert (S (g_budget_pointer g) `min` (length limits - 1) = g_budget_pointer g)
          as -> by lia.
        destruct (groups !! k) as [g'|] eqn:E; simpl in *.
        -- subst g'. symmetry. apply insert_id. by rewrite lookup_fmap, E.
        -- subst g. done.
      * assert (S (g_budget_pointer g) `min` (length limits - 1) = S (g_budget_pointer g))
          as -> by lia.
        destruct (groups !! k) as [g'|] eqn:E; simpl in *; [done|].
        by rewrite insert_insert_eq.
    + intros k' g'. rewrite lookup_insert.
      case_decide; [intros [= <-]; cbn -[Nat.min]; lia|].
      intros Hk. destruct (Hg _ _ Hk). lia.
  - eexists. split; [done|]. split_and!; simpl.
    + done.
    + by rewrite fmap_insert.
    + rewrite fmap_insert. simpl.
      destruct (groups !! k) as [g'|] eqn:E; simpl in *.
      * subst g'. symmetry. apply insert_id. by rewrite lookup_fmap, E.
      * subst g. done.
    + intros k' g'. rewrite lookup_insert. case_decide; [intros [= <-]; simpl; lia|].
      intros Hk. destruct (Hg _ _ Hk). lia.
Qed.
Lemma refines_items limits flags tidx ts : ∀ i st s bound,
  limits ≠ [] → (0 ≤ bound)%Z →
  Forall (λ t, (0 ≤ t_element_size t)%Z) ts →
  (bound + total_bytes ts < two64)%Z →
  refines limits bound st s →
  ∃ st', assign_items limits (items_from flags tidx i ts) st = Ok st' ∧
         refines limits (bound + total_bytes ts) st'
           (reference_loop limits flags tidx i ts s).
Proof.
  induction ts as [|t ts IH]; intros i st s bound Hl Hb Hes Hov Href.
  - exists st. split; [done|]. simpl. by rewrite Z.add_0_r.
  - apply Forall_cons in Hes as [Ht Hes]. simpl in Hov.
    cbn [items_from assign_items reference_loop total_bytes foldr].
    pose proof (total_bytes_nonneg ts Hes) as Hnn.
    assert (0 ≤ tensor_bytes t)%Z as Hbytes by (unfold tensor_bytes; nia).
    destruct (refines_step limits bound st s (intended_index tidx i)
                (sparse_flag flags (intended_index tidx i)) t Hl Hb Ht)
      as (st1 & -> & Href1); [lia|done|].
    cbn [mbind result_bind].
    destruct (IH (S i) st1 _ (bound + tensor_bytes t)%Z Hl ltac:(lia) Hes ltac:(lia) Href1)
      as (st' & Hst' & Href').
    exists st'. split; [done|]. by rewrite Z.add_assoc.
Qed.

Lemma refines_init limits : refines limits 0 AssignState_init ([], ∅).
Proof.
  split_and!; simpl; [done|by rewrite fmap_empty..|].
  intros k g. by rewrite lookup_empty.
Qed.

Lemma refines_remaining rank limits bound st s :
  refines limits bound st s →
  remaining_buckets rank (as_buckets st) =
  filter (λ l, l ≠ []) (g_accumulator ∘ snd <$> unordered_map_items rank s.2).
Proof.
  intros (_ & -> & _). unfold remaining_buckets.
  rewrite unordered_map_items_fmap, <- list_fmap_compose.
  f_equal; apply list_fmap_ext; by intros ? [k g] _.
Qed.

(** *** Sorting by minimum index *)

Global Instance min_le_trans : Transitive min_le.
Proof. unfold min_le. intros a b c. lia. Qed.

Global Instance min_le_total : Total min_le.
Proof. unfold min_le. intros a b. lia. Qed.

Lemma insert_by_min_Permutation b l : insert_by_min b l ≡ₚ b :: l.
Proof.
  induction l as [|c l IH]; simpl; [done|].
  case_decide; [done|]. rewrite IH. apply perm_swap.
Qed.

Lemma sort_by_min_Permutation l : sort_by_min l ≡ₚ l.
Proof.
  induction l as [|b l IH]; simpl; [done|].
  by rewrite insert_by_min_Permutation, IH.
Qed.

Lemma insert_by_min_sorted b l :
  StronglySorted min_le l → StronglySorted min_le (insert_by_min b l).
Proof.
  induction 1 as [|c l Hl IH Hc]; simpl.
  - repeat constructor.
  - case_decide as Hbc.
    + constructor; [by constructor|].
      constructor; [done|]. eapply Forall_impl; [done|].
      intros d Hd. by etrans.
    + constructor; [done|].
      rewrite insert_by_min_Permutation. constructor; [|done].
      unfold min_le in *. lia.
Qed.

Lemma sort_by_min_sorted l : StronglySorted min_le (sort_by_min l).
Proof.
  induction l as [|b l IH]; simpl; [constructor|]. by apply insert_by_min_sorted.
Qed.

Lemma min_element_elem_of a : a ≠ [] → min_element a ∈ a.
Proof.
  destruct a as [|x a]; [done|]. intros _. simpl.
  revert x. induction a as [|y a IH]; intros x; simpl; [by left|].
  destruct (Nat.min_spec x y) as [[_ ->]|[_ ->]].
  - specialize (IH x). apply elem_of_cons in IH as [->|IH]; [by left|].
    right. by right.
  - right. apply IH.
Qed.

Lemma disjoint_buckets_eq (l : list (list nat)) a b x :
  NoDup (concat l) → a ∈ l → b ∈ l → x ∈ a → x ∈ b → a = b.
Proof.
  induction l as [|c l IH]; simpl; intros Hnd Ha Hb Hxa Hxb.
  - by apply elem_of_nil in Ha.
  - apply NoDup_app in Hnd as (_ & Hdisj & Hl).
    assert (∀ d, d ∈ l → x ∈ d → x ∈ concat l) as Hin.
    { intros d Hd Hxd. apply list_elem_of_In, in_concat.
      exists d. split; by apply list_elem_of_In. }
    apply elem_of_cons in Ha as [->|Ha], Hb as [->|Hb].
    + done.
    + destruct (Hdisj x Hxa). by eapply Hin.
    + destruct (Hdisj x Hxb). by eapply Hin.
    + by apply IH.
Qed.

(** Buckets that are pairwise disjoint and not empty have pairwise different
    minima, so there is one way to sort them: any sorted arrangement is the
    one [std::sort] returns. *)
Lemma sorted_by_min_unique (l l' : list (list nat)) :
  NoDup (concat l) → Forall (λ b, b ≠ []) l →
  l' ≡ₚ l → StronglySorted min_le l' → l' = std_sort_by_min l.
Proof.
  intros Hnd Hne Hp Hs.
  apply (StronglySorted_unique_strong min_le); [|done| |].
  - intros a b Ha Hb Hab Hba.
    rewrite Hp in Ha. unfold std_sort_by_min in Hb. rewrite merge_sort_Permutation in Hb.
    rewrite Forall_forall in Hne.
    apply (disjoint_buckets_eq l a b (min_element a)); [done..| |].
    + apply min_element_elem_of. by apply Hne.
    + assert (min_element a = min_element b) as -> by (unfold min_le in *; lia).
      apply min_element_elem_of. by apply Hne.
  - apply StronglySorted_merge_sort; apply _.
  - unfold std_sort_by_min. by rewrite merge_sort_Permutation.
Qed.
(** C5. On every input the function accepts and whose byte sizes add up
    without leaving 64 bits, the function returns exactly what the algorithm
    of the specification returns: grouping by (dtype, device), emission when
    the running size reaches the current budget, the budget pointer clamped
    at the last budget, emission of the accumulators that are left, and a
    final sort by minimum index only when no explicit indices were given. *)
Theorem compute_bucket_assignment_refines_reference
    rank tensors limits flags tidx :
  tensors ≠ [] →
  limits ≠ [] →
  (flags = [] ∨ length flags = length tensors) →
  Forall (λ t, is_sparse t = false) tensors →
  (tidx = [] ∨ length tidx = length tensors) →
  (flags ≠ [] → ∀ i, i < length tensors → intended_index tidx i < length flags) →
  Forall (λ t, (0 ≤ t_element_size t)%Z) tensors →
  (total_bytes tensors < two64)%Z →
  compute_bucket_assignment_by_size rank tensors limits flags tidx =
  Ok (bucket_assignment_reference rank tensors limits flags tidx).
Proof.
  intros Hne Hl Hf Hd Hi Hin Hes Hov.
  destruct (assign_loop_inv limits flags tidx tensors Hl Hd Hi Hin) as (st & Hst & Hinv).
  rewrite (compute_bucket_assignment_unfold _ _ _ _ _ _ Hne Hf Hst).
  destruct (refines_items limits flags tidx tensors 0 AssignState_init ([], ∅) 0 Hl
              ltac:(lia) Hes ltac:(lia) (refines_init limits)) as (st' & Hst' & Href).
  assert (assign_loop limits flags tidx 0 tensors AssignState_init =
          assign_items limits (items_from flags tidx 0 tensors) AssignState_init) as Heq.
  { apply assign_loop_items; [done| |].
    - destruct Hi as [|Hi]; [by left|right; simpl; lia].
    - destruct flags as [|b flags]; [by left|right].
      intros j Hj. apply Hin; [done|lia]. }
  rewrite Heq, Hst' in Hst. injection Hst as ->.
  f_equal. unfold bucket_assignment_reference.
  pose proof (refines_remaining rank _ _ _ _ Href) as Hrem.
  destruct Href as (Hres & _).
  destruct (reference_loop limits flags tidx 0 tensors ([], ∅)) as [emitted groups].
  simpl in Hres, Hrem. rewrite <- Hres, <- Hrem.
  destruct tidx as [|z tidx]; [|done].
  symmetry. apply sorted_by_min_unique.
  - pose proof (assign_inv_assignment rank limits flags [] tensors st) as Ha.
    rewrite intended_indices_default in Ha. specialize (Ha (NoDup_seq _ _) Hinv).
    destruct Ha as (Hc & _). rewrite Hc, intended_indices_default. apply NoDup_seq.
  - destruct Hinv as (_ & _ & Hnonempty & _).
    apply Forall_app. split; [done|].
    apply Forall_forall. by intros b [? _]%list_elem_of_filter.
  - apply sort_by_min_Permutation.
  - apply sort_by_min_sorted.
Qed.

Lemma compute_bucket_assignment_refines_reference_witness :
  let tensors := [sample_tensor Float Strided 1 4; sample_tensor Half Strided 1 2;
                  sample_tensor Float Strided 1 4; sample_tensor Float Strided 1 4;
                  sample_tensor Half Strided 3 2] in
  let flags := [false; false; false; true; false] in
  compute_bucket_assignment_by_size sample_rank tensors [8; 16]%Z flags [] =
    Ok [[0; 2]; [1; 4]; [3]] ∧
  compute_bucket_assignment_by_size sample_rank tensors [8; 16]%Z flags [] =
    Ok (bucket_assignment_reference sample_rank tensors [8; 16]%Z flags []).
Proof.
  intros tensors flags. split; [reflexivity|].
  apply compute_bucket_assignment_refines_reference.
  - discriminate.
  - discriminate.
  - right. reflexivity.
  - repeat constructor.
  - left. reflexivity.
  - intros _ i Hi. simpl in *. exact Hi.
  - repeat constructor; simpl; lia.
  - reflexivity.
Defined.
(** ** Graph traversal of [prepare_for_backward] terminates *)

Lemma visit_edges_measure (T : gset nat) edges : ∀ seen queue,
  (∀ x, Some x ∈ edges → x ∈ T) →
  length (visit_edges edges seen queue).2 + size (T ∖ (visit_edges edges seen queue).1)
  = length queue + size (T ∖ seen).
Proof.
  unfold visit_edges.
  induction edges as [|e edges IH]; intros seen queue HT; simpl; [done|].
  destruct e as [x|]; [|apply IH; intros y Hy; apply HT; by right].
  destruct (decide (x ∈ seen)) as [Hx|Hx]; simpl.
  - apply IH. intros y Hy. apply HT. by right.
  - rewrite IH by (intros y Hy; apply HT; by right). simpl.
    assert (x ∈ T) as HxT by (apply HT; by left).
    assert (T ∖ seen = {[x]} ∪ T ∖ ({[x]} ∪ seen)) as ->.
    { apply set_eq. intros y.
      rewrite elem_of_union, !elem_of_difference, elem_of_union, elem_of_singleton.
      destruct (decide (y = x)) as [->|]; tauto. }
    rewrite (size_union {[x]} (T ∖ ({[x]} ∪ seen))).
    2: { apply disjoint_singleton_l.
         rewrite elem_of_difference, elem_of_union, elem_of_singleton. tauto. }
    rewrite size_singleton. lia.
Qed.

Lemma next_edges_targets g fn x : Some x ∈ next_edges g fn → x ∈ edge_targets g.
Proof.
  unfold next_edges, edge_targets. intros Hx.
  destruct (g !! fn) as [es|] eqn:E; simpl in Hx; [|by apply elem_of_nil in Hx].
  apply elem_of_list_to_set, list_elem_of_omap. exists (Some x). split; [|done].
  apply list_elem_of_In, in_concat. exists es. split; [|by apply list_elem_of_In].
  apply list_elem_of_In, list_elem_of_fmap. exists (fn, es). split; [done|].
  by apply elem_of_map_to_list.
Qed.

Lemma traverse_terminates g fuel : ∀ seen queue,
  length queue + size (edge_targets g ∖ seen) < fuel →
  is_Some (traverse fuel g seen queue).
Proof.
  induction fuel as [|fuel IH]; intros seen queue Hlt; [lia|].
  simpl. destruct queue as [|fn queue]; [eauto|].
  pose proof (visit_edges_measure (edge_targets g) (next_edges g fn) seen queue
                (next_edges_targets g fn)) as Hm.
  destruct (visit_edges (next_edges g fn) seen queue) as [seen' queue'].
  simpl in *. apply IH. lia.
Qed.

(** The fuel [prepare_for_backward] gives to the traversal suffices. *)
Lemma traverse_fuel g queue : is_Some (traverse (traverse_bound g queue) g ∅ queue).
Proof.
  apply traverse_terminates. unfold traverse_bound.
  rewrite difference_empty_L. lia.
Qed.
(** C8. [prepare_for_backward] throws, leaving the state as it was, when
    [require_finalize_] is still set; otherwise it returns, and afterwards
    hooks are expected, [next_bucket_] is 0, every replica of every bucket
    waits for as many signals as it has variables, every bucket for as many
    replicas as it has, no unused parameter is marked, and
    [unused_parameters_] holds nothing of its old content: it is empty, or,
    with unused-parameter detection on, lists the parameters the traversal
    of the graph did not reach. *)
Theorem prepare_for_backward_resets rank g outputs now st :
  let (r, st') := prepare_for_backward rank g outputs now st in
  if require_finalize_ st then
    (∃ msg, r = Err (TorchCheck msg)) ∧ st' = st
  else
    r = Ok tt ∧
    expect_autograd_hooks_ st' = true ∧
    next_bucket_ st' = 0 ∧
    length (buckets_ st') = length (buckets_ st) ∧
    (∀ b bkt, buckets_ st !! b = Some bkt →
       ∃ bkt', buckets_ st' !! b = Some bkt' ∧
         bucket_pending bkt' = Z.of_nat (length (replicas bkt)) ∧
         variable_indices bkt' = variable_indices bkt ∧
         length (replicas bkt') = length (replicas bkt) ∧
         ∀ r rep, replicas bkt !! r = Some rep →
           ∃ rep', replicas bkt' !! r = Some rep' ∧
             replica_pending rep' = Z.of_nat (length (variables rep)) ∧
             variables rep' = variables rep) ∧
    has_marked_unused_parameters_ st' = false ∧
    ∃ seen, traverse (traverse_bound g (reverse (omap id outputs))) g ∅
              (reverse (omap id outputs)) = Some seen ∧
      unused_parameters_ st' =
        if find_unused_parameters_ st then unused_in_graph rank (func_ st) seen else [].
Proof.
  destruct (traverse_fuel g (reverse (omap id outputs))) as [seen Hseen].
  unfold prepare_for_backward. rewrite Hseen.
  cbv [mbind M_bind get modify TORCH_CHECK lift torch_check mret M_ret].
  destruct (require_finalize_ st) eqn:Hrf; simpl; [by eauto|].
  assert (∀ b bkt, buckets_ st !! b = Some bkt →
     ∃ bkt', (reset_bucket <$> buckets_ st) !! b = Some bkt' ∧
       bucket_pending bkt' = Z.of_nat (length (replicas bkt)) ∧
       variable_indices bkt' = variable_indices bkt ∧
       length (replicas bkt') = length (replicas bkt) ∧
       ∀ r rep, replicas bkt !! r = Some rep →
         ∃ rep', replicas bkt' !! r = Some rep' ∧
           replica_pending rep' = Z.of_nat (length (variables rep)) ∧
           variables rep' = variables rep) as Hb.
  { intros b bkt Hbkt. exists (reset_bucket bkt).
    rewrite list_lookup_fmap, Hbkt. simpl. split_and!; try done.
    - by rewrite length_fmap.
    - intros r rep Hrep. exists (reset_replica rep).
      by rewrite list_lookup_fmap, Hrep. }
  destruct (find_unused_parameters_ st) eqn:Hfu; simpl.
  - split_and!; try done; [by rewrite length_fmap|].
    by exists seen.
  - split_and!; try done; [by rewrite length_fmap|].
    by exists seen.
Qed.
(** ** ReadinessTracker *)

Ltac monad_unfold :=
  cbv [mbind M_bind get modify TORCH_CHECK TORCH_INTERNAL_ASSERT lift torch_check
       internal_assert mret M_ret get_bucket get_replica update_bucket update_replica].

(** C1, amended. A call of [mark_variable_ready] that finds the pending
    counter of its bucket replica at 0 fails, whether or not
    [has_marked_unused_parameters_] is set; the flag only selects the
    message. No gradient is touched and no counter changes. *)
Theorem mark_variable_ready_exhausted_replica_fails now index st loc bkt rep old :
  replica_index index < length (replicas_ st) →
  variable_locators_ st !! variable_index index = Some loc →
  (backward_stats_ st !! replica_index index) ≫= (.!! variable_index index) = Some old →
  buckets_ st !! bucket_index loc = Some bkt →
  replicas bkt !! replica_index index = Some rep →
  replica_pending rep = 0%Z →
  (mark_variable_ready now index st).1 =
    Err (TorchCheck (if has_marked_unused_parameters_ st then common_error
                     else common_error ++ "3) Incorrect unused parameter detection.")) ∧
  buckets_ (mark_variable_ready now index st).2 = buckets_ st ∧
  grads (mark_variable_ready now index st).2 = grads st ∧
  collectives (mark_variable_ready now index st).2 = collectives st.
Proof.
  intros Hr Hloc Hstats Hbkt Hrep Hpending.
  destruct (backward_stats_ st !! replica_index index) as [row|] eqn:Hrow; [|done].
  simpl in Hstats.
  unfold mark_variable_ready. monad_unfold.
  rewrite bool_decide_eq_true_2 by done.
  rewrite bool_decide_eq_true_2 by (by eapply lookup_lt_Some).
  unfold at_. rewrite Hrow, Hstats. simpl. rewrite Hloc. simpl. rewrite Hbkt. simpl.
  rewrite Hrep. simpl. rewrite Hpending. simpl.
  by destruct (has_marked_unused_parameters_ st).
Qed.

Lemma mark_variable_ready_exhausted_replica_fails_witness :
  let st := sample_after_unused_marked in
  replica_pending_at st 0 0 = 0%Z ∧
  (mark_variable_ready 9 v1 st).1 = Err (TorchCheck common_error) ∧
  buckets_ (mark_variable_ready 9 v1 st).2 = buckets_ st ∧
  grads (mark_variable_ready 9 v1 st).2 = grads st ∧
  collectives (mark_variable_ready 9 v1 st).2 = collectives st.
Proof.
  intros st. split; [vm_compute; reflexivity|].
  assert (∃ bkt rep, buckets_ st !! 0 = Some bkt ∧ replicas bkt !! 0 = Some rep ∧
                     replica_pending rep = 0%Z) as (bkt & rep & Hbkt & Hrep & Hp).
  { vm_compute. eexists _, _. split; [reflexivity|]. split; reflexivity. }
  assert (replica_index v1 < length (replicas_ st)) as H1 by (vm_compute; lia).
  assert (variable_locators_ st !! variable_index v1 =
          Some {| bucket_index := 0; intra_bucket_index := 1 |}) as H2
    by (vm_compute; reflexivity).
  assert ((backward_stats_ st !! replica_index v1) ≫= (.!! variable_index v1)
          = Some 5%Z) as H3 by (vm_compute; reflexivity).
  assert (has_marked_unused_parameters_ st = true) as H4 by (vm_compute; reflexivity).
  pose proof (mark_variable_ready_exhausted_replica_fails 9 v1 st _ bkt rep _
                H1 H2 H3 Hbkt Hrep Hp) as H.
  rewrite H4 in H. exact H.
Defined.

(** C1 as stated fails. Parameter 1 was marked ready as unused before the
    hook of parameter 0 ran, [has_marked_unused_parameters_] is set and the
    pending counter of the replica is 0; when the gradient of parameter 1
    arrives after all, the call does not accept the second mark: it throws. *)
Lemma mark_variable_ready_unused_double_mark_counterexample :
  let st := sample_after_unused_marked in
  has_marked_unused_parameters_ st = true ∧
  v1 ∈ unused_parameters_ st ∧
  replica_pending_at st 0 0 = 0%Z ∧
  is_ok (mark_variable_ready 9 v1 st).1 = false ∧
  is_ok (autograd_hook 9 v1 st).1 = false.
Proof.
  intros st. split; [vm_compute; reflexivity|]. split.
  - assert (unused_parameters_ st = [v1]) as -> by (vm_compute; reflexivity). by left.
  - split; [vm_compute; reflexivity|]. split; vm_compute; reflexivity.
Qed.
(** ** Storages *)

Lemma strided_positions_length sizes : ∀ strides offset,
  length sizes ≤ length strides →
  length (strided_positions sizes strides offset) = foldr Nat.mul 1 sizes.
Proof.
  induction sizes as [|n sizes IH]; intros strides offset Hlen; [done|].
  destruct strides as [|s strides]; simpl in *; [lia|].
  assert (∀ l : list nat,
            length (flat_map (λ i, strided_positions sizes strides (offset + i * s)) l)
            = length l * foldr Nat.mul 1 sizes) as Hl.
  { induction l as [|i l IHl]; simpl; [done|].
    rewrite length_app, IHl, IH by lia. done. }
  by rewrite Hl, length_seq.
Qed.

Lemma positions_length t : strides_ok t → length (positions t) = numel t.
Proof.
  intros Hok. unfold positions, numel. apply strided_positions_length.
  unfold strides_ok in Hok. lia.
Qed.

Lemma write_positions_length ps : ∀ vs s,
  length (write_positions ps vs s) = length s.
Proof.
  unfold write_positions.
  induction ps as [|p ps IH]; intros vs s; [done|].
  destruct vs as [|v vs]; [done|]. simpl. by rewrite IH, length_insert.
Qed.

Lemma write_positions_other ps q : ∀ vs s,
  q ∉ ps → write_positions ps vs s !! q = s !! q.
Proof.
  unfold write_positions.
  induction ps as [|p ps IH]; intros vs s Hq; [done|].
  destruct vs as [|v vs]; [done|]. simpl.
  apply not_elem_of_cons in Hq as [Hne Hq].
  rewrite IH by done. by apply list_lookup_insert_ne.
Qed.

Lemma write_positions_read ps : ∀ vs s,
  NoDup ps → length ps = length vs → Forall (λ p, p < length s) ps →
  (λ p, default unspecified (write_positions ps vs s !! p)) <$> ps = vs.
Proof.
  induction ps as [|p ps IH]; intros vs s Hnd Hlen Hin.
  - by destruct vs.
  - destruct vs as [|v vs]; [done|].
    apply NoDup_cons in Hnd as [Hp Hnd]. apply Forall_cons in Hin as [Hlt Hin].
    simpl in *. f_equal.
    + unfold write_positions. simpl.
      fold (write_positions ps vs (<[p:=v]> s)).
      rewrite write_positions_other by done.
      by rewrite list_lookup_insert_eq.
    + unfold write_positions. simpl.
      fold (write_positions ps vs (<[p:=v]> s)).
      apply IH; [done|lia|].
      eapply Forall_impl; [done|]. intros q Hq. by rewrite length_insert.
Qed.

Lemma storage_of_write_tensor h t vs :
  t_storage t < length h →
  storage_of (write_tensor h t vs) t = write_positions (positions t) vs (storage_of h t).
Proof.
  intros Hst. unfold write_tensor. unfold storage_of at 1.
  by rewrite list_lookup_insert_eq.
Qed.

Lemma storage_of_write_tensor_other h t u vs :
  t_storage u ≠ t_storage t → storage_of (write_tensor h t vs) u = storage_of h u.
Proof.
  intros Hne. unfold write_tensor. unfold storage_of at 1 3.
  by rewrite list_lookup_insert_ne.
Qed.

Lemma read_write_tensor h t vs :
  view_ok h t → length vs = length (positions t) →
  read_tensor (write_tensor h t vs) t = vs.
Proof.
  intros (Hst & Hnd & Hin & _) Hlen. unfold read_tensor.
  rewrite storage_of_write_tensor by done.
  by apply write_positions_read.
Qed.

Lemma read_write_tensor_other h t u vs :
  t_storage u ≠ t_storage t →
  read_tensor (write_tensor h t vs) u = read_tensor h u.
Proof.
  intros Hne. unfold read_tensor. by rewrite storage_of_write_tensor_other.
Qed.

Lemma read_tensor_length h t : length (read_tensor h t) = length (positions t).
Proof. unfold read_tensor. by rewrite length_fmap. Qed.
(** ** [mark_variable_ready_dense] *)

(** C4, amended. For a dense variable whose locator, bucket replica and
    bucket view exist, and whose defined, non-aliasing gradient meets the
    hard invariants (type, device and number of elements of the view):
    - an undefined gradient leaves the view zeroed and the gradient undefined;
    - a gradient that already aliases the view stays in place, and the view
      is divided in place by the world size ([div_]) without a hook and
      untouched with one;
    - any other gradient is written into the view, every element multiplied
      by the scalar [double(1.) / world_size] ([at::native::mul_out])
      without a hook and unchanged with one, and the gradient is redirected
      to the view. *)
Theorem mark_variable_ready_dense_effect index st loc bkt rep variable view grad o l :
  variable_locators_ st !! variable_index index = Some loc →
  buckets_ st !! bucket_index loc = Some bkt →
  replicas bkt !! replica_index index = Some rep →
  variables rep !! intra_bucket_index loc = Some variable →
  offsets rep !! intra_bucket_index loc = Some o →
  lengths rep !! intra_bucket_index loc = Some l →
  bucket_views rep !! intra_bucket_index loc = Some view →
  grad_of st variable = Some grad →
  view_ok (storages st) view →
  (∀ g, grad = Some g → is_alias_of g view = false →
     type_equal g view = true ∧ t_device g = t_device view ∧
     numel g = numel view ∧ strides_ok g) →
  let (r, st') := mark_variable_ready_dense index st in
  let W := world_size st in
  r = Ok tt ∧
  match grad with
  | None =>
      grad_of st' variable = Some None ∧
      read_tensor (storages st') view = replicate (numel view) zero
  | Some g =>
      if is_alias_of g view then
        grad_of st' variable = Some (Some g) ∧
        read_tensor (storages st') view =
          match comm_hook_ st with
          | None => (λ x, div_scalar x W) <$> read_tensor (storages st) view
          | Some _ => read_tensor (storages st) view
          end
      else
        grad_of st' variable = Some (Some view) ∧
        read_tensor (storages st') view =
          match comm_hook_ st with
          | None => (λ x, mul_scalar x (reciprocal W)) <$> read_tensor (storages st) g
          | Some _ => read_tensor (storages st) g
          end
  end.
Proof.
  intros Hloc Hbkt Hrep Hvar Ho Hl Hview Hgrad Hok Hinv.
  unfold grad_of in Hgrad.
  destruct (grads st !! replica_index variable) as [row|] eqn:Hrow; [|done].
  simpl in Hgrad.
  assert (∀ h x, grad_of (set_grads
             (alter (λ row, <[variable_index variable := x]> row)
                    (replica_index variable) (grads st)) h) variable = Some x) as Hset.
  { intros h x. unfold grad_of. simpl.
    rewrite list_lookup_alter, Hrow, decide_True by done. simpl.
    apply list_lookup_insert_eq. by eapply lookup_lt_Some. }
  unfold mark_variable_ready_dense, runGradCallbackForVariable. monad_unfold.
  unfold at_. rewrite Hloc. simpl. rewrite Hbkt. simpl. rewrite Hrep. simpl.
  rewrite Hvar, Ho, Hl, Hview. simpl. rewrite Hrow. simpl. rewrite Hgrad. simpl.
  pose proof Hok as (Hst & Hnd & Hin & Hstr).
  destruct grad as [g|].
  - destruct (is_alias_of g view) eqn:Halias; simpl.
    + destruct (comm_hook_ st); simpl.
      * split; [done|]. split; [apply Hset|done].
      * split; [done|]. split; [apply Hset|].
        unfold div_. apply read_write_tensor; [done|].
        by rewrite length_fmap, read_tensor_length.
    + destruct (Hinv g eq_refl Halias) as (-> & -> & Hnumel & Hgstr). simpl.
      rewrite !bool_decide_eq_true_2 by done. simpl.
      assert (length (read_tensor (storages st) g) = length (positions view)) as Hlen.
      { rewrite read_tensor_length, !positions_length by done. done. }
      destruct (comm_hook_ st); simpl.
      * split; [done|]. split; [apply Hset|].
        unfold copy_. by apply read_write_tensor.
      * split; [done|]. split; [apply Hset|].
        unfold mul_out. apply read_write_tensor; [done|]. by rewrite length_fmap.
  - simpl. split; [done|]. split; [apply Hset|].
    unfold zero_. rewrite read_write_tensor; [|done|by rewrite length_replicate].
    by rewrite positions_length.
Qed.

(** World size 2 and the gradient [1,1,1,1]: the view holds the products
    of 1 and [double(1.) / 2], which are 1/2 in [float] arithmetic. *)
Lemma mark_variable_ready_dense_effect_witness :
  let st := sample_fresh_grads in
  (let (r, st') := mark_variable_ready_dense v0 st in
   r = Ok tt ∧
   grad_of st' v0 = Some (Some sample_view0) ∧
   read_tensor (storages st') sample_view0 =
     (λ x, mul_scalar x (reciprocal 2)) <$> read_tensor (storages st) (sample_vector 2)) ∧
  eval (ieee_arithmetic 24 128) <$>
    read_tensor (storages (state_after (mark_variable_ready_dense v0) st)) sample_view0
    = replicate 4 (Some (SpecFloat.S754_finite false 8388608 (-24))).
Proof.
  intros st. split; [|vm_compute; reflexivity].
  assert (∃ bkt rep, buckets_ st !! 0 = Some bkt ∧ replicas bkt !! 0 = Some rep ∧
            variables rep !! 0 = Some v0 ∧ offsets rep !! 0 = Some 0 ∧
            lengths rep !! 0 = Some 4 ∧ bucket_views rep !! 0 = Some sample_view0)
    as (bkt & rep & Hbkt & Hrep & Hvar & Ho & Hl & Hview).
  { vm_compute. eexists _, _. repeat split. }
  assert (variable_locators_ st !! variable_index v0 =
          Some {| bucket_index := 0; intra_bucket_index := 0 |}) as Hloc
    by (vm_compute; reflexivity).
  assert (grad_of st v0 = Some (Some (sample_vector 2))) as Hgrad
    by (vm_compute; reflexivity).
  assert (view_ok (storages st) sample_view0) as Hok.
  { split; [vm_compute; lia|]. split; [apply (bool_decide_unpack _); vm_compute; exact I|].
    split; [|reflexivity]. vm_compute. repeat constructor. }
  assert (∀ g, Some (sample_vector 2) = Some g → is_alias_of g sample_view0 = false →
            type_equal g sample_view0 = true ∧ t_device g = t_device sample_view0 ∧
            numel g = numel sample_view0 ∧ strides_ok g) as Hinv.
  { intros g [= <-] _. repeat split. }
  exact (mark_variable_ready_dense_effect v0 st _ bkt rep v0 sample_view0 _ 0 4
           Hloc Hbkt Hrep Hvar Ho Hl Hview Hgrad Hok Hinv).
Defined.

(** C4 as stated fails: what is written into the view is the product of
    the gradient and the scalar [double(1.) / world_size], not the quotient
    of the gradient and the world size. With world size 3 and the [float]
    gradient [5,5,5,5], no hook and a gradient that does not alias the view,
    the view holds 13981014 * 2^-23 in IEEE arithmetic, whereas 5 / 3 is
    13981013 * 2^-23; the products differ from the quotients in [double]
    arithmetic too. *)
Lemma mark_variable_ready_dense_quotient_counterexample :
  let st := sample_world_of_three in
  let st' := state_after (mark_variable_ready_dense v0) st in
  let float := ieee_arithmetic 24 128 in
  let double := ieee_arithmetic 53 1024 in
  mark_variable_ready_dense v0 st = (Ok tt, st') ∧
  comm_hook_ st = None ∧ world_size st = 3%Z ∧
  grad_of st v0 = Some (Some (sample_vector 2)) ∧
  is_alias_of (sample_vector 2) sample_view0 = false ∧
  eval float <$> read_tensor (storages st) (sample_vector 2) =
    replicate 4 (Some (float_of_int 24 128 5)) ∧
  eval float <$> read_tensor (storages st') sample_view0 =
    replicate 4 (Some (SpecFloat.S754_finite false 13981014 (-23))) ∧
  (λ x, (λ v, ar_div float v 3) <$> eval float x) <$> read_tensor (storages st) (sample_vector 2) =
    replicate 4 (Some (SpecFloat.S754_finite false 13981013 (-23))) ∧
  eval float <$> read_tensor (storages st') sample_view0 ≠
    (λ x, (λ v, ar_div float v 3) <$> eval float x) <$> read_tensor (storages st) (sample_vector 2) ∧
  eval double <$> read_tensor (storages st') sample_view0 ≠
    (λ x, (λ v, ar_div double v 3) <$> eval double x) <$> read_tensor (storages st) (sample_vector 2).
Proof.
  intros st st' float double.
  split_and!; try (vm_compute; reflexivity); vm_compute; intros [=].
Qed.
(** ** [sync_bucket_indices] *)

Lemma to_int32_small z : (- 2 ^ 31 ≤ z < 2 ^ 31)%Z → to_int32 z = z.
Proof. intros Hz. unfold to_int32. rewrite Z.mod_small; lia. Qed.

Lemma int32_to_size_t_small z : (0 ≤ z < 2 ^ 31)%Z → int32_to_size_t z = z.
Proof.
  intros Hz. unfold int32_to_size_t, to_size_t, two64. apply Z.mod_small. lia.
Qed.

Lemma fmap_to_int32_small (l : list Z) :
  Forall (λ x, (0 ≤ x < 2 ^ 31)%Z) l → to_int32 <$> l = l.
Proof.
  induction 1 as [|x l Hx _ IH]; [done|]. csimpl.
  rewrite IH, to_int32_small; [done|lia].
Qed.

Lemma fmap_int32_to_size_t_small (l : list Z) :
  Forall (λ x, (0 ≤ x < 2 ^ 31)%Z) l → int32_to_size_t <$> l = l.
Proof.
  induction 1 as [|x l Hx _ IH]; [done|]. csimpl.
  by rewrite IH, int32_to_size_t_small.
Qed.

Lemma int_next_small (n : nat) :
  (Z.of_nat n + 1 < 2 ^ 31)%Z → int_next (Z.of_nat n) = Z.of_nat (S n).
Proof. intros Hn. unfold int_next. rewrite to_int32_small; lia. Qed.

Lemma accessor_get_lookup (t : list Z) (n : nat) x :
  t !! n = Some x → accessor_get t (Z.of_nat n) = Ok x.
Proof.
  intros Hx. unfold accessor_get. rewrite (proj2 (Z.ltb_ge _ _)) by lia.
  rewrite Nat2Z.id. by apply at_lookup.
Qed.

Lemma accessor_set_middle (pre post : list Z) old v :
  accessor_set (pre ++ old :: post) (Z.of_nat (length pre)) v =
  Ok (pre ++ to_int32 v :: post).
Proof.
  unfold accessor_set. rewrite (proj2 (Z.ltb_ge _ _)) by lia. rewrite Nat2Z.id.
  rewrite (at_lookup _ _ old) by (by rewrite lookup_app_r, Nat.sub_diag).
  simpl. by rewrite insert_app_r_alt, Nat.sub_diag by done.
Qed.

Lemma accessor_set_end (pre : list Z) old v n :
  n = length pre →
  accessor_set (pre ++ [old]) (Z.of_nat n) v = Ok (pre ++ [to_int32 v]).
Proof. intros ->. apply accessor_set_middle. Qed.

(** While the position counter stays below 2^31, the loops write the
    indices one after the other. *)
Lemma write_bucket_fits b : ∀ pre junk post,
  length junk = length b →
  (Z.of_nat (length pre + length b) < 2 ^ 31)%Z →
  write_bucket b (pre ++ junk ++ post, Z.of_nat (length pre)) =
  Ok (pre ++ (to_int32 <$> b) ++ post, Z.of_nat (length pre + length b)).
Proof.
  induction b as [|x b IH]; intros pre junk post Hlen Hfit.
  - destruct junk; [|done]. simpl. by rewrite Nat.add_0_r.
  - destruct junk as [|old junk]; [done|]. simpl in Hlen, Hfit.
    cbn [write_bucket fst snd]. rewrite <- app_comm_cons, accessor_set_middle.
    cbn [mbind result_bind]. rewrite int_next_small by lia.
    specialize (IH (pre ++ [to_int32 x]) junk post).
    rewrite length_app in IH. simpl in IH.
    rewrite <- !(assoc_L (++)) in IH. simpl in IH.
    rewrite Nat.add_1_r in IH. rewrite IH by lia.
    f_equal. f_equal. simpl. lia.
Qed.

Lemma write_buckets_fits bs : ∀ pre junk post,
  length junk = length (concat bs) →
  (Z.of_nat (length pre + length (concat bs)) < 2 ^ 31)%Z →
  write_buckets bs (pre ++ junk ++ post, Z.of_nat (length pre)) =
  Ok (pre ++ (to_int32 <$> concat bs) ++ post,
      Z.of_nat (length pre + length (concat bs))).
Proof.
  induction bs as [|b bs IH]; intros pre junk post Hlen Hfit.
  - destruct junk; [|done]. simpl. by rewrite Nat.add_0_r.
  - simpl in Hlen, Hfit. rewrite length_app in Hlen, Hfit.
    cbn [write_buckets]. rewrite <- (take_drop (length b) junk).
    rewrite <- (assoc_L (++)).
    rewrite write_bucket_fits by (rewrite ?length_take; lia).
    cbn [mbind result_bind].
    specialize (IH (pre ++ (to_int32 <$> b)) (drop (length b) junk) post).
    rewrite length_app, length_fmap in IH.
    rewrite <- !(assoc_L (++)) in IH. rewrite IH by (rewrite ?length_drop; lia).
    simpl. rewrite fmap_app, <- !(assoc_L (++)), length_app. f_equal. f_equal. lia.
Qed.

Lemma pack_indices_fits bi :
  fits_int32 bi →
  pack_indices bi = Ok (indices_tensor bi, Z.of_nat (length (concat bi))).
Proof.
  intros (Htotal & Hcount & _). unfold pack_indices.
  rewrite Nat.add_1_r, replicate_S_end.
  pose proof (write_buckets_fits bi [] (replicate (length (concat bi)) 0%Z) [0%Z]) as Hw.
  simpl in Hw. change (Z.of_nat 0) with 0%Z in Hw.
  rewrite Hw by (rewrite ?length_replicate; lia).
  cbn [mbind result_bind fst snd].
  by rewrite accessor_set_end by (by rewrite length_fmap).
Qed.

Lemma read_bucket_fits b : ∀ pre post,
  Forall (λ x, (0 ≤ x < 2 ^ 31)%Z) b →
  (Z.of_nat (length pre + length b) < 2 ^ 31)%Z →
  read_bucket (length b) (pre ++ b ++ post) (Z.of_nat (length pre)) =
  Ok (b, Z.of_nat (length pre + length b)).
Proof.
  induction b as [|x b IH]; intros pre post Hb Hfit.
  - simpl. by rewrite Nat.add_0_r.
  - apply Forall_cons in Hb as [Hx Hb]. simpl in Hfit.
    cbn [length read_bucket]. rewrite <- app_comm_cons.
    rewrite (accessor_get_lookup _ _ x) by (by rewrite lookup_app_r, Nat.sub_diag).
    cbn [mbind result_bind]. rewrite int_next_small by lia.
    specialize (IH (pre ++ [x]) post Hb).
    rewrite length_app in IH. simpl in IH.
    rewrite <- !(assoc_L (++)) in IH. simpl in IH.
    rewrite Nat.add_1_r in IH. rewrite IH by lia.
    cbn [mbind result_bind fst snd]. rewrite int32_to_size_t_small by done.
    f_equal. f_equal. simpl. lia.
Qed.

Lemma reconstruct_buckets_roundtrip bs : ∀ pre_sizes pre_indices post,
  Forall (λ b, (Z.of_nat (length b) < 2 ^ 31)%Z ∧
               Forall (λ x, (0 ≤ x < 2 ^ 31)%Z) b) bs →
  (Z.of_nat (length pre_indices + length (concat bs)) < 2 ^ 31)%Z →
  reconstruct_buckets (pre_sizes ++ bucket_sizes bs)
    (pre_indices ++ concat bs ++ post) (Z.of_nat (length pre_indices))
    (seq (length pre_sizes) (length bs)) = Ok bs.
Proof.
  induction bs as [|b bs IH]; intros pre_sizes pre_indices post Hfit Htotal; [done|].
  apply Forall_cons in Hfit as [[Hlen Hb] Hfit].
  simpl in Htotal. rewrite length_app in Htotal.
  cbn [length seq reconstruct_buckets bucket_sizes fmap list_fmap concat].
  fold (bucket_sizes bs).
  unfold at_ at 1. rewrite lookup_app_r, Nat.sub_diag by done. cbn [lookup list_lookup].
  cbn [mbind result_bind].
  rewrite int32_to_size_t_small by lia. rewrite Nat2Z.id.
  rewrite <- (assoc_L (++) b).
  rewrite read_bucket_fits by (done || lia).
  cbn [mbind result_bind fst snd].
  specialize (IH (pre_sizes ++ [Z.of_nat (length b)]) (pre_indices ++ b) post Hfit).
  rewrite <- !(assoc_L (++)) in IH. simpl in IH.
  rewrite !length_app in IH. simpl in IH.
  rewrite Nat.add_1_r in IH. rewrite IH by lia. done.
Qed.

Lemma bucket_sizes_tensor_padded sizes x n :
  last sizes = Some x →
  (Z.of_nat (length sizes) ≤ two64)%Z →
  bucket_sizes_tensor sizes (Z.of_nat n) =
  (if (Z.of_nat n <? 2 ^ 63)%Z then
     Ok (to_int32 <$> take n sizes ++ replicate (n - length sizes) x)
   else Err (TorchCheck "Trying to create tensor with negative dimension")).
Proof.
  intros Hlast Hbound. unfold bucket_sizes_tensor.
  destruct (Z.of_nat n <? 2 ^ 63)%Z; [|done]. simpl. rewrite Nat2Z.id.
  assert (0 < length sizes) as Hpos.
  { destruct sizes; [done|simpl; lia]. }
  unfold to_size_t.
  rewrite (Z.mod_small (Z.of_nat (length sizes) - 1)) by (unfold two64 in *; lia).
  assert (∀ i, i < n →
            at_ sizes (Z.to_nat (Z.of_nat i `min` (Z.of_nat (length sizes) - 1)))
            = Ok (default x (sizes !! i))) as Hat.
  { intros i Hi. destruct (decide (i < length sizes)) as [Hlt|Hge].
    - rewrite Z.min_l, Nat2Z.id by lia.
      apply lookup_lt_is_Some in Hlt as [y Hy]. by rewrite (at_lookup _ _ _ Hy), Hy.
    - rewrite Z.min_r by lia. rewrite (lookup_ge_None_2 sizes i) by lia. simpl.
      apply at_lookup. rewrite last_lookup in Hlast.
      replace (Z.to_nat (Z.of_nat (length sizes) - 1)) with (pred (length sizes)) by lia.
      done. }
  assert (∀ k a, a + k ≤ n →
            foldr (λ i acc, tail ← acc;
                     size ← at_ sizes
                       (Z.to_nat (Z.of_nat i `min` (Z.of_nat (length sizes) - 1)));
                     Ok (to_int32 size :: tail)) (Ok []) (seq a k)
            = Ok ((λ i, to_int32 (default x (sizes !! i))) <$> seq a k)) as Hfold.
  { induction k as [|k IH]; intros a Ha; [done|].
    cbn [seq foldr]. rewrite IH by lia. cbn [mbind result_bind].
    rewrite Hat by lia. done. }
  rewrite Hfold by lia. f_equal.
  apply list_eq. intros i. rewrite !list_lookup_fmap.
  destruct (decide (i < n)) as [Hi|Hi].
  - rewrite lookup_seq_lt by done. simpl. f_equal.
    destruct (decide (i < length sizes)) as [Hlt|Hge].
    + rewrite lookup_app_l by (rewrite length_take; lia).
      rewrite lookup_take_lt by done.
      apply lookup_lt_is_Some in Hlt as [y Hy]. by rewrite Hy.
    + rewrite (lookup_ge_None_2 sizes i) by lia. simpl.
      rewrite lookup_app_r by (rewrite length_take; lia).
      rewrite length_take, lookup_replicate_2 by lia. done.
  - rewrite lookup_seq_ge by lia. simpl.
    rewrite lookup_ge_None_2; [done|].
    rewrite length_app, length_take, length_replicate. lia.
Qed.
Lemma fits_int32_concat bi :
  fits_int32 bi → Forall (λ x, (0 ≤ x < 2 ^ 31)%Z) (concat bi).
Proof.
  intros (_ & _ & Hfit). induction Hfit as [|b bs [_ Hb] _ IH]; simpl; [done|].
  by apply Forall_app.
Qed.

Lemma fits_int32_sizes bi :
  fits_int32 bi → Forall (λ x, (0 ≤ x < 2 ^ 31)%Z) (bucket_sizes bi).
Proof.
  intros (_ & _ & Hfit). unfold bucket_sizes.
  induction Hfit as [|b bs [Hb _] _ IH]; csimpl; [done|].
  constructor; [lia|done].
Qed.

Lemma indices_tensor_fits bi :
  fits_int32 bi → indices_tensor bi = concat bi ++ [Z.of_nat (length bi)].
Proof.
  intros Hfit. unfold indices_tensor.
  rewrite fmap_to_int32_small by by apply fits_int32_concat.
  rewrite to_int32_small; [done|]. destruct Hfit as (_ & ? & _). lia.
Qed.

(** What a rank rebuilds from the tensors rank 0 sent. *)
Lemma sync_bucket_indices_received b1 b2 local root t :
  fits_int32 root →
  length (concat local) = length (concat root) →
  (∀ sent idx, pack_indices local = Ok (sent, idx) → b1 sent = indices_tensor root) →
  bucket_sizes_tensor (bucket_sizes local) (Z.of_nat (length root)) = Ok t →
  b2 t = to_int32 <$> bucket_sizes root →
  sync_bucket_indices b1 b2 local = Ok root.
Proof.
  intros Hfit Hlen Hb1 Ht Hb2. unfold sync_bucket_indices.
  assert (∃ sent, pack_indices local = Ok (sent, Z.of_nat (length (concat local))))
    as (sent & Hsent).
  { unfold pack_indices. rewrite Nat.add_1_r, replicate_S_end.
    pose proof (write_buckets_fits local [] (replicate (length (concat local)) 0%Z)
                  [0%Z]) as Hw.
    simpl in Hw. change (Z.of_nat 0) with 0%Z in Hw.
    rewrite Hw by (rewrite ?length_replicate; destruct Hfit; lia).
    cbn [mbind result_bind fst snd].
    rewrite accessor_set_end by (by rewrite length_fmap).
    by eexists. }
  rewrite Hsent. cbn [mbind result_bind fst snd]. rewrite (Hb1 _ _ Hsent), Hlen.
  rewrite indices_tensor_fits by done.
  rewrite (accessor_get_lookup _ _ (Z.of_nat (length root)))
    by (by rewrite lookup_app_r, Nat.sub_diag).
  cbn [mbind result_bind].
  rewrite int32_to_size_t_small by (destruct Hfit as (_ & ? & _); lia).
  rewrite Ht. cbn [mbind result_bind]. rewrite Hb2, Nat2Z.id.
  rewrite fmap_to_int32_small by by apply fits_int32_sizes.
  apply (reconstruct_buckets_roundtrip root [] []); [by destruct Hfit as (_ & _ & ?)|].
  simpl. by destruct Hfit.
Qed.

Lemma bucket_sizes_tensor_own bi :
  fits_int32 bi →
  bucket_sizes_tensor (bucket_sizes bi) (Z.of_nat (length bi)) =
  Ok (to_int32 <$> bucket_sizes bi).
Proof.
  intros Hfit. destruct (last (bucket_sizes bi)) as [x|] eqn:Hlast.
  - rewrite (bucket_sizes_tensor_padded _ x) by
      (try done; unfold bucket_sizes, two64; rewrite length_fmap;
       destruct Hfit as (_ & ? & _); lia).
    rewrite (proj2 (Z.ltb_lt _ _)) by (destruct Hfit as (_ & ? & _); lia).
    rewrite take_ge by (unfold bucket_sizes; by rewrite length_fmap).
    unfold bucket_sizes at 2. rewrite length_fmap, Nat.sub_diag. simpl.
    by rewrite app_nil_r.
  - apply last_None in Hlast. unfold bucket_sizes in Hlast.
    apply fmap_nil_inv in Hlast. by subst.
Qed.

(** C7, amended. On rank 0, where the broadcasts leave the tensors as they
    are, the buckets rebuilt are the buckets given, provided every value
    stored in the [int] tensors (every index, every bucket size and the
    number of buckets) is below 2^31 and there are fewer than 2^31 indices
    in all, so that the [int] position counter does not overflow; the
    tensor rank 0 sends is then made of the indices followed by the number
    of buckets. On any rank that holds as many indices as rank 0 and at
    least one bucket, the size tensor handed to the second broadcast is made
    of the rank's own sizes, cut or padded with the last of them to the
    number of buckets rank 0 announced, and the buckets rebuilt are those of
    rank 0, whatever the rank computed itself. *)
Theorem sync_bucket_indices_agreement root local x :
  fits_int32 root →
  length (concat local) = length (concat root) →
  last (bucket_sizes local) = Some x →
  (Z.of_nat (length local) ≤ two64)%Z →
  pack_indices root = Ok (indices_tensor root, Z.of_nat (length (concat root))) ∧
  sync_bucket_indices broadcast_at_root broadcast_at_root root = Ok root ∧
  bucket_sizes_tensor (bucket_sizes local) (Z.of_nat (length root)) =
    Ok (to_int32 <$> take (length root) (bucket_sizes local) ++
                     replicate (length root - length local) x) ∧
  sync_bucket_indices
    (broadcast_from (indices_tensor root))
    (broadcast_from (to_int32 <$> bucket_sizes root)) local = Ok root.
Proof.
  intros Hfit Hlen Hlast Hbound.
  assert (bucket_sizes_tensor (bucket_sizes local) (Z.of_nat (length root)) =
          Ok (to_int32 <$> take (length root) (bucket_sizes local) ++
                replicate (length root - length local) x)) as Hpad.
  { rewrite (bucket_sizes_tensor_padded _ x) by
      (try done; unfold bucket_sizes; by rewrite length_fmap).
    rewrite (proj2 (Z.ltb_lt _ _)) by (destruct Hfit as (_ & ? & _); lia).
    unfold bucket_sizes at 2. by rewrite length_fmap. }
  split_and!.
  - by apply pack_indices_fits.
  - unfold sync_bucket_indices. rewrite pack_indices_fits by done.
    cbn [mbind result_bind fst snd]. unfold broadcast_at_root.
    rewrite indices_tensor_fits by done.
    rewrite (accessor_get_lookup _ _ (Z.of_nat (length root)))
      by (by rewrite lookup_app_r, Nat.sub_diag).
    cbn [mbind result_bind].
    rewrite int32_to_size_t_small by (destruct Hfit as (_ & ? & _); lia).
    rewrite bucket_sizes_tensor_own by done. cbn [mbind result_bind].
    rewrite Nat2Z.id, fmap_to_int32_small by by apply fits_int32_sizes.
    apply (reconstruct_buckets_roundtrip root [] []); [by destruct Hfit as (_ & _ & ?)|].
    simpl. by destruct Hfit.
  - done.
  - by eapply sync_bucket_indices_received.
Qed.
Lemma sync_bucket_indices_agreement_witness :
  let root := [[3; 1]; [0]; [2]]%Z in
  let local := [[0; 1; 2; 3]]%Z in
  pack_indices root = Ok (indices_tensor root, Z.of_nat (length (concat root))) ∧
  sync_bucket_indices broadcast_at_root broadcast_at_root root = Ok root ∧
  bucket_sizes_tensor (bucket_sizes local) (Z.of_nat (length root)) =
    Ok (to_int32 <$> take (length root) (bucket_sizes local) ++
                     replicate (length root - length local) 4%Z) ∧
  sync_bucket_indices
    (broadcast_from (indices_tensor root))
    (broadcast_from (to_int32 <$> bucket_sizes root)) local = Ok root.
Proof.
  intros root local.
  apply (sync_bucket_indices_agreement root local 4%Z).
  - split; [simpl; lia|]. split; [simpl; lia|]. repeat constructor; simpl; lia.
  - reflexivity.
  - reflexivity.
  - unfold two64. simpl. lia.
Defined.

(** C7 as stated fails: the index 2^31 fits in 32 bits, but stored in an
    [int] tensor it reads back, on rank 0 itself, as 2^64 - 2^31. *)
Lemma sync_bucket_indices_int32_counterexample :
  let bucket_indices := [[2 ^ 31]]%Z in
  Forall (Forall (λ x, (0 ≤ x < 2 ^ 32)%Z)) bucket_indices ∧
  sync_bucket_indices broadcast_at_root broadcast_at_root bucket_indices =
    Ok [[2 ^ 64 - 2 ^ 31]%Z] ∧
  sync_bucket_indices broadcast_at_root broadcast_at_root bucket_indices ≠
    Ok bucket_indices.
Proof.
  intros bucket_indices. split; [repeat constructor; lia|].
  split; [vm_compute; reflexivity|].
  vm_compute. intros [=].
Qed.
(** ** Inversion of successful computations *)

Lemma bind_ok {A B} (m : M A) (k : A → M B) st b st' :
  (m ≫= k) st = (Ok b, st') →
  ∃ a st1, m st = (Ok a, st1) ∧ k a st1 = (Ok b, st').
Proof.
  unfold mbind, M_bind. destruct (m st) as [[a|e] st1]; [eauto|done].
Qed.

Lemma lift_ok {A} (r : result A) st a st' :
  lift r st = (Ok a, st') → r = Ok a ∧ st' = st.
Proof. unfold lift. by intros [= -> ->]. Qed.

Lemma get_ok {A} (f : Reducer → A) st a st' :
  get f st = (Ok a, st') → a = f st ∧ st' = st.
Proof. unfold get. by intros [= -> ->]. Qed.

Lemma modify_ok f st a st' : modify f st = (Ok a, st') → st' = f st.
Proof. unfold modify. by intros [= _ ->]. Qed.

Lemma mret_ok {A} (x : A) st a st' :
  (mret x : M A) st = (Ok a, st') → a = x ∧ st' = st.
Proof. unfold mret, M_ret. by intros [= -> ->]. Qed.

Lemma TORCH_CHECK_ok c msg st a st' :
  TORCH_CHECK c msg st = (Ok a, st') → c = true ∧ st' = st.
Proof. unfold TORCH_CHECK, lift, torch_check. destruct c; by intros [= _ ->]. Qed.

Lemma TORCH_INTERNAL_ASSERT_ok c msg st a st' :
  TORCH_INTERNAL_ASSERT c msg st = (Ok a, st') → c = true ∧ st' = st.
Proof.
  unfold TORCH_INTERNAL_ASSERT, lift, internal_assert. destruct c; by intros [= _ ->].
Qed.

Lemma at_ok {A} (v : list A) i a : at_ v i = Ok a → v !! i = Some a.
Proof. unfold at_. destruct (v !! i); by intros [= ->]. Qed.

Lemma result_bind_ok {A B} (r : result A) (k : A → result B) b :
  r ≫= k = Ok b → ∃ a, r = Ok a ∧ k a = Ok b.
Proof. destruct r as [a|e]; [eauto|done]. Qed.

(** Splits a successful computation into its successful steps. *)
Ltac ok_inv H :=
  lazymatch type of H with
  | (_ ≫= _) _ = (Ok _, _) =>
      let a := fresh "a" in let s := fresh "st" in
      let H1 := fresh H in let H2 := fresh H in
      apply bind_ok in H as (a & s & H1 & H2); ok_inv H1; ok_inv H2
  | lift _ _ = (Ok _, _) =>
      let E := fresh "E" in apply lift_ok in H as [H E]; try subst
  | get _ _ = (Ok _, _) =>
      let E := fresh "E" in let E' := fresh "E" in
      apply get_ok in H as [E E']; try subst
  | modify _ _ = (Ok _, _) => apply modify_ok in H; try subst
  | mret _ _ = (Ok _, _) =>
      let E := fresh "E" in let E' := fresh "E" in
      apply mret_ok in H as [E E']; try subst
  | TORCH_CHECK _ _ _ = (Ok _, _) =>
      let E := fresh "E" in apply TORCH_CHECK_ok in H as [H E]; try subst
  | TORCH_INTERNAL_ASSERT _ _ _ = (Ok _, _) =>
      let E := fresh "E" in apply TORCH_INTERNAL_ASSERT_ok in H as [H E]; try subst
  | _ => idtac
  end.

(** ** [initialize_buckets] *)

(** Gradient callbacks leave buckets and locators alone. *)
Lemma runGradCallbackForVariable_frame variable cb st a st' :
  (∀ g s x s', cb g s = (Ok x, s') →
     buckets_ s' = buckets_ s ∧ variable_locators_ s' = variable_locators_ s) →
  runGradCallbackForVariable variable cb st = (Ok a, st') →
  buckets_ st' = buckets_ st ∧ variable_locators_ st' = variable_locators_ st.
Proof.
  intros Hcb H. unfold runGradCallbackForVariable in H. ok_inv H.
  match goal with Hc : cb _ _ = _ |- _ => destruct (Hcb _ _ _ _ Hc) as [<- <-] end.
  done.
Qed.

Lemma initialize_bucket_view_ok contents copy i replica st replica' st' :
  initialize_bucket_view contents copy i replica st = (Ok replica', st') →
  (∃ view, replica' = set_bucket_views (bucket_views replica ++ [view]) replica ∧
           is_alias_of view contents = true) ∧
  buckets_ st' = buckets_ st ∧ variable_locators_ st' = variable_locators_ st.
Proof.
  intros H. unfold initialize_bucket_view, variable_at in H. ok_inv H.
  match goal with
  | Hv : (if t_non_overlapping_and_dense ?vt then _ else _) _ = (Ok ?view, ?s) |- _ =>
      assert (is_alias_of view contents = true ∧ s = st) as [Halias ->];
      [destruct (t_non_overlapping_and_dense vt); ok_inv Hv;
       (split; [|done]); unfold is_alias_of; by apply bool_decide_eq_true|]
  end.
  split; [eauto|].
  eapply runGradCallbackForVariable_frame; [|done].
  intros [g|] s x s' Hcb; [|by ok_inv Hcb].
  match type of Hcb with context [negb ?b] => destruct (negb b) end; [|by ok_inv Hcb].
  destruct copy; by ok_inv Hcb.
Qed.
Lemma foldM_ok_ind {A B} (f : A → B → M B) (I : list A → B → Reducer → Prop) l :
  ∀ done b st b' st',
  I done b st →
  (∀ done a b s b' s', I done b s → f a b s = (Ok b', s') → I (done ++ [a]) b' s') →
  foldM f l b st = (Ok b', st') → I (done ++ l) b' st'.
Proof.
  induction l as [|a l IH]; intros done b st b' st' HI Hstep H; simpl in H.
  - ok_inv H. by rewrite app_nil_r.
  - ok_inv H. rewrite (cons_middle a), (assoc_L (++)).
    eapply IH; [|done|done]. eauto.
Qed.

Lemma for_each_ok_ind {A} (f : A → M unit) (I : list A → Reducer → Prop) l :
  ∀ done st u st',
  I done st →
  (∀ done a s u s', I done s → f a s = (Ok u, s') → I (done ++ [a]) s') →
  for_each l f st = (Ok u, st') → I (done ++ l) st'.
Proof.
  induction l as [|a l IH]; intros done st u st' HI Hstep H; simpl in H.
  - ok_inv H. by rewrite app_nil_r.
  - ok_inv H. rewrite (cons_middle a), (assoc_L (++)).
    eapply IH; [|done|done]. eauto.
Qed.

Lemma initialize_bucket_views_ok replica contents copy st replica' st' :
  initialize_bucket_views replica contents copy st = (Ok replica', st') →
  (∃ views, replica' = set_bucket_views (bucket_views replica ++ views) replica ∧
            Forall (λ view, is_alias_of view contents = true) views ∧
            length views = length (variables replica)) ∧
  buckets_ st' = buckets_ st ∧ variable_locators_ st' = variable_locators_ st.
Proof.
  intros H. unfold initialize_bucket_views in H.
  apply (foldM_ok_ind _
    (λ done rep s,
       (∃ views, rep = set_bucket_views (bucket_views replica ++ views) replica ∧
                 Forall (λ view, is_alias_of view contents = true) views ∧
                 length views = length done) ∧
       buckets_ s = buckets_ st ∧ variable_locators_ s = variable_locators_ st)
    _ []) in H.
  - simpl in H. by rewrite length_seq in H.
  - split; [|done]. exists []. rewrite app_nil_r. by destruct replica.
  - intros done i rep s rep' s' ((views & -> & Hal & Hlen) & Hb & Hl) Hstep.
    apply initialize_bucket_view_ok in Hstep as ((view & -> & Hview) & Hb' & Hl').
    split; [|split; congruence]. exists (views ++ [view]). simpl.
    rewrite (assoc_L (++)). split; [done|]. split.
    + apply Forall_app. split; [done|]. by constructor.
    + rewrite !length_app. simpl. lia.
Qed.

Lemma sum_list_snoc (l : list nat) x : sum_list (l ++ [x]) = sum_list l + x.
Proof. induction l as [|y l IH]; simpl; lia. Qed.

Lemma prefix_sums_app start l1 l2 :
  prefix_sums start (l1 ++ l2) = prefix_sums start l1 ++ prefix_sums (start + sum_list l1) l2.
Proof.
  revert start. induction l1 as [|x l1 IH]; intros start; simpl.
  - by rewrite Nat.add_0_r.
  - by rewrite IH, Nat.add_assoc.
Qed.

Lemma layout_variable_ok r v l st l' st' :
  layout_variable r v l st = (Ok l', st') →
  st' = st ∧
  ∃ len, dl_offset l' = dl_offset l + len ∧
    contents (dl_replica l') = contents (dl_replica l) ∧
    bucket_views (dl_replica l') = bucket_views (dl_replica l) ∧
    variables (dl_replica l') =
      variables (dl_replica l) ++ [{| replica_index := r; variable_index := v |}] ∧
    offsets (dl_replica l') = offsets (dl_replica l) ++ [dl_offset l] ∧
    lengths (dl_replica l') = lengths (dl_replica l) ++ [len].
Proof.
  intros H. unfold layout_variable in H. ok_inv H.
  repeat match goal with
  | Hm : match ?o with Some _ => _ | None => _ end _ = (Ok _, _) |- _ =>
      destruct o; ok_inv Hm
  end.
  all: split; [done|]; eexists; simpl; split_and!; done.
Qed.

Lemma layout_variables_ok r indices l st l' st' :
  foldM (layout_variable r) indices l st = (Ok l', st') →
  st' = st ∧
  ∃ lens, length lens = length indices ∧
    dl_offset l' = dl_offset l + sum_list lens ∧
    contents (dl_replica l') = contents (dl_replica l) ∧
    bucket_views (dl_replica l') = bucket_views (dl_replica l) ∧
    variables (dl_replica l') = variables (dl_replica l) ++
      ((λ v, {| replica_index := r; variable_index := v |}) <$> indices) ∧
    offsets (dl_replica l') = offsets (dl_replica l) ++ prefix_sums (dl_offset l) lens ∧
    lengths (dl_replica l') = lengths (dl_replica l) ++ lens.
Proof.
  intros H.
  apply (foldM_ok_ind _
    (λ done l' s, s = st ∧
       ∃ lens, length lens = length done ∧
         dl_offset l' = dl_offset l + sum_list lens ∧
         contents (dl_replica l') = contents (dl_replica l) ∧
         bucket_views (dl_replica l') = bucket_views (dl_replica l) ∧
         variables (dl_replica l') = variables (dl_replica l) ++
           ((λ v, {| replica_index := r; variable_index := v |}) <$> done) ∧
         offsets (dl_replica l') = offsets (dl_replica l) ++ prefix_sums (dl_offset l) lens ∧
         lengths (dl_replica l') = lengths (dl_replica l) ++ lens) _ []) in H.
  - done.
  - split; [done|]. exists []. simpl. rewrite !app_nil_r. split_and!; done || lia.
  - intros done v l1 s l2 s' (-> & lens & Hlen & Hoff & Hc & Hbv & Hv & Ho & Hl) Hstep.
    apply layout_variable_ok in Hstep as (-> & len & Hoff' & Hc' & Hbv' & Hv' & Ho' & Hl').
    split; [done|]. exists (lens ++ [len]). split_and!.
    + rewrite !length_app. simpl. lia.
    + rewrite sum_list_snoc. lia.
    + congruence.
    + congruence.
    + rewrite Hv', Hv, fmap_app, <- (assoc_L (++)). done.
    + rewrite Ho', Ho, prefix_sums_app, <- (assoc_L (++)). simpl. by rewrite Hoff.
    + rewrite Hl', Hl, <- (assoc_L (++)). done.
Qed.
Lemma initialize_replica_ok sparse indices r st rep st' :
  initialize_replica sparse indices r st = (Ok rep, st') →
  (sparse = false → dense_replica_ok rep) ∧
  buckets_ st' = buckets_ st ∧ variable_locators_ st' = variable_locators_ st.
Proof.
  intros H. unfold initialize_replica in H. destruct sparse.
  - unfold variable_at in H. ok_inv H. done.
  - ok_inv H.
    match goal with
    | Hx : context [at_empty] |- _ => unfold at_empty in Hx; ok_inv Hx
    end.
    match goal with
    | Hf : foldM _ _ _ _ = _ |- _ =>
        apply layout_variables_ok in Hf
          as (-> & lens & Hlen & Hoff & Hc & Hbv & Hv & Ho & Hl)
    end.
    simpl in *.
    match goal with
    | Hv : initialize_bucket_views _ _ _ _ = _ |- _ =>
        apply initialize_bucket_views_ok in Hv
          as ((views & -> & Halias & Hviews) & Hb' & Hl')
    end.
    simpl in *. split; [|done]. intros _.
    eexists. simpl. split; [done|]. rewrite Hbv, Hl, Ho. simpl.
    split_and!.
    + unfold numel. simpl. lia.
    + done.
    + done.
    + rewrite Hviews. done.
    + rewrite Hv, length_fmap. done.
Qed.

Lemma bucket_expects_sparse_ok indices st sparse st' :
  bucket_expects_sparse indices st = (Ok sparse, st') → st' = st.
Proof.
  intros H. unfold bucket_expects_sparse in H. ok_inv H.
  match goal with
  | Hm : match indices with [] => _ | _ => _ end _ = _ |- _ => rename Hm into H
  end.
  assert (∀ (flags0 : list bool) l u s', for_each l (λ variable_index,
             flag ← lift (at_ flags0 variable_index);
             TORCH_CHECK (negb flag)
               "Buckets with more than one variable cannot include variables that expect a sparse gradient.")
             st = (Ok u, s') → s' = st) as Hloop.
  { intros flags0 l u s' Hl.
    apply (for_each_ok_ind _ (λ _ s, s = st) _ []) in Hl; [done..|].
    intros done v0 s u' s'' -> Hs. by ok_inv Hs. }
  destruct indices as [|v [|w rest]]; ok_inv H;
    try (match goal with Hl : for_each _ _ _ = _ |- _ => apply Hloop in Hl end); done.
Qed.

Lemma map_variables_ok b indices st u st' :
  map_variables b indices st = (Ok u, st') →
  buckets_ st' = buckets_ st ∧
  length (variable_locators_ st') = length (variable_locators_ st) ∧
  ∀ p, (p ∈ indices →
          ∃ j, variable_locators_ st' !! p =
                 Some {| bucket_index := b; intra_bucket_index := j |} ∧
               indices !! j = Some p) ∧
       (p ∉ indices → variable_locators_ st' !! p = variable_locators_ st !! p).
Proof.
  intros H. unfold map_variables in H. ok_inv H.
  match goal with Hf : foldM _ _ _ _ = _ |- _ => rename Hf into H end.
  apply (foldM_ok_ind _
    (λ done j s, j = length done ∧
       buckets_ s = buckets_ st ∧
       length (variable_locators_ s) = length (variable_locators_ st) ∧
       ∀ p, (p ∈ done →
               ∃ j, variable_locators_ s !! p =
                      Some {| bucket_index := b; intra_bucket_index := j |} ∧
                    done !! j = Some p) ∧
            (p ∉ done → variable_locators_ s !! p = variable_locators_ st !! p))
    _ []) in H.
  - simpl in H. by destruct H as (_ & ? & ? & ?).
  - split_and!; try done. intros p. split; [by intros ?%elem_of_nil|done].
  - clear. intros done v j s j' s' (-> & Hb & Hlen & Hloc) Hstep. ok_inv Hstep.
    match goal with Hc : bool_decide _ = true |- _ => apply bool_decide_eq_true in Hc end.
    simpl. split_and!.
    + rewrite length_app. simpl. lia.
    + done.
    + by rewrite length_insert.
    + intros p. destruct (decide (p = v)) as [->|Hne].
      * split; [|intros Hn; destruct Hn; apply elem_of_app; right; by left].
        intros _. exists (length done). rewrite list_lookup_insert_eq by done.
        split; [done|]. by rewrite lookup_app_r, Nat.sub_diag by done.
      * rewrite list_lookup_insert_ne by done. split.
        -- intros Hp. apply elem_of_app in Hp as [Hp|Hp].
           ++ destruct (proj1 (Hloc p) Hp) as (j & Hj & Hdj). exists j.
              split; [done|]. by apply lookup_app_l_Some.
           ++ apply list_elem_of_singleton in Hp. done.
        -- intros Hp. apply (proj2 (Hloc p)). intros Hin. apply Hp.
           apply elem_of_app. by left.
Qed.
Lemma initialize_bucket_ok b indices st u st' :
  initialize_bucket b indices st = (Ok u, st') →
  (∃ bkt, buckets_ st' = buckets_ st ++ [bkt] ∧ variable_indices bkt = indices ∧
          (expect_sparse_gradient bkt = false →
           Forall dense_replica_ok (replicas bkt))) ∧
  length (variable_locators_ st') = length (variable_locators_ st) ∧
  ∀ p, (p ∈ indices →
          ∃ j, variable_locators_ st' !! p =
                 Some {| bucket_index := b; intra_bucket_index := j |} ∧
               indices !! j = Some p) ∧
       (p ∉ indices → variable_locators_ st' !! p = variable_locators_ st !! p).
Proof.
  intros H. unfold initialize_bucket in H. ok_inv H.
  match goal with
  | Hs : bucket_expects_sparse _ _ = _ |- _ => apply bucket_expects_sparse_ok in Hs as ->
  end.
  match goal with
  | Hf : foldM _ _ _ _ = (Ok ?reps, _) |- _ =>
      apply (foldM_ok_ind _
        (λ _ reps s, (a0 = false → Forall dense_replica_ok reps) ∧
           buckets_ s = buckets_ st ∧ variable_locators_ s = variable_locators_ st)
        _ []) in Hf as (Hreps & Hb & Hl)
  end.
  - match goal with
    | Hm : map_variables _ _ _ = _ |- _ =>
        apply map_variables_ok in Hm as (Hb' & Hlen & Hloc)
    end.
    simpl. rewrite Hb', Hb. split; [eauto|]. rewrite Hlen, Hl. split; [done|].
    intros p. destruct (Hloc p) as [H1 H2]. split; [done|].
    intros Hp. rewrite H2 by done. by rewrite Hl.
  - done.
  - intros done r reps s reps' s' (Hreps & Hb & Hl) Hstep. ok_inv Hstep.
    match goal with
    | Hr : initialize_replica _ _ _ _ = _ |- _ =>
        apply initialize_replica_ok in Hr as (Hrep & Hb' & Hl')
    end.
    split; [|split; congruence].
    intros Hs. apply Forall_app. split; [by apply Hreps|]. constructor; [by apply Hrep|done].
Qed.

Lemma imap_pair_lookup {A} (l : list A) i p :
  imap (λ i x, (i, x)) l !! i = Some p → p.1 = i ∧ l !! i = Some p.2.
Proof.
  rewrite list_lookup_imap. destruct (l !! i); simpl; [|done]. by intros [= <-].
Qed.

Lemma imap_pair_snd {A} (l : list A) : snd <$> imap (λ i x, (i, x)) l = l.
Proof.
  apply list_eq. intros i. rewrite list_lookup_fmap, list_lookup_imap.
  by destruct (l !! i).
Qed.

(** ** The readiness state machine *)

Lemma Reducer_eta st :
  set_next_bucket_ (next_bucket_ st)
    (set_collectives (collectives st) (set_buckets_ (buckets_ st) st)) = st.
Proof. by destruct st. Qed.

Lemma erase_work_alter f (i : nat) (bs : list Bucket) :
  (∀ b, erase_work (f b) = erase_work b) →
  erase_work <$> alter f i bs = erase_work <$> bs.
Proof.
  intros Hf. rewrite (list_fmap_alter erase_work f id).
  - by apply list_alter_id.
  - apply Forall_forall. intros b _. apply Hf.
Qed.

Lemma lookup_erase_work (bs : list Bucket) (b : nat) bkt :
  bs !! b = Some bkt → (erase_work <$> bs) !! b = Some (erase_work bkt).
Proof. intros H. by rewrite list_lookup_fmap, H. Qed.

Lemma launch_post_stop s :
  next_bucket_ s ≤ length (buckets_ s) →
  (∀ bkt, (erase_work <$> buckets_ s) !! next_bucket_ s = Some bkt →
     bucket_pending bkt ≠ 0%Z) →
  launch_post s (Ok tt, s).
Proof.
  intros Hnext Hwait. exists (buckets_ s), (collectives s), (next_bucket_ s).
  rewrite Reducer_eta. split; [done|]. split; [done|]. split; [done|].
  split; [done|]. split.
  { rewrite Nat.sub_diag. simpl. by rewrite app_nil_r. }
  split; [intros; lia|done].
Qed.

(** The loop of [mark_bucket_ready] ends. *)
Lemma mark_bucket_ready_loop_effect fuel : ∀ s,
  length (buckets_ s) - next_bucket_ s ≤ fuel →
  next_bucket_ s ≤ length (buckets_ s) →
  launch_post s (mark_bucket_ready_loop fuel s).
Proof.
  induction fuel as [|fuel IH]; intros s Hfuel Hnext.
  - apply launch_post_stop; [done|].
    intros bkt Hb. apply lookup_lt_Some in Hb. rewrite length_fmap in Hb. lia.
  - simpl. monad_unfold.
    destruct (buckets_ s !! next_bucket_ s) as [bucket|] eqn:Hb.
    2:{ apply launch_post_stop; [done|]. intros bkt. by rewrite list_lookup_fmap, Hb. }
    destruct (bucket_pending bucket =? 0)%Z eqn:Hp.
    2:{ apply launch_post_stop; [done|]. intros bkt.
        rewrite list_lookup_fmap, Hb. simpl. intros [= <-]. simpl. lia. }
    apply Z.eqb_eq in Hp. pose proof (lookup_lt_Some _ _ _ Hb) as Hlt.
    unfold launch_next_bucket. monad_unfold.
    set (tensors := contents <$> replicas bucket).
    destruct (comm_hook_ s) eqn:Hhook; simpl.
    all: match goal with |- context [mark_bucket_ready_loop _ ?s1] =>
        destruct (IH s1)
          as (bs' & log' & next' & Heq & Hcore & Hlo & Hhi & Hlog & Hdone & Hwait)
      end; [simpl; rewrite length_alter; lia|simpl; rewrite length_alter; lia|].
    all: simpl in *; rewrite Heq; exists bs', log', next'.
    all: rewrite length_alter in Hhi.
    all: rewrite erase_work_alter in Hcore, Hdone, Hwait by done.
    all: split; [done|]; split; [done|]; split; [lia|]; split; [done|]; split;
      [|split; [|done]].
    all: try (unfold launched in *; simpl in *; rewrite Hlog, omap_app; simpl;
        rewrite <- app_assoc; f_equal; simpl;
        replace (next' - next_bucket_ s) with (S (next' - S (next_bucket_ s))) by lia;
        done).
    all: intros b bkt Hb1 Hb2; destruct (decide (b = next_bucket_ s)) as [->|Hne];
      [rewrite list_lookup_fmap, Hb in Hb2; by injection Hb2 as <-
      |apply (Hdone b bkt); [lia|done]].
Qed.

Lemma mark_bucket_ready_effect b s :
  next_bucket_ s ≤ b → next_bucket_ s ≤ length (buckets_ s) →
  (next_bucket_ s < b → ∀ bkt, (erase_work <$> buckets_ s) !! next_bucket_ s = Some bkt →
     bucket_pending bkt ≠ 0%Z) →
  launch_post s (mark_bucket_ready b s).
Proof.
  intros Hb Hnext Hwait. unfold mark_bucket_ready. monad_unfold.
  rewrite bool_decide_eq_true_2 by done.
  destruct (bool_decide (next_bucket_ s < b)) eqn:Hlt.
  - apply bool_decide_eq_true in Hlt. by apply launch_post_stop; [|apply Hwait].
  - by apply mark_bucket_ready_loop_effect.
Qed.

Lemma alter_as_insert {A} (f : A → A) (l : list A) (i : nat) x :
  l !! i = Some x → alter f i l = <[i := f x]> l.
Proof.
  intros Hx. apply list_eq. intros j. rewrite list_lookup_alter.
  destruct (decide (i = j)) as [<-|Hne].
  - rewrite Hx. simpl. symmetry. apply list_lookup_insert_eq. by eapply lookup_lt_Some.
  - by rewrite list_lookup_insert_ne.
Qed.

Lemma waiting_replicas_insert reps : ∀ (r : nat) rp rp',
  reps !! r = Some rp → (0 < replica_pending rp)%Z →
  0 < waiting_replicas reps ∧
  waiting_replicas (<[r := rp']> reps) =
    waiting_replicas reps - 1 + (if decide (0 < replica_pending rp')%Z then 1 else 0).
Proof.
  unfold waiting_replicas.
  induction reps as [|x reps IH]; intros r rp rp' Hr Hp; [done|].
  destruct r as [|r]; simpl in *.
  - injection Hr as ->. rewrite !filter_cons. rewrite decide_True by done.
    simpl. split; [lia|]. destruct (decide (0 < replica_pending rp')%Z); simpl; lia.
  - destruct (IH r rp rp' Hr Hp) as [Hpos Heq].
    rewrite !filter_cons. destruct (decide (0 < replica_pending x)%Z); simpl.
    + split; [lia|]. rewrite Heq. lia.
    + split; [done|]. by rewrite Heq.
Qed.

Lemma set_bucket_pending_id bk : set_bucket_pending (bucket_pending bk) bk = bk.
Proof. by destruct bk. Qed.

(** The countdown of [mark_variable_ready] for a replica that still waits
    for gradients: the replica counts down; the bucket then waits for the
    replicas that still wait; the complete buckets at [next_bucket_] are
    launched. *)
Lemma decrement_pending_effect b r s bk rp :
  buckets_ s !! b = Some bk → replicas bk !! r = Some rp →
  (0 < replica_pending rp)%Z →
  bucket_pending bk = Z.of_nat (waiting_replicas (replicas bk)) →
  next_bucket_ s ≤ length (buckets_ s) →
  (∀ b' bkt, b' < next_bucket_ s → buckets_ s !! b' = Some bkt →
     bucket_pending bkt = 0%Z) →
  (∀ bkt, buckets_ s !! next_bucket_ s = Some bkt → bucket_pending bkt ≠ 0%Z) →
  let reps' := <[r := set_replica_pending (replica_pending rp - 1) rp]> (replicas bk) in
  let bk' := set_bucket_pending (Z.of_nat (waiting_replicas reps'))
               (set_replicas reps' bk) in
  launch_post (set_buckets_ (<[b := bk']> (buckets_ s)) s) (decrement_pending b r s).
Proof.
  intros Hbk Hrp Hp HP Hnext Hdone Hwait reps' bk'.
  pose proof (lookup_lt_Some _ _ _ Hbk) as Hb. pose proof (lookup_lt_Some _ _ _ Hrp) as Hr.
  destruct (waiting_replicas_insert (replicas bk) r rp
              (set_replica_pending (replica_pending rp - 1) rp) Hrp Hp) as [Hpos Hcount].
  fold reps' in Hcount. simpl in Hcount.
  assert (next_bucket_ s ≤ b) as Hle.
  { destruct (decide (next_bucket_ s ≤ b)); [done|].
    specialize (Hdone b bk ltac:(lia) Hbk). lia. }
  assert (∀ bkt, next_bucket_ s ≠ b →
            (erase_work <$> <[b := bk']> (buckets_ s)) !! next_bucket_ s = Some bkt →
            bucket_pending bkt ≠ 0%Z) as Hother.
  { intros bkt Hne. rewrite list_lookup_fmap, list_lookup_insert_ne by done.
    destruct (buckets_ s !! next_bucket_ s) as [x|] eqn:Hx; [|done].
    simpl. intros [= <-]. simpl. by apply Hwait. }
  unfold decrement_pending. monad_unfold. unfold at_. simpl.
  rewrite (alter_as_insert _ _ _ _ Hbk), list_lookup_insert_eq by done. simpl.
  rewrite (alter_as_insert _ _ _ _ Hrp), list_lookup_insert_eq by done. simpl.
  assert (∀ x, (0 < x)%Z → size_t_dec x = (x - 1)%Z) as Hdec.
  { intros x Hx. unfold size_t_dec. by rewrite (proj2 (Z.eqb_neq x 0)) by lia. }
  rewrite (Hdec _ Hp). fold reps'.
  destruct (replica_pending rp - 1 =? 0)%Z eqn:Hzero.
  - apply Z.eqb_eq in Hzero. rewrite decide_False in Hcount by lia.
    simpl.
    rewrite (alter_as_insert _ _ _ (set_replicas reps' bk)),
      list_insert_insert_eq, list_lookup_insert_eq
      by (try apply list_lookup_insert_eq; done).
    simpl. rewrite Hdec by lia.
    replace (set_bucket_pending (bucket_pending bk - 1) (set_replicas reps' bk))
      with bk'.
    2:{ unfold bk'. f_equal. lia. }
    destruct (bucket_pending bk - 1 =? 0)%Z eqn:Hlast.
    + apply mark_bucket_ready_effect; simpl; [done|by rewrite length_insert|].
      intros Hlt. intros bkt. apply Hother. lia.
    + apply launch_post_stop; simpl; [by rewrite length_insert|].
      intros bkt. destruct (decide (next_bucket_ s = b)) as [->|Hne]; [|by apply Hother].
      rewrite list_lookup_fmap, list_lookup_insert_eq by done. simpl.
      intros [= <-]. simpl. apply Z.eqb_neq in Hlast. lia.
  - apply Z.eqb_neq in Hzero. rewrite decide_True in Hcount by lia.
    replace (set_replicas reps' bk) with bk'.
    2:{ unfold bk'. replace (Z.of_nat (waiting_replicas reps'))
          with (bucket_pending (set_replicas reps' bk)) by (simpl; lia).
        apply set_bucket_pending_id. }
    apply launch_post_stop; simpl; [by rewrite length_insert|].
    intros bkt. destruct (decide (next_bucket_ s = b)) as [->|Hne]; [|by apply Hother].
    rewrite list_lookup_fmap, list_lookup_insert_eq by done. simpl.
    intros [= <-]. simpl. lia.
Qed.

Lemma set_buckets_id s : set_buckets_ (buckets_ s) s = s.
Proof. by destruct s. Qed.

Lemma set_storages_id s : set_storages (storages s) s = s.
Proof. by destruct s. Qed.

Lemma set_contents_id rep : set_contents (contents rep) rep = rep.
Proof. by destruct rep. Qed.

Lemma set_replicas_id bkt : set_replicas (replicas bkt) bkt = bkt.
Proof. by destruct bkt. Qed.

(** The gradient step of [mark_variable_ready] for a gradient that passes
    its checks: it succeeds; a sparse gradient becomes the contents of the
    replica; the gradient stays in place or is redirected to its bucket
    view; beyond that only tensor data changes. *)
Lemma gradient_step_effect index s loc bkt rep grad :
  variable_locators_ s !! variable_index index = Some loc →
  buckets_ s !! bucket_index loc = Some bkt →
  replicas bkt !! replica_index index = Some rep →
  variables rep !! intra_bucket_index loc = Some index →
  (expect_sparse_gradient bkt = false →
     is_Some (offsets rep !! intra_bucket_index loc) ∧
     is_Some (lengths rep !! intra_bucket_index loc) ∧
     is_Some (bucket_views rep !! intra_bucket_index loc)) →
  grad_of s index = Some grad →
  (if expect_sparse_gradient bkt then ∃ g, grad = Some g ∧ t_layout g = Sparse
   else ∀ g view, grad = Some g →
          bucket_views rep !! intra_bucket_index loc = Some view →
          is_alias_of g view = false →
          type_equal g view = true ∧ t_device g = t_device view ∧
          numel g = numel view) →
  ∃ c x h,
    (if expect_sparse_gradient bkt then mark_variable_ready_sparse index
     else mark_variable_ready_dense index) s =
      (Ok tt,
       set_grads (alter (λ row, <[variable_index index := x]> row)
                        (replica_index index) (grads s))
         (set_storages h
            (set_buckets_
               (<[bucket_index loc :=
                    set_replicas (<[replica_index index := set_contents c rep]>
                                    (replicas bkt)) bkt]> (buckets_ s)) s))) ∧
    (if expect_sparse_gradient bkt then is_Some c else c = contents rep) ∧
    (x = grad ∨
     ∃ view, expect_sparse_gradient bkt = false ∧
             bucket_views rep !! intra_bucket_index loc = Some view ∧ x = Some view).
Proof.
  intros Hloc Hbkt Hrep Hvar Hdense Hgrad Hok.
  unfold grad_of in Hgrad.
  destruct (grads s !! replica_index index) as [row|] eqn:Hrow; [|done].
  simpl in Hgrad.
  pose proof (lookup_lt_Some _ _ _ Hbkt) as Hb.
  pose proof (lookup_lt_Some _ _ _ Hrep) as Hr.
  destruct (expect_sparse_gradient bkt) eqn:Hsparse.
  - destruct Hok as (g & -> & Hlayout).
    unfold mark_variable_ready_sparse, runGradCallbackForVariable. monad_unfold.
    unfold at_. rewrite Hloc. simpl. rewrite Hbkt. simpl. rewrite Hrep. simpl.
    rewrite Hvar. simpl. rewrite Hrow. simpl. rewrite Hgrad. simpl.
    rewrite bool_decide_eq_true_2 by done. simpl.
    rewrite (alter_as_insert _ _ _ _ Hbkt). simpl.
    rewrite (alter_as_insert _ _ _ _ Hrep).
    destruct (comm_hook_ s); simpl.
    + exists (Some g), (Some g), (storages s). split; [|split; [done|by left]].
      by destruct s.
    + exists (Some g), (Some g), (div_ (storages s) g (world_size s)).
      split; [done|]. split; [done|by left].
  - destruct (Hdense eq_refl) as ([o Ho] & [l Hl] & [view Hview]).
    assert (<[bucket_index loc :=
               set_replicas (<[replica_index index := set_contents (contents rep) rep]>
                               (replicas bkt)) bkt]> (buckets_ s) = buckets_ s) as Hsame.
    { rewrite set_contents_id, (list_insert_id _ _ _ Hrep), set_replicas_id.
      by apply list_insert_id. }
    unfold mark_variable_ready_dense, runGradCallbackForVariable. monad_unfold.
    unfold at_. rewrite Hloc. simpl. rewrite Hbkt. simpl. rewrite Hrep. simpl.
    rewrite Hvar, Ho, Hl, Hview. simpl. rewrite Hrow. simpl. rewrite Hgrad. simpl.
    destruct grad as [g|].
    + destruct (is_alias_of g view) eqn:Halias; simpl.
      * destruct (comm_hook_ s); simpl.
        -- exists (contents rep), (Some g), (storages s).
           rewrite Hsame, set_buckets_id, set_storages_id. split; [done|].
           split; [done|by left].
        -- exists (contents rep), (Some g), (div_ (storages s) view (world_size s)).
           rewrite Hsame, set_buckets_id. split; [done|]. split; [done|by left].
      * destruct (Hok g view eq_refl Hview Halias) as (-> & -> & Hnumel). simpl.
        rewrite !bool_decide_eq_true_2 by done. simpl.
        destruct (comm_hook_ s); simpl.
        -- exists (contents rep), (Some view), (copy_ (storages s) view g).
           rewrite Hsame, set_buckets_id. split; [done|]. split; [done|].
           right. by exists view.
        -- exists (contents rep), (Some view),
             (mul_out (storages s) view g (reciprocal_world_size s)).
           rewrite Hsame, set_buckets_id. split; [done|]. split; [done|].
           right. by exists view.
    + simpl. exists (contents rep), None, (zero_ (storages s) view).
      rewrite Hsame, set_buckets_id. split; [done|]. split; [done|by left].
Qed.

Lemma set_local_used_maps_dev_id s :
  set_local_used_maps_dev_ (local_used_maps_dev_ s) s = s.
Proof. by destruct s. Qed.

(** The copy loop of the finalizer. *)
Lemma copy_used_maps_effect (maps : list (list Z)) : ∀ k s,
  k + length maps ≤ length (local_used_maps_dev_ s) →
  ∃ dev',
    for_each (imap (λ i m, (k + i, m)) maps) (λ p,
      dev ← get local_used_maps_dev_;
      _ ← lift (at_ dev p.1);
      modify (set_local_used_maps_dev_ (<[p.1 := p.2]> dev))) s
      = (Ok tt, set_local_used_maps_dev_ dev' s) ∧
    length dev' = length (local_used_maps_dev_ s).
Proof.
  induction maps as [|m maps IH]; intros k s Hlen.
  - exists (local_used_maps_dev_ s). by rewrite set_local_used_maps_dev_id.
  - simpl in Hlen. simpl. monad_unfold. unfold at_.
    destruct (lookup_lt_is_Some_2 (local_used_maps_dev_ s) (k + 0)) as [x Hx]; [lia|].
    rewrite Hx.
    rewrite (imap_ext _ (λ i m, (S k + i, m))).
    2:{ intros i y _. simpl. f_equal. lia. }
    match goal with |- context [for_each _ _ ?s1] =>
      destruct (IH (S k) s1) as (dev' & Heq & Hdev)
    end.
    { simpl. rewrite length_insert. lia. }
    simpl in Hdev. rewrite length_insert in Hdev.
    exists dev'. split; [|done].
    etransitivity; [|etransitivity; [exact Heq|]]; [|done].
    reflexivity.
Qed.

(** The finalizer of [mark_variable_ready] succeeds when the replica has
    contents; it launches no bucket. *)
Lemma queue_finalize_effect b r s bk rp t :
  buckets_ s !! b = Some bk → replicas bk !! r = Some rp → contents rp = Some t →
  (find_unused_parameters_ s = true →
     length (local_used_maps_dev_ s) = length (local_used_maps_ s)) →
  ∃ dev' log' w' cb',
    queue_finalize b r s =
      (Ok tt, set_callbacks cb' (set_local_used_work_ w'
                (set_collectives log' (set_local_used_maps_dev_ dev' s)))) ∧
    length dev' = length (local_used_maps_dev_ s) ∧
    launched (set_collectives log' s) = launched s.
Proof.
  intros Hbk Hrp Ht Hmaps. unfold queue_finalize.
  destruct (find_unused_parameters_ s) eqn:Hfind.
  - destruct (copy_used_maps_effect (local_used_maps_ s) 0 s) as (dev' & Heq & Hdev).
    { rewrite Hmaps by done. lia. }
    simpl in Heq.
    exists dev', (collectives s ++ [AllreduceUsedMaps dev']),
      (Some (length (collectives s))), (callbacks s ++ [t_device t]).
    split; [|split; [done|]].
    + cbv [mbind M_bind get modify TORCH_CHECK TORCH_INTERNAL_ASSERT lift torch_check
           internal_assert mret M_ret get_bucket get_replica update_bucket
           update_replica] in Heq.
      monad_unfold. rewrite Hfind, Heq.
      unfold at_. simpl. rewrite Hbk. simpl. rewrite Hrp, Ht. done.
    + unfold launched. simpl. rewrite omap_app. simpl. by rewrite app_nil_r.
  - exists (local_used_maps_dev_ s), (collectives s), (local_used_work_ s),
      (callbacks s ++ [t_device t]).
    split; [|done].
    monad_unfold. rewrite Hfind. unfold at_. rewrite Hbk. simpl. rewrite Hrp, Ht.
    done.
Qed.

(** ** One call of [mark_variable_ready] keeps the invariant *)

(** The state [s'] after a call for [index], seen from the state [s]
    before it: the replica [rep] of the bucket [bkt] of [index] was counted
    down, the buckets from [next_bucket_ s] up to [next_bucket_ s'] were
    launched, and nothing else the invariant speaks about has changed. *)
Section step.
Context (marked : list VariableIndex) (s s' : Reducer) (index : VariableIndex)
        (loc : VariableLocator) (bkt : Bucket) (rep : BucketReplica)
        (c grad x : option Tensor).

Hypothesis Hlayout : layout_ok s.
Hypothesis Hgrads : grads_ok s.
Hypothesis Hcount : counters_ok marked s.
Hypothesis Hloc : variable_locators_ s !! variable_index index = Some loc.
Hypothesis Hbkt : buckets_ s !! bucket_index loc = Some bkt.
Hypothesis Hrep : replicas bkt !! replica_index index = Some rep.
Hypothesis Hpos : (0 < replica_pending rep)%Z.
Hypothesis Hc : if expect_sparse_gradient bkt then is_Some c else c = contents rep.
Hypothesis Hgrad : grad_of s index = Some grad.
Hypothesis Hx : x = grad ∨
  ∃ view, expect_sparse_gradient bkt = false ∧
          bucket_views rep !! intra_bucket_index loc = Some view ∧ x = Some view.

Hypothesis Hreplicas : replicas_ s' = replicas_ s.
Hypothesis Hlocators : variable_locators_ s' = variable_locators_ s.
Hypothesis Hfind : find_unused_parameters_ s' = find_unused_parameters_ s.
Hypothesis Hmaps : local_used_maps_ s' = local_used_maps_ s.
Hypothesis Hdev : length (local_used_maps_dev_ s') = length (local_used_maps_dev_ s).
Hypothesis Hstats : ∃ row z,
  backward_stats_ s !! replica_index index = Some row ∧
  backward_stats_ s' =
    <[replica_index index := <[variable_index index := z]> row]> (backward_stats_ s).
Hypothesis Hgrads' : grads s' =
  alter (λ row, <[variable_index index := x]> row) (replica_index index) (grads s).
Hypothesis Hbuckets : buckets_ s' =
  <[bucket_index loc := count_down_bucket (replica_index index) c bkt rep]> (buckets_ s).
Hypothesis Hnext : next_bucket_ s ≤ next_bucket_ s' ≤ length (buckets_ s).
Hypothesis Hlaunched : launched s' =
  launched s ++ seq (next_bucket_ s) (next_bucket_ s' - next_bucket_ s).
Hypothesis Hdone : ∀ b0 bkt0, next_bucket_ s ≤ b0 < next_bucket_ s' →
  buckets_ s' !! b0 = Some bkt0 → bucket_pending bkt0 = 0%Z.
Hypothesis Hwait : ∀ bkt0, buckets_ s' !! next_bucket_ s' = Some bkt0 →
  bucket_pending bkt0 ≠ 0%Z.

(** A bucket of the new state, seen from the old one. *)
Lemma step_lookup_bucket b0 bkt0 :
  buckets_ s' !! b0 = Some bkt0 →
  ∃ bkt1, buckets_ s !! b0 = Some bkt1 ∧
    variable_indices bkt0 = variable_indices bkt1 ∧
    expect_sparse_gradient bkt0 = expect_sparse_gradient bkt1 ∧
    length (replicas bkt0) = length (replicas bkt1) ∧
    (b0 = bucket_index loc ∧ bkt1 = bkt ∧
     bkt0 = count_down_bucket (replica_index index) c bkt rep ∨
     b0 ≠ bucket_index loc ∧ bkt0 = bkt1).
Proof.
  rewrite Hbuckets. intros H0.
  pose proof (lookup_lt_Some _ _ _ Hbkt) as Hb.
  destruct (decide (b0 = bucket_index loc)) as [->|Hne].
  - rewrite list_lookup_insert_eq in H0 by done. injection H0 as <-.
    exists bkt. simpl. rewrite length_insert. split_and!; try done. by left.
  - rewrite list_lookup_insert_ne in H0 by done.
    exists bkt0. split_and!; try done. by right.
Qed.

(** A replica of the new state, seen from the old one. *)
Lemma step_lookup_replica b0 bkt0 r0 rep0 :
  buckets_ s' !! b0 = Some bkt0 → replicas bkt0 !! r0 = Some rep0 →
  ∃ bkt1 rep1, buckets_ s !! b0 = Some bkt1 ∧ replicas bkt1 !! r0 = Some rep1 ∧
    variable_indices bkt0 = variable_indices bkt1 ∧
    expect_sparse_gradient bkt0 = expect_sparse_gradient bkt1 ∧
    variables rep0 = variables rep1 ∧ bucket_views rep0 = bucket_views rep1 ∧
    offsets rep0 = offsets rep1 ∧ lengths rep0 = lengths rep1 ∧
    (b0 = bucket_index loc ∧ r0 = replica_index index ∧ bkt1 = bkt ∧ rep1 = rep ∧
     rep0 = count_down_replica c rep ∨
     ¬ (b0 = bucket_index loc ∧ r0 = replica_index index) ∧ rep0 = rep1).
Proof.
  intros H0 Hr0.
  destruct (step_lookup_bucket b0 bkt0 H0)
    as (bkt1 & H1 & Hvi & Hsp & Hlen & [(-> & -> & ->)|[Hne ->]]).
  - pose proof (lookup_lt_Some _ _ _ Hrep) as Hr. simpl in Hr0.
    destruct (decide (r0 = replica_index index)) as [->|Hne].
    + rewrite list_lookup_insert_eq in Hr0 by done. injection Hr0 as <-.
      exists bkt, rep. split_and!; try done. by left.
    + rewrite list_lookup_insert_ne in Hr0 by done.
      exists bkt, rep0. split_and!; try done. right. split; [|done]. tauto.
  - exists bkt1, rep0. split_and!; try done. right. split; [|done]. tauto.
Qed.

Lemma layout_ok_step : layout_ok s'.
Proof.
  destruct Hlayout as [H1 H2 [H3 H3'] [H4 H4'] H5 H6 H7].
  constructor.
  - by rewrite Hreplicas.
  - by rewrite Hreplicas, Hlocators.
  - destruct Hstats as (row & z & Hrow & ->).
    rewrite length_insert, Hreplicas, Hlocators. split; [done|].
    apply Forall_insert; [done|]. rewrite length_insert.
    by apply (Forall_lookup_1 _ _ _ _ H3' Hrow).
  - rewrite Hgrads', length_alter, Hreplicas, Hlocators. split; [done|].
    apply Forall_alter; [done|]. intros row _ Hlen. by rewrite length_insert.
  - rewrite Hbuckets, Hlocators, list_fmap_insert. simpl.
    rewrite list_insert_id; [done|]. by rewrite list_lookup_fmap, Hbkt.
  - intros v0 loc0 H0. rewrite Hlocators in H0.
    destruct (H6 _ _ H0) as (bkt1 & Hb1 & Hv1). rewrite Hbuckets.
    destruct (decide (bucket_index loc0 = bucket_index loc)) as [e|n].
    + rewrite e in *. rewrite list_lookup_insert_eq by by eapply lookup_lt_Some.
      eexists. split; [done|]. simpl. congruence.
    + rewrite list_lookup_insert_ne by done. eauto.
  - intros b0 bkt0 H0.
    destruct (step_lookup_bucket b0 bkt0 H0) as (bkt1 & Hb1 & Hvi & Hsp & Hlen & _).
    destruct (H7 _ _ Hb1) as (Hne & Hlen1 & Hreps).
    rewrite Hvi, Hsp, Hlen, Hreplicas. split; [done|]. split; [done|].
    intros r0 rep0 Hr0.
    destruct (step_lookup_replica b0 bkt0 r0 rep0 H0 Hr0)
      as (bkt2 & rep1 & Hb2 & Hr1 & _ & _ & Hvars & Hviews & Hoffs & Hlens & Hcase).
    assert (bkt2 = bkt1) as -> by congruence.
    destruct (Hreps _ _ Hr1) as [Hv Hrest].
    rewrite Hvars, Hviews, Hoffs, Hlens. split; [done|].
    destruct (expect_sparse_gradient bkt1) eqn:Hsparse; [done|].
    destruct Hrest as (Hcont & Hrest). split; [|done].
    destruct Hcase as [(-> & -> & -> & -> & ->)|[_ ->]]; [|done].
    simpl. rewrite Hsparse in Hc. by rewrite Hc.
Qed.

Lemma grads_ok_step : grads_ok s'.
Proof.
  intros r0 v0 loc0 bkt0 rep0 Hl0 Hb0 Hr0. rewrite Hlocators in Hl0.
  destruct (step_lookup_replica _ bkt0 r0 rep0 Hb0 Hr0)
    as (bkt1 & rep1 & Hb1 & Hr1 & _ & Hsp & _ & Hviews & _ & _ & _).
  destruct (Hgrads r0 v0 loc0 bkt1 rep1 Hl0 Hb1 Hr1) as (g0 & Hg0 & Hcond).
  rewrite Hsp, Hviews, Hgrads'.
  destruct (grads s !! r0) as [row|] eqn:Hrow; [|done]. simpl in Hg0.
  destruct (decide (replica_index index = r0 ∧ variable_index index = v0))
    as [[<- <-]|Hne].
  - assert (loc0 = loc) as -> by congruence.
    assert (bkt1 = bkt) as -> by congruence.
    assert (rep1 = rep) as -> by congruence.
    assert (g0 = grad) as ->.
    { unfold grad_of in Hgrad. rewrite Hrow in Hgrad. simpl in Hgrad. congruence. }
    exists x. split.
    { rewrite list_lookup_alter, decide_True, Hrow by done. simpl.
      apply list_lookup_insert_eq. by eapply lookup_lt_Some. }
    destruct Hx as [->|(view & Hdense & Hview & ->)]; [done|].
    rewrite Hdense. intros g view0 [= <-] Hview0 Halias.
    assert (view0 = view) as -> by congruence.
    unfold is_alias_of in Halias. by rewrite bool_decide_eq_true_2 in Halias.
  - exists g0. split; [|done].
    rewrite list_lookup_alter.
    destruct (decide (replica_index index = r0)) as [<-|Hr]; [|by rewrite Hrow].
    rewrite Hrow. simpl. rewrite list_lookup_insert_ne; [done|]. tauto.
Qed.

Lemma marked_in_step b0 r0 :
  marked_in s' b0 r0 (marked ++ [index]) =
  marked_in s b0 r0 marked +
    (if decide (bucket_index loc = b0 ∧ replica_index index = r0) then 1 else 0).
Proof.
  unfold marked_in, bucket_of. rewrite Hlocators, filter_app, length_app. f_equal.
  rewrite filter_cons, filter_nil. rewrite Hloc. simpl.
  destruct (decide (bucket_index loc = b0 ∧ replica_index index = r0)) as [[<- <-]|Hne].
  - by rewrite decide_True.
  - rewrite decide_False; [done|]. tauto.
Qed.

Lemma counters_ok_step : counters_ok (marked ++ [index]) s'.
Proof.
  destruct Hcount as [C1 C2 C3 C4 C5 C6 C7].
  constructor.
  - intros b0 bkt0 r0 rep0 H0 Hr0.
    destruct (step_lookup_replica b0 bkt0 r0 rep0 H0 Hr0)
      as (bkt1 & rep1 & Hb1 & Hr1 & _ & _ & Hvars & _ & _ & _ & Hcase).
    rewrite marked_in_step, Hvars. specialize (C1 _ _ _ _ Hb1 Hr1).
    destruct Hcase as [(-> & -> & -> & -> & ->)|[Hne ->]].
    + rewrite decide_True by done. simpl. lia.
    + rewrite decide_False by (intros [<- <-]; by apply Hne). lia.
  - intros b0 bkt0 H0.
    destruct (step_lookup_bucket b0 bkt0 H0)
      as (bkt1 & Hb1 & _ & _ & _ & [(-> & -> & ->)|[Hne ->]]); [done|].
    by apply (C2 b0).
  - rewrite Hbuckets, length_insert. lia.
  - rewrite Hlaunched, C4, <- seq_app. f_equal. lia.
  - intros b0 bkt0 Hlt H0.
    destruct (decide (b0 < next_bucket_ s)) as [Hold|Hnew]; [|apply (Hdone b0); [lia|done]].
    destruct (step_lookup_bucket b0 bkt0 H0)
      as (bkt1 & Hb1 & _ & _ & _ & [(-> & -> & ->)|[Hne ->]]); [|by apply (C5 b0)].
    specialize (C5 _ _ Hold Hbkt). specialize (C2 _ _ Hbkt).
    destruct (waiting_replicas_insert (replicas bkt) _ rep rep Hrep Hpos) as [Hw _].
    lia.
  - done.
  - by rewrite Hfind, Hdev, Hmaps.
Qed.

Lemma pass_inv_step : layout_ok s' ∧ grads_ok s' ∧ counters_ok (marked ++ [index]) s'.
Proof. split; [apply layout_ok_step|]. split; [apply grads_ok_step|apply counters_ok_step]. Qed.
End step.

(** A call of [mark_variable_ready] for a parameter of a replica that was
    not marked before succeeds and keeps the invariant; [next_bucket_] does
    not decrease. *)
Lemma mark_variable_ready_preserves now index marked s :
  pass_inv marked s →
  replica_index index < length (replicas_ s) →
  variable_index index < length (variable_locators_ s) →
  (∀ bkt, buckets_ s !! bucket_of s (variable_index index) = Some bkt →
     marked_in s (bucket_of s (variable_index index)) (replica_index index) marked
       < length (variable_indices bkt)) →
  ∃ s', mark_variable_ready now index s = (Ok tt, s') ∧
    pass_inv (marked ++ [index]) s' ∧
    next_bucket_ s ≤ next_bucket_ s' ∧
    replicas_ s' = replicas_ s ∧ variable_locators_ s' = variable_locators_ s ∧
    length (buckets_ s') = length (buckets_ s).
Proof.
  intros (Hlay & Hgr & Hcnt) Hr Hv Hfresh.
  destruct (lookup_lt_is_Some_2 _ _ Hv) as [loc Hloc].
  destruct (lo_locators _ Hlay _ _ Hloc) as (core & Hcore & Hvi).
  simpl in Hcore. apply list_lookup_fmap_Some_1 in Hcore as (bkt & -> & Hbkt).
  simpl in Hvi.
  pose proof (lookup_erase_work _ _ _ Hbkt) as Hcore.
  destruct (lo_buckets _ Hlay _ _ Hcore) as (Hne & Hlen & Hreps).
  simpl in Hlen, Hreps.
  destruct (lookup_lt_is_Some_2 (replicas bkt) (replica_index index)) as [rep Hrep];
    [lia|].
  destruct (Hreps _ _ Hrep) as [Hvars Hshape].
  assert (variables rep !! intra_bucket_index loc = Some index) as Hvar.
  { rewrite Hvars, list_lookup_fmap, Hvi. simpl. by destruct index. }
  pose proof (lookup_lt_Some _ _ _ Hvi) as Hi.
  pose proof (lookup_lt_Some _ _ _ Hbkt) as Hb.
  destruct (Hgr (replica_index index) (variable_index index) loc _ rep Hloc Hcore Hrep)
    as (grad & Hgrad & Hcond).
  simpl in Hgrad, Hcond.
  destruct (lo_stats _ Hlay) as [Hstats_len Hstats_rows]. simpl in Hstats_len, Hstats_rows.
  destruct (lookup_lt_is_Some_2 (backward_stats_ s) (replica_index index)) as [row Hrow];
    [lia|].
  pose proof (Forall_lookup_1 _ _ _ _ Hstats_rows Hrow) as Hrow_len.
  simpl in Hrow_len.
  destruct (lookup_lt_is_Some_2 row (variable_index index)) as [z0 Hz0]; [lia|].
  assert (bucket_of s (variable_index index) = bucket_index loc) as Hbucket_of.
  { unfold bucket_of. by rewrite Hloc. }
  assert (0 < replica_pending rep)%Z as Hpos.
  { pose proof (co_replica _ _ Hcnt _ _ _ _ Hcore Hrep) as Hp. simpl in Hp.
    rewrite Hp. specialize (Hfresh bkt). rewrite Hbucket_of in Hfresh.
    specialize (Hfresh Hbkt). rewrite Hvars, length_fmap.
    change (marked_in (forget_work s)) with (marked_in s). lia. }
  pose proof (co_bucket _ _ Hcnt _ _ Hcore) as HP. simpl in HP.
  unfold mark_variable_ready. monad_unfold. unfold at_.
  rewrite !bool_decide_eq_true_2 by done. simpl.
  rewrite Hrow. simpl. rewrite Hz0. simpl. rewrite Hloc. simpl. rewrite Hbkt. simpl.
  rewrite Hrep. simpl.
  rewrite (proj2 (Z.eqb_neq (replica_pending rep) 0)) by lia.
  match goal with |- context [(if expect_sparse_gradient bkt then _ else _) ?s1] =>
    destruct (gradient_step_effect index s1 loc bkt rep grad)
      as (c & x & h & Heq & Hc & Hx); try done
  end.
  { intros Hd. rewrite Hd in Hshape. destruct Hshape as (_ & Ho & Hl & Hw).
    split_and!; apply lookup_lt_is_Some_2; lia. }
  rewrite Heq. clear Heq. simpl.
  set (rep2 := set_contents c rep).
  set (bkt2 := set_replicas (<[replica_index index := rep2]> (replicas bkt)) bkt).
  pose proof (lookup_lt_Some _ _ _ Hrep) as Hr'.
  destruct (waiting_replicas_insert (replicas bkt) _ rep rep2 Hrep Hpos) as [Hw Hw2].
  rewrite decide_True in Hw2 by done.
  assert (∀ b' bktx, <[bucket_index loc := bkt2]> (buckets_ s) !! b' = Some bktx →
            ∃ bkty, (erase_work <$> buckets_ s) !! b' = Some bkty ∧
                    bucket_pending bktx = bucket_pending bkty) as Hold.
  { intros b' bktx Hx'. destruct (decide (b' = bucket_index loc)) as [->|Hneq].
    - rewrite list_lookup_insert_eq in Hx' by done. injection Hx' as <-.
      by exists (erase_work bkt).
    - rewrite list_lookup_insert_ne in Hx' by done.
      exists (erase_work bktx). split; [by apply lookup_erase_work|done]. }
  match goal with |- context [decrement_pending ?b ?r ?s2] =>
    pose proof (decrement_pending_effect b r s2 bkt2 rep2) as Hpost
  end.
  simpl in Hpost.
  destruct Hpost as (bs' & log' & next' & Heq & Hcoreq & Hlo & Hhi & Hlog & Hdone & Hwait).
  { by apply list_lookup_insert_eq. }
  { by apply list_lookup_insert_eq. }
  { done. }
  { rewrite HP, Hw2. f_equal. lia. }
  { rewrite length_insert. pose proof (co_next _ _ Hcnt) as Hn. simpl in Hn.
    by rewrite length_fmap in Hn. }
  { intros b' bktx Hlt Hx'. destruct (Hold _ _ Hx') as (bkty & Hy & ->).
    by apply (co_done _ _ Hcnt b'). }
  { intros bktx Hx'. destruct (Hold _ _ Hx') as (bkty & Hy & ->).
    by apply (co_waiting _ _ Hcnt). }
  rewrite Heq. clear Heq. simpl in Hcoreq, Hlo, Hhi, Hlog, Hdone, Hwait. simpl.
  rewrite !list_insert_insert_eq in Hcoreq, Hhi, Hdone, Hwait.
  rewrite <- Hcoreq in Hdone, Hwait.
  rewrite !length_insert in Hhi.
  unfold launched in Hlog. simpl in Hlog.
  assert (erase_work <$> bs' =
          <[bucket_index loc :=
              count_down_bucket (replica_index index) c (erase_work bkt) rep]>
            (erase_work <$> buckets_ s)) as Hbs.
  { rewrite Hcoreq, list_fmap_insert. reflexivity. }
  clear Hcoreq.
  assert (length bs' = length (buckets_ s)) as Hlen'.
  { apply (f_equal length) in Hbs. by rewrite length_insert, !length_fmap in Hbs. }
  match goal with |- context [set_next_bucket_ next' ?s2] =>
    set (s3 := set_next_bucket_ next' s2)
  end.
  assert (∀ st', buckets_ st' = bs' → next_bucket_ st' = next' →
            launched st' =
              launched s ++ seq (next_bucket_ s) (next' - next_bucket_ s) →
            replicas_ st' = replicas_ s →
            variable_locators_ st' = variable_locators_ s →
            find_unused_parameters_ st' = find_unused_parameters_ s →
            local_used_maps_ st' = local_used_maps_ s →
            length (local_used_maps_dev_ st') = length (local_used_maps_dev_ s) →
            backward_stats_ st' =
              <[replica_index index :=
                  <[variable_index index := (now - backward_stats_base_ s)%Z]> row]>
                (backward_stats_ s) →
            grads st' =
              alter (λ row, <[variable_index index := x]> row) (replica_index index)
                    (grads s) →
            pass_inv (marked ++ [index]) st' ∧
            next_bucket_ s ≤ next_bucket_ st' ∧
            replicas_ st' = replicas_ s ∧ variable_locators_ st' = variable_locators_ s ∧
            length (buckets_ st') = length (buckets_ s)) as Hfinish.
  { intros st' E1 E2 E3 E4 E5 E6 E7 E8 E9 E10. split; [|by rewrite E1, E2].
    apply (pass_inv_step marked (forget_work s) (forget_work st') index loc
             (erase_work bkt) rep c grad x); try done.
    - simpl. rewrite E9. exists row. eexists. split; [done|]. reflexivity.
    - simpl. by rewrite E1.
    - simpl. rewrite E2, length_fmap. lia.
    - unfold launched in *. simpl. by rewrite E2.
    - simpl. by rewrite E1, E2.
    - simpl. by rewrite E1, E2. }
  destruct (bool_decide (next' = length bs')) eqn:Hfin.
  - pose proof (lookup_lt_Some _ _ _ Hbkt) as Hb'.
    assert ((erase_work <$> bs') !! bucket_index loc =
            Some (count_down_bucket (replica_index index) c (erase_work bkt) rep)) as Hb3.
    { rewrite Hbs. apply list_lookup_insert_eq. by rewrite length_fmap. }
    apply list_lookup_fmap_Some_1 in Hb3 as (bk3 & Hbk3 & Hb3).
    assert (replicas bk3 !! replica_index index = Some (count_down_replica c rep)) as Hr3.
    { change (replicas bk3) with (replicas (erase_work bk3)). rewrite <- Hbk3. simpl.
      by apply list_lookup_insert_eq. }
    assert (is_Some c) as [t Ht].
    { destruct (expect_sparse_gradient bkt); [done|]. rewrite Hc. by destruct Hshape. }
    destruct (queue_finalize_effect (bucket_index loc) (replica_index index) s3 bk3
                (count_down_replica c rep) t) as (dev' & log'' & w' & cb' & Heq & Hdev & Hl).
    { exact Hb3. }
    { exact Hr3. }
    { exact Ht. }
    { apply (co_maps _ _ Hcnt). }
    rewrite Heq. eexists. split; [reflexivity|].
    unfold launched in Hl. simpl in Hl, Hdev.
    apply Hfinish; simpl; try reflexivity; [|exact Hdev].
    unfold launched. simpl. rewrite Hl. exact Hlog.
  - eexists. split; [reflexivity|].
    apply Hfinish; simpl; try reflexivity.
    unfold launched. simpl. exact Hlog.
Qed.

(** ** Counting the calls of a backward pass *)

Lemma NoDup_concat_lookup {A} (ls : list (list A)) : ∀ (i : nat) x,
  NoDup (concat ls) → ls !! i = Some x → NoDup x.
Proof.
  induction ls as [|l ls IH]; intros i x Hnd Hx; [done|].
  simpl in Hnd. apply NoDup_app in Hnd as (Hl & _ & Hls).
  destruct i as [|i]; simpl in Hx; [by injection Hx as <-|eauto].
Qed.

Lemma elem_of_concat_lookup {A} (ls : list (list A)) (i : nat) x (v : A) :
  ls !! i = Some x → v ∈ x → v ∈ concat ls.
Proof.
  revert i. induction ls as [|l ls IH]; intros i Hx Hv; [done|].
  simpl. apply elem_of_app. destruct i as [|i]; simpl in Hx.
  - injection Hx as <-. by left.
  - right. eauto.
Qed.

Lemma NoDup_concat_same {A} (ls : list (list A)) : ∀ (i j : nat) x y (v : A),
  NoDup (concat ls) → ls !! i = Some x → ls !! j = Some y → v ∈ x → v ∈ y → i = j.
Proof.
  induction ls as [|l ls IH]; intros i j x y v Hnd Hx Hy Hvx Hvy; [done|].
  simpl in Hnd. apply NoDup_app in Hnd as (Hl & Hdisj & Hls).
  destruct i as [|i], j as [|j]; simpl in Hx, Hy; [done| | |f_equal; eauto].
  - injection Hx as <-. destruct (Hdisj v Hvx). by eapply elem_of_concat_lookup.
  - injection Hy as <-. destruct (Hdisj v Hvy). by eapply elem_of_concat_lookup.
Qed.

Lemma elem_of_all_variable_indices st vi :
  vi ∈ all_variable_indices st ↔
  replica_index vi < length (replicas_ st) ∧
  variable_index vi < length (variable_locators_ st).
Proof.
  unfold all_variable_indices. rewrite list_elem_of_bind. split.
  - intros (r & Hvi & Hr). apply list_elem_of_bind in Hvi as (v & Hvi & Hv).
    apply list_elem_of_singleton in Hvi as ->. simpl.
    apply elem_of_seq in Hr, Hv. lia.
  - intros [Hr Hv]. exists (replica_index vi). split; [|apply elem_of_seq; lia].
    apply list_elem_of_bind. exists (variable_index vi).
    split; [|apply elem_of_seq; lia]. apply list_elem_of_singleton. by destruct vi.
Qed.

Lemma NoDup_all_variable_indices st : NoDup (all_variable_indices st).
Proof.
  unfold all_variable_indices. apply NoDup_bind; [| |apply NoDup_seq].
  - intros r1 r2 vi _ _ H1 H2.
    apply list_elem_of_bind in H1 as (v1 & H1 & _), H2 as (v2 & H2 & _).
    apply list_elem_of_singleton in H1, H2. congruence.
  - intros r _. apply NoDup_bind; [| |apply NoDup_seq].
    + intros v1 v2 vi _ _ H1 H2. apply list_elem_of_singleton in H1, H2.
      congruence.
    + intros v _. apply NoDup_singleton.
Qed.

(** A bucket [bkt] at position [b] of a state with a well-formed layout. *)
Section counting.
Context (st : Reducer) (b : nat) (bkt : Bucket).
Hypothesis Hlayout : layout_ok st.
Hypothesis Hbkt : buckets_ st !! b = Some bkt.

Lemma NoDup_bucket_partition : NoDup (concat (variable_indices <$> buckets_ st)).
Proof. rewrite (lo_partition _ Hlayout). apply NoDup_seq. Qed.

(** The parameters of a bucket are those the locators send to it. *)
Lemma bucket_of_member v :
  v ∈ variable_indices bkt ↔
  v < length (variable_locators_ st) ∧ bucket_of st v = b.
Proof.
  assert ((variable_indices <$> buckets_ st) !! b = Some (variable_indices bkt)) as Hb.
  { by rewrite list_lookup_fmap, Hbkt. }
  split.
  - intros Hv.
    assert (v < length (variable_locators_ st)) as Hlt.
    { pose proof (elem_of_concat_lookup _ _ _ _ Hb Hv) as Hin.
      rewrite (lo_partition _ Hlayout) in Hin. apply elem_of_seq in Hin. lia. }
    split; [done|].
    destruct (lookup_lt_is_Some_2 _ _ Hlt) as [loc Hloc].
    destruct (lo_locators _ Hlayout _ _ Hloc) as (bkt' & Hb' & Hv').
    unfold bucket_of. rewrite Hloc. simpl.
    apply (NoDup_concat_same (variable_indices <$> buckets_ st) _ _
             (variable_indices bkt') (variable_indices bkt) v);
      [apply NoDup_bucket_partition| |done| |done].
    + by rewrite list_lookup_fmap, Hb'.
    + by eapply list_elem_of_lookup_2.
  - intros [Hlt <-].
    destruct (lookup_lt_is_Some_2 _ _ Hlt) as [loc Hloc].
    destruct (lo_locators _ Hlayout _ _ Hloc) as (bkt' & Hb' & Hv').
    unfold bucket_of in Hbkt. rewrite Hloc in Hbkt. simpl in Hbkt.
    assert (bkt' = bkt) as -> by congruence.
    by eapply list_elem_of_lookup_2.
Qed.

(** Calls without repetition mark no replica more often than its bucket
    has parameters. *)
Lemma marked_in_le r l :
  NoDup l → Forall (λ vi, variable_index vi < length (variable_locators_ st)) l →
  marked_in st b r l ≤ length (variable_indices bkt).
Proof.
  intros Hnd Hvalid. unfold marked_in.
  set (P := λ vi, replica_index vi = r ∧ bucket_of st (variable_index vi) = b).
  rewrite <- (length_fmap variable_index).
  apply submseteq_length, NoDup_submseteq.
  - apply NoDup_fmap_2_strong; [|by apply NoDup_filter].
    intros [r1 v1] [r2 v2] H1 H2. simpl. intros ->.
    apply list_elem_of_filter in H1 as [[H1 _] _], H2 as [[H2 _] _].
    simpl in *. by subst.
  - intros v Hv. apply list_elem_of_fmap in Hv as (vi & -> & Hvi).
    apply list_elem_of_filter in Hvi as [[_ Hb] Hvi].
    apply bucket_of_member. split; [|done].
    by apply (proj1 (Forall_forall _ _) Hvalid).
Qed.

(** Marking every parameter of every replica marks a replica as often as
    its bucket has parameters. *)
Lemma marked_in_all r :
  r < length (replicas_ st) →
  marked_in st b r (all_variable_indices st) = length (variable_indices bkt).
Proof.
  intros Hr. apply Nat.le_antisymm.
  - apply marked_in_le; [apply NoDup_all_variable_indices|].
    apply Forall_forall. intros vi Hvi.
    by apply elem_of_all_variable_indices in Hvi as [_ ?].
  - unfold marked_in.
    rewrite <- (length_fmap (λ v, {| replica_index := r; variable_index := v |})
                  (variable_indices bkt)).
    apply submseteq_length, NoDup_submseteq.
    + apply NoDup_fmap_2; [by intros v1 v2 [= ->]|].
      eapply (NoDup_concat_lookup (variable_indices <$> buckets_ st) b);
        [apply NoDup_bucket_partition|by rewrite list_lookup_fmap, Hbkt].
    + intros vi Hvi. apply list_elem_of_fmap in Hvi as (v & -> & Hv).
      apply bucket_of_member in Hv as [Hlt Hb].
      apply list_elem_of_filter. split; [done|].
      by apply elem_of_all_variable_indices.
Qed.
End counting.

(** ** A whole backward pass *)

Lemma layout_ok_forget st : layout_ok st → layout_ok (forget_work st).
Proof.
  intros [H1 H2 H3 H4 H5 H6 H7]. constructor; simpl; try done.
  - rewrite <- list_fmap_compose. exact H5.
  - intros v loc Hloc. destruct (H6 v loc Hloc) as (bkt & Hb & Hv).
    exists (erase_work bkt). split; [by apply lookup_erase_work|done].
  - intros b core Hcore. apply list_lookup_fmap_Some_1 in Hcore as (bkt & -> & Hb).
    exact (H7 b bkt Hb).
Qed.

Lemma grads_ok_forget st : grads_ok st → grads_ok (forget_work st).
Proof.
  intros Hgr r v loc core rep Hloc Hcore Hrep. simpl in *.
  apply list_lookup_fmap_Some_1 in Hcore as (bkt & -> & Hb).
  exact (Hgr r v loc bkt rep Hloc Hb Hrep).
Qed.

Lemma waiting_replicas_all reps :
  Forall (λ rep, (0 < replica_pending rep)%Z) reps → waiting_replicas reps = length reps.
Proof.
  unfold waiting_replicas. induction 1 as [|rep reps Hrep _ IH]; [done|].
  rewrite filter_cons, decide_True by done. simpl. by rewrite IH.
Qed.

Lemma waiting_replicas_none reps :
  Forall (λ rep, replica_pending rep = 0%Z) reps → waiting_replicas reps = 0.
Proof.
  unfold waiting_replicas. induction 1 as [|rep reps Hrep _ IH]; [done|].
  rewrite filter_cons, decide_False by lia. done.
Qed.

(** [prepare_for_backward] establishes the invariant. *)
Lemma pass_inv_prepared st : layout_ok st → prepared st → grads_ok st → pass_inv [] st.
Proof.
  intros Hlay [P1 P2 P3 P4] Hgr.
  split; [by apply layout_ok_forget|]. split; [by apply grads_ok_forget|].
  constructor; simpl.
  - intros b core r rep Hcore Hrep.
    apply list_lookup_fmap_Some_1 in Hcore as (bkt & -> & Hb).
    destruct (P4 b bkt Hb) as [_ Hreps]. rewrite (Hreps r rep Hrep).
    unfold marked_in. simpl. lia.
  - intros b core Hcore.
    apply list_lookup_fmap_Some_1 in Hcore as (bkt & -> & Hb). simpl.
    destruct (P4 b bkt Hb) as [-> Hreps]. f_equal. symmetry.
    apply waiting_replicas_all, Forall_lookup. intros r rep Hrep.
    rewrite (Hreps r rep Hrep).
    destruct (lo_buckets _ Hlay b bkt Hb) as (Hne & _ & Hvars).
    destruct (Hvars r rep Hrep) as [-> _]. rewrite length_fmap.
    destruct (variable_indices bkt); [done|simpl; lia].
  - rewrite P1. lia.
  - by rewrite P1.
  - rewrite P1. lia.
  - rewrite P1. intros core Hcore.
    apply list_lookup_fmap_Some_1 in Hcore as (bkt & -> & Hb). simpl.
    destruct (P4 0 bkt Hb) as [-> _].
    destruct (lo_buckets _ Hlay 0 bkt Hb) as (_ & -> & _).
    pose proof (lo_replicas _ Hlay). lia.
  - done.
Qed.


Lemma marked_in_app st b r l1 l2 :
  marked_in st b r (l1 ++ l2) = marked_in st b r l1 + marked_in st b r l2.
Proof. unfold marked_in. by rewrite filter_app, length_app. Qed.

Lemma marked_in_perm st b r l1 l2 :
  l1 ≡ₚ l2 → marked_in st b r l1 = marked_in st b r l2.
Proof. intros H. unfold marked_in. by rewrite H. Qed.

(** A sequence of calls that marks no parameter of a replica twice succeeds
    and keeps the invariant. *)
Lemma mark_all_run calls : ∀ marked s,
  pass_inv marked s →
  NoDup (marked ++ calls.*2) →
  Forall (λ vi, vi ∈ all_variable_indices s) (marked ++ calls.*2) →
  ∃ s', mark_all calls s = (Ok tt, s') ∧
    pass_inv (marked ++ calls.*2) s' ∧
    next_bucket_ s ≤ next_bucket_ s' ∧
    replicas_ s' = replicas_ s ∧ variable_locators_ s' = variable_locators_ s ∧
    length (buckets_ s') = length (buckets_ s).
Proof.
  induction calls as [|[now index] calls IH]; intros marked s Hinv Hnd Hvalid.
  - exists s. simpl. by rewrite app_nil_r.
  - assert (marked ++ ((now, index) :: calls).*2 = (marked ++ [index]) ++ calls.*2)
      as Hcalls by (by rewrite <- app_assoc).
    rewrite Hcalls in Hnd, Hvalid.
    pose proof Hinv as (Hlay & _ & _).
    assert (index ∈ all_variable_indices s) as Hin.
    { apply (proj1 (Forall_forall _ _) Hvalid). set_solver. }
    apply elem_of_all_variable_indices in Hin as [Hr Hv].
    destruct (mark_variable_ready_preserves now index marked s Hinv Hr Hv)
      as (s1 & Hstep & Hinv1 & Hnext1 & Hreps1 & Hlocs1 & Hlen1).
    { intros bkt Hb.
      pose proof (marked_in_le (forget_work s) _ (erase_work bkt) Hlay
                    (lookup_erase_work _ _ _ Hb) (replica_index index)
                    (marked ++ [index])) as Hle.
      rewrite marked_in_app in Hle. unfold marked_in at 2 in Hle.
      rewrite filter_cons, decide_True in Hle by done. simpl in Hle.
      apply NoDup_app in Hnd as [Hnd _]. apply Forall_app in Hvalid as [Hvalid _].
      specialize (Hle Hnd).
      change (marked_in (forget_work s)) with (marked_in s) in Hle.
      assert (marked_in s (bucket_of s (variable_index index)) (replica_index index)
                marked + 1 ≤ length (variable_indices bkt)); [|lia].
      apply Hle. eapply Forall_impl; [exact Hvalid|].
      intros vi Hvi. by apply elem_of_all_variable_indices in Hvi as [_ ?]. }
    destruct (IH (marked ++ [index]) s1 Hinv1 Hnd)
      as (s' & Hrun & Hinv' & Hnext' & Hreps' & Hlocs' & Hlen').
    { eapply Forall_impl; [exact Hvalid|]. intros vi Hvi.
      apply elem_of_all_variable_indices. rewrite Hreps1, Hlocs1.
      by apply elem_of_all_variable_indices. }
    exists s'. rewrite Hcalls.
    split; [|split; [done|]].
    + unfold mark_all in *. simpl. cbv [mbind M_bind]. by rewrite Hstep.
    + split; [lia|]. split; [congruence|]. split; congruence.
Qed.


(** * Further properties *)

(** ** What the methods of a backward pass leave alone *)

Section keeps.
Context (R : relation Reducer) `{!PreOrder R}.

Lemma keeps_ret {A} (a : A) : keeps R (mret a).
Proof. intros st. reflexivity. Qed.

Lemma keeps_bind {A B} (m : M A) (k : A → M B) :
  keeps R m → (∀ a, keeps R (k a)) → keeps R (m ≫= k).
Proof.
  intros Hm Hk st. specialize (Hm st). unfold mbind, M_bind.
  destruct (m st) as [[a|e] s]; simpl in *; [|done].
  etransitivity; [exact Hm|apply Hk].
Qed.

Lemma keeps_get {A} (f : Reducer → A) : keeps R (get f).
Proof. intros st. reflexivity. Qed.

Lemma keeps_lift {A} (r : result A) : keeps R (lift r).
Proof. intros st. reflexivity. Qed.

Lemma keeps_TORCH_CHECK c msg : keeps R (TORCH_CHECK c msg).
Proof. intros st. reflexivity. Qed.

Lemma keeps_TORCH_INTERNAL_ASSERT c msg : keeps R (TORCH_INTERNAL_ASSERT c msg).
Proof. intros st. reflexivity. Qed.

Lemma keeps_modify f : (∀ st, R st (f st)) → keeps R (modify f).
Proof. intros Hf st. apply Hf. Qed.

Lemma keeps_for_each {A} (l : list A) (f : A → M unit) :
  (∀ a, keeps R (f a)) → keeps R (for_each l f).
Proof.
  intros Hf. induction l as [|a l IH]; simpl.
  - apply keeps_ret.
  - apply keeps_bind; [apply Hf|by intros _].
Qed.

Lemma keeps_foldM {A B} (f : A → B → M B) (l : list A) :
  (∀ a b, keeps R (f a b)) → ∀ b, keeps R (foldM f l b).
Proof.
  intros Hf. induction l as [|a l IH]; intros b; simpl.
  - apply keeps_ret.
  - apply keeps_bind; [apply Hf|apply IH].
Qed.
End keeps.

Lemma keeps_weaken {A} (R R' : relation Reducer) (m : M A) :
  (∀ st st', R st st' → R' st st') → keeps R m → keeps R' m.
Proof. intros HR Hm st. apply HR, Hm. Qed.

(** Splits a computation into its steps. *)
Ltac keeps_step :=
  lazymatch goal with
  | |- keeps _ (_ ≫= _) => apply keeps_bind; [apply _| |intros ?]
  | |- keeps _ (mret _) => apply keeps_ret; apply _
  | |- keeps _ (get _) => apply keeps_get; apply _
  | |- keeps _ (lift _) => apply keeps_lift; apply _
  | |- keeps _ (TORCH_CHECK _ _) => apply keeps_TORCH_CHECK; apply _
  | |- keeps _ (TORCH_INTERNAL_ASSERT _ _) => apply keeps_TORCH_INTERNAL_ASSERT; apply _
  | |- keeps _ (for_each _ _) => apply keeps_for_each; [apply _|intros ?]
  | |- keeps _ (foldM _ _ _) => apply keeps_foldM; [apply _|intros ? ?]
  | |- keeps _ (if ?b then _ else _) => destruct b
  | |- keeps _ (match ?x with _ => _ end) => destruct x
  end.

Global Instance pass_frame_preorder : PreOrder pass_frame.
Proof.
  split.
  - intros st. by constructor.
  - intros s1 s2 s3 [] []. constructor; try congruence; [lia|auto].
Qed.

Lemma bucket_shape_alter f (i : nat) (bs : list Bucket) :
  (∀ b, bucket_shape (f b) = bucket_shape b) →
  bucket_shape <$> alter f i bs = bucket_shape <$> bs.
Proof.
  intros Hf. rewrite (list_fmap_alter bucket_shape f id).
  - by apply list_alter_id.
  - apply Forall_forall. intros b _. apply Hf.
Qed.

Lemma replica_shape_alter f (i : nat) (reps : list BucketReplica) :
  (∀ r, replica_shape (f r) = replica_shape r) →
  replica_shape <$> alter f i reps = replica_shape <$> reps.
Proof.
  intros Hf. rewrite (list_fmap_alter replica_shape f id).
  - by apply list_alter_id.
  - apply Forall_forall. intros b _. apply Hf.
Qed.

Lemma pass_frame_update_replica b r f st :
  (∀ rep, replica_shape (f rep) = replica_shape rep) →
  pass_frame st
    (set_buckets_ (alter (λ bkt, set_replicas (alter f r (replicas bkt)) bkt) b
                         (buckets_ st)) st).
Proof.
  intros Hf. constructor; simpl; try done.
  apply bucket_shape_alter. intros bkt. unfold bucket_shape. simpl.
  by rewrite replica_shape_alter.
Qed.

Lemma pass_frame_update_bucket b f st :
  (∀ bkt, bucket_shape (f bkt) = bucket_shape bkt) →
  pass_frame st (set_buckets_ (alter f b (buckets_ st)) st).
Proof.
  intros Hf. constructor; simpl; try done. by apply bucket_shape_alter.
Qed.

Lemma keeps_update_replica b r f :
  (∀ rep, replica_shape (f rep) = replica_shape rep) →
  keeps pass_frame (update_replica b r f).
Proof. intros Hf st. by apply pass_frame_update_replica. Qed.

Lemma keeps_update_bucket b f :
  (∀ bkt, bucket_shape (f bkt) = bucket_shape bkt) →
  keeps pass_frame (update_bucket b f).
Proof. intros Hf st. by apply pass_frame_update_bucket. Qed.

Lemma keeps_runGradCallbackForVariable variable cb :
  (∀ g, keeps pass_frame (cb g)) →
  keeps pass_frame (runGradCallbackForVariable variable cb).
Proof.
  intros Hcb. unfold runGradCallbackForVariable.
  repeat keeps_step; [apply Hcb|]. apply keeps_modify. intros st.
  constructor; simpl; try done.
  rewrite (list_fmap_alter length _ id); [by apply list_alter_id|].
  apply Forall_forall. intros row _. apply length_insert.
Qed.

(** Splits a computation of a backward pass into its steps and checks
    every write. *)
Ltac keeps_pass :=
  repeat lazymatch goal with
  | |- keeps _ (runGradCallbackForVariable _ _) =>
      apply keeps_runGradCallbackForVariable; intros ?
  | |- keeps _ (update_replica _ _ _) => apply keeps_update_replica; done
  | |- keeps _ (update_bucket _ _) => apply keeps_update_bucket; done
  | |- keeps _ (modify _) => apply keeps_modify; intros ?; by constructor
  | |- keeps _ (get_replica _ _) => unfold get_replica
  | |- keeps _ (get_bucket _) => unfold get_bucket
  | |- _ => keeps_step
  end.

Lemma keeps_mark_variable_ready_dense index :
  keeps pass_frame (mark_variable_ready_dense index).
Proof. unfold mark_variable_ready_dense. keeps_pass. Qed.

Lemma keeps_mark_variable_ready_sparse index :
  keeps pass_frame (mark_variable_ready_sparse index).
Proof. unfold mark_variable_ready_sparse. keeps_pass. Qed.

Lemma keeps_launch_next_bucket bucket : keeps pass_frame (launch_next_bucket bucket).
Proof.
  intros st. unfold launch_next_bucket. monad_unfold.
  destruct (comm_hook_ st); simpl; constructor; simpl; try done; try lia.
  all: by apply bucket_shape_alter.
Qed.

Lemma keeps_mark_bucket_ready_loop fuel : keeps pass_frame (mark_bucket_ready_loop fuel).
Proof.
  induction fuel as [|fuel IH]; simpl; [keeps_pass|].
  do 2 (keeps_step; [keeps_step|]).
  keeps_step; [|keeps_step]. keeps_step; [|keeps_step].
  keeps_step; [apply keeps_launch_next_bucket|apply IH].
Qed.

Ltac keeps_ready :=
  repeat lazymatch goal with
  | |- keeps _ (mark_variable_ready_sparse _) => apply keeps_mark_variable_ready_sparse
  | |- keeps _ (mark_variable_ready_dense _) => apply keeps_mark_variable_ready_dense
  | |- keeps _ (mark_bucket_ready_loop _) => apply keeps_mark_bucket_ready_loop
  | |- keeps _ (launch_next_bucket _) => apply keeps_launch_next_bucket
  | |- _ => progress keeps_pass
  end.

Lemma keeps_mark_bucket_ready b : keeps pass_frame (mark_bucket_ready b).
Proof. unfold mark_bucket_ready. keeps_ready. Qed.

Lemma keeps_decrement_pending b r : keeps pass_frame (decrement_pending b r).
Proof.
  unfold decrement_pending. keeps_ready. apply keeps_mark_bucket_ready.
Qed.

Lemma keeps_copy_used_maps (l : list (nat * list Z)) :
  keeps pass_frame
    (for_each l (λ p,
       dev ← get local_used_maps_dev_;
       _ ← lift (at_ dev p.1);
       modify (set_local_used_maps_dev_ (<[p.1 := p.2]> dev)))).
Proof.
  apply keeps_for_each; [apply _|]. intros p st. monad_unfold. unfold at_.
  destruct (local_used_maps_dev_ st !! p.1); [|reflexivity].
  constructor; simpl; try done. apply length_insert.
Qed.

Lemma keeps_queue_finalize b r : keeps pass_frame (queue_finalize b r).
Proof.
  unfold queue_finalize. keeps_step; [keeps_step|]. keeps_step; [|keeps_pass].
  keeps_step; [|keeps_step]. keeps_step; [keeps_step|].
  keeps_step; [apply keeps_copy_used_maps|]. keeps_pass.
Qed.

Lemma bind_run {A B} (m : M A) (k : A → M B) st a s :
  m st = (Ok a, s) → (m ≫= k) st = k a s.
Proof. unfold mbind, M_bind. by intros ->. Qed.

Lemma bind_fail {A B} (m : M A) (k : A → M B) st e s :
  m st = (Err e, s) → (m ≫= k) st = (Err e, s).
Proof. unfold mbind, M_bind. by intros ->. Qed.

(** Runs the first step of a computation that is known to return. *)
Ltac run_step := erewrite bind_run by reflexivity; cbv beta.

Lemma keeps_mark_variable_ready now index :
  keeps pass_frame (mark_variable_ready now index).
Proof.
  intros st. unfold mark_variable_ready. cbv zeta.
  run_step.
  destruct (bool_decide (replica_index index < length (replicas_ st)));
    [|by erewrite bind_fail by reflexivity].
  do 2 run_step.
  destruct (bool_decide (variable_index index < length (variable_locators_ st)));
    [|by erewrite bind_fail by reflexivity].
  do 2 run_step.
  destruct (backward_stats_ st !! replica_index index) as [row|] eqn:Hrow;
    [|by erewrite bind_fail by (unfold lift, at_; rewrite Hrow; reflexivity)].
  erewrite bind_run by (unfold lift, at_; rewrite Hrow; reflexivity). cbv beta.
  destruct (row !! variable_index index) as [z|] eqn:Hz;
    [|by erewrite bind_fail by (unfold lift, at_; rewrite Hz; reflexivity)].
  erewrite bind_run by (unfold lift, at_; rewrite Hz; reflexivity). cbv beta.
  do 2 run_step.
  match goal with |- pass_frame _ (?m ?s1).2 =>
    transitivity s1; [|generalize s1; change (keeps pass_frame m)]
  end.
  { constructor; simpl; try done.
    rewrite list_fmap_insert, length_insert. apply list_insert_id.
    by rewrite list_lookup_fmap, Hrow. }
  repeat lazymatch goal with
  | |- keeps _ (decrement_pending _ _) => apply keeps_decrement_pending
  | |- keeps _ (queue_finalize _ _) => apply keeps_queue_finalize
  | |- _ => progress keeps_ready
  end.
Qed.

(** X1. Whatever its arguments and whether it returns or throws,
    [mark_variable_ready] leaves the configuration of the reducer (replicas,
    sparse flags, locators, hook and world size, the flags
    [expect_autograd_hooks_], [find_unused_parameters_] and
    [has_rebuilt_bucket_]), the bookkeeping of unused and rebuilt parameters
    and the layout of every bucket as they are, and never moves
    [next_bucket_] backwards. *)
Theorem mark_variable_ready_leaves_alone now index st :
  pass_frame st (state_after (mark_variable_ready now index) st).
Proof. apply keeps_mark_variable_ready. Qed.

(** ** Errors of [mark_variable_ready] and their consequences *)

(** After its checks of the index, [mark_variable_ready] has recorded the
    time and set [require_finalize_]; what follows keeps the frame. *)
Lemma mark_variable_ready_checked now index st row z :
  replica_index index < length (replicas_ st) →
  variable_index index < length (variable_locators_ st) →
  backward_stats_ st !! replica_index index = Some row →
  row !! variable_index index = Some z →
  ∃ rest : M unit,
    keeps pass_frame rest ∧
    mark_variable_ready now index st =
      rest (set_require_finalize_ true
              (set_backward_stats_
                 (<[replica_index index :=
                      <[variable_index index := (now - backward_stats_base_ st)%Z]> row]>
                    (backward_stats_ st)) st)).
Proof.
  intros Hr Hv Hrow Hz. unfold mark_variable_ready. cbv zeta.
  run_step. rewrite bool_decide_eq_true_2 by done. do 2 run_step.
  rewrite bool_decide_eq_true_2 by done. do 2 run_step.
  erewrite bind_run by (unfold lift, at_; rewrite Hrow; reflexivity). cbv beta.
  erewrite bind_run by (unfold lift, at_; rewrite Hz; reflexivity). cbv beta.
  do 2 run_step.
  match goal with |- ∃ _, _ ∧ ?m ?s1 = _ => exists m end.
  split; [|reflexivity].
  repeat lazymatch goal with
  | |- keeps _ (decrement_pending _ _) => apply keeps_decrement_pending
  | |- keeps _ (queue_finalize _ _) => apply keeps_queue_finalize
  | |- _ => progress keeps_ready
  end.
Qed.

(** X2. Once [mark_variable_ready] has accepted the index (it is in range
    and the statistics table has an entry for it), [require_finalize_] is
    set when the call ends, whether it returns or throws (for instance on a
    parameter marked twice); a [prepare_for_backward] that follows without a
    finalization therefore throws and changes nothing. *)
Theorem mark_variable_ready_requires_finalize now index st row z :
  replica_index index < length (replicas_ st) →
  variable_index index < length (variable_locators_ st) →
  backward_stats_ st !! replica_index index = Some row →
  row !! variable_index index = Some z →
  let st' := state_after (mark_variable_ready now index) st in
  require_finalize_ st' = true ∧
  ∀ rank g outputs now',
    ∃ msg, prepare_for_backward rank g outputs now' st' = (Err (TorchCheck msg), st').
Proof.
  intros Hr Hv Hrow Hz st'.
  destruct (mark_variable_ready_checked now index st row z Hr Hv Hrow Hz)
    as (rest & Hrest & Heq).
  assert (require_finalize_ st' = true) as Hreq.
  { unfold st', state_after. rewrite Heq. by apply (pf_finalize _ _ (Hrest _)). }
  split; [done|]. intros rank g outputs now'. eexists.
  unfold prepare_for_backward. run_step. rewrite Hreq.
  by erewrite bind_fail by reflexivity.
Qed.

Lemma mark_variable_ready_requires_finalize_witness :
  let st' := state_after (mark_variable_ready 5 v0) sample_prepared in
  require_finalize_ st' = true ∧
  ∀ rank g outputs now',
    ∃ msg, prepare_for_backward rank g outputs now' st' = (Err (TorchCheck msg), st').
Proof.
  assert (replica_index v0 < length (replicas_ sample_prepared)) as Hr
    by (vm_compute; lia).
  assert (variable_index v0 < length (variable_locators_ sample_prepared)) as Hv
    by (vm_compute; lia).
  assert (backward_stats_ sample_prepared !! replica_index v0 = Some [0; 0]%Z) as Hrow
    by (vm_compute; reflexivity).
  assert ([0; 0]%Z !! variable_index v0 = Some 0%Z) as Hz by reflexivity.
  exact (mark_variable_ready_requires_finalize 5 v0 sample_prepared _ _ Hr Hv Hrow Hz).
Defined.

(** X3. An index outside the replicas or outside the locators makes
    [mark_variable_ready] throw before it touches anything. *)
Theorem mark_variable_ready_out_of_range now index st :
  length (replicas_ st) ≤ replica_index index ∨
  length (variable_locators_ st) ≤ variable_index index →
  ∃ msg, mark_variable_ready now index st = (Err (TorchCheck msg), st).
Proof.
  intros Hout. unfold mark_variable_ready. cbv zeta. run_step.
  destruct (bool_decide (replica_index index < length (replicas_ st))) eqn:Hr.
  - apply bool_decide_eq_true in Hr. do 2 run_step.
    rewrite bool_decide_eq_false_2 by lia. eexists.
    by erewrite bind_fail by reflexivity.
  - eexists. by erewrite bind_fail by reflexivity.
Qed.

Lemma mark_variable_ready_out_of_range_witness :
  ∃ msg, mark_variable_ready 5 {| replica_index := 0; variable_index := 2 |}
           sample_prepared = (Err (TorchCheck msg), sample_prepared).
Proof.
  apply (mark_variable_ready_out_of_range 5 {| replica_index := 0; variable_index := 2 |}
           sample_prepared).
  right. vm_compute. lia.
Defined.

(** ** [mark_bucket_ready] *)



(** ** The traversal of [prepare_for_backward] *)

Lemma visit_edges_spec edges : ∀ seen queue,
  (∀ x, x ∈ (visit_edges edges seen queue).1 ↔ x ∈ seen ∨ Some x ∈ edges) ∧
  (∀ x, x ∈ (visit_edges edges seen queue).2 ↔
        x ∈ queue ∨ ((x ∉ seen) ∧ Some x ∈ edges)).
Proof.
  unfold visit_edges.
  induction edges as [|e edges IH]; intros seen queue; simpl.
  - split; intros x; rewrite elem_of_nil; tauto.
  - destruct e as [y|].
    + destruct (decide (y ∈ seen)) as [Hy|Hy]; simpl.
      * destruct (IH seen queue) as [IH1 IH2].
        split; intros x; [rewrite IH1|rewrite IH2]; rewrite elem_of_cons.
        -- split; [tauto|]. intros [?|[[= ->]|?]]; tauto.
        -- split; [tauto|]. intros [?|[? [[= ->]|?]]]; tauto.
      * destruct (IH ({[y]} ∪ seen) (y :: queue)) as [IH1 IH2].
        split; intros x; [rewrite IH1|rewrite IH2];
          rewrite ?elem_of_union, ?elem_of_singleton, !elem_of_cons.
        -- split; [intros [[->|?]|?]; auto|].
           intros [?|[[= ->]|?]]; auto.
        -- destruct (decide (x = y)) as [->|Hne].
           ++ split; [|auto]. intros _. right. auto.
           ++ split; [intros [[?|?]|[? ?]]; [done|auto|]|].
              ** right. split; [|auto]. intros ?. tauto.
              ** intros [?|[? [[= ?]|?]]]; [auto|done|]. right. tauto.
    + destruct (IH seen queue) as [IH1 IH2].
      split; intros x; [rewrite IH1|rewrite IH2]; rewrite elem_of_cons.
      * split; [tauto|]. intros [?|[?|?]]; [auto|done|auto].
      * split; [tauto|]. intros [?|[? [?|?]]]; [auto|done|auto].
Qed.

(** The traversal is sound and complete for [reached]. *)
Lemma traverse_reached g roots fuel : ∀ seen queue seen',
  traverse fuel g seen queue = Some seen' →
  (∀ x, x ∈ seen → reached g roots x) →
  (∀ fn, fn ∈ queue → fn ∈ roots ∨ reached g roots fn) →
  (∀ fn x, fn ∈ roots ∨ fn ∈ seen → Some x ∈ next_edges g fn →
           fn ∈ queue ∨ x ∈ seen) →
  ∀ x, x ∈ seen' ↔ reached g roots x.
Proof.
  induction fuel as [|fuel IH]; intros seen queue seen' Hrun Hsound Hqueue Hclosed;
    [done|].
  simpl in Hrun. destruct queue as [|fn queue].
  - injection Hrun as <-. intros x. split; [apply Hsound|].
    induction 1 as [fn x Hfn Hx|fn x _ IHfn Hx].
    + destruct (Hclosed fn x (or_introl Hfn) Hx) as [Hin|]; [|done].
      by apply elem_of_nil in Hin.
    + destruct (Hclosed fn x (or_intror IHfn) Hx) as [Hin|]; [|done].
      by apply elem_of_nil in Hin.
  - destruct (visit_edges_spec (next_edges g fn) seen queue) as [Hs Hq].
    destruct (visit_edges (next_edges g fn) seen queue) as [seen1 queue1].
    simpl in Hs, Hq.
    assert (∀ x, Some x ∈ next_edges g fn → reached g roots x) as Hnext.
    { intros x Hx. destruct (Hqueue fn) as [Hroot|Hreached]; [by left| |].
      - by eapply reached_root.
      - by eapply reached_step. }
    apply (IH seen1 queue1 seen' Hrun).
    + intros x. rewrite Hs. intros [?|?]; auto.
    + intros fn0. rewrite Hq. intros [?|[_ ?]]; [|auto].
      apply Hqueue. by right.
    + intros fn0 x Hfn0 Hx. rewrite Hq, Hs.
      destruct (decide (fn0 ∈ seen)) as [Hin|Hnin].
      * destruct (Hclosed fn0 x (or_intror Hin) Hx) as [Hq0|?]; [|auto].
        apply elem_of_cons in Hq0 as [->|?]; auto.
      * destruct Hfn0 as [Hroot|Hseen1].
        -- destruct (Hclosed fn0 x (or_introl Hroot) Hx) as [Hq0|?]; [|auto].
           apply elem_of_cons in Hq0 as [->|?]; auto.
        -- apply Hs in Hseen1 as [?|?]; [done|]. left. right. auto.
Qed.

Lemma elem_of_unordered_items {K} `{Countable K} {V} (rank : K → nat)
    (m : gmap K V) k v :
  (k, v) ∈ unordered_items rank m ↔ m !! k = Some v.
Proof.
  unfold unordered_items. rewrite list_elem_of_omap. split.
  - intros (y & _ & Hy). destruct (m !! y) eqn:E; simplify_eq/=. done.
  - intros Hk. exists k. rewrite Hk. split; [|done].
    rewrite merge_sort_Permutation. apply elem_of_elements, elem_of_dom. eauto.
Qed.

(** X5. With [find_unused_parameters_] and no reduction pending,
    [prepare_for_backward] returns, and the parameters it records as unused
    are exactly those whose gradient accumulator no edge leads to, neither
    from the [grad_fn] of an output nor from a function found that way. (An
    accumulator that is itself the [grad_fn] of an output, and that no edge
    leads to, counts as unused.) *)
Theorem prepare_for_backward_unused_unreached rank g outputs now st :
  require_finalize_ st = false →
  find_unused_parameters_ st = true →
  ∃ st', prepare_for_backward rank g outputs now st = (Ok tt, st') ∧
    ∀ vi, vi ∈ unused_parameters_ st' ↔
          ∃ fn, func_ st !! fn = Some vi ∧ ¬ reached g (omap id outputs) fn.
Proof.
  intros Hreq Hfind. unfold prepare_for_backward.
  run_step. rewrite Hreq. do 8 run_step.
  match goal with |- context [negb (find_unused_parameters_ ?s)] =>
    change (find_unused_parameters_ s) with (find_unused_parameters_ st)
  end.
  rewrite Hfind. cbn [negb].
  destruct (traverse_fuel g (reverse (omap id outputs))) as [seen Hseen].
  rewrite Hseen. eexists. split; [reflexivity|]. cbn [unused_parameters_ set_unused_parameters_ app].
  match goal with |- context [func_ ?s] =>
    change (func_ s) with (func_ st)
  end.
  assert (∀ x, x ∈ seen ↔ reached g (omap id outputs) x) as Hreached.
  { apply (traverse_reached g (omap id outputs) _ ∅ (reverse (omap id outputs)) seen
             Hseen).
    - intros x Hx. destruct (not_elem_of_empty (C:=gset nat) x Hx).
    - intros fn Hfn. left. by rewrite elem_of_reverse in Hfn.
    - intros fn x [Hfn|Hfn] _; [|destruct (not_elem_of_empty (C:=gset nat) fn Hfn)].
      left. by rewrite elem_of_reverse. }
  intros vi. unfold unused_in_graph. rewrite list_elem_of_fmap. split.
  - intros ([fn vi'] & -> & Hin). apply list_elem_of_filter in Hin as [Hnot Hin].
    apply elem_of_unordered_items in Hin. exists fn. split; [done|].
    simpl in Hnot. by rewrite <- Hreached.
  - intros (fn & Hfn & Hnot). exists (fn, vi). split; [done|].
    apply list_elem_of_filter. split; [simpl; by rewrite Hreached|].
    by apply elem_of_unordered_items.
Qed.

Lemma prepare_for_backward_unused_unreached_witness :
  let st := state_after (initialize_buckets [[0; 1]]) (make_reducer true None) in
  ∃ st', prepare_for_backward id sample_graph [Some 1] 0 st = (Ok tt, st') ∧
    ∀ vi, vi ∈ unused_parameters_ st' ↔
          ∃ fn, func_ st !! fn = Some vi ∧ ¬ reached sample_graph (omap id [Some 1]) fn.
Proof.
  intros st.
  assert (require_finalize_ st = false) as Hreq by (vm_compute; reflexivity).
  assert (find_unused_parameters_ st = true) as Hfind by (vm_compute; reflexivity).
  exact (prepare_for_backward_unused_unreached id sample_graph [Some 1] 0 st Hreq Hfind).
Defined.

(** ** Buckets are fixed during a backward pass *)

Lemma keeps_mark_all calls : keeps pass_frame (mark_all calls).
Proof.
  unfold mark_all. apply keeps_for_each; [apply _|]. intros c.
  apply keeps_mark_variable_ready.
Qed.

(** X6. Between a successful [prepare_for_backward] and the finalization,
    whatever [mark_variable_ready] calls were made and however they ended,
    [initialize_buckets] throws and changes nothing: the bucket assignment
    cannot be replaced in the middle of a backward pass. *)
Theorem initialize_buckets_refused_during_backward rank g outputs now st st1 calls
    bucket_indices :
  prepare_for_backward rank g outputs now st = (Ok tt, st1) →
  let st2 := state_after (mark_all calls) st1 in
  ∃ msg, initialize_buckets bucket_indices st2 = (Err (TorchCheck msg), st2).
Proof.
  intros Hprep st2.
  assert (expect_autograd_hooks_ st1 = true) as Hhooks.
  { unfold prepare_for_backward in Hprep. ok_inv Hprep.
    match goal with H : (if _ then _ else _) _ = _ |- _ => rename H into Hrest end.
    destruct (negb (find_unused_parameters_ _)) in Hrest.
    - ok_inv Hrest. done.
    - destruct (traverse _ _ _ _) in Hrest; ok_inv Hrest; done. }
  assert (expect_autograd_hooks_ st2 = true) as Hhooks2.
  { unfold st2, state_after. rewrite (pf_hooks _ _ (keeps_mark_all calls st1)). done. }
  unfold initialize_buckets. run_step. rewrite Hhooks2. eexists.
  by erewrite bind_fail by reflexivity.
Qed.

Lemma initialize_buckets_refused_during_backward_witness :
  let st2 := state_after (mark_all [(5%Z, v1)]) sample_two_buckets in
  ∃ msg, initialize_buckets [[0; 1]] st2 = (Err (TorchCheck msg), st2).
Proof.
  assert (prepare_for_backward id ∅ [] 0 (state_after (initialize_buckets [[0]; [1]])
                                            sample_reducer)
          = (Ok tt, sample_two_buckets)) as Hprep by (vm_compute; reflexivity).
  exact (initialize_buckets_refused_during_backward id ∅ [] 0 _ sample_two_buckets
           [(5%Z, v1)] [[0; 1]] Hprep).
Defined.

(** ** [autograd_hook] *)

(** X7. While no autograd hooks are expected (outside a backward pass, as
    when gradients are accumulated locally), hooks that fire touch nothing
    but [local_used_maps_]: no gradient is marked ready, no bucket changes,
    no collective is launched. Without [find_unused_parameters_] they leave
    the reducer exactly as it was. *)
Theorem autograd_hook_ignored calls st :
  expect_autograd_hooks_ st = false →
  let (r, st') := for_each calls (λ c : Z * VariableIndex, autograd_hook c.1 c.2) st in
  st' = set_local_used_maps_ (local_used_maps_ st') st ∧
  (find_unused_parameters_ st = false → r = Ok tt ∧ st' = st).
Proof.
  revert st. induction calls as [|[now index] calls IH]; intros st Hhooks.
  - simpl. split; [by destruct st|done].
  - cbn [for_each fst snd].
    assert (∃ r1 st1, autograd_hook now index st = (r1, st1) ∧
              st1 = set_local_used_maps_ (local_used_maps_ st1) st ∧
              (find_unused_parameters_ st = false → r1 = Ok tt ∧ st1 = st))
      as (r1 & st1 & Hrun & Hst1 & Hsame).
    { unfold autograd_hook. run_step.
      destruct (find_unused_parameters_ st) eqn:Hfind.
      - destruct (local_used_maps_ st !! replica_index index) as [row|] eqn:Hrow.
        2:{ eexists _, _. split.
            - erewrite bind_fail; [reflexivity|]. run_step.
              erewrite bind_fail; [reflexivity|]. unfold lift, at_. by rewrite Hrow.
            - split; [by destruct st|done]. }
        destruct (row !! variable_index index) as [z|] eqn:Hz.
        2:{ eexists _, _. split.
            - erewrite bind_fail; [reflexivity|]. run_step.
              erewrite bind_run by (unfold lift, at_; rewrite Hrow; reflexivity).
              erewrite bind_fail; [reflexivity|]. unfold lift, at_. by rewrite Hz.
            - split; [by destruct st|done]. }
        eexists _, _. split.
        + erewrite bind_run.
          2:{ run_step.
              erewrite bind_run by (unfold lift, at_; rewrite Hrow; reflexivity).
              erewrite bind_run by (unfold lift, at_; rewrite Hz; reflexivity).
              reflexivity. }
          cbv beta. run_step.
          change (expect_autograd_hooks_ (set_local_used_maps_ _ st))
            with (expect_autograd_hooks_ st).
          rewrite Hhooks. reflexivity.
        + split; [reflexivity|done].
      - eexists _, _. split.
        + run_step. run_step. rewrite Hhooks. reflexivity.
        + split; [by destruct st|done]. }
    unfold mbind, M_bind. rewrite Hrun. destruct r1 as [[]|e].
    + specialize (IH st1). rewrite Hst1 in IH at 1. specialize (IH Hhooks).
      destruct (for_each calls _ st1) as [r st'].
      destruct IH as [Hst' Hsame']. split.
      * rewrite Hst', Hst1. reflexivity.
      * intros Hfind. destruct (Hsame Hfind) as [_ ->]. by apply Hsame'.
    + split; [done|]. intros Hfind. by destruct (Hsame Hfind).
Qed.

Lemma autograd_hook_ignored_witness :
  let (r, st') := for_each [(5%Z, v0); (6%Z, v1)]
                    (λ c : Z * VariableIndex, autograd_hook c.1 c.2) sample_initialized in
  st' = set_local_used_maps_ (local_used_maps_ st') sample_initialized ∧
  (find_unused_parameters_ sample_initialized = false →
   r = Ok tt ∧ st' = sample_initialized).
Proof.
  assert (expect_autograd_hooks_ sample_initialized = false) as H
    by (vm_compute; reflexivity).
  exact (autograd_hook_ignored [(5%Z, v0); (6%Z, v1)] sample_initialized H).
Defined.

(** A hook of a backward pass without [find_unused_parameters_], before the
    buckets were rebuilt. *)
Lemma autograd_hook_recording now index st :
  expect_autograd_hooks_ st = true →
  has_rebuilt_bucket_ st = false →
  find_unused_parameters_ st = false →
  autograd_hook now index st =
    if bool_decide (replica_index index = 0) then
      match variable_at index st with
      | (Ok t, _) =>
          mark_variable_ready now index
            (set_rebuilt_param_indices_
               (rebuilt_param_indices_ st ++ [Z.of_nat (variable_index index)])
               (set_rebuilt_params_ (rebuilt_params_ st ++ [t]) st))
      | (Err e, _) => (Err e, st)
      end
    else mark_variable_ready now index st.
Proof.
  intros Hhooks Hrebuilt Hfind. unfold autograd_hook.
  run_step. rewrite Hfind. run_step. run_step. rewrite Hhooks. cbn [negb].
  run_step. rewrite Hrebuilt. cbn [negb andb].
  destruct (bool_decide (replica_index index = 0)).
  - cbv [mbind M_bind get modify lift mret M_ret variable_at].
    destruct (result_bind _ _ _ _) as [t|e]; [|reflexivity].
    by rewrite andb_false_r.
  - run_step. run_step. rewrite andb_false_r. run_step. reflexivity.
Qed.

(** X8. In a backward pass without [find_unused_parameters_], before the
    buckets were rebuilt, the hooks record the parameters of replica 0 in
    the order in which their gradients arrive: after hooks that all
    returned, [rebuilt_param_indices_] has grown by the variable indices of
    the calls for replica 0, in call order, and [rebuilt_params_] by the
    tensors of these parameters. *)
Theorem autograd_hook_records_arrival_order calls : ∀ st st',
  expect_autograd_hooks_ st = true →
  has_rebuilt_bucket_ st = false →
  find_unused_parameters_ st = false →
  for_each calls (λ c : Z * VariableIndex, autograd_hook c.1 c.2) st = (Ok tt, st') →
  let arrived := filter (λ vi, replica_index vi = 0) calls.*2 in
  ∃ tensors,
    rebuilt_param_indices_ st' =
      rebuilt_param_indices_ st ++ ((λ vi, Z.of_nat (variable_index vi)) <$> arrived) ∧
    rebuilt_params_ st' = rebuilt_params_ st ++ tensors ∧
    Forall2 (λ t vi, (replicas_ st !! 0) ≫= (.!! variable_index vi) = Some t)
            tensors arrived.
Proof.
  induction calls as [|[now index] calls IH]; intros st st' Hhooks Hrebuilt Hfind Hrun.
  - simpl in Hrun. injection Hrun as <-. exists []. simpl. rewrite !app_nil_r.
    split; [done|]. split; [done|constructor].
  - cbn [for_each fst snd] in Hrun. apply bind_ok in Hrun as ([] & st1 & Hhook & Hrun).
    rewrite autograd_hook_recording in Hhook by done.
    cbn [fmap list_fmap snd]. rewrite filter_cons.
    destruct (bool_decide (replica_index index = 0)) eqn:Hzero.
    + apply bool_decide_eq_true in Hzero. rewrite decide_True by done.
      destruct (variable_at index st) as [[t|e] s] eqn:Hvar; [|done].
      match type of Hhook with mark_variable_ready _ _ ?s0 = _ =>
        pose proof (keeps_mark_variable_ready now index s0) as Hframe
      end.
      rewrite Hhook in Hframe. simpl in Hframe.
      destruct (IH st1 st') as (tensors & IH1 & IH2 & IH3);
        [by rewrite (pf_hooks _ _ Hframe)|by rewrite (pf_has_rebuilt _ _ Hframe)
        |by rewrite (pf_find_unused _ _ Hframe)|done|].
      exists (t :: tensors).
      rewrite IH1, IH2, (pf_rebuilt_indices _ _ Hframe), (pf_rebuilt_params _ _ Hframe).
      cbn [rebuilt_param_indices_ rebuilt_params_ set_rebuilt_param_indices_
           set_rebuilt_params_].
      rewrite <- !app_assoc. split; [done|]. split; [done|].
      rewrite (pf_replicas _ _ Hframe) in IH3. constructor; [|done].
      unfold variable_at, get, lift, at_ in Hvar. cbv [mbind M_bind] in Hvar.
      rewrite Hzero in Hvar.
      destruct (replicas_ st !! 0) as [row|]; simpl in *; [|done].
      destruct (row !! variable_index index); by simplify_eq.
    + apply bool_decide_eq_false in Hzero. rewrite decide_False by done.
      pose proof (keeps_mark_variable_ready now index st) as Hframe.
      rewrite Hhook in Hframe. simpl in Hframe.
      destruct (IH st1 st') as (tensors & IH1 & IH2 & IH3);
        [by rewrite (pf_hooks _ _ Hframe)|by rewrite (pf_has_rebuilt _ _ Hframe)
        |by rewrite (pf_find_unused _ _ Hframe)|done|].
      exists tensors.
      rewrite IH1, IH2, (pf_rebuilt_indices _ _ Hframe), (pf_rebuilt_params _ _ Hframe).
      rewrite (pf_replicas _ _ Hframe) in IH3. done.
Qed.

Lemma autograd_hook_records_arrival_order_witness :
  ∃ tensors,
    rebuilt_param_indices_
      (state_after (for_each [(5%Z, v1); (7%Z, v0)]
                      (λ c : Z * VariableIndex, autograd_hook c.1 c.2))
                   sample_two_buckets) =
      rebuilt_param_indices_ sample_two_buckets ++
        ((λ vi, Z.of_nat (variable_index vi)) <$> [v1; v0]) ∧
    rebuilt_params_
      (state_after (for_each [(5%Z, v1); (7%Z, v0)]
                      (λ c : Z * VariableIndex, autograd_hook c.1 c.2))
                   sample_two_buckets) =
      rebuilt_params_ sample_two_buckets ++ tensors ∧
    Forall2 (λ t vi, (replicas_ sample_two_buckets !! 0) ≫= (.!! variable_index vi)
                     = Some t)
            tensors [v1; v0].
Proof.
  assert (expect_autograd_hooks_ sample_two_buckets = true) as H1
    by (vm_compute; reflexivity).
  assert (has_rebuilt_bucket_ sample_two_buckets = false) as H2
    by (vm_compute; reflexivity).
  assert (find_unused_parameters_ sample_two_buckets = false) as H3
    by (vm_compute; reflexivity).
  assert (for_each [(5%Z, v1); (7%Z, v0)]
            (λ c : Z * VariableIndex, autograd_hook c.1 c.2) sample_two_buckets
          = (Ok tt, state_after (for_each [(5%Z, v1); (7%Z, v0)]
                                   (λ c : Z * VariableIndex, autograd_hook c.1 c.2))
                                sample_two_buckets)) as H4
    by (vm_compute; reflexivity).
  exact (autograd_hook_records_arrival_order [(5%Z, v1); (7%Z, v0)] _ _ H1 H2 H3 H4).
Defined.

(** ** The order of the buckets of [compute_bucket_assignment_by_size] *)

Lemma foldl_min_le (a : list nat) : ∀ x y, y = x ∨ y ∈ a → foldl Nat.min x a ≤ y.
Proof.
  induction a as [|z a IH]; intros x y Hy; simpl.
  - destruct Hy as [->|Hy]; [done|by apply elem_of_nil in Hy].
  - destruct Hy as [->|Hy].
    + etransitivity; [apply IH; by left|]. apply Nat.le_min_l.
    + apply elem_of_cons in Hy as [->|Hy]; [|apply IH; by right].
      etransitivity; [apply IH; by left|]. apply Nat.le_min_r.
Qed.

Lemma min_element_le a x : x ∈ a → min_element a ≤ x.
Proof.
  destruct a as [|y a]; [by intros ?%elem_of_nil|].
  intros Hx. simpl. apply foldl_min_le. apply elem_of_cons in Hx. tauto.
Qed.

Lemma sorted_by_min_strict (l : list (list nat)) :
  NoDup (concat l) → Forall (λ b, b ≠ []) l → StronglySorted min_le l →
  StronglySorted (λ a b, min_element a < min_element b) l.
Proof.
  intros Hnd Hne Hsorted. induction Hsorted as [|a l Hsorted IH Hall]; [constructor|].
  simpl in Hnd. apply NoDup_app in Hnd as (_ & Hdisj & Hnd).
  apply Forall_cons in Hne as [Ha Hne].
  constructor; [by apply IH|].
  apply Forall_forall. intros b Hb.
  pose proof (proj1 (Forall_forall _ _) Hall b Hb) as Hle. unfold min_le in Hle.
  destruct (decide (min_element a = min_element b)) as [Heq|]; [|lia].
  destruct (Hdisj (min_element a)); [by apply min_element_elem_of|].
  rewrite Heq. apply list_elem_of_In, in_concat. exists b.
  split; apply list_elem_of_In; [done|].
  apply min_element_elem_of. by apply (proj1 (Forall_forall _ _) Hne).
Qed.

(** X9. Called without explicit indices on dense tensors, the function
    returns at least one bucket; no bucket is empty, the buckets are in
    strictly ascending order of their smallest tensor index, and tensor 0 is
    in the first bucket: the buckets are numbered in the order of the first
    tensor they hold. *)
Theorem compute_bucket_assignment_ordered_by_first_tensor rank tensors limits flags :
  tensors ≠ [] →
  limits ≠ [] →
  (flags = [] ∨ length flags = length tensors) →
  Forall (λ t, is_sparse t = false) tensors →
  ∃ first rest,
    compute_bucket_assignment_by_size rank tensors limits flags [] = Ok (first :: rest) ∧
    Forall (λ b, b ≠ []) (first :: rest) ∧
    StronglySorted (λ a b, min_element a < min_element b) (first :: rest) ∧
    0 ∈ first.
Proof.
  intros Hne Hlimits Hflags Hdense.
  destruct (assign_loop_inv limits flags [] tensors) as (st & Hloop & Hinv);
    [done|done|by left| |].
  { intros Hf i Hi. simpl. destruct Hflags as [Hnil|Hlen]; [done|lia]. }
  rewrite (compute_bucket_assignment_unfold _ _ _ _ _ st) by done.
  pose proof (assign_inv_assignment rank limits flags [] tensors st) as Hassign.
  rewrite intended_indices_default in Hassign.
  specialize (Hassign (NoDup_seq _ _) Hinv).
  set (result := as_result st ++ remaining_buckets rank (as_buckets st)) in *.
  apply (is_bucket_assignment_Permutation _ _ _ _ (std_sort_by_min result)) in Hassign.
  2:{ unfold std_sort_by_min. by rewrite merge_sort_Permutation. }
  destruct Hassign as (Hperm & _ & Hnonempty & _).
  rewrite intended_indices_default in Hperm.
  assert (StronglySorted (λ a b, min_element a < min_element b) (std_sort_by_min result))
    as Hsorted.
  { apply sorted_by_min_strict; [by rewrite Hperm; apply NoDup_seq|done|].
    apply StronglySorted_merge_sort; apply _. }
  cbv zeta. destruct (std_sort_by_min result) as [|first rest] eqn:Hsort.
  { simpl in Hperm. apply Permutation_nil in Hperm.
    destruct tensors; [done|discriminate]. }
  exists first, rest. split; [done|]. split; [done|]. split; [done|].
  assert (0 ∈ concat (first :: rest)) as Hzero.
  { rewrite Hperm. apply elem_of_seq. destruct tensors; [done|simpl; lia]. }
  apply list_elem_of_In, in_concat in Hzero as (b & Hb & Hzero).
  apply list_elem_of_In in Hb, Hzero.
  pose proof (min_element_le b 0 Hzero) as Hmin.
  apply Nat.le_0_r in Hmin.
  apply elem_of_cons in Hb as [->|Hb]; [done|].
  apply StronglySorted_inv in Hsorted as [_ Hall].
  pose proof (proj1 (Forall_forall _ _) Hall b Hb) as Hlt. simpl in Hlt.
  rewrite Hmin in Hlt. by apply Nat.nlt_0_r in Hlt.
Qed.

Lemma compute_bucket_assignment_ordered_by_first_tensor_witness :
  ∃ first rest,
    compute_bucket_assignment_by_size sample_rank sample_params [40; 40]%Z [] []
      = Ok (first :: rest) ∧
    Forall (λ b, b ≠ []) (first :: rest) ∧
    StronglySorted (λ a b, min_element a < min_element b) (first :: rest) ∧
    0 ∈ first.
Proof.
  apply (compute_bucket_assignment_ordered_by_first_tensor sample_rank sample_params
           [40; 40]%Z []); [done|done|by left|].
  vm_compute. repeat constructor.
Defined.

(** ** [register_comm_hook] *)

(** X10. [register_comm_hook] installs the hook exactly when none is
    installed and the reducer has one replica; otherwise it throws and
    changes nothing. After it installed a hook, a later registration
    throws, whatever [mark_variable_ready] calls were made in between. *)
Theorem register_comm_hook_once iface st :
  let (r, st') := register_comm_hook iface st in
  if decide (comm_hook_ st = None ∧ length (replicas_ st) = 1) then
    r = Ok tt ∧ st' = set_comm_hook_ (Some iface) st ∧
    ∀ iface' calls,
      let st2 := state_after (mark_all calls) st' in
      ∃ msg, register_comm_hook iface' st2 = (Err (TorchCheck msg), st2)
  else (∃ msg, r = Err (TorchCheck msg)) ∧ st' = st.
Proof.
  assert (∀ i s, comm_hook_ s ≠ None →
            ∃ msg, register_comm_hook i s = (Err (TorchCheck msg), s)) as Hset.
  { intros i s Hs. unfold register_comm_hook. run_step.
    rewrite bool_decide_eq_false_2 by done. eexists.
    by erewrite bind_fail by reflexivity. }
  destruct (decide (comm_hook_ st = None ∧ length (replicas_ st) = 1)) as [[Hhook Hone]|Hno].
  - unfold register_comm_hook at 1. run_step. rewrite bool_decide_eq_true_2 by done.
    do 2 run_step. rewrite bool_decide_eq_true_2 by done. run_step.
    unfold modify. split; [done|]. split; [done|].
    intros iface' calls. apply Hset. unfold state_after.
    by rewrite (pf_comm_hook _ _ (keeps_mark_all calls _)).
  - destruct (decide (comm_hook_ st = None)) as [Hhook|Hhook].
    + unfold register_comm_hook. run_step. rewrite bool_decide_eq_true_2 by done.
      do 2 run_step. rewrite bool_decide_eq_false_2 by tauto.
      erewrite bind_fail by reflexivity. eauto.
    + destruct (Hset iface st Hhook) as [msg ->]. eauto.
Qed.

(** ** The checks of the constructor *)

Lemma for_each_ok_Forall {A} (f : A → M unit) (P : A → Prop) l : ∀ st u st',
  (∀ a s u s', a ∈ l → f a s = (Ok u, s') → s' = s ∧ P a) →
  for_each l f st = (Ok u, st') → st' = st ∧ Forall P l.
Proof.
  induction l as [|a l IH]; intros st u st' Hf H; simpl in H.
  - injection H as _ <-. by split.
  - apply bind_ok in H as (u1 & s1 & H1 & H2).
    apply Hf in H1 as [-> Ha]; [|left].
    apply IH in H2 as [-> Hl]; [by split; [|constructor]|].
    intros ? ? ? ? ?. apply Hf. by right.
Qed.

Lemma for_each_pure_ok {A} (f : A → M unit) l st :
  (∀ a, a ∈ l → f a st = (Ok tt, st)) → for_each l f st = (Ok tt, st).
Proof.
  induction l as [|a l IH]; intros Hf; [done|]. simpl.
  erewrite bind_run by (apply Hf; left). apply IH. intros ? ?. apply Hf. by right.
Qed.

Lemma keeps_verify_replicas_within_process requires_grad :
  keeps eq (verify_replicas_within_process requires_grad).
Proof. unfold verify_replicas_within_process. repeat keeps_step. Qed.

Lemma verify_replicas_within_process_runs requires_grad st :
  (∀ replica_index row, replicas_ st !! replica_index = Some row →
     ∃ row0 frow frow0,
       replicas_ st !! 0 = Some row0 ∧
       expect_sparse_gradients_ st !! replica_index = Some frow ∧
       expect_sparse_gradients_ st !! 0 = Some frow0 ∧
       length row = length row0 ∧ length frow = length frow0 ∧
       ∀ variable_index v, row !! variable_index = Some v →
         requires_grad replica_index variable_index = true ∧
         ∃ v0 f,
           row0 !! variable_index = Some v0 ∧
           t_sizes v = t_sizes v0 ∧ t_strides v = t_strides v0 ∧
           t_dtype v = t_dtype v0 ∧
           frow !! variable_index = Some f ∧ frow0 !! variable_index = Some f) →
  verify_replicas_within_process requires_grad st = (Ok tt, st).
Proof.
  intros Hagree.
  unfold verify_replicas_within_process. do 2 run_step.
  apply for_each_pure_ok. intros r [_ Hr]%elem_of_seq. simpl in Hr.
  destruct (lookup_lt_is_Some_2 _ _ Hr) as [row Hrow].
  destruct (Hagree r row Hrow) as (row0 & frow & frow0 & Hrow0 & Hfrow & Hfrow0 &
                                   Hlen & Hflen & Hvars).
  erewrite bind_run by (unfold lift, at_; rewrite Hrow; reflexivity). cbv beta.
  erewrite bind_run by (unfold lift, at_; rewrite Hrow0; reflexivity). cbv beta.
  rewrite (bool_decide_eq_true_2 _ Hlen). run_step.
  erewrite bind_run by (unfold lift, at_; rewrite Hfrow; reflexivity). cbv beta.
  erewrite bind_run by (unfold lift, at_; rewrite Hfrow0; reflexivity). cbv beta.
  rewrite (bool_decide_eq_true_2 _ Hflen). run_step.
  apply for_each_pure_ok. intros i [_ Hi]%elem_of_seq. simpl in Hi.
  destruct (lookup_lt_is_Some_2 _ _ Hi) as [v Hv].
  destruct (Hvars i v Hv) as (Hgrad & v0 & f & Hv0 & Hsizes & Hstrides & Hdtype & Hf & Hf0).
  erewrite bind_run by (unfold lift, at_; rewrite Hv; reflexivity). cbv beta.
  rewrite Hgrad. run_step.
  erewrite bind_run by (unfold lift, at_; rewrite Hv0; reflexivity). cbv beta.
  rewrite (bool_decide_eq_true_2 _ Hsizes). run_step.
  rewrite (bool_decide_eq_true_2 _ Hstrides). run_step.
  rewrite (bool_decide_eq_true_2 _ Hdtype). run_step.
  erewrite bind_run by (unfold lift, at_; rewrite Hf; reflexivity). cbv beta.
  erewrite bind_run by (unfold lift, at_; rewrite Hf0; reflexivity). cbv beta.
  by rewrite bool_decide_eq_true_2.
Qed.

(** X11. [verify_replicas_within_process] reads the reducer only, and it
    returns exactly when every replica has as many parameters and as many
    sparse flags as replica 0 and each of its parameters requires a
    gradient and has the sizes, the strides, the dtype and the sparse flag
    of the parameter of replica 0 at the same index. *)
Theorem verify_replicas_within_process_agree requires_grad st :
  let (r, st') := verify_replicas_within_process requires_grad st in
  st' = st ∧
  (r = Ok tt ↔
   ∀ replica_index row, replicas_ st !! replica_index = Some row →
     ∃ row0 frow frow0,
       replicas_ st !! 0 = Some row0 ∧
       expect_sparse_gradients_ st !! replica_index = Some frow ∧
       expect_sparse_gradients_ st !! 0 = Some frow0 ∧
       length row = length row0 ∧ length frow = length frow0 ∧
       ∀ variable_index v, row !! variable_index = Some v →
         requires_grad replica_index variable_index = true ∧
         ∃ v0 f,
           row0 !! variable_index = Some v0 ∧
           t_sizes v = t_sizes v0 ∧ t_strides v = t_strides v0 ∧
           t_dtype v = t_dtype v0 ∧
           frow !! variable_index = Some f ∧ frow0 !! variable_index = Some f).
Proof.
  pose proof (keeps_verify_replicas_within_process requires_grad st) as Hkeeps.
  destruct (verify_replicas_within_process requires_grad st) as [r st'] eqn:Hrun.
  simpl in Hkeeps. subst st'. split; [done|]. split.
  - intros ->. unfold verify_replicas_within_process in Hrun.
    apply bind_ok in Hrun as (rs & s1 & [-> ->]%get_ok & Hrun).
    apply bind_ok in Hrun as (flags & s1 & [-> ->]%get_ok & Hrun).
    eapply (for_each_ok_Forall _ (λ r, ∃ row row0 frow frow0,
              at_ (replicas_ st) r = Ok row ∧ at_ (replicas_ st) 0 = Ok row0 ∧
              bool_decide (length row = length row0) = true ∧
              at_ (expect_sparse_gradients_ st) r = Ok frow ∧
              at_ (expect_sparse_gradients_ st) 0 = Ok frow0 ∧
              bool_decide (length frow = length frow0) = true ∧
              Forall (λ i, requires_grad r i = true ∧ ∃ v v0 f f0,
                at_ row i = Ok v ∧ at_ row0 i = Ok v0 ∧
                bool_decide (t_sizes v = t_sizes v0) = true ∧
                bool_decide (t_strides v = t_strides v0) = true ∧
                bool_decide (t_dtype v = t_dtype v0) = true ∧
                at_ frow i = Ok f ∧ at_ frow0 i = Ok f0 ∧
                bool_decide (f = f0) = true) (seq 0 (length row))))
      in Hrun as [_ Hall].
    2:{ intros r s u s' _ Hbody.
        apply bind_ok in Hbody as (row & s1 & [Hrow ->]%lift_ok & Hbody).
        apply bind_ok in Hbody as (row0 & s1 & [Hrow0 ->]%lift_ok & Hbody).
        apply bind_ok in Hbody as (? & s1 & [Hlen ->]%TORCH_CHECK_ok & Hbody).
        apply bind_ok in Hbody as (frow & s1 & [Hfrow ->]%lift_ok & Hbody).
        apply bind_ok in Hbody as (frow0 & s1 & [Hfrow0 ->]%lift_ok & Hbody).
        apply bind_ok in Hbody as (? & s1 & [Hflen ->]%TORCH_CHECK_ok & Hbody).
        eapply (for_each_ok_Forall _ (λ i, requires_grad r i = true ∧ ∃ v v0 f f0,
                at_ row i = Ok v ∧ at_ row0 i = Ok v0 ∧
                bool_decide (t_sizes v = t_sizes v0) = true ∧
                bool_decide (t_strides v = t_strides v0) = true ∧
                bool_decide (t_dtype v = t_dtype v0) = true ∧
                at_ frow i = Ok f ∧ at_ frow0 i = Ok f0 ∧
                bool_decide (f = f0) = true)) in Hbody as [-> Hvars].
        2:{ intros i s1 u1 s2 _ Hvar.
            apply bind_ok in Hvar as (v & s3 & [Hv ->]%lift_ok & Hvar).
            apply bind_ok in Hvar as (? & s3 & [Hgrad ->]%TORCH_CHECK_ok & Hvar).
            apply bind_ok in Hvar as (v0 & s3 & [Hv0 ->]%lift_ok & Hvar).
            apply bind_ok in Hvar as (? & s3 & [Hsizes ->]%TORCH_CHECK_ok & Hvar).
            apply bind_ok in Hvar as (? & s3 & [Hstrides ->]%TORCH_CHECK_ok & Hvar).
            apply bind_ok in Hvar as (? & s3 & [Hdtype ->]%TORCH_CHECK_ok & Hvar).
            apply bind_ok in Hvar as (f & s3 & [Hf ->]%lift_ok & Hvar).
            apply bind_ok in Hvar as (f0 & s3 & [Hf0 ->]%lift_ok & Hvar).
            apply TORCH_CHECK_ok in Hvar as [Hflag ->].
            split; [done|]. split; [done|]. by exists v, v0, f, f0. }
        split; [done|]. by exists row, row0, frow, frow0. }
    intros r row Hr. rewrite Forall_forall in Hall.
    destruct (Hall r) as (row' & row0 & frow & frow0 & Hrow & Hrow0 & Hlen & Hfrow &
                          Hfrow0 & Hflen & Hvars).
    { apply elem_of_seq. apply lookup_lt_Some in Hr. lia. }
    unfold at_ in Hrow, Hrow0, Hfrow, Hfrow0. rewrite Hr in Hrow.
    injection Hrow as <-.
    destruct (replicas_ st !! 0) as [?|] eqn:E0; [injection Hrow0 as ->|done].
    destruct (expect_sparse_gradients_ st !! r) as [?|] eqn:E1; [injection Hfrow as ->|done].
    destruct (expect_sparse_gradients_ st !! 0) as [?|] eqn:E2; [injection Hfrow0 as ->|done].
    apply bool_decide_eq_true_1 in Hlen, Hflen.
    exists row0, frow, frow0. split_and!; try done.
    intros i v Hi. rewrite Forall_forall in Hvars.
    destruct (Hvars i) as (Hgrad & v' & v0 & f & f0 & Hv & Hv0 & Hsizes & Hstrides &
                           Hdtype & Hf & Hf0 & Hflag).
    { apply elem_of_seq. apply lookup_lt_Some in Hi. lia. }
    unfold at_ in Hv, Hv0, Hf, Hf0. rewrite Hi in Hv. injection Hv as <-.
    destruct (row0 !! i) as [?|]; [injection Hv0 as ->|done].
    destruct (frow !! i) as [?|]; [injection Hf as ->|done].
    destruct (frow0 !! i) as [?|]; [injection Hf0 as ->|done].
    apply bool_decide_eq_true_1 in Hsizes, Hstrides, Hdtype, Hflag. subst f0.
    split; [done|]. by exists v0, f.
  - intros Hagree.
    cut (verify_replicas_within_process requires_grad st = (Ok tt, st)).
    { rewrite Hrun. by intros [= ->]. }
    by apply verify_replicas_within_process_runs.
Qed.

Lemma take_app_eq {A} (a b : list A) : ∀ l,
  take (length (a ++ b)) l = a ++ b ↔
  take (length a) l = a ∧ take (length b) (drop (length a) l) = b.
Proof.
  induction a as [|x a IH]; intros l; simpl.
  - rewrite drop_0. tauto.
  - destruct l as [|y l]; simpl; [split; [done|by intros [? _]]|].
    specialize (IH l). split.
    + intros [= -> H]. apply IH in H as [-> ->]. done.
    + intros [[= -> H1] H2]. f_equal. apply IH. done.
Qed.

Lemma check_values_spec control what values : ∀ i,
  i + length values ≤ length control →
  if decide (take (length values) (drop i control) = Z.of_nat <$> values)
  then check_values control what values i = Ok (i + length values)
  else ∃ msg, check_values control what values i = Err (TorchCheck msg).
Proof.
  induction values as [|value rest IH]; intros i Hi.
  - rewrite decide_True by done. simpl. f_equal. lia.
  - simpl in Hi. destruct (lookup_lt_is_Some_2 control i) as [c Hc]; [lia|].
    specialize (IH (S i)).
    assert (take (length (value :: rest)) (drop i control) = Z.of_nat <$> value :: rest ↔
            Z.of_nat value = c ∧
            take (length rest) (drop (S i) control) = Z.of_nat <$> rest) as Hiff.
    { rewrite (drop_S _ _ _ Hc). simpl. split; [by intros [= -> ->]|by intros [-> ->]]. }
    cbn [check_values]. unfold check_control, at_. rewrite Hc. cbn [mbind result_bind].
    destruct (decide (Z.of_nat value = c)) as [Heq|Hne].
    + rewrite (bool_decide_eq_true_2 _ Heq). cbn [torch_check mbind result_bind].
      destruct (decide (take (length rest) (drop (S i) control) = Z.of_nat <$> rest))
        as [Hrest|Hrest].
      * rewrite decide_True by (by apply Hiff). rewrite IH by lia. f_equal. simpl. lia.
      * rewrite decide_False by (rewrite Hiff; tauto). apply IH. lia.
    + rewrite (bool_decide_eq_false_2 _ Hne). cbn [torch_check mbind result_bind].
      rewrite decide_False by (rewrite Hiff; tauto). eauto.
Qed.

Lemma check_replica0_spec control row0 : ∀ i,
  i + length (replica0_metadata row0) ≤ length control →
  if decide (take (length (replica0_metadata row0)) (drop i control) =
             replica0_metadata row0)
  then check_replica0 control row0 i = Ok (i + length (replica0_metadata row0))
  else ∃ msg, check_replica0 control row0 i = Err (TorchCheck msg).
Proof.
  induction row0 as [|t rest IH]; intros i Hi.
  - rewrite decide_True by done. simpl. f_equal. lia.
  - change (replica0_metadata (t :: rest))
      with (((Z.of_nat <$> t_sizes t) ++ (Z.of_nat <$> t_strides t)) ++
            replica0_metadata rest) in *.
    rewrite !length_app, !length_fmap in Hi. simpl.
    set (sizes := Z.of_nat <$> t_sizes t) in *.
    set (strides := Z.of_nat <$> t_strides t) in *.
    pose proof (check_values_spec control
      "appears not to match sizes of the same param in process 0." (t_sizes t) i) as Hsz.
    pose proof (check_values_spec control
      "appears not to match strides of the same param in process 0." (t_strides t)
      (i + length (t_sizes t))) as Hst.
    specialize (IH (i + length (t_sizes t) + length (t_strides t))).
    fold sizes in Hsz. fold strides in Hst.
    assert (take (length ((sizes ++ strides) ++ replica0_metadata rest)) (drop i control) =
              (sizes ++ strides) ++ replica0_metadata rest ↔
            take (length (t_sizes t)) (drop i control) = sizes ∧
            take (length (t_strides t)) (drop (i + length (t_sizes t)) control) = strides ∧
            take (length (replica0_metadata rest))
              (drop (i + length (t_sizes t) + length (t_strides t)) control) =
              replica0_metadata rest) as Hiff.
    { rewrite <- (assoc_L (++)), take_app_eq, take_app_eq, !drop_drop.
      unfold sizes, strides. rewrite !length_fmap. done. }
    destruct (decide (take (length (t_sizes t)) (drop i control) = sizes)) as [H1|H1].
    2:{ rewrite decide_False by (rewrite Hiff; tauto).
        destruct Hsz as [msg ->]; [lia|]. simpl. eauto. }
    rewrite Hsz by lia. simpl.
    destruct (decide (take (length (t_strides t))
                (drop (i + length (t_sizes t)) control) = strides)) as [H2|H2].
    2:{ rewrite decide_False by (rewrite Hiff; tauto).
        destruct Hst as [msg ->]; [lia|]. simpl. eauto. }
    rewrite Hst by lia. simpl.
    destruct (decide (take (length (replica0_metadata rest))
                (drop (i + length (t_sizes t) + length (t_strides t)) control) =
              replica0_metadata rest)) as [H3|H3].
    + rewrite decide_True by (by rewrite Hiff). rewrite IH by lia. f_equal.
      subst sizes strides. rewrite !length_app, !length_fmap. by rewrite !Nat.add_assoc.
    + rewrite decide_False by (rewrite Hiff; tauto).
      apply IH. lia.
Qed.

Lemma length_replica0_metadata row0 :
  Forall (λ t, length (t_strides t) = length (t_sizes t)) row0 →
  length (replica0_metadata row0) = sum_list ((λ t, 2 * length (t_sizes t)) <$> row0).
Proof.
  induction 1 as [|t rest Ht _ IH]; [done|].
  change (replica0_metadata (t :: rest))
    with (((Z.of_nat <$> t_sizes t) ++ (Z.of_nat <$> t_strides t)) ++
          replica0_metadata rest).
  rewrite !length_app, !length_fmap, IH, Ht, fmap_cons.
  assert (∀ x l, sum_list (x :: l) = x + sum_list l) as -> by done. lia.
Qed.

(** X12. With at least one parameter in replica 0, each with as many
    strides as sizes, [verify_replica0_across_processes] reads the reducer
    only, and it returns exactly when the tensor that the broadcast leaves
    in the process equals the sizes and strides of its own parameters;
    otherwise it throws the error of a [TORCH_CHECK]. On the process whose
    tensor the broadcast leaves as it is, it returns. *)
Theorem verify_replica0_across_processes_compares broadcast st row0 :
  replicas_ st !! 0 = Some row0 → row0 ≠ [] →
  Forall (λ t, length (t_strides t) = length (t_sizes t)) row0 →
  let (r, st') := verify_replica0_across_processes broadcast st in
  st' = st ∧
  (r = Ok tt ∨ ∃ msg, r = Err (TorchCheck msg)) ∧
  (r = Ok tt ↔ broadcast (replica0_metadata row0) = replica0_metadata row0).
Proof.
  intros Hrow0 Hne Hstrides. unfold verify_replica0_across_processes.
  run_step. erewrite bind_run by (unfold lift, at_; rewrite Hrow0; reflexivity). cbv beta.
  rewrite <- (length_replica0_metadata _ Hstrides).
  rewrite (bool_decide_eq_true_2 (length (replica0_metadata row0) = _)) by done. run_step.
  destruct row0 as [|t0 rest0] eqn:Erow; [done|]. rewrite <- Erow in *. clear Hne.
  erewrite bind_run by (unfold lift, at_; rewrite Erow; reflexivity). cbv beta.
  set (metadata := replica0_metadata row0).
  destruct (decide (length (broadcast metadata) = length metadata)) as [Hlen|Hlen].
  - rewrite (bool_decide_eq_true_2 _ Hlen). run_step.
    pose proof (check_replica0_spec (broadcast metadata) row0 0) as Hcheck.
    fold metadata in Hcheck. rewrite drop_0, <- Hlen, firstn_all in Hcheck.
    rewrite Hlen in Hcheck.
    destruct (decide (broadcast metadata = metadata)) as [Heq|Hneq].
    + erewrite bind_run by (unfold lift; rewrite Hcheck by (simpl; lia); reflexivity).
      split; [done|]. split; [by left|done].
    + destruct Hcheck as [msg Hcheck]; [simpl; lia|].
      erewrite bind_fail by (unfold lift; rewrite Hcheck; reflexivity).
      split; [done|]. split; [eauto|]. split; [done|]. intros ?. done.
  - rewrite (bool_decide_eq_false_2 _ Hlen).
    erewrite bind_fail by reflexivity. split; [done|]. split; [eauto|].
    split; [done|]. intros Heq. by rewrite Heq in Hlen.
Qed.

Lemma verify_replica0_across_processes_compares_witness :
  let (r, st') := verify_replica0_across_processes id sample_reducer in
  st' = sample_reducer ∧
  (r = Ok tt ∨ ∃ msg, r = Err (TorchCheck msg)) ∧
  (r = Ok tt ↔ id (replica0_metadata [sample_vector 0; sample_vector 1]) =
               replica0_metadata [sample_vector 0; sample_vector 1]).
Proof.
  apply (verify_replica0_across_processes_compares id sample_reducer
           [sample_vector 0; sample_vector 1]).
  - reflexivity.
  - discriminate.
  - repeat constructor.
Defined.

(** ** [initialize_buckets] on legal bucket indices *)

Section runs.
Context {A B : Type}.

Lemma runs_bind (m : M A) (k : A → M B) st Q :
  runs m st (λ a s, runs (k a) s Q) → runs (m ≫= k) st Q.
Proof.
  intros (a & s & Hm & b & s' & Hk & HQ). exists b, s'.
  by rewrite (bind_run _ _ _ _ _ Hm).
Qed.

Lemma runs_mono (m : M A) st (Q Q' : A → Reducer → Prop) :
  runs m st Q → (∀ a s, Q a s → Q' a s) → runs m st Q'.
Proof. intros (a & s & Hm & HQ) H. exists a, s. eauto. Qed.

Lemma runs_ret (a : A) st (Q : A → Reducer → Prop) : Q a st → runs (mret a) st Q.
Proof. intros HQ. by exists a, st. Qed.

Lemma runs_get (f : Reducer → A) st (Q : A → Reducer → Prop) :
  Q (f st) st → runs (get f) st Q.
Proof. intros HQ. by exists (f st), st. Qed.

Lemma runs_lift (r : result A) a st (Q : A → Reducer → Prop) :
  r = Ok a → Q a st → runs (lift r) st Q.
Proof. intros -> HQ. by exists a, st. Qed.

Lemma runs_keeps (R : relation Reducer) (m : M A) st Q :
  keeps R m → runs m st Q → runs m st (λ a s, Q a s ∧ R st s).
Proof.
  intros Hk (a & s & Hm & HQ). exists a, s. split; [done|]. split; [done|].
  specialize (Hk st). by rewrite Hm in Hk.
Qed.

Lemma runs_ok (m : M A) st a s (Q : A → Reducer → Prop) :
  runs m st Q → m st = (Ok a, s) → Q a s.
Proof. intros (a' & s' & Hm & HQ) Heq. rewrite Heq in Hm. by injection Hm as -> ->. Qed.

End runs.

Lemma runs_check c msg st (Q : unit → Reducer → Prop) :
  c = true → Q tt st → runs (TORCH_CHECK c msg) st Q.
Proof. intros -> HQ. by exists tt, st. Qed.

Lemma runs_assert c msg st (Q : unit → Reducer → Prop) :
  c = true → Q tt st → runs (TORCH_INTERNAL_ASSERT c msg) st Q.
Proof. intros -> HQ. by exists tt, st. Qed.

Lemma runs_modify f st (Q : unit → Reducer → Prop) :
  Q tt (f st) → runs (modify f) st Q.
Proof. intros HQ. by exists tt, (f st). Qed.

Lemma runs_foldM {A B} (f : A → B → M B) (I : list A → B → Reducer → Prop) full :
  (∀ done a rest b s, full = done ++ a :: rest → I done b s →
     runs (f a b) s (I (done ++ [a]))) →
  ∀ l done b st, full = done ++ l → I done b st → runs (foldM f l b) st (I full).
Proof.
  intros Hstep l. induction l as [|a l IH]; intros done b st Hfull HI; simpl.
  - rewrite app_nil_r in Hfull. subst. by apply runs_ret.
  - apply runs_bind. eapply runs_mono; [by eapply Hstep|].
    intros b' s HI'. apply (IH (done ++ [a])); [|done].
    by rewrite <- (assoc_L (++)).
Qed.

Lemma runs_for_each {A} (f : A → M unit) (I : list A → Reducer → Prop) full :
  (∀ done a rest s, full = done ++ a :: rest → I done s →
     runs (f a) s (λ _, I (done ++ [a]))) →
  ∀ l done st, full = done ++ l → I done st →
  runs (for_each l f) st (λ _, I full).
Proof.
  intros Hstep l. induction l as [|a l IH]; intros done st Hfull HI; simpl.
  - rewrite app_nil_r in Hfull. subst. by apply runs_ret.
  - apply runs_bind. eapply runs_mono; [by eapply Hstep|].
    intros [] s HI'. apply (IH (done ++ [a])); [|done].
    by rewrite <- (assoc_L (++)).
Qed.

Global Instance init_frame_preorder : PreOrder init_frame.
Proof.
  split.
  - intros st. by split.
  - intros s1 s2 s3 [] []. split; congruence.
Qed.

Lemma keeps_init_modify f :
  (∀ st, init_frame st (f st)) → keeps init_frame (modify f).
Proof. intros H. by apply keeps_modify. Qed.

Lemma init_frame_set_grads (r v : nat) g st :
  init_frame st (set_grads (alter (λ row, <[v := g]> row) r (grads st)) st).
Proof.
  split; try done. simpl.
  rewrite (list_fmap_alter length _ id), list_alter_id; [done..|].
  apply Forall_forall. intros row _. by rewrite length_insert.
Qed.

Ltac keeps_init :=
  repeat first
    [ keeps_step
    | apply keeps_modify; intros ?;
      first [ apply init_frame_set_grads
            | split; simpl; try done; by rewrite length_insert ] ].

Lemma keeps_init_initialize_bucket_view contents copy i replica :
  keeps init_frame (initialize_bucket_view contents copy i replica).
Proof.
  unfold initialize_bucket_view, variable_at, runGradCallbackForVariable. keeps_init.
Qed.

Lemma keeps_init_initialize_bucket_views replica contents copy :
  keeps init_frame (initialize_bucket_views replica contents copy).
Proof.
  unfold initialize_bucket_views. apply keeps_foldM; [apply _|]. intros ? ?.
  apply keeps_init_initialize_bucket_view.
Qed.

Lemma keeps_init_initialize_replica sparse indices r :
  keeps init_frame (initialize_replica sparse indices r).
Proof.
  unfold initialize_replica, variable_at, layout_variable.
  destruct sparse; [keeps_init|].
  apply keeps_bind; [apply _|keeps_init|]. intros l.
  apply keeps_bind; [apply _|keeps_init|]. intros h.
  destruct (at_empty h (dl_offset l) (dl_options l)) as [c h'].
  apply keeps_bind; [apply _|keeps_init|]. intros _.
  apply keeps_init_initialize_bucket_views.
Qed.

Lemma keeps_init_initialize_bucket b indices :
  keeps init_frame (initialize_bucket b indices).
Proof.
  unfold initialize_bucket, bucket_expects_sparse, map_variables.
  apply keeps_bind; [apply _|keeps_init|]. intros _.
  apply keeps_bind; [apply _|keeps_init|]. intros sparse.
  apply keeps_bind; [apply _|keeps_init|]. intros n.
  apply keeps_bind; [apply _| |].
  { apply keeps_foldM; [apply _|]. intros r reps.
    apply keeps_bind; [apply _|apply keeps_init_initialize_replica|]. intros ?.
    keeps_init. }
  intros reps. keeps_init.
Qed.

(** *** The layout [initialize_buckets] leaves behind *)

Lemma initialize_bucket_view_laid_out contents copy i replica st replica' st' :
  initialize_bucket_view contents copy i replica st = (Ok replica', st') →
  ∃ v row vt off view,
    variables replica !! i = Some v ∧
    replicas_ st !! replica_index v = Some row ∧ row !! variable_index v = Some vt ∧
    offsets replica !! i = Some off ∧
    replica' = set_bucket_views (bucket_views replica ++ [view]) replica ∧
    is_alias_of view contents = true ∧ t_sizes view = t_sizes vt ∧
    (t_offset view = off ∨ t_offset view = t_offset contents + off).
Proof.
  intros H. unfold initialize_bucket_view, variable_at in H.
  apply bind_ok in H as (v & s1 & [Hv%at_ok ->]%lift_ok & H).
  apply bind_ok in H as (vt & s1 & Hvt & H).
  apply bind_ok in Hvt as (rs & s2 & [-> ->]%get_ok & [Hvt ->]%lift_ok).
  apply result_bind_ok in Hvt as (row & Hrow%at_ok & Hvt%at_ok).
  apply bind_ok in H as (off & s1 & [Hoff%at_ok ->]%lift_ok & H).
  apply bind_ok in H as (len & s1 & [Hlen%at_ok ->]%lift_ok & H).
  apply bind_ok in H as (view & s1 & Hview & H).
  apply bind_ok in H as (? & s2 & _ & [-> _]%mret_ok).
  assert (view = as_strided contents (t_sizes vt) (t_strides vt) off ∨
          view = narrow_view contents off (t_sizes vt)) as Hcase.
  { destruct (t_non_overlapping_and_dense vt); [apply mret_ok in Hview as [-> _]; by left|].
    do 2 apply bind_ok in Hview as (? & ? & _ & Hview).
    apply mret_ok in Hview as [-> _]. by right. }
  exists v, row, vt, off, view.
  destruct Hcase as [-> | ->]; simpl; split_and!; try done.
  1, 3: unfold is_alias_of; by apply bool_decide_eq_true_2.
  all: by (left + right).
Qed.

Lemma initialize_bucket_views_laid_out replica contents copy st replica' st' :
  initialize_bucket_views replica contents copy st = (Ok replica', st') →
  ∃ views,
    replica' = set_bucket_views (bucket_views replica ++ views) replica ∧
    Forall2 (λ i view, ∃ v row vt off,
               variables replica !! i = Some v ∧
               replicas_ st !! replica_index v = Some row ∧
               row !! variable_index v = Some vt ∧
               offsets replica !! i = Some off ∧
               is_alias_of view contents = true ∧ t_sizes view = t_sizes vt ∧
               (t_offset view = off ∨ t_offset view = t_offset contents + off))
            (seq 0 (length (variables replica))) views.
Proof.
  intros H. unfold initialize_bucket_views in H.
  apply (foldM_ok_ind _
    (λ done rep s, init_frame st s ∧
       ∃ views, rep = set_bucket_views (bucket_views replica ++ views) replica ∧
         Forall2 (λ i view, ∃ v row vt off,
               variables replica !! i = Some v ∧
               replicas_ st !! replica_index v = Some row ∧
               row !! variable_index v = Some vt ∧
               offsets replica !! i = Some off ∧
               is_alias_of view contents = true ∧ t_sizes view = t_sizes vt ∧
               (t_offset view = off ∨ t_offset view = t_offset contents + off))
            done views)
    _ []) in H.
  - by destruct H as (_ & views & Hrep & Hall); exists views.
  - split; [reflexivity|]. exists []. rewrite app_nil_r. split; [by destruct replica|].
    constructor.
  - intros done i rep s rep' s' (Hf & views & -> & Hall) Hstep.
    pose proof (keeps_init_initialize_bucket_view contents copy i
                  (set_bucket_views (bucket_views replica ++ views) replica) s) as Hk.
    rewrite Hstep in Hk. simpl in Hk. split; [by etrans|].
    apply initialize_bucket_view_laid_out in Hstep
      as (v & row & vt & off & view & Hv & Hrow & Hvt & Hoff & -> & Ha & Hs & Ho).
    simpl in *. exists (views ++ [view]). rewrite (assoc_L (++)). split; [done|].
    apply Forall2_app; [done|]. constructor; [|constructor].
    exists v, row, vt, off. rewrite <- (if_replicas _ _ Hf). done.
Qed.

Lemma layout_variable_length r v l st l' st' :
  layout_variable r v l st = (Ok l', st') →
  ∃ row t, replicas_ st !! r = Some row ∧ row !! v = Some t ∧
           lengths (dl_replica l') = lengths (dl_replica l) ++ [numel t].
Proof.
  intros H. unfold layout_variable in H.
  apply bind_ok in H as (rs & s1 & [-> ->]%get_ok & H).
  apply bind_ok in H as (row & s1 & [Hrow%at_ok ->]%lift_ok & H).
  apply bind_ok in H as (? & s1 & [_ ->]%TORCH_CHECK_ok & H).
  apply bind_ok in H as (t & s1 & [Ht%at_ok ->]%lift_ok & H).
  apply bind_ok in H as (device & s1 & _ & H).
  apply bind_ok in H as (dtype & s2 & _ & [-> _]%mret_ok).
  by exists row, t.
Qed.

Lemma layout_variables_lengths r indices l st l' st' :
  foldM (layout_variable r) indices l st = (Ok l', st') →
  ∃ lens, lengths (dl_replica l') = lengths (dl_replica l) ++ lens ∧
    Forall2 (λ v len, ∃ row t, replicas_ st !! r = Some row ∧ row !! v = Some t ∧
                               len = numel t) indices lens.
Proof.
  intros H.
  apply (foldM_ok_ind _
    (λ done l1 s, s = st ∧
       ∃ lens, lengths (dl_replica l1) = lengths (dl_replica l) ++ lens ∧
         Forall2 (λ v len, ∃ row t, replicas_ st !! r = Some row ∧ row !! v = Some t ∧
                                    len = numel t) done lens) _ []) in H.
  - by destruct H as (_ & H).
  - split; [done|]. exists []. by rewrite app_nil_r.
  - intros done v l1 s l2 s' (-> & lens & Hl & Hall) Hstep.
    pose proof Hstep as (-> & _)%layout_variable_ok.
    apply layout_variable_length in Hstep as (row & t & Hrow & Ht & Hl').
    split; [done|]. exists (lens ++ [numel t]). split.
    + by rewrite Hl', Hl, <- (assoc_L (++)).
    + apply Forall2_app; [done|]. constructor; [|constructor]. by exists row, t.
Qed.

Lemma initialize_replica_laid_out indices r st rep st' :
  initialize_replica false indices r st = (Ok rep, st') →
  dense_replica_laid_out (replicas_ st) r indices rep.
Proof.
  intros H. unfold initialize_replica in H.
  apply bind_ok in H as (l & s1 & Hfold & H).
  pose proof Hfold as (lens' & Hl' & Hlens)%layout_variables_lengths.
  apply layout_variables_ok in Hfold
    as (-> & lens & Hlen & Hoff & Hc & Hbv & Hv & Ho & Hl).
  simpl in Hl, Hl', Ho, Hv, Hbv, Hoff. subst lens'. rewrite Hl in Hlens.
  apply bind_ok in H as (h & s1 & [-> ->]%get_ok & H).
  unfold at_empty in H.
  apply bind_ok in H as (? & s1 & ->%modify_ok & H).
  apply initialize_bucket_views_laid_out in H as (views & -> & Hviews).
  simpl in Hviews. rewrite Hv, length_fmap in Hviews.
  assert (length views = length indices) as Hn.
  { apply Forall2_length in Hviews. by rewrite length_seq in Hviews. }
  eexists. simpl. split; [done|]. rewrite Hbv, Hl, Ho, Hv. simpl.
  split_and!; [done|done|done|unfold numel; simpl; lia| |].
  - apply Forall2_same_length_lookup_2; [done|].
    intros i v view Hi Hview.
    destruct (Forall2_lookup_r _ _ _ i view Hviews Hview)
      as (i' & Hi' & w & row & vt & off & Hw & Hrow & Hvt & _ & _ & Hs & _).
    apply lookup_seq in Hi' as [-> _]. simpl in Hw.
    rewrite list_lookup_fmap, Hi in Hw. injection Hw as <-. simpl in *.
    by exists row, vt.
  - apply Forall2_same_length_lookup_2.
    { rewrite Hn. rewrite <- Hlen. clear. generalize 0.
      induction lens as [|x lens IH]; intros a; simpl; [done|]. by rewrite IH. }
    intros i off view Hoff' Hview.
    destruct (Forall2_lookup_r _ _ _ i view Hviews Hview)
      as (i' & Hi' & w & row & vt & off' & _ & _ & _ & Hoff'' & Ha & _ & Hto).
    apply lookup_seq in Hi' as [-> _]. simpl in Hoff''.
    rewrite Ho, Hoff' in Hoff''. injection Hoff'' as <-. split; [done|].
    by destruct Hto.
Qed.

Lemma initialize_bucket_laid_out b indices st u st' :
  initialize_bucket b indices st = (Ok u, st') →
  ∃ bkt, buckets_ st' = buckets_ st ++ [bkt] ∧
    length (replicas bkt) = length (replicas_ st) ∧
    (expect_sparse_gradient bkt = false →
     ∀ r rep, replicas bkt !! r = Some rep →
       dense_replica_laid_out (replicas_ st) r indices rep).
Proof.
  intros H. pose proof H as ((bkt & Hb & _) & _)%initialize_bucket_ok.
  exists bkt. split; [done|].
  unfold initialize_bucket in H.
  apply bind_ok in H as (? & s1 & [_ ->]%TORCH_CHECK_ok & H).
  apply bind_ok in H as (sparse & s1 & ->%bucket_expects_sparse_ok & H).
  apply bind_ok in H as (n & s1 & [-> ->]%get_ok & H).
  apply bind_ok in H as (reps & s1 & Hfold & H).
  apply (foldM_ok_ind _
    (λ done reps s, init_frame st s ∧
       Forall2 (λ r rep, sparse = false →
                  dense_replica_laid_out (replicas_ st) r indices rep) done reps)
    _ []) in Hfold as (Hf & Hreps).
  - simpl in Hreps.
    apply bind_ok in H as (? & s2 & Hmap & ->%modify_ok).
    apply map_variables_ok in Hmap as (Hbs & _). simpl in Hb. rewrite Hbs in Hb.
    apply app_inj_tail in Hb as [_ <-]. simpl.
    split.
    + apply Forall2_length in Hreps. by rewrite length_seq in Hreps.
    + intros -> r rep Hrep.
      destruct (Forall2_lookup_r _ _ _ r rep Hreps Hrep) as (r' & Hr' & Hlaid).
      apply lookup_seq in Hr' as [-> _]. by apply Hlaid.
  - split; [reflexivity|constructor].
  - intros done r reps0 s reps' s' (Hf & Hall) Hstep.
    apply bind_ok in Hstep as (rep & s2 & Hrep & [-> ->]%mret_ok).
    pose proof (keeps_init_initialize_replica sparse indices r s) as Hk.
    rewrite Hrep in Hk. simpl in Hk. split; [by etrans|].
    apply Forall2_app; [done|]. constructor; [|constructor].
    intros ->. rewrite <- (if_replicas _ _ Hf).
    by apply initialize_replica_laid_out in Hrep.
Qed.

(** C6. After a successful [initialize_buckets] on bucket indices in which
    every parameter index appears exactly once: the locator of every
    parameter names a bucket whose [variable_indices] holds the parameter at
    [intra_bucket_index]; every bucket has one replica per model replica;
    and every replica of a dense bucket holds, for every parameter of the
    bucket and in their order, one variable, one length (the number of
    elements of the parameter), one offset and one bucket view: the lengths
    add up to the number of elements of [contents], the offsets are the
    prefix sums of the lengths, and every bucket view has the sizes of its
    parameter, starts at its offset and shares the storage of [contents]. *)
Theorem initialize_buckets_layout bucket_indices st st' row :
  initialize_buckets bucket_indices st = (Ok tt, st') →
  replicas_ st !! 0 = Some row →
  concat bucket_indices ≡ₚ seq 0 (length row) →
  (∀ p, p < length row →
     ∃ loc, variable_locators_ st' !! p = Some loc ∧
            locator_resolves (buckets_ st') p loc) ∧
  (∀ b bkt, buckets_ st' !! b = Some bkt →
     length (replicas bkt) = length (replicas_ st)) ∧
  (∀ b bkt r rep, buckets_ st' !! b = Some bkt →
     expect_sparse_gradient bkt = false →
     replicas bkt !! r = Some rep →
     dense_replica_laid_out (replicas_ st) r (variable_indices bkt) rep) ∧
  variable_indices <$> buckets_ st' = bucket_indices.
Proof.
  intros H Hrow Hperm. unfold initialize_buckets in H.
  apply bind_ok in H as (? & s1 & [-> ->]%get_ok & H).
  apply bind_ok in H as (? & s1 & [_ ->]%TORCH_CHECK_ok & H).
  apply bind_ok in H as (? & s1 & ->%modify_ok & H).
  apply bind_ok in H as (? & s1 & [-> ->]%get_ok & H).
  apply bind_ok in H as (row' & s1 & [Hrow'%at_ok ->]%lift_ok & H).
  simpl in Hrow'. rewrite Hrow in Hrow'. injection Hrow' as <-.
  apply bind_ok in H as (? & s1 & ->%modify_ok & H).
  set (full := imap (λ i indices, (i, indices)) bucket_indices) in *.
  apply (for_each_ok_ind _
    (λ done s, done `prefix_of` full →
       replicas_ s = replicas_ st ∧
       variable_indices <$> buckets_ s = snd <$> done ∧
       (∀ b bkt, buckets_ s !! b = Some bkt →
          length (replicas bkt) = length (replicas_ st) ∧
          (expect_sparse_gradient bkt = false →
           ∀ r rep, replicas bkt !! r = Some rep →
             dense_replica_laid_out (replicas_ st) r (variable_indices bkt) rep)) ∧
       length (variable_locators_ s) = length row ∧
       (∀ p, p ∈ concat (snd <$> done) →
          ∃ loc ind, variable_locators_ s !! p = Some loc ∧
            (snd <$> done) !! bucket_index loc = Some ind ∧
            ind !! intra_bucket_index loc = Some p))
    _ []) in H.
  - simpl in H. destruct H as (_ & Hvi & Hdense & Hlen & Hloc).
    unfold full in Hvi, Hloc. rewrite imap_pair_snd in Hvi, Hloc.
    split_and!; [| | |done].
    + intros p Hp.
      destruct (Hloc p) as (loc & ind & Hl & Hind & Hp').
      { rewrite Hperm. apply elem_of_seq. lia. }
      exists loc. split; [done|]. unfold locator_resolves.
      rewrite <- Hvi, list_lookup_fmap in Hind.
      destruct (buckets_ st' !! bucket_index loc) as [bkt|]; [|done].
      simpl in Hind. injection Hind as <-. eauto.
    + intros b bkt Hb. by destruct (Hdense b bkt Hb).
    + intros b bkt r rep Hb Hs Hr. destruct (Hdense b bkt Hb) as [_ Hall]. by eapply Hall.
  - intros _. simpl. split_and!.
    + done.
    + done.
    + intros b bkt Hb. by rewrite lookup_nil in Hb.
    + by rewrite length_replicate.
    + intros p Hp. by apply elem_of_nil in Hp.
  - clear H. intros done [i indices] s u s' Hinv Hstep Hprefix. simpl in Hstep.
    assert (done `prefix_of` full) as Hprefix'.
    { destruct Hprefix as [k ->]. exists ([(i, indices)] ++ k).
      by rewrite (assoc_L (++)). }
    destruct (Hinv Hprefix') as (Hreps & Hvi & Hdense & Hlen & Hloc).
    assert (i = length done) as ->.
    { destruct Hprefix as [k Hk].
      assert (full !! length done = Some (i, indices)) as Hlook.
      { rewrite Hk, <- (assoc_L (++)).
        by rewrite lookup_app_r, Nat.sub_diag by done. }
      apply imap_pair_lookup in Hlook as [Hl _]. done. }
    pose proof (keeps_init_initialize_bucket (length done) indices s) as Hk.
    rewrite Hstep in Hk. simpl in Hk.
    pose proof Hstep as (bkt' & Hb2 & Hlen2 & Hlaid)%initialize_bucket_laid_out.
    apply initialize_bucket_ok in Hstep as ((bkt & Hb & Hbi & _) & Hlen' & Hloc').
    rewrite Hb in Hb2. apply app_inv_head in Hb2. injection Hb2 as <-.
    rewrite Hreps in Hlen2, Hlaid.
    split_and!.
    + by rewrite (if_replicas _ _ Hk).
    + rewrite Hb, !fmap_app, Hvi. simpl. by rewrite Hbi.
    + intros b bkt' Hb'. rewrite Hb in Hb'.
      apply lookup_app_Some in Hb' as [Hb'|[_ Hb']]; [by eapply Hdense|].
      destruct (b - length (buckets_ s)); simpl in Hb'; [|by rewrite lookup_nil in Hb'].
      injection Hb' as <-. rewrite Hbi. done.
    + congruence.
    + intros p Hp. rewrite fmap_app, concat_app in Hp. simpl in Hp.
      rewrite app_nil_r in Hp.
      destruct (decide (p ∈ indices)) as [Hin|Hnin].
      * destruct (proj1 (Hloc' p) Hin) as (j & Hj & Hij).
        eexists _, indices. split; [done|]. simpl. split; [|done].
        rewrite fmap_app. simpl.
        by rewrite lookup_app_r, length_fmap, Nat.sub_diag by (by rewrite length_fmap).
      * apply elem_of_app in Hp as [Hp|Hp]; [|done].
        destruct (Hloc p Hp) as (loc & ind & Hl & Hind & Hpi).
        exists loc, ind. rewrite (proj2 (Hloc' p) Hnin). split; [done|].
        split; [|done]. rewrite fmap_app. by apply lookup_app_l_Some.
  - simpl. reflexivity.
Qed.

(** One bucket with both parameters of [sample_reducer]. *)
Lemma initialize_buckets_layout_witness :
  let st' := sample_initialized in
  (∀ p, p < 2 →
     ∃ loc, variable_locators_ st' !! p = Some loc ∧
            locator_resolves (buckets_ st') p loc) ∧
  (∀ b bkt, buckets_ st' !! b = Some bkt →
     length (replicas bkt) = length (replicas_ sample_reducer)) ∧
  (∀ b bkt r rep, buckets_ st' !! b = Some bkt →
     expect_sparse_gradient bkt = false →
     replicas bkt !! r = Some rep →
     dense_replica_laid_out (replicas_ sample_reducer) r (variable_indices bkt) rep) ∧
  variable_indices <$> buckets_ st' = [[0; 1]].
Proof.
  intros st'.
  assert (initialize_buckets [[0; 1]] sample_reducer = (Ok tt, st')) as Hrun
    by (vm_compute; reflexivity).
  assert (replicas_ sample_reducer !! 0 = Some [sample_vector 0; sample_vector 1]) as Hrow
    by reflexivity.
  assert (concat [[0; 1]] ≡ₚ seq 0 (length [sample_vector 0; sample_vector 1])) as Hperm
    by reflexivity.
  exact (initialize_buckets_layout [[0; 1]] sample_reducer st' _ Hrun Hrow Hperm).
Defined.

Ltac runs_step :=
  cbv beta;
  lazymatch goal with
  | |- runs (_ ≫= _) _ _ => apply runs_bind
  | |- runs (mret _) _ _ => apply runs_ret
  | |- runs (get _) _ _ => apply runs_get
  | |- runs (modify _) _ _ => apply runs_modify
  | |- runs (TORCH_CHECK _ _) _ _ => apply runs_check
  | |- runs (TORCH_INTERNAL_ASSERT _ _) _ _ => apply runs_assert
  | |- runs (lift _) _ _ => eapply runs_lift
  end.

Lemma runs_post {A} (m : M A) st (Q : A → Reducer → Prop) :
  runs m st (λ _ _, True) → (∀ a s, m st = (Ok a, s) → Q a s) → runs m st Q.
Proof. intros (a & s & Hm & _) H. exists a, s. eauto. Qed.

Lemma init_frame_grads st s (r : nat) grow :
  init_frame st s → grads st !! r = Some grow →
  ∃ grow', grads s !! r = Some grow' ∧ length grow' = length grow.
Proof.
  intros Hf Hg. pose proof (if_grads _ _ Hf) as Hlen.
  apply (f_equal (.!! r)) in Hlen. rewrite !list_lookup_fmap, Hg in Hlen.
  destruct (grads s !! r) as [grow'|]; [|done]. injection Hlen as Hlen. eauto.
Qed.

Lemma view_ready_frame contents replica views st s i :
  view_ready contents replica st i → init_frame st s →
  view_ready contents (set_bucket_views views replica) s i.
Proof.
  intros (v & row & vt & off & len & grow & Hv & Hrow & Hvt & Hoff & Hlen & Hn & Hg & Hvg) Hf.
  destruct (init_frame_grads _ _ _ _ Hf Hg) as (grow' & Hg' & Hlen').
  exists v, row, vt, off, len, grow'. rewrite (if_replicas _ _ Hf), Hlen'. done.
Qed.

Lemma initialize_bucket_view_runs contents copy i replica st :
  view_ready contents replica st i →
  runs (initialize_bucket_view contents copy i replica) st (λ _ _, True).
Proof.
  intros (v & row & vt & off & len & grow & Hv & Hrow & Hvt & Hoff & Hlen & Hn & Hg & Hvg).
  destruct (lookup_lt_is_Some_2 grow _ Hvg) as [grad Hgrad].
  unfold initialize_bucket_view, variable_at, runGradCallbackForVariable.
  runs_step. runs_step; [by apply at_lookup|].
  runs_step. runs_step. runs_step. runs_step.
  { rewrite (at_lookup _ _ _ Hrow). simpl. by apply at_lookup. }
  runs_step. runs_step; [by apply at_lookup|].
  runs_step. runs_step; [by apply at_lookup|].
  runs_step. apply (runs_mono _ _ (λ _ s, s = st)).
  { destruct (t_non_overlapping_and_dense vt); [by runs_step|].
    destruct Hn as [Hfit Hnum]; [done|].
    runs_step. runs_step; [by apply bool_decide_eq_true_2|].
    runs_step. runs_step; [by apply bool_decide_eq_true_2|]. by runs_step. }
  intros view ? ->. runs_step. runs_step. runs_step. runs_step. runs_step.
  { rewrite (at_lookup _ _ _ Hg). simpl. by apply at_lookup. }
  runs_step. apply (runs_mono _ _ (λ _ _, True)).
  { destruct grad as [g|]; [|by runs_step].
    destruct (negb (is_alias_of g view)); [|by runs_step].
    runs_step. destruct copy; by repeat runs_step. }
  intros grad' s _. runs_step. by runs_step.
Qed.

Lemma initialize_bucket_views_runs replica contents copy st :
  (∀ i, i < length (variables replica) → view_ready contents replica st i) →
  runs (initialize_bucket_views replica contents copy) st (λ _ _, True).
Proof.
  intros Hready. unfold initialize_bucket_views.
  set (I := λ (_ : list nat) rep s,
         (∃ views, rep = set_bucket_views views replica) ∧ init_frame st s).
  eapply runs_mono; [|done].
  apply (runs_foldM _ I (seq 0 (length (variables replica)))) with (done := []).
  - intros done i rest rep s Hfull [[views ->] Hf].
    assert (i < length (variables replica)) as Hi.
    { assert (i ∈ seq 0 (length (variables replica))) as Hin
        by (rewrite Hfull, elem_of_app, elem_of_cons; tauto).
      apply elem_of_seq in Hin. lia. }
    apply runs_post.
    + apply initialize_bucket_view_runs, (view_ready_frame _ _ _ st); [by apply Hready|done].
    + intros rep' s' Hrun.
      pose proof (keeps_init_initialize_bucket_view contents copy i
                    (set_bucket_views views replica) s) as Hk.
      rewrite Hrun in Hk. simpl in Hk.
      apply initialize_bucket_view_ok in Hrun as ((view & -> & _) & _).
      split; [|by etrans]. eexists. by destruct replica.
  - done.
  - split; [|done]. exists (bucket_views replica). by destruct replica.
Qed.

Lemma layout_variable_run r v l st row t :
  replicas_ st !! r = Some row → row !! v = Some t →
  (∀ d, opt_device (dl_options l) = Some d → t_device t = d) →
  (∀ d, opt_dtype (dl_options l) = Some d → t_dtype t = d) →
  ∃ l', layout_variable r v l st = (Ok l', st) ∧
    opt_device (dl_options l') = Some (t_device t) ∧
    opt_dtype (dl_options l') = Some (t_dtype t) ∧
    lengths (dl_replica l') = lengths (dl_replica l) ++ [numel t].
Proof.
  intros Hrow Ht Hd Hdt. unfold layout_variable. run_step.
  erewrite bind_run by (unfold lift; rewrite (at_lookup _ _ _ Hrow); reflexivity).
  cbv beta. rewrite bool_decide_eq_true_2 by (by eapply lookup_lt_Some). run_step.
  erewrite bind_run by (unfold lift; rewrite (at_lookup _ _ _ Ht); reflexivity).
  cbv beta.
  destruct (opt_device (dl_options l)) as [d|] eqn:Ed;
    destruct (opt_dtype (dl_options l)) as [dt|] eqn:Edt.
  - rewrite (bool_decide_eq_true_2 _ (Hd _ eq_refl)),
            (bool_decide_eq_true_2 _ (Hdt _ eq_refl)).
    eexists. split; [reflexivity|]. simpl.
    by rewrite (Hd _ eq_refl), (Hdt _ eq_refl).
  - rewrite (bool_decide_eq_true_2 _ (Hd _ eq_refl)).
    eexists. split; [reflexivity|]. simpl. by rewrite (Hd _ eq_refl).
  - rewrite (bool_decide_eq_true_2 _ (Hdt _ eq_refl)).
    eexists. split; [reflexivity|]. simpl. by rewrite (Hdt _ eq_refl).
  - eexists. split; [reflexivity|]. done.
Qed.

Lemma layout_variables_run r row st d dt :
  replicas_ st !! r = Some row →
  ∀ indices ts, Forall2 (λ v t, row !! v = Some t) indices ts →
  Forall (λ t, t_device t = d ∧ t_dtype t = dt) ts →
  ∀ l, (∀ d', opt_device (dl_options l) = Some d' → d' = d) →
       (∀ dt', opt_dtype (dl_options l) = Some dt' → dt' = dt) →
  ∃ l', foldM (layout_variable r) indices l st = (Ok l', st) ∧
        lengths (dl_replica l') = lengths (dl_replica l) ++ (numel <$> ts).
Proof.
  intros Hrow indices ts Hall. induction Hall as [|v t indices ts Hv _ IH];
    intros Hsame l Hd Hdt.
  - exists l. by rewrite app_nil_r.
  - apply Forall_cons in Hsame as [[Hdev Hty] Hsame].
    destruct (layout_variable_run r v l st row t Hrow Hv) as (l1 & Hrun & Hd1 & Hdt1 & Hlen1).
    { intros d' Hd'. rewrite Hdev. symmetry. by apply Hd. }
    { intros dt' Hdt'. rewrite Hty. symmetry. by apply Hdt. }
    destruct (IH Hsame l1) as (l' & Hrest & Hlen).
    { intros d' Hd'. rewrite Hd1 in Hd'. congruence. }
    { intros dt' Hdt'. rewrite Hdt1 in Hdt'. congruence. }
    exists l'. simpl. rewrite (bind_run _ _ _ _ _ Hrun). split; [done|].
    by rewrite Hlen, Hlen1, <- (assoc_L (++)).
Qed.

Lemma sum_list_cons (x : nat) l : sum_list (x :: l) = x + sum_list l.
Proof. done. Qed.

Lemma prefix_sums_lookup lens : ∀ start i len,
  lens !! i = Some len →
  ∃ off, prefix_sums start lens !! i = Some off ∧ off + len ≤ start + sum_list lens.
Proof.
  induction lens as [|x lens IH]; intros start i len Hi; [done|].
  rewrite sum_list_cons. destruct i as [|i]; simpl in *.
  - injection Hi as ->. exists start. split; [done|lia].
  - destruct (IH (start + x) i len Hi) as (off & Hoff & Hle). exists off.
    split; [done|lia].
Qed.

Lemma length_prefix_sums lens : ∀ start, length (prefix_sums start lens) = length lens.
Proof. induction lens as [|x lens IH]; intros start; simpl; [done|]. by rewrite IH. Qed.

Lemma initialize_replica_runs sparse indices r st row grow ts d dt :
  replicas_ st !! r = Some row →
  grads st !! r = Some grow → length grow = length row →
  Forall2 (λ v t, row !! v = Some t) indices ts →
  Forall (λ t, t_device t = d ∧ t_dtype t = dt) ts →
  (sparse = true → length indices = 1) →
  runs (initialize_replica sparse indices r) st (λ rep s,
    (variables rep = (λ v, {| replica_index := r; variable_index := v |}) <$> indices ∧
     (sparse = false →
        is_Some (contents rep) ∧ length (offsets rep) = length indices ∧
        length (lengths rep) = length indices ∧
        length (bucket_views rep) = length indices)) ∧
    init_frame st s).
Proof.
  intros Hrow Hgrow Hglen Hts Hsame Hsparse.
  apply runs_keeps; [apply keeps_init_initialize_replica|].
  unfold initialize_replica. destruct sparse.
  - destruct indices as [|v [|? ?]]; [by specialize (Hsparse eq_refl)| |
      by specialize (Hsparse eq_refl)].
    apply Forall2_cons_inv_l in Hts as (t & ts' & Ht & _ & ->).
    unfold variable_at. runs_step. runs_step; [done|].
    runs_step. runs_step. runs_step. runs_step.
    { cbn [replica_index variable_index]. rewrite (at_lookup _ _ _ Hrow). simpl.
      by apply at_lookup. }
    runs_step. runs_step; [done|]. runs_step. done.
  - destruct (layout_variables_run r row st d dt Hrow indices ts Hts Hsame
                {| dl_options := TensorOptions_new; dl_offset := 0;
                   dl_replica := BucketReplica_new |})
      as (l & Hrun & Hlens); [done..|].
    pose proof Hrun as Hfacts.
    apply layout_variables_ok in Hfacts
      as (_ & lens & Hlen & Hoff & Hc & Hbv & Hv & Ho & Hl).
    simpl in Hlens, Hoff, Hc, Hbv, Hv, Ho, Hl. rewrite Hl in Hlens. subst lens.
    rewrite length_fmap in Hlen.
    apply runs_bind. exists l, st. split; [done|].
    runs_step. runs_step. unfold at_empty.
    set (c := {| t_storage := length (storages st); t_offset := 0;
                 t_sizes := [dl_offset l]; t_strides := [1];
                 t_dtype := default Float (opt_dtype (dl_options l));
                 t_device := default {| dev_type := CPU; dev_index := 0 |}
                               (opt_device (dl_options l));
                 t_layout := Strided;
                 t_element_size := opt_element_size (dl_options l);
                 t_non_overlapping_and_dense := true |}).
    runs_step. runs_step. apply runs_post.
    + apply initialize_bucket_views_runs. intros i Hi.
      cbn [variables set_contents] in Hi. rewrite Hv, length_fmap in Hi.
      destruct (lookup_lt_is_Some_2 indices i Hi) as [v Hvi].
      destruct (Forall2_lookup_l _ _ _ _ _ Hts Hvi) as (t & Hti & Hrt).
      destruct (prefix_sums_lookup (numel <$> ts) 0 i (numel t)) as (off & Hoffi & Hle).
      { by rewrite list_lookup_fmap, Hti. }
      exists {| replica_index := r; variable_index := v |}, row, t, off, (numel t), grow.
      cbn [variables offsets lengths set_contents replica_index variable_index
           replicas_ grads set_storages].
      rewrite Hv, Ho, Hl, list_lookup_fmap, Hvi, list_lookup_fmap, Hti.
      split_and!; try done.
      * intros _. split; [|done]. unfold numel at 2. simpl. lia.
      * rewrite Hglen. by eapply lookup_lt_Some.
    + intros rep s Hviews.
      apply initialize_bucket_views_ok in Hviews as ((views & -> & _ & Hn) & _).
      cbn [variables offsets lengths contents bucket_views set_contents set_bucket_views]
        in *.
      rewrite Hv, Ho, Hl, Hbv, length_prefix_sums, !length_fmap, Hlen.
      rewrite Hv, length_fmap in Hn. split; [done|]. intros _.
      split_and!; done.
Qed.

Lemma runs_also {A} (m : M A) st (Q Q' : A → Reducer → Prop) :
  runs m st Q → (∀ a s, m st = (Ok a, s) → Q' a s) → runs m st (λ a s, Q a s ∧ Q' a s).
Proof. intros (a & s & Hm & HQ) H. exists a, s. eauto. Qed.

Lemma seq_middle_index n done (r : nat) rest : seq 0 n = done ++ r :: rest → r = length done.
Proof.
  intros Hseq. assert (seq 0 n !! length done = Some r) as Hr.
  { rewrite Hseq. by rewrite lookup_app_r, Nat.sub_diag by done. }
  apply lookup_seq in Hr. lia.
Qed.

Lemma bucket_expects_sparse_runs indices st flags0 :
  expect_sparse_gradients_ st !! 0 = Some flags0 →
  (∀ v, v ∈ indices →
     ∃ f, flags0 !! v = Some f ∧ (1 < length indices → f = false)) →
  runs (bucket_expects_sparse indices) st
    (λ sparse s, s = st ∧ (sparse = true → length indices = 1)).
Proof.
  intros Hflags Hin. unfold bucket_expects_sparse.
  runs_step. runs_step. runs_step. runs_step; [by apply at_lookup|].
  assert (∀ l, (∀ v, v ∈ l → flags0 !! v = Some false) →
    runs (for_each l (λ variable_index,
            flag ← lift (at_ flags0 variable_index);
            TORCH_CHECK (negb flag)
              "Buckets with more than one variable cannot include variables that expect a sparse gradient.");;
          mret false) st (λ sparse s, s = st ∧ (sparse = true → length indices = 1)))
    as Hloop.
  { intros l Hl. runs_step. eapply runs_mono.
    - apply (runs_for_each _ (λ _ s, s = st) l) with (done := []); [|done..].
      intros done v rest s -> ->. runs_step. runs_step.
      { apply at_lookup, Hl. rewrite elem_of_app, elem_of_cons. tauto. }
      by runs_step.
    - intros _ s ->. by runs_step. }
  destruct indices as [|v [|w rest]].
  - apply Hloop. by intros v ?%elem_of_nil.
  - destruct (Hin v) as (f & Hf & _); [by left|].
    runs_step; [by apply at_lookup|]. done.
  - apply Hloop. intros x Hx. destruct (Hin x Hx) as (f & Hf & Hfalse).
    rewrite Hf, Hfalse; [done|]. simpl. lia.
Qed.

Lemma map_variables_runs b indices st :
  (∀ v, v ∈ indices → v < length (variable_locators_ st)) →
  runs (map_variables b indices) st (λ _ _, True).
Proof.
  intros Hin. unfold map_variables. runs_step. eapply runs_mono.
  - apply (runs_foldM _
      (λ _ (_ : nat) s, length (variable_locators_ s) = length (variable_locators_ st))
      indices) with (done := []); [|done..].
    intros done v rest j s -> Hlen. runs_step. runs_step. runs_step. runs_step.
    { apply bool_decide_eq_true_2. rewrite Hlen. apply Hin.
      rewrite elem_of_app, elem_of_cons. tauto. }
    runs_step. runs_step. runs_step. simpl. by rewrite length_insert.
  - intros ? ? _. by runs_step.
Qed.

Lemma initialize_bucket_runs b indices st :
  bucket_legal st indices →
  runs (initialize_bucket b indices) st (λ _ s,
    (∃ bkt, buckets_ s = buckets_ st ++ [bkt] ∧
            bucket_built (length (replicas_ st)) indices bkt) ∧
    init_frame st s).
Proof.
  intros (Hne & (flags0 & Hflags & Hf) & Hloc & Hrows).
  apply runs_keeps; [apply keeps_init_initialize_bucket|].
  unfold initialize_bucket. runs_step. runs_step.
  { apply bool_decide_eq_true_2. destruct indices; [done|]. simpl. lia. }
  runs_step. eapply runs_mono; [by eapply bucket_expects_sparse_runs|].
  intros sparse ? [-> Hsparse]. runs_step. runs_step. runs_step.
  set (built := λ r rep,
    variables rep = (λ v, {| replica_index := r; variable_index := v |}) <$> indices ∧
    (sparse = false →
       is_Some (contents rep) ∧ length (offsets rep) = length indices ∧
       length (lengths rep) = length indices ∧
       length (bucket_views rep) = length indices)).
  eapply runs_mono.
  - apply (runs_foldM _
      (λ done reps s, init_frame st s ∧ buckets_ s = buckets_ st ∧
         length reps = length done ∧
         ∀ r rep, reps !! r = Some rep → built r rep)
      (seq 0 (length (replicas_ st)))) with (done := []); [|done|].
    + intros done r rest reps s Hfull (Hframe & Hbuckets & Hlen & Hreps).
      assert (r < length (replicas_ st)) as Hr.
      { assert (r ∈ seq 0 (length (replicas_ st))) as Hin
          by (rewrite Hfull, elem_of_app, elem_of_cons; tauto).
        apply elem_of_seq in Hin. lia. }
      apply seq_middle_index in Hfull as ->.
      destruct (lookup_lt_is_Some_2 _ _ Hr) as [row Hrow].
      destruct (Hrows _ row Hrow) as ((grow & Hgrow & Hglen) & ts & d & dt & Hts & Hsame).
      destruct (init_frame_grads _ _ _ _ Hframe Hgrow) as (grow' & Hgrow' & Hglen').
      runs_step. eapply runs_mono.
      * apply runs_also.
        -- apply (initialize_replica_runs sparse indices (length done) s row grow' ts d dt);
             [by rewrite (if_replicas _ _ Hframe)|done|congruence|done..].
        -- intros rep s' Hrun. apply initialize_replica_ok in Hrun as (_ & Hb & _).
           exact Hb.
      * intros rep s' [[Hrep Hframe'] Hb]. runs_step. split_and!.
        -- by etrans.
        -- congruence.
        -- rewrite !length_app. simpl. lia.
        -- intros r' rep' Hr'. apply lookup_app_Some in Hr' as [Hr'|[Hge Hr']].
           ++ by apply Hreps.
           ++ rewrite Hlen in Hr', Hge.
              destruct (r' - length done) as [|k] eqn:Ek; simpl in Hr'; [|done].
              injection Hr' as <-. replace r' with (length done) by lia. exact Hrep.
    + split_and!; done.
  - intros reps s (Hframe & Hbuckets & Hlen & Hreps). runs_step. eapply runs_mono.
    + apply runs_also.
      * apply map_variables_runs. intros v Hv. rewrite (if_locators _ _ Hframe).
        by apply Hloc.
      * intros u s' Hrun. apply map_variables_ok in Hrun as (Hb & _). exact Hb.
    + intros _ s' [_ Hb]. runs_step. simpl. eexists. split; [by rewrite Hb, Hbuckets|].
      unfold bucket_built. simpl. rewrite Hlen, length_seq. split_and!; try done.
      intros r rep Hr. destruct (Hreps r rep Hr) as [Hvars Hdense].
      split; [done|]. destruct sparse; [by apply Hsparse|by apply Hdense].
Qed.

Lemma bucket_legal_frame st s indices :
  init_frame st s → bucket_legal st indices → bucket_legal s indices.
Proof.
  intros Hf (Hne & Hflags & Hloc & Hrows). split_and!.
  - done.
  - by rewrite (if_flags _ _ Hf).
  - by rewrite (if_locators _ _ Hf).
  - rewrite (if_replicas _ _ Hf). intros r row Hrow.
    destruct (Hrows r row Hrow) as ((grow & Hgrow & Hglen) & Hts). split; [|done].
    destruct (init_frame_grads _ _ _ _ Hf Hgrow) as (grow' & Hgrow' & Hglen').
    exists grow'. split; [done|congruence].
Qed.

Lemma lookup_all {A} (row : list A) (indices : list nat) :
  (∀ v, v ∈ indices → v < length row) →
  ∃ ts, Forall2 (λ v t, row !! v = Some t) indices ts.
Proof.
  induction indices as [|v indices IH]; intros Hin; [by exists []|].
  destruct (lookup_lt_is_Some_2 row v) as [t Ht]; [apply Hin; by left|].
  destruct IH as [ts Hts]; [intros w Hw; apply Hin; by right|].
  exists (t :: ts). by constructor.
Qed.

Lemma same_shape {A B} (l1 : list (list A)) (l2 : list (list B)) n :
  length <$> l1 = length <$> l2 → Forall (λ row, length row = n) l2 →
  length l1 = length l2 ∧ Forall (λ row, length row = n) l1.
Proof.
  intros Heq Hall. split.
  - apply (f_equal length) in Heq. by rewrite !length_fmap in Heq.
  - apply (Forall_fmap length (λ k, k = n)). rewrite Heq.
    by apply (Forall_fmap length (λ k, k = n)).
Qed.

Lemma initialize_buckets_runs bucket_indices st row0 flags0 :
  expect_autograd_hooks_ st = false →
  replicas_ st !! 0 = Some row0 →
  Forall (λ row, length row = length row0) (replicas_ st) →
  length <$> grads st = length <$> replicas_ st →
  expect_sparse_gradients_ st !! 0 = Some flags0 → length flags0 = length row0 →
  (∀ v, v ∈ concat bucket_indices → v < length row0) →
  Forall (λ indices, indices ≠ [] ∧
            (1 < length indices → ∀ v, v ∈ indices → flags0 !! v = Some false))
         bucket_indices →
  (∀ indices row v w t u, indices ∈ bucket_indices → row ∈ replicas_ st →
     v ∈ indices → w ∈ indices → row !! v = Some t → row !! w = Some u →
     t_device t = t_device u ∧ t_dtype t = t_dtype u) →
  runs (initialize_buckets bucket_indices) st (λ _ s,
    init_frame
      (set_variable_locators_
         (replicate (length row0) {| bucket_index := 0; intra_bucket_index := 0 |})
         (set_buckets_ [] st)) s ∧
    Forall2 (bucket_built (length (replicas_ st))) bucket_indices (buckets_ s) ∧
    ∀ p, p ∈ concat bucket_indices →
      ∃ loc ind, variable_locators_ s !! p = Some loc ∧
        bucket_indices !! bucket_index loc = Some ind ∧
        ind !! intra_bucket_index loc = Some p).
Proof.
  intros Hhooks Hrow0 Hrows Hgrads Hflags Hflen Hrange Hbuckets Hsame.
  unfold initialize_buckets. runs_step. runs_step. rewrite Hhooks.
  runs_step. runs_step; [done|]. runs_step. runs_step. runs_step. runs_step.
  runs_step. runs_step; [by apply at_lookup|]. runs_step. runs_step.
  set (s0 := set_variable_locators_ _ _).
  assert (∀ indices, indices ∈ bucket_indices → bucket_legal s0 indices) as Hlegal.
  { intros indices Hin. rewrite Forall_forall in Hbuckets.
    destruct (Hbuckets indices Hin) as [Hne Hdense].
    assert (∀ v, v ∈ indices → v < length row0) as Hlt.
    { intros v Hv. apply Hrange. apply list_elem_of_In, in_concat.
      exists indices. by rewrite <- !list_elem_of_In. }
    split_and!.
    - done.
    - exists flags0. split; [done|]. intros v Hv.
      destruct (lookup_lt_is_Some_2 flags0 v) as [f Hf];
        [rewrite Hflen; by apply Hlt|].
      exists f. split; [done|]. intros Hlen. specialize (Hdense Hlen v Hv). congruence.
    - intros v Hv. unfold s0. simpl. rewrite length_replicate. by apply Hlt.
    - intros r row Hrow. change (replicas_ s0) with (replicas_ st) in Hrow.
      change (grads s0) with (grads st).
      assert (length row = length row0) as Hlen.
      { rewrite Forall_forall in Hrows. apply Hrows. by eapply list_elem_of_lookup_2. }
      split.
      + apply (f_equal (.!! r)) in Hgrads. rewrite !list_lookup_fmap, Hrow in Hgrads.
        destruct (grads st !! r) as [grow|]; [|done]. injection Hgrads as Hg. eauto.
      + destruct (lookup_all row indices) as [ts Hts];
          [intros v Hv; rewrite Hlen; by apply Hlt|].
        destruct indices as [|v0 indices']; [done|].
        pose proof Hts as Hts'.
        apply Forall2_cons_inv_l in Hts' as (t0 & ts' & Ht0 & _ & Hts').
        exists ts, (t_device t0), (t_dtype t0). split; [done|].
        apply Forall_forall. intros t Ht.
        apply list_elem_of_lookup_1 in Ht as [i Hi].
        destruct (Forall2_lookup_r _ _ _ _ _ Hts Hi) as (v & Hv & Hvt).
        apply (Hsame (v0 :: indices') row v v0 t t0); try done.
        * by eapply list_elem_of_lookup_2.
        * by eapply list_elem_of_lookup_2.
        * by left. }
  set (full := imap (λ i indices, (i, indices)) bucket_indices).
  assert (snd <$> full = bucket_indices) as Hfull by apply imap_pair_snd.
  eapply runs_mono.
  - apply (runs_for_each _
      (λ done s, init_frame s0 s ∧
         Forall2 (λ p bkt, bucket_built (length (replicas_ st)) p.2 bkt) done (buckets_ s) ∧
         ∀ p, p ∈ concat (snd <$> done) →
           ∃ loc ind, variable_locators_ s !! p = Some loc ∧
             (snd <$> done) !! bucket_index loc = Some ind ∧
             ind !! intra_bucket_index loc = Some p)
      full) with (done := []); [|done|].
    + intros done [i indices] rest s Hsplit (Hframe & Hbuilt & Hloc).
      assert (full !! length done = Some (i, indices)) as Hlook.
      { rewrite Hsplit. by rewrite lookup_app_r, Nat.sub_diag by done. }
      apply imap_pair_lookup in Hlook as [Hi Hind]. simpl in Hi, Hind. subst i.
      assert (bucket_legal s indices) as Hleg.
      { apply (bucket_legal_frame s0); [done|]. apply Hlegal.
        by eapply list_elem_of_lookup_2. }
      eapply runs_mono.
      * apply runs_also; [by apply initialize_bucket_runs|].
        intros u s' Hrun. apply initialize_bucket_ok in Hrun as (_ & _ & Hloc').
        exact Hloc'.
      * intros _ s' [[(bkt & Hb & Hbkt) Hframe'] Hloc']. cbn [fst snd] in *.
        split_and!.
        -- by etrans.
        -- rewrite Hb. apply Forall2_app; [done|]. constructor; [|done].
           by rewrite (if_replicas _ _ Hframe) in Hbkt.
        -- intros p Hp. rewrite fmap_app, concat_app in Hp. simpl in Hp.
           rewrite app_nil_r in Hp.
           destruct (decide (p ∈ indices)) as [Hin|Hnin].
           ++ destruct (proj1 (Hloc' p) Hin) as (j & Hj & Hij).
              eexists _, indices. split; [done|]. simpl. split; [|done].
              rewrite fmap_app. simpl.
              by rewrite lookup_app_r, length_fmap, Nat.sub_diag
                by (by rewrite length_fmap).
           ++ apply elem_of_app in Hp as [Hp|Hp]; [|done].
              destruct (Hloc p Hp) as (loc & ind & Hl & Hind' & Hpi).
              exists loc, ind. rewrite (proj2 (Hloc' p) Hnin). split; [done|].
              split; [|done]. rewrite fmap_app. by apply lookup_app_l_Some.
    + split_and!; [done|by constructor|]. intros p Hp. by apply elem_of_nil in Hp.
  - intros _ s (Hframe & Hbuilt & Hloc). rewrite Hfull in Hloc.
    split_and!.
    + done.
    + rewrite <- Hfull. by apply Forall2_fmap_l.
    + done.
Qed.

Lemma layout_ok_intro bucket_indices st row0 :
  replicas_ st !! 0 = Some row0 →
  Forall (λ row, length row = length row0) (replicas_ st) →
  length <$> grads st = length <$> replicas_ st →
  length <$> backward_stats_ st = length <$> replicas_ st →
  length (variable_locators_ st) = length row0 →
  concat bucket_indices ≡ₚ seq 0 (length row0) →
  Forall (λ indices, indices ≠ []) bucket_indices →
  Forall2 (bucket_built (length (replicas_ st))) bucket_indices (buckets_ st) →
  (∀ p, p ∈ concat bucket_indices →
     ∃ loc ind, variable_locators_ st !! p = Some loc ∧
       bucket_indices !! bucket_index loc = Some ind ∧
       ind !! intra_bucket_index loc = Some p) →
  layout_ok st ∧ variable_indices <$> buckets_ st = bucket_indices.
Proof.
  intros Hrow0 Hrows Hgrads Hstats Hlen Hperm Hne Hbuilt Hloc.
  assert (variable_indices <$> buckets_ st = bucket_indices) as Hvi.
  { clear -Hbuilt. induction Hbuilt as [|ind bkt inds bkts [Hi _] _ IH]; [done|].
    rewrite fmap_cons. by f_equal. }
  split; [|done].
  destruct (same_shape (grads st) (replicas_ st) (length row0)) as [Hgl Hgr];
    [done..|].
  destruct (same_shape (backward_stats_ st) (replicas_ st) (length row0)) as [Hsl Hsr];
    [done..|].
  split.
  - by eapply lookup_lt_Some.
  - by rewrite Hlen.
  - by rewrite Hlen.
  - by rewrite Hlen.
  - by rewrite Hvi, Hlen.
  - intros v loc Hv.
    destruct (Hloc v) as (loc' & ind & Hl & Hind & Hp).
    { rewrite Hperm. apply elem_of_seq. apply lookup_lt_Some in Hv. lia. }
    rewrite Hv in Hl. injection Hl as <-.
    rewrite <- Hvi, list_lookup_fmap in Hind.
    destruct (buckets_ st !! bucket_index loc) as [bkt|]; [|done].
    injection Hind as <-. eauto.
  - intros b bkt Hb.
    destruct (Forall2_lookup_r _ _ _ _ _ Hbuilt Hb) as (ind & Hind & Hi & Hn & Hreps).
    rewrite Hi. split_and!.
    + rewrite Forall_forall in Hne. apply Hne. by eapply list_elem_of_lookup_2.
    + done.
    + done.
Qed.

Lemma initialize_buckets_legal bucket_indices st row0 flags0 :
  expect_autograd_hooks_ st = false →
  replicas_ st !! 0 = Some row0 →
  Forall (λ row, length row = length row0) (replicas_ st) →
  length <$> grads st = length <$> replicas_ st →
  length <$> backward_stats_ st = length <$> replicas_ st →
  expect_sparse_gradients_ st !! 0 = Some flags0 → length flags0 = length row0 →
  concat bucket_indices ≡ₚ seq 0 (length row0) →
  Forall (λ indices, indices ≠ [] ∧
            (1 < length indices → ∀ v, v ∈ indices → flags0 !! v = Some false))
         bucket_indices →
  (∀ indices row v w t u, indices ∈ bucket_indices → row ∈ replicas_ st →
     v ∈ indices → w ∈ indices → row !! v = Some t → row !! w = Some u →
     t_device t = t_device u ∧ t_dtype t = t_dtype u) →
  ∃ st', initialize_buckets bucket_indices st = (Ok tt, st') ∧ layout_ok st' ∧
         variable_indices <$> buckets_ st' = bucket_indices ∧
         init_frame
           (set_variable_locators_
              (replicate (length row0) {| bucket_index := 0; intra_bucket_index := 0 |})
              (set_buckets_ [] st)) st'.
Proof.
  intros Hhooks Hrow0 Hrows Hgrads Hstats Hflags Hflen Hperm Hbuckets Hsame.
  destruct (initialize_buckets_runs bucket_indices st row0 flags0)
    as ([] & st' & Hrun & Hframe & Hbuilt & Hloc); try done.
  { intros v Hv. rewrite Hperm in Hv. apply elem_of_seq in Hv. lia. }
  pose proof (if_replicas _ _ Hframe) as Hrep. pose proof (if_stats _ _ Hframe) as Hst.
  pose proof (if_grads _ _ Hframe) as Hg. pose proof (if_locators _ _ Hframe) as Hlen.
  simpl in Hrep, Hst, Hg, Hlen. rewrite length_replicate in Hlen.
  exists st'. split; [done|].
  destruct (layout_ok_intro bucket_indices st' row0) as [Hlayout Hvi];
    rewrite ?Hrep, ?Hst, ?Hg; try done.
  eapply Forall_impl; [done|]. by intros indices [? _].
Qed.

(** X13. Outside a backward pass, [initialize_buckets] returns on bucket
    indices that split the parameter indices of the model into buckets that
    are not empty, when all replicas have as many parameters as replica 0,
    the rows of gradients and of backward statistics are shaped like the
    replicas, replica 0 has one sparse flag per parameter, a bucket of
    several parameters holds none that expects a sparse gradient, and in
    every replica the parameters of one bucket agree in device and dtype.
    The reducer it leaves is laid out as a backward pass needs it, with one
    bucket per list of indices. *)
Theorem initialize_buckets_accepts bucket_indices st row0 flags0 :
  expect_autograd_hooks_ st = false →
  replicas_ st !! 0 = Some row0 →
  Forall (λ row, length row = length row0) (replicas_ st) →
  length <$> grads st = length <$> replicas_ st →
  length <$> backward_stats_ st = length <$> replicas_ st →
  expect_sparse_gradients_ st !! 0 = Some flags0 → length flags0 = length row0 →
  concat bucket_indices ≡ₚ seq 0 (length row0) →
  Forall (λ indices, indices ≠ [] ∧
            (1 < length indices → ∀ v, v ∈ indices → flags0 !! v = Some false))
         bucket_indices →
  (∀ indices row v w t u, indices ∈ bucket_indices → row ∈ replicas_ st →
     v ∈ indices → w ∈ indices → row !! v = Some t → row !! w = Some u →
     t_device t = t_device u ∧ t_dtype t = t_dtype u) →
  ∃ st', initialize_buckets bucket_indices st = (Ok tt, st') ∧ layout_ok st' ∧
         variable_indices <$> buckets_ st' = bucket_indices.
Proof.
  intros Hhooks Hrow0 Hrows Hgrads Hstats Hflags Hflen Hperm Hbuckets Hsame.
  destruct (initialize_buckets_legal bucket_indices st row0 flags0)
    as (st' & Hrun & Hlayout & Hvi & _); try done.
  by exists st'.
Qed.

Lemma initialize_buckets_accepts_witness :
  ∃ st', initialize_buckets [[1]; [0]] sample_reducer = (Ok tt, st') ∧ layout_ok st' ∧
         variable_indices <$> buckets_ st' = [[1]; [0]].
Proof.
  apply (initialize_buckets_accepts [[1]; [0]] sample_reducer
           [sample_vector 0; sample_vector 1] [false; false]).
  - reflexivity.
  - reflexivity.
  - repeat constructor.
  - reflexivity.
  - reflexivity.
  - reflexivity.
  - reflexivity.
  - simpl. apply perm_swap.
  - repeat constructor; try discriminate; simpl; lia.
  - intros indices row v w t u Hi Hrow Hv Hw Ht Hu.
    apply list_elem_of_singleton in Hrow as ->.
    assert (∀ x y, [sample_vector 0; sample_vector 1] !! x = Some y →
              t_device y = cpu0 ∧ t_dtype y = Float) as Hall.
    { intros [|[|x]] y [=]; by subst. }
    destruct (Hall _ _ Ht) as [-> ->]. by destruct (Hall _ _ Hu) as [-> ->].
Defined.

(** ** [rebuild_buckets] *)

Lemma compute_bucket_assignment_explicit rank tensors limits flags tidx :
  tensors ≠ [] → limits ≠ [] → tidx ≠ [] →
  (flags = [] ∨ length flags = length tensors) →
  Forall (λ t, is_sparse t = false) tensors →
  explicit_indices_ok tensors flags tidx →
  ∃ buckets,
    compute_bucket_assignment_by_size rank tensors limits flags tidx = Ok buckets ∧
    is_bucket_assignment tensors flags tidx buckets.
Proof.
  intros Hne Hl Ht Hf Hd Hidx.
  destruct (explicit_indices_ok_facts _ _ _ Hf Hidx) as (Hi & Hin & Hnd).
  destruct (assign_loop_inv limits flags tidx tensors Hl Hd Hi Hin) as (st & Hst & Hinv).
  rewrite (compute_bucket_assignment_unfold _ _ _ _ _ _ Hne Hf Hst).
  eexists. split; [done|].
  pose proof (assign_inv_assignment rank _ _ _ _ _ Hnd Hinv) as Hprops.
  simpl. by destruct tidx.
Qed.

Lemma recorded_indices_small (vs : list nat) n :
  (Z.of_nat n < 2 ^ 31)%Z → Forall (λ v, v < n) vs →
  Z.to_nat ∘ to_size_t <$> (Z.of_nat <$> vs) = vs.
Proof.
  intros Hn Hvs. induction Hvs as [|v vs Hv _ IH]; [done|].
  rewrite !fmap_cons, IH. f_equal. simpl.
  change (to_size_t (Z.of_nat v)) with (int32_to_size_t (Z.of_nat v)).
  rewrite int32_to_size_t_small by lia. lia.
Qed.

Lemma bucket_length_le (buckets : list (list nat)) b :
  b ∈ buckets → length b ≤ length (concat buckets).
Proof.
  induction buckets as [|c buckets IH]; intros Hb; [by apply elem_of_nil in Hb|].
  simpl. rewrite length_app. apply elem_of_cons in Hb as [->|Hb]; [lia|].
  specialize (IH Hb). lia.
Qed.

Lemma bucket_count_le (buckets : list (list nat)) :
  Forall (λ b, b ≠ []) buckets → length buckets ≤ length (concat buckets).
Proof.
  induction 1 as [|b buckets Hb _ IH]; [done|].
  simpl. rewrite length_app. destruct b; [done|]. simpl. lia.
Qed.

Lemma fits_int32_of_nat (buckets : list (list nat)) n :
  (Z.of_nat n < 2 ^ 31)%Z →
  Forall (λ b, b ≠ []) buckets → concat buckets ≡ₚ seq 0 n →
  fits_int32 (fmap (M:=list) Z.of_nat <$> buckets).
Proof.
  intros Hn Hne Hperm.
  assert (length (concat buckets) = n) as Hlen by by rewrite Hperm, length_seq.
  split_and!.
  - rewrite <- Hlen in Hn. clear -Hn.
    assert (length (concat (fmap (M:=list) Z.of_nat <$> buckets)) =
            length (concat buckets)) as ->; [|done].
    induction buckets as [|b buckets IH]; [done|].
    rewrite fmap_cons. simpl. rewrite !length_app, length_fmap. f_equal. apply IH.
    simpl in Hn. rewrite length_app in Hn. lia.
  - rewrite length_fmap. pose proof (bucket_count_le _ Hne). lia.
  - apply Forall_fmap, Forall_forall. intros b Hb. simpl. split.
    + rewrite length_fmap. pose proof (bucket_length_le _ _ Hb). lia.
    + apply Forall_fmap, Forall_forall. intros v Hv. simpl.
      assert (v ∈ seq 0 n) as Hin.
      { rewrite <- Hperm. apply list_elem_of_In, in_concat.
        exists b. by rewrite <- !list_elem_of_In. }
      apply elem_of_seq in Hin. lia.
Qed.

Lemma to_nat_of_nat_buckets (buckets : list (list nat)) :
  fmap (M:=list) Z.to_nat <$> (fmap (M:=list) Z.of_nat <$> buckets) = buckets.
Proof.
  induction buckets as [|b buckets IH]; [done|].
  rewrite !fmap_cons, IH. f_equal. rewrite <- list_fmap_compose.
  rewrite <- (list_fmap_id b) at 2. apply list_fmap_ext. intros _ v _. simpl. lia.
Qed.

Lemma intended_index_recorded (vs : list nat) n i v :
  (Z.of_nat n < 2 ^ 31)%Z → v < n → vs !! i = Some v →
  intended_index (Z.of_nat <$> vs) i = v.
Proof.
  intros Hn Hv Hi. unfold intended_index.
  destruct (Z.of_nat <$> vs) as [|z zs] eqn:E.
  - apply fmap_nil_inv in E. by subst.
  - rewrite <- E, list_lookup_fmap, Hi. simpl.
    change (to_size_t (Z.of_nat v)) with (int32_to_size_t (Z.of_nat v)).
    rewrite int32_to_size_t_small by lia. lia.
Qed.

Lemma rebuild_buckets_runs rank first cap st row0 flags0 vs :
  expect_autograd_hooks_ st = false →
  replicas_ st !! 0 = Some row0 → row0 ≠ [] →
  Forall (λ row, length row = length row0) (replicas_ st) →
  length <$> grads st = length <$> replicas_ st →
  length <$> backward_stats_ st = length <$> replicas_ st →
  expect_sparse_gradients_ st !! 0 = Some flags0 → length flags0 = length row0 →
  (Z.of_nat (length row0) < 2 ^ 31)%Z →
  Forall (λ t, is_sparse t = false) row0 →
  (∀ row v w t0 u0 t u, row ∈ replicas_ st →
     row0 !! v = Some t0 → row0 !! w = Some u0 →
     t_dtype t0 = t_dtype u0 → t_device t0 = t_device u0 →
     row !! v = Some t → row !! w = Some u →
     t_device t = t_device u ∧ t_dtype t = t_dtype u) →
  vs ≡ₚ seq 0 (length row0) →
  rebuilt_param_indices_ st = Z.of_nat <$> vs →
  Forall2 (λ v t, row0 !! v = Some t) vs (rebuilt_params_ st) →
  ∃ buckets st',
    compute_bucket_assignment_by_size rank (rebuilt_params_ st) [first; cap] flags0
      (rebuilt_param_indices_ st) = Ok buckets ∧
    rebuild_buckets rank first cap broadcast_at_root broadcast_at_root st = (Ok tt, st') ∧
    layout_ok st' ∧ variable_indices <$> buckets_ st' = buckets ∧
    has_rebuilt_bucket_ st' = true ∧ rebuilt_params_ st' = [] ∧
    rebuilt_param_indices_ st' = [].
Proof.
  intros Hhooks Hrow0 Hne Hrows Hgrads Hstats Hflags Hflen Hn Hdense Hagree Hperm
    Hidx Hpar.
  set (n := length row0) in *.
  set (params := rebuilt_params_ st) in *.
  set (tidx := Z.of_nat <$> vs) in *.
  assert (Forall (λ v, v < n) vs) as Hlt.
  { apply Forall_forall. intros v Hv. rewrite Hperm in Hv.
    apply elem_of_seq in Hv. lia. }
  assert (length vs = n) as Hlen_vs by by rewrite Hperm, length_seq.
  assert (length params = n) as Hlen_params
    by by rewrite <- (Forall2_length _ _ _ Hpar).
  assert (0 < n) as Hpos by (unfold n; destruct row0; [done|simpl; lia]).
  assert (params ≠ []) as Hparams_ne by (intros E; rewrite E in Hlen_params; simpl in *; lia).
  assert (tidx ≠ []) as Htidx_ne.
  { intros E. apply fmap_nil_inv in E. rewrite E in Hlen_vs. simpl in *. lia. }
  assert (NoDup vs) as Hnd by (rewrite Hperm; apply NoDup_seq).
  assert (length tidx = n) as Hlen_tidx by (unfold tidx; by rewrite length_fmap).
  pose proof (recorded_indices_small vs n Hn Hlt) as Hsmall. fold tidx in Hsmall.
  destruct (compute_bucket_assignment_explicit rank params [first; cap] flags0 tidx)
    as (buckets & Hcomp & Hconcat & _ & Hbne & Hsparse & Hmix); try done.
  { right. congruence. }
  { apply Forall_forall. intros t Ht. apply list_elem_of_lookup_1 in Ht as [i Hi].
    destruct (Forall2_lookup_r _ _ _ _ _ Hpar Hi) as (v & _ & Hv).
    rewrite Forall_forall in Hdense. apply Hdense. by eapply list_elem_of_lookup_2. }
  { right. split; [unfold tidx; rewrite length_fmap; congruence|].
    split; [by rewrite Hsmall|]. intros _. unfold tidx.
    apply Forall_fmap, Forall_forall. intros v Hv. simpl.
    rewrite Forall_forall in Hlt. specialize (Hlt v Hv).
    change (to_size_t (Z.of_nat v)) with (int32_to_size_t (Z.of_nat v)).
    rewrite int32_to_size_t_small by lia. lia. }
  assert (intended_indices tidx (length params) = vs) as Hintended.
  { replace (length params) with (length tidx)
      by (unfold tidx; rewrite length_fmap; congruence).
    by rewrite intended_indices_explicit. }
  rewrite Hintended in Hconcat.
  assert (concat buckets ≡ₚ seq 0 n) as Hpart by by rewrite Hconcat.
  assert (NoDup (concat buckets)) as Hnd_buckets by (rewrite Hpart; apply NoDup_seq).
  assert (∀ b v, b ∈ buckets → v ∈ b →
            ∃ i t0, vs !! i = Some v ∧ v < n ∧ intended_index tidx i = v ∧
                    params !! i = Some t0 ∧ row0 !! v = Some t0) as Hpos_of.
  { intros b v Hb Hv.
    assert (v ∈ vs) as Hin.
    { rewrite <- Hconcat. apply list_elem_of_In, in_concat.
      exists b. by rewrite <- !list_elem_of_In. }
    apply list_elem_of_lookup_1 in Hin as [i Hi].
    destruct (Forall2_lookup_l _ _ _ _ _ Hpar Hi) as (t0 & Ht0 & Hrt0).
    assert (v < n) as Hvn by (by eapply lookup_lt_Some in Hrt0).
    exists i, t0. split_and!; try done. by eapply intended_index_recorded. }
  set (bi := fmap (M:=list) Z.of_nat <$> buckets).
  assert (fits_int32 bi) as Hfits by by eapply fits_int32_of_nat.
  assert (sync_bucket_indices broadcast_at_root broadcast_at_root bi = Ok bi) as Hsync.
  { eapply sync_bucket_indices_received; [done|done| | |done].
    - intros sent idx Hp. rewrite pack_indices_fits in Hp by done.
      by injection Hp as <- _.
    - by apply bucket_sizes_tensor_own. }
  set (s1 := set_rebuilt_param_indices_ []
               (set_rebuilt_params_ [] (set_has_rebuilt_bucket_ true st))).
  destruct (initialize_buckets_legal buckets s1 row0 flags0)
    as (st' & Hrun & Hlayout & Hvi & Hframe); try done.
  { apply Forall_forall. intros b Hb. rewrite Forall_forall in Hbne.
    split; [by apply Hbne|]. intros Hlen v Hv.
    destruct (Hpos_of b v Hb Hv) as (i & t0 & Hi & Hvn & Hii & Hpi & _).
    destruct (lookup_lt_is_Some_2 flags0 v) as [f Hf]; [lia|].
    destruct f; [|done]. exfalso.
    assert ([v] ∈ buckets) as Hsingle.
    { rewrite <- Hii. apply Hsparse; [by eapply lookup_lt_Some|].
      unfold sparse_flag. by rewrite Hii, Hf. }
    assert ([v] = b) as <-; [|simpl in Hlen; lia].
    apply (disjoint_buckets_eq buckets _ _ v); [done..|by left|done]. }
  { intros b row v w t u Hb Hrow Hv Hw Ht Hu.
    destruct (Hpos_of b v Hb Hv) as (i & t0 & Hi & _ & Hii & Hpi & Hrt0).
    destruct (Hpos_of b w Hb Hw) as (j & u0 & Hj & _ & Hjj & Hpj & Hru0).
    destruct (Hmix b i j t0 u0) as [Hdt Hdev]; try done; [congruence..|].
    by apply (Hagree row v w t0 u0 t u). }
  exists buckets, st'. split; [by rewrite Hidx|]. split.
  - unfold rebuild_buckets. run_step.
    rewrite (bool_decide_eq_false_2 (rebuilt_params_ st = [])) by done.
    run_step.
    rewrite (bool_decide_eq_true_2 (length (rebuilt_params_ st) =
                                    length (rebuilt_param_indices_ st)))
      by (rewrite Hidx; fold params; congruence).
    run_step. run_step.
    erewrite bind_run by (unfold lift; rewrite (at_lookup _ _ _ Hrow0); reflexivity).
    cbv beta.
    rewrite (bool_decide_eq_true_2 (length row0 = length (rebuilt_param_indices_ st)))
      by (rewrite Hidx; fold n; congruence).
    run_step. cbv zeta. run_step.
    erewrite bind_run by (unfold lift; rewrite (at_lookup _ _ _ Hflags); reflexivity).
    cbv beta.
    erewrite bind_run by (unfold lift; rewrite Hidx; fold params tidx; rewrite Hcomp;
                          reflexivity).
    cbv beta.
    erewrite bind_run by (unfold lift; fold bi; rewrite Hsync; reflexivity).
    cbv beta. do 3 run_step. unfold bi. rewrite to_nat_of_nat_buckets. exact Hrun.
  - split_and!; [done..| | |].
    + by rewrite (if_has_rebuilt _ _ Hframe).
    + by rewrite (if_rebuilt_params _ _ Hframe).
    + by rewrite (if_rebuilt_indices _ _ Hframe).
Qed.

(** X14. Outside a backward pass, on the rank that is the source of the
    broadcasts, [rebuild_buckets] returns when the hooks have recorded every
    parameter of replica 0 once (fewer than 2^31 parameters, all of dense
    layout) and the replicas are shaped alike and keep together, in device
    and dtype, the parameters that replica 0 keeps together. The buckets it
    leaves are those [compute_bucket_assignment_by_size] assigns to the
    recorded parameters in the recorded order, laid out as a backward pass
    needs them; [has_rebuilt_bucket_] is set, and any further
    [rebuild_buckets] returns without changing the reducer. *)
Theorem rebuild_buckets_from_recorded_order rank first cap st row0 flags0 vs :
  expect_autograd_hooks_ st = false →
  replicas_ st !! 0 = Some row0 → row0 ≠ [] →
  Forall (λ row, length row = length row0) (replicas_ st) →
  length <$> grads st = length <$> replicas_ st →
  length <$> backward_stats_ st = length <$> replicas_ st →
  expect_sparse_gradients_ st !! 0 = Some flags0 → length flags0 = length row0 →
  (Z.of_nat (length row0) < 2 ^ 31)%Z →
  Forall (λ t, is_sparse t = false) row0 →
  (∀ row v w t0 u0 t u, row ∈ replicas_ st →
     row0 !! v = Some t0 → row0 !! w = Some u0 →
     t_dtype t0 = t_dtype u0 → t_device t0 = t_device u0 →
     row !! v = Some t → row !! w = Some u →
     t_device t = t_device u ∧ t_dtype t = t_dtype u) →
  vs ≡ₚ seq 0 (length row0) →
  rebuilt_param_indices_ st = Z.of_nat <$> vs →
  Forall2 (λ v t, row0 !! v = Some t) vs (rebuilt_params_ st) →
  ∃ buckets st',
    compute_bucket_assignment_by_size rank (rebuilt_params_ st) [first; cap] flags0
      (rebuilt_param_indices_ st) = Ok buckets ∧
    rebuild_buckets rank first cap broadcast_at_root broadcast_at_root st = (Ok tt, st') ∧
    layout_ok st' ∧ variable_indices <$> buckets_ st' = buckets ∧
    has_rebuilt_bucket_ st' = true ∧
    ∀ rank' first' cap' broadcast_indices broadcast_sizes,
      rebuild_buckets rank' first' cap' broadcast_indices broadcast_sizes st' =
        (Ok tt, st').
Proof.
  intros Hhooks Hrow0 Hne Hrows Hgrads Hstats Hflags Hflen Hn Hdense Hagree Hperm
    Hidx Hpar.
  destruct (rebuild_buckets_runs rank first cap st row0 flags0 vs)
    as (buckets & st' & Hcomp & Hrun & Hlayout & Hvi & Hhas & Hparams & _); try done.
  exists buckets, st'. split_and!; try done.
  intros rank' first' cap' b1 b2. unfold rebuild_buckets. run_step.
  by rewrite Hparams.
Qed.

Lemma rebuild_buckets_from_recorded_order_witness :
  let st := set_rebuilt_param_indices_ [1; 0]%Z
              (set_rebuilt_params_ [sample_vector 1; sample_vector 0] sample_reducer) in
  ∃ buckets st',
    compute_bucket_assignment_by_size sample_rank (rebuilt_params_ st) [8; 1024]%Z
      [false; false] (rebuilt_param_indices_ st) = Ok buckets ∧
    rebuild_buckets sample_rank 8 1024 broadcast_at_root broadcast_at_root st =
      (Ok tt, st') ∧
    layout_ok st' ∧ variable_indices <$> buckets_ st' = buckets ∧
    has_rebuilt_bucket_ st' = true ∧
    ∀ rank' first' cap' broadcast_indices broadcast_sizes,
      rebuild_buckets rank' first' cap' broadcast_indices broadcast_sizes st' =
        (Ok tt, st').
Proof.
  intros st.
  apply (rebuild_buckets_from_recorded_order sample_rank 8 1024 st
           [sample_vector 0; sample_vector 1] [false; false] [1; 0]).
  - reflexivity.
  - reflexivity.
  - discriminate.
  - repeat constructor.
  - reflexivity.
  - reflexivity.
  - reflexivity.
  - reflexivity.
  - simpl. lia.
  - repeat constructor.
  - intros row v w t0 u0 t u Hrow Ht0 Hu0 Hdt Hdev Ht Hu.
    apply list_elem_of_singleton in Hrow as ->.
    rewrite Ht0 in Ht. rewrite Hu0 in Hu. injection Ht as <-. injection Hu as <-.
    done.
  - simpl. apply perm_swap.
  - reflexivity.
  - repeat constructor.
Defined.

(** ** The constructor *)



Section register_hooks.
Variable acc : VariableIndex → nat.
Variable valid : VariableIndex → Prop.
Hypothesis acc_inj : ∀ a b, valid a → valid b → acc a = acc b → a = b.



End register_hooks.









(** ** Finalization *)

Global Instance finalize_frame_preorder : PreOrder finalize_frame.
Proof.
  split.
  - intros st. by split.
  - intros s1 s2 s3 [] []. split; congruence.
Qed.

Lemma finalize_frame_set_grads (r v : nat) g st :
  finalize_frame st (set_grads (alter (λ row, <[v := g]> row) r (grads st)) st).
Proof.
  split; try done. simpl.
  rewrite (list_fmap_alter length _ id), list_alter_id; [done..|].
  apply Forall_forall. intros row _. by rewrite length_insert.
Qed.

Lemma finalize_frame_update_replica b r f st :
  finalize_frame st
    (set_buckets_ (alter (λ bkt, set_replicas (alter f r (replicas bkt)) bkt) b
                         (buckets_ st)) st).
Proof.
  split; try done. simpl.
  rewrite (list_fmap_alter bucket_skeleton _ id), list_alter_id; [done..|].
  apply Forall_forall. intros bkt _. unfold bucket_skeleton. simpl.
  by rewrite length_alter.
Qed.

Ltac keeps_finalize :=
  repeat first
    [ keeps_step
    | apply keeps_modify; intros ?;
      first [ apply finalize_frame_set_grads
            | apply finalize_frame_update_replica
            | by split ] ].

Lemma keeps_finalize_initialize_bucket_views replica contents copy :
  keeps finalize_frame (initialize_bucket_views replica contents copy).
Proof.
  unfold initialize_bucket_views, initialize_bucket_view, variable_at,
    runGradCallbackForVariable.
  keeps_finalize.
Qed.

Lemma keeps_finalize_wait_local_used_work pg :
  keeps finalize_frame (wait_local_used_work pg).
Proof. unfold wait_local_used_work. keeps_finalize. Qed.

Lemma keeps_finalize_variable pg bucket r replica i reduced :
  keeps finalize_frame (finalize_variable pg bucket r replica i reduced).
Proof.
  unfold finalize_variable, local_used_at, runGradCallbackForVariable.
  do 4 (apply keeps_bind; [apply _|keeps_finalize|]; intros ?).
  apply keeps_bind; [apply _| |].
  { destruct a2; [|keeps_finalize].
    do 2 (apply keeps_bind; [apply _|keeps_finalize|]; intros ?).
    destruct (_ && _); [|keeps_finalize].
    apply keeps_bind; [apply _|apply keeps_finalize_wait_local_used_work|]. intros _.
    keeps_finalize. }
  intros unused. keeps_finalize.
Qed.

Lemma keeps_finalize_bucket_dense pg bucket reduced :
  keeps finalize_frame (finalize_bucket_dense pg bucket reduced).
Proof.
  unfold finalize_bucket_dense. apply keeps_foldM; [apply _|]. intros p red.
  apply keeps_foldM; [apply _|]. intros i red'. apply keeps_finalize_variable.
Qed.

Lemma keeps_use_future_result b future_result :
  keeps finalize_frame (use_future_result b future_result).
Proof.
  unfold use_future_result, get_bucket, update_replica, update_bucket.
  apply keeps_for_each; [apply _|]. intros p.
  do 2 (apply keeps_bind; [apply _|keeps_finalize|]; intros ?).
  destruct (expect_sparse_gradient _); [keeps_finalize|].
  apply keeps_bind; [apply _|apply keeps_finalize_initialize_bucket_views|].
  intros replica'. keeps_finalize.
Qed.

Lemma keeps_finalize_bucket pg b reduced :
  keeps finalize_frame (finalize_bucket pg b reduced).
Proof.
  unfold finalize_bucket, get_bucket.
  do 2 (apply keeps_bind; [apply _|keeps_finalize|]; intros ?).
  apply keeps_bind; [apply _| |].
  { destruct a0.
    - apply keeps_bind; [apply _|keeps_finalize|]. intros _.
      destruct (future_work _); [|keeps_finalize].
      apply keeps_bind; [apply _|keeps_finalize|]. intros _.
      apply keeps_use_future_result.
    - keeps_finalize. }
  intros _. destruct (expect_sparse_gradient _); [keeps_finalize|].
  apply keeps_bind; [apply _|keeps_finalize|]; intros ?.
  apply keeps_finalize_bucket_dense.
Qed.

Lemma keeps_finalize_backward_rest pg n reduced :
  keeps finalize_frame
    (reduced ← foldM (finalize_bucket pg) (seq 0 n) reduced;
     find_unused ← get find_unused_parameters_;
     if (find_unused : bool) then
       modify (λ st, set_local_used_maps_
         ((λ m, replicate (length m) 0%Z) <$> local_used_maps_ st) st);;
       (if negb reduced then wait_local_used_work pg else mret tt);;
       mret false
     else mret reduced).
Proof.
  apply keeps_bind; [apply _| |].
  { apply keeps_foldM; [apply _|]. intros b red. apply keeps_finalize_bucket. }
  intros red. apply keeps_bind; [apply _|keeps_finalize|]. intros find_unused.
  destruct find_unused; [|keeps_finalize].
  apply keeps_bind; [apply _|keeps_finalize|]. intros _.
  apply keeps_bind; [apply _| |intros _; keeps_finalize].
  destruct (negb red); [apply keeps_finalize_wait_local_used_work|keeps_finalize].
Qed.

(** X16. [finalize_backward] checks, in this order, that hooks are
    expected, that a finalization is required and that every bucket was
    launched, and it clears [expect_autograd_hooks_] and
    [require_finalize_] as it goes: a call that fails the second check has
    already cleared the first flag, and a call that finds a bucket not yet
    launched has cleared both, so the reducer no longer asks for the
    finalization it did not get. Once the three checks have passed, the
    call, whether it returns or throws, leaves both flags cleared and does
    not touch [next_bucket_], the locators, the log of collectives, the
    recorded rebuild lists or, in any bucket, its variable indices, its
    counters and its handles. *)
Theorem finalize_backward_checks pg reduced st :
  let (r, st') := finalize_backward pg reduced st in
  if negb (expect_autograd_hooks_ st) then
    (∃ msg, r = Err (InternalAssert msg)) ∧ st' = st
  else if negb (require_finalize_ st) then
    (∃ msg, r = Err (InternalAssert msg)) ∧ st' = set_expect_autograd_hooks_ false st
  else if negb (bool_decide (next_bucket_ st = length (buckets_ st))) then
    (∃ msg, r = Err (InternalAssert msg)) ∧
    st' = set_require_finalize_ false (set_expect_autograd_hooks_ false st)
  else
    expect_autograd_hooks_ st' = false ∧ require_finalize_ st' = false ∧
    finalize_frame (set_require_finalize_ false (set_expect_autograd_hooks_ false st)) st'.
Proof.
  unfold finalize_backward. run_step.
  destruct (expect_autograd_hooks_ st) eqn:Hhooks; cbn [negb].
  2:{ erewrite bind_fail by reflexivity. eauto. }
  run_step. run_step. run_step. cbn [require_finalize_ set_expect_autograd_hooks_].
  destruct (require_finalize_ st) eqn:Hrf; cbn [negb].
  2:{ erewrite bind_fail by reflexivity. eauto. }
  run_step. run_step. run_step. run_step.
  cbn [next_bucket_ buckets_ set_require_finalize_ set_expect_autograd_hooks_].
  destruct (bool_decide (next_bucket_ st = length (buckets_ st))) eqn:Hnext; cbn [negb].
  2:{ erewrite bind_fail by reflexivity. eauto. }
  run_step.
  match goal with
  | |- (let (_, _) := ?x in _) =>
      assert (finalize_frame
                (set_require_finalize_ false (set_expect_autograd_hooks_ false st))
                x.2) as Hframe
        by exact (keeps_finalize_backward_rest pg (length (buckets_ st)) reduced _);
      destruct x as [r st']
  end.
  simpl in Hframe. split_and!; [|
    |done].
  - by rewrite (ff_hooks _ _ Hframe).
  - by rewrite (ff_require_finalize _ _ Hframe).
Qed.

Global Instance plain_frame_preorder : PreOrder plain_frame.
Proof.
  split.
  - intros st. by split.
  - intros s1 s2 s3 [] []. split; try congruence. eauto.
Qed.

Lemma points_to_frame st st' v view :
  plain_frame st st' → points_to st v view → points_to st' v view.
Proof. intros Hf (g & Hg & Ha). exists g. split; [by apply (pl_grads _ _ Hf)|done]. Qed.

Lemma grad_of_insert st (v w : VariableIndex) row grad' :
  grads st !! replica_index v = Some row → variable_index v < length row →
  grad_of (set_grads (alter (λ row, <[variable_index v := grad']> row)
                            (replica_index v) (grads st)) st) w =
  if decide (w = v) then Some grad' else grad_of st w.
Proof.
  intros Hrow Hlt. unfold grad_of. simpl.
  destruct (decide (w = v)) as [->|Hne].
  - rewrite list_lookup_alter_eq, Hrow. simpl. by rewrite list_lookup_insert_eq.
  - destruct (decide (replica_index w = replica_index v)) as [Hr|Hr].
    + rewrite Hr, list_lookup_alter_eq, Hrow. simpl.
      rewrite list_lookup_insert_ne; [done|].
      intros Hv. apply Hne. destruct w, v. simpl in *. by subst.
    + by rewrite list_lookup_alter_ne.
Qed.

Lemma finalize_variable_ok pg bucket r replica i reduced s red' s' :
  find_unused_parameters_ s = false →
  finalize_variable pg bucket r replica i reduced s = (Ok red', s') →
  red' = reduced ∧ plain_frame s s' ∧
  ∃ v view, variables replica !! i = Some v ∧ bucket_views replica !! i = Some view ∧
            points_to s' v view.
Proof.
  intros Hfu H. unfold finalize_variable in H.
  apply bind_ok in H as (v & s1 & [Hv%at_ok ->]%lift_ok & H).
  apply bind_ok in H as (? & s1 & [_ ->]%lift_ok & H).
  apply bind_ok in H as (? & s1 & [_ ->]%lift_ok & H).
  apply bind_ok in H as (fu & s1 & [-> ->]%get_ok & H). rewrite Hfu in H.
  apply bind_ok in H as (unused & s1 & [-> ->]%mret_ok & H).
  apply bind_ok in H as (view & s1 & [Hview%at_ok ->]%lift_ok & H).
  apply bind_ok in H as (? & s1 & Hcb & [-> ->]%mret_ok).
  unfold runGradCallbackForVariable in Hcb.
  apply bind_ok in Hcb as (gs & s2 & [-> ->]%get_ok & Hcb).
  apply bind_ok in Hcb as (grad & s2 & [Hgrad ->]%lift_ok & Hcb).
  apply bind_ok in Hcb as (grad' & s2 & Hcb1 & ->%modify_ok).
  apply result_bind_ok in Hgrad as (row & Hrow%at_ok & Hslot%at_ok).
  assert (s2 = s ∧ ∃ g, grad' = Some g ∧ is_alias_of g view = true ∧
                        (∀ g0, grad = Some g0 → g0 = g)) as (-> & g & -> & Halias & Hsame).
  { cbn [fst negb] in Hcb1. destruct grad as [g|].
    - apply bind_ok in Hcb1 as (? & s3 & [Ha ->]%TORCH_INTERNAL_ASSERT_ok &
                                [-> ->]%mret_ok).
      split; [done|]. exists g. split_and!; [done..|]. by intros ? [= ->].
    - apply mret_ok in Hcb1 as [-> ->]. split; [done|]. exists view.
      split_and!; [done| |done]. unfold is_alias_of. by apply bool_decide_eq_true_2. }
  assert (variable_index v < length row) as Hlt by (by eapply lookup_lt_Some).
  split; [done|]. split.
  - split; try done. intros w g0 Hw. rewrite (grad_of_insert _ _ _ row) by done.
    destruct (decide (w = v)) as [->|Hne]; [|done].
    unfold grad_of in Hw. rewrite Hrow in Hw. simpl in Hw. rewrite Hslot in Hw.
    injection Hw as ->. by rewrite (Hsame g0).
  - exists v, view. split_and!; [done..|]. exists g. split; [|done].
    rewrite (grad_of_insert _ _ _ row) by done. by rewrite decide_True.
Qed.

Lemma finalize_bucket_dense_ok pg bucket reduced s red' s' :
  find_unused_parameters_ s = false →
  finalize_bucket_dense pg bucket reduced s = (Ok red', s') →
  red' = reduced ∧ plain_frame s s' ∧
  ∀ r rep i v, replicas bucket !! r = Some rep → variables rep !! i = Some v →
    ∃ view, bucket_views rep !! i = Some view ∧ points_to s' v view.
Proof.
  intros Hfu H. unfold finalize_bucket_dense in H.
  apply (foldM_ok_ind _
    (λ done red s1, red = reduced ∧ plain_frame s s1 ∧
       ∀ p i v, p ∈ done → variables p.2 !! i = Some v →
         ∃ view, bucket_views p.2 !! i = Some view ∧ points_to s1 v view)
    _ []) in H.
  - rewrite app_nil_l in H.
    destruct H as (-> & Hframe & Hdone). split; [done|]. split; [done|].
    intros r rep i v Hrep Hv. apply (Hdone (r, rep)); [|done].
    apply list_elem_of_lookup. exists r. rewrite list_lookup_imap, Hrep. done.
  - split; [done|]. split; [done|]. intros p i v Hp. by apply elem_of_nil in Hp.
  - clear H. intros done p red s1 red1 s2 (-> & Hframe & Hdone) Hstep.
    apply (foldM_ok_ind _
      (λ done' red s3, red = reduced ∧ plain_frame s1 s3 ∧
         ∀ i v, i ∈ done' → variables p.2 !! i = Some v →
           ∃ view, bucket_views p.2 !! i = Some view ∧ points_to s3 v view)
      _ []) in Hstep.
    + rewrite app_nil_l in Hstep.
      destruct Hstep as (-> & Hframe' & Hrow). split; [done|]. split; [by etrans|].
      intros q i v Hq Hv. apply elem_of_app in Hq as [Hq|Hq].
      * destruct (Hdone q i v Hq Hv) as (view & Hview & Hpt). exists view.
        split; [done|]. by eapply points_to_frame.
      * apply list_elem_of_singleton in Hq as ->. apply Hrow; [|done].
        apply elem_of_seq. apply lookup_lt_Some in Hv. lia.
    + split; [done|]. split; [done|]. intros i v Hi. by apply elem_of_nil in Hi.
    + intros done' i red s3 red3 s4 (-> & Hframe' & Hrow) Hvar.
      apply finalize_variable_ok in Hvar as (-> & Hstep' & v & view & Hv & Hview & Hpt).
      2:{ rewrite (pl_find_unused _ _ Hframe'), (pl_find_unused _ _ Hframe). done. }
      split; [done|]. split; [by etrans|].
      intros j w Hj Hw. apply elem_of_app in Hj as [Hj|Hj].
      * destruct (Hrow j w Hj Hw) as (view' & Hview' & Hpt'). exists view'.
        split; [done|]. by eapply points_to_frame.
      * apply list_elem_of_singleton in Hj as ->. rewrite Hv in Hw. injection Hw as <-.
        eauto.
Qed.

Lemma finalize_bucket_ok pg b reduced s red' s' :
  comm_hook_ s = None → find_unused_parameters_ s = false →
  finalize_bucket pg b reduced s = (Ok red', s') →
  red' = reduced ∧ plain_frame s s' ∧
  ∃ bkt, buckets_ s !! b = Some bkt ∧ is_Some (work bkt) ∧
    (expect_sparse_gradient bkt = false →
     ∀ r rep i v, replicas bkt !! r = Some rep → variables rep !! i = Some v →
       ∃ view, bucket_views rep !! i = Some view ∧ points_to s' v view).
Proof.
  intros Hhook Hfu H. unfold finalize_bucket, get_bucket in H.
  apply bind_ok in H as (bkt & s1 & Hb & H).
  apply bind_ok in Hb as (bs & s2 & [-> ->]%get_ok & [Hb%at_ok ->]%lift_ok).
  apply bind_ok in H as (hook & s1 & [-> ->]%get_ok & H). rewrite Hhook in H.
  apply bind_ok in H as (? & s1 & Hwait & H).
  apply bind_ok in Hwait as (? & s2 & [Hwork%bool_decide_eq_true_1 ->]
                               %TORCH_INTERNAL_ASSERT_ok & Hwait).
  destruct (work bkt) as [w|] eqn:Ew; [|by destruct Hwork].
  apply modify_ok in Hwait as ->.
  assert (plain_frame s (set_storages (wait_work pg w (storages s)) s)) as Hframe
    by by split.
  destruct (expect_sparse_gradient bkt) eqn:Esparse.
  - apply mret_ok in H as [-> ->]. split; [done|]. split; [done|].
    exists bkt. rewrite Ew, Esparse. split_and!; [done|by eexists|intros [=]].
  - apply bind_ok in H as (bkt' & s1 & Hb' & H).
    apply bind_ok in Hb' as (bs & s2 & [-> ->]%get_ok & [Hb'%at_ok ->]%lift_ok).
    simpl in Hb'. rewrite Hb in Hb'. injection Hb' as <-.
    apply finalize_bucket_dense_ok in H as (-> & Hframe' & Hpts); [|done].
    split; [done|]. split; [by etrans|].
    exists bkt. rewrite Ew. split_and!; [done|by eexists|]. intros _. exact Hpts.
Qed.

(** X17. Without communication hook and without
    [find_unused_parameters_], a [finalize_backward] that returns found
    every bucket launched, with its work handle in place; it leaves the
    buckets, and [local_used_maps_reduced_], as they were and every defined
    gradient in place; and afterwards every parameter of a bucket of dense
    gradients has a defined gradient that shares the storage of its bucket
    view: a gradient that was undefined has become the bucket view. *)
Theorem finalize_backward_points_gradients pg reduced st reduced' st' :
  comm_hook_ st = None → find_unused_parameters_ st = false →
  finalize_backward pg reduced st = (Ok reduced', st') →
  reduced' = reduced ∧ buckets_ st' = buckets_ st ∧
  next_bucket_ st = length (buckets_ st) ∧
  (∀ b bkt, buckets_ st !! b = Some bkt → is_Some (work bkt)) ∧
  (∀ v g, grad_of st v = Some (Some g) → grad_of st' v = Some (Some g)) ∧
  ∀ b bkt r rep i v,
    buckets_ st !! b = Some bkt → expect_sparse_gradient bkt = false →
    replicas bkt !! r = Some rep → variables rep !! i = Some v →
    ∃ view g, bucket_views rep !! i = Some view ∧
              grad_of st' v = Some (Some g) ∧ is_alias_of g view = true.
Proof.
  intros Hhook Hfu H. unfold finalize_backward in H.
  apply bind_ok in H as (? & s1 & [-> ->]%get_ok & H).
  apply bind_ok in H as (? & s1 & [_ ->]%TORCH_INTERNAL_ASSERT_ok & H).
  apply bind_ok in H as (? & s1 & ->%modify_ok & H).
  apply bind_ok in H as (? & s1 & [-> ->]%get_ok & H).
  apply bind_ok in H as (? & s1 & [_ ->]%TORCH_INTERNAL_ASSERT_ok & H).
  apply bind_ok in H as (? & s1 & ->%modify_ok & H).
  apply bind_ok in H as (? & s1 & [-> ->]%get_ok & H).
  apply bind_ok in H as (? & s1 & [-> ->]%get_ok & H).
  apply bind_ok in H as (? & s1 & [Hnext%bool_decide_eq_true_1 ->]
                           %TORCH_INTERNAL_ASSERT_ok & H).
  cbn [next_bucket_ buckets_ set_require_finalize_ set_expect_autograd_hooks_]
    in Hnext, H.
  set (s0 := set_require_finalize_ false (set_expect_autograd_hooks_ false st)) in *.
  assert (plain_frame st s0) as Hentry by by split.
  apply bind_ok in H as (red & s1 & Hloop & H).
  apply (foldM_ok_ind _
    (λ done red s, red = reduced ∧ plain_frame s0 s ∧
       ∀ b, b ∈ done →
         ∃ bkt, buckets_ st !! b = Some bkt ∧ is_Some (work bkt) ∧
           (expect_sparse_gradient bkt = false →
            ∀ r rep i v, replicas bkt !! r = Some rep → variables rep !! i = Some v →
              ∃ view, bucket_views rep !! i = Some view ∧ points_to s v view))
    _ []) in Hloop.
  - rewrite app_nil_l in Hloop. destruct Hloop as (-> & Hframe & Hdone).
    apply bind_ok in H as (fu & s2 & [-> ->]%get_ok & H).
    rewrite (pl_find_unused _ _ Hframe) in H. cbn [find_unused_parameters_ s0
      set_require_finalize_ set_expect_autograd_hooks_] in H. rewrite Hfu in H.
    apply mret_ok in H as [-> <-].
    assert (∀ b bkt, buckets_ st !! b = Some bkt →
              ∃ bkt', buckets_ st !! b = Some bkt' ∧ is_Some (work bkt') ∧
                (expect_sparse_gradient bkt' = false →
                 ∀ r rep i v, replicas bkt' !! r = Some rep →
                   variables rep !! i = Some v →
                   ∃ view, bucket_views rep !! i = Some view ∧ points_to st' v view))
      as Hall.
    { intros b bkt Hb. apply Hdone. apply elem_of_seq. apply lookup_lt_Some in Hb. lia. }
    split_and!; [done|by rewrite (pl_buckets _ _ Hframe)|done| | |].
    + intros b bkt Hb. destruct (Hall b bkt Hb) as (bkt' & Hb' & Hw & _). congruence.
    + intros v g Hg. apply (pl_grads _ _ Hframe), (pl_grads _ _ Hentry), Hg.
    + intros b bkt r rep i v Hb Hs Hr Hv.
      destruct (Hall b bkt Hb) as (bkt' & Hb' & _ & Hpts).
      rewrite Hb in Hb'. injection Hb' as <-.
      destruct (Hpts Hs r rep i v Hr Hv) as (view & Hview & g & Hg & Ha). eauto.
  - split; [done|]. split; [done|]. intros b Hb. by apply elem_of_nil in Hb.
  - clear H. intros done b red0 s red1 s2 (-> & Hframe & Hdone) Hstep.
    apply finalize_bucket_ok in Hstep as (-> & Hframe' & bkt & Hb & Hw & Hpts).
    + split; [done|]. split; [by etrans|]. intros b' Hb'.
      apply elem_of_app in Hb' as [Hb'|Hb'].
      * destruct (Hdone b' Hb') as (bkt' & Hbkt' & Hw' & Hpts'). exists bkt'.
        split_and!; [done..|]. intros Hs r rep i v Hr Hv.
        destruct (Hpts' Hs r rep i v Hr Hv) as (view & Hview & Hpt). exists view.
        split; [done|]. by eapply points_to_frame.
      * apply list_elem_of_singleton in Hb' as ->. exists bkt.
        rewrite (pl_buckets _ _ Hframe) in Hb. done.
    + by rewrite (pl_comm_hook _ _ Hframe).
    + by rewrite (pl_find_unused _ _ Hframe).
Qed.

Lemma finalize_backward_points_gradients_witness :
  let st := sample_launched in
  let st' := state_after (finalize_backward sample_completion false) st in
  false = false ∧ buckets_ st' = buckets_ st ∧
  next_bucket_ st = length (buckets_ st) ∧
  (∀ b bkt, buckets_ st !! b = Some bkt → is_Some (work bkt)) ∧
  (∀ v g, grad_of st v = Some (Some g) → grad_of st' v = Some (Some g)) ∧
  ∀ b bkt r rep i v,
    buckets_ st !! b = Some bkt → expect_sparse_gradient bkt = false →
    replicas bkt !! r = Some rep → variables rep !! i = Some v →
    ∃ view g, bucket_views rep !! i = Some view ∧
              grad_of st' v = Some (Some g) ∧ is_alias_of g view = true.
Proof.
  intros st st'.
  apply (finalize_backward_points_gradients sample_completion false st false st').
  - reflexivity.
  - reflexivity.
  - vm_compute. reflexivity.
Defined.

(** ** From a backward pass to its finalization *)

Global Instance pass_handles_preorder : PreOrder pass_handles.
Proof.
  split.
  - intros st. by split.
  - intros s1 s2 s3 [H1 W1] [H2 W2]. split; [congruence|].
    intros Hhook Hw. apply W2; [congruence|]. by apply W1.
Qed.

Lemma pass_handles_same st st' :
  buckets_ st' = buckets_ st → next_bucket_ st' = next_bucket_ st →
  comm_hook_ st' = comm_hook_ st → pass_handles st st'.
Proof.
  intros Hb Hn Hh. split; [done|]. intros _ Hw b Hlt. rewrite Hb. apply Hw.
  by rewrite <- Hn.
Qed.

Lemma pass_handles_alter f (b : nat) st :
  (∀ bkt, is_Some (work bkt) → is_Some (work (f bkt))) →
  pass_handles st (set_buckets_ (alter f b (buckets_ st)) st).
Proof.
  intros Hf. split; [done|]. intros _ Hw b' Hlt. simpl in *.
  destruct (Hw b' Hlt) as (bkt & Hb & Hwork).
  destruct (decide (b' = b)) as [->|Hne].
  - exists (f bkt). rewrite list_lookup_alter_eq, Hb. split; [done|]. by apply Hf.
  - exists bkt. by rewrite list_lookup_alter_ne.
Qed.

Lemma keeps_handles_update_bucket b f :
  (∀ bkt, is_Some (work bkt) → is_Some (work (f bkt))) →
  keeps pass_handles (update_bucket b f).
Proof. intros Hf st. by apply pass_handles_alter. Qed.

Lemma keeps_handles_update_replica b r f :
  keeps pass_handles (update_replica b r f).
Proof. intros st. by apply pass_handles_alter. Qed.

Lemma keeps_handles_loop fuel : keeps pass_handles (mark_bucket_ready_loop fuel).
Proof.
  induction fuel as [|fuel IH]; intros s; [reflexivity|].
  simpl. monad_unfold.
  destruct (buckets_ s !! next_bucket_ s) as [bucket|] eqn:Hb; [|reflexivity].
  destruct (bucket_pending bucket =? 0)%Z; [|reflexivity].
  unfold launch_next_bucket. monad_unfold.
  destruct (comm_hook_ s) eqn:Hhook; simpl.
  all: match goal with |- context [mark_bucket_ready_loop _ ?s1] =>
         transitivity s1; [|apply IH]
       end.
  - split; [done|]. intros Hnone. congruence.
  - split; [done|]. intros _ Hw b Hlt. simpl in *.
    destruct (decide (b = next_bucket_ s)) as [->|Hne].
    + eexists. rewrite list_lookup_alter_eq, Hb. split; [done|]. by eexists.
    + rewrite list_lookup_alter_ne by done. apply Hw. lia.
Qed.

Ltac keeps_handles :=
  repeat lazymatch goal with
  | |- keeps _ (mark_bucket_ready_loop _) => apply keeps_handles_loop
  | |- keeps _ (update_replica _ _ _) => apply keeps_handles_update_replica
  | |- keeps _ (update_bucket _ _) => apply keeps_handles_update_bucket; done
  | |- keeps _ (modify _) =>
      apply keeps_modify; intros ?; by apply pass_handles_same
  | |- keeps _ (runGradCallbackForVariable _ _) => unfold runGradCallbackForVariable
  | |- keeps _ (get_replica _ _) => unfold get_replica
  | |- keeps _ (get_bucket _) => unfold get_bucket
  | |- _ => keeps_step
  end.

Lemma keeps_handles_mark_variable_ready now index :
  keeps pass_handles (mark_variable_ready now index).
Proof.
  unfold mark_variable_ready, mark_variable_ready_dense, mark_variable_ready_sparse,
    decrement_pending, mark_bucket_ready, queue_finalize.
  cbv zeta. keeps_handles.
Qed.

Lemma keeps_handles_mark_all calls : keeps pass_handles (mark_all calls).
Proof.
  unfold mark_all. apply keeps_for_each; [apply _|]. intros c.
  apply keeps_handles_mark_variable_ready.
Qed.

Lemma shape_lookup {A B} (f : A → B) (l l' : list A) (i : nat) x :
  f <$> l' = f <$> l → l !! i = Some x → ∃ x', l' !! i = Some x' ∧ f x' = f x.
Proof.
  intros Heq Hx. apply (f_equal (.!! i)) in Heq.
  rewrite !list_lookup_fmap, Hx in Heq.
  destruct (l' !! i) as [x'|]; [|done]. injection Heq as Heq. eauto.
Qed.

Lemma slot_frame st st' v view : pass_frame st st' → slot st v view → slot st' v view.
Proof.
  intros Hf (b & bkt & r & rep & i & Hb & Hr & Hv & Hview).
  destruct (shape_lookup bucket_shape _ _ _ _ (pf_shape _ _ Hf) Hb) as (bkt' & Hb' & Hs).
  injection Hs as _ _ Hreps.
  destruct (shape_lookup replica_shape _ _ _ _ Hreps Hr) as (rep' & Hr' & Hs').
  injection Hs' as Hvars _ _ Hviews.
  exists b, bkt', r, rep', i. by rewrite Hvars, Hviews.
Qed.

Lemma slot_frame_back st st' v view : pass_frame st st' → slot st' v view → slot st v view.
Proof.
  intros Hf (b & bkt & r & rep & i & Hb & Hr & Hv & Hview).
  destruct (shape_lookup bucket_shape _ _ _ _ (eq_sym (pf_shape _ _ Hf)) Hb)
    as (bkt' & Hb' & Hs).
  injection Hs as _ _ Hreps.
  destruct (shape_lookup replica_shape _ _ _ _ Hreps Hr) as (rep' & Hr' & Hs').
  injection Hs' as Hvars _ _ Hviews.
  exists b, bkt', r, rep', i. by rewrite Hvars, Hviews.
Qed.

Global Instance pass_grads_preorder : PreOrder pass_grads.
Proof.
  split.
  - intros st. split; [reflexivity|]. intros v. by left.
  - intros s1 s2 s3 [F1 G1] [F2 G2]. split; [by etrans|]. intros v.
    destruct (G2 v) as [->|(view & Hslot & ->)]; [apply G1|].
    right. exists view. split; [|done]. by eapply slot_frame_back.
Qed.

Lemma pass_grads_same st st' :
  pass_frame st st' → grads st' = grads st → pass_grads st st'.
Proof. intros Hf Hg. split; [done|]. intros v. left. unfold grad_of. by rewrite Hg. Qed.

(** The gradients stay as they are. *)
Lemma keeps_grads_both {A} (m : M A) :
  keeps pass_frame m → keeps (λ st st', grads st' = grads st) m → keeps pass_grads m.
Proof. intros Hf Hg st. apply pass_grads_same; [apply Hf|apply Hg]. Qed.

Global Instance grads_same_preorder : PreOrder (λ st st', grads st' = grads st).
Proof. split; [by intros ?|]. intros s1 s2 s3 H1 H2. congruence. Qed.

Lemma keeps_same_loop fuel :
  keeps (λ st st', grads st' = grads st) (mark_bucket_ready_loop fuel).
Proof.
  induction fuel as [|fuel IH]; simpl; [by intros ?|].
  unfold launch_next_bucket, update_bucket.
  repeat lazymatch goal with
  | |- keeps _ (mark_bucket_ready_loop _) => apply IH
  | |- keeps _ (modify _) => apply keeps_modify; by intros ?
  | |- _ => keeps_step
  end.
Qed.

Ltac keeps_same :=
  repeat lazymatch goal with
  | |- keeps _ (mark_bucket_ready_loop _) => apply keeps_same_loop
  | |- keeps _ (modify _) => apply keeps_modify; by intros ?
  | |- _ => keeps_step
  end.

Lemma keeps_same_decrement_pending b r :
  keeps (λ st st', grads st' = grads st) (decrement_pending b r).
Proof.
  unfold decrement_pending, mark_bucket_ready, update_replica, update_bucket,
    get_replica, get_bucket.
  keeps_same.
Qed.

Lemma keeps_same_queue_finalize b r :
  keeps (λ st st', grads st' = grads st) (queue_finalize b r).
Proof. unfold queue_finalize, get_replica, get_bucket. keeps_same. Qed.

(** What a gradient callback does to the gradients. *)
Lemma runGradCallbackForVariable_grads v cb (Q : option Tensor → Prop) st :
  (∀ g s, grads (cb g s).2 = grads s) →
  (∀ g s g' s', cb g s = (Ok g', s') → g' = g ∨ Q g') →
  let st' := (runGradCallbackForVariable v cb st).2 in
  ∀ w, grad_of st' w = grad_of st w ∨
       (w = v ∧ ∃ g', grad_of st' w = Some g' ∧ Q g').
Proof.
  intros Hcb HQ st' w. unfold st', runGradCallbackForVariable. run_step.
  destruct (grads st !! replica_index v) as [row|] eqn:Hrow;
    [|left; by erewrite bind_fail by (unfold lift, at_; rewrite Hrow; reflexivity)].
  destruct (row !! variable_index v) as [grad|] eqn:Hgrad.
  2:{ left. by erewrite bind_fail
        by (unfold lift, at_; rewrite Hrow; simpl; rewrite Hgrad; reflexivity). }
  erewrite bind_run
    by (unfold lift, at_; rewrite Hrow; simpl; rewrite Hgrad; reflexivity).
  cbv beta. pose proof (Hcb grad st) as Hsame. specialize (HQ grad st).
  destruct (cb grad st) as [[g'|e] s] eqn:Hrun; simpl in Hsame.
  2:{ left. erewrite bind_fail by exact Hrun. unfold grad_of. simpl. by rewrite Hsame. }
  erewrite bind_run by exact Hrun. unfold modify. simpl in Hsame |- *.
  assert (grads s !! replica_index v = Some row) as Hrow' by by rewrite Hsame.
  rewrite (grad_of_insert _ _ _ row) by (done || by eapply lookup_lt_Some).
  destruct (decide (w = v)) as [->|Hne]; [|left; unfold grad_of; by rewrite Hsame].
  destruct (HQ g' s eq_refl) as [->|Hq].
  - left. unfold grad_of. rewrite Hrow. simpl. by rewrite Hgrad.
  - right. eauto.
Qed.

Lemma keeps_grads_mark_variable_ready_dense index :
  keeps pass_grads (mark_variable_ready_dense index).
Proof.
  intros st. split; [apply keeps_mark_variable_ready_dense|]. intros w.
  unfold mark_variable_ready_dense. run_step.
  destruct (variable_locators_ st !! variable_index index) as [loc|] eqn:Hloc;
    [|left; by erewrite bind_fail by (unfold lift, at_; rewrite Hloc; reflexivity)].
  erewrite bind_run by (unfold lift, at_; rewrite Hloc; reflexivity). cbv beta.
  destruct (buckets_ st !! bucket_index loc) as [bkt|] eqn:Hb;
    [|left; by erewrite bind_fail
        by (monad_unfold; unfold at_; rewrite Hb; reflexivity)].
  destruct (replicas bkt !! replica_index index) as [rep|] eqn:Hr;
    [|left; by erewrite bind_fail
        by (monad_unfold; unfold at_; rewrite Hb; simpl; rewrite Hr; reflexivity)].
  erewrite bind_run
    by (monad_unfold; unfold at_; rewrite Hb; simpl; rewrite Hr; reflexivity).
  cbv beta.
  destruct (variables rep !! intra_bucket_index loc) as [variable|] eqn:Hv;
    [|left; by erewrite bind_fail by (unfold lift, at_; rewrite Hv; reflexivity)].
  erewrite bind_run by (unfold lift, at_; rewrite Hv; reflexivity). cbv beta.
  destruct (offsets rep !! intra_bucket_index loc) as [o|] eqn:Ho;
    [|left; by erewrite bind_fail by (unfold lift, at_; rewrite Ho; reflexivity)].
  erewrite bind_run by (unfold lift, at_; rewrite Ho; reflexivity). cbv beta.
  destruct (lengths rep !! intra_bucket_index loc) as [l|] eqn:Hl;
    [|left; by erewrite bind_fail by (unfold lift, at_; rewrite Hl; reflexivity)].
  erewrite bind_run by (unfold lift, at_; rewrite Hl; reflexivity). cbv beta.
  destruct (bucket_views rep !! intra_bucket_index loc) as [view|] eqn:Hview;
    [|left; by erewrite bind_fail by (unfold lift, at_; rewrite Hview; reflexivity)].
  erewrite bind_run by (unfold lift, at_; rewrite Hview; reflexivity). cbv beta.
  run_step.
  match goal with |- context [runGradCallbackForVariable variable ?cb st] =>
    destruct (runGradCallbackForVariable_grads variable cb (λ g', g' = Some view) st)
      with (w := w) as [H|(-> & g' & Hg & ->)]
  end.
  - intros g s. destruct g as [g|]; [|done].
    destruct (is_alias_of g view); simpl; monad_unfold;
      repeat case_match; by simplify_eq.
  - intros g s g' s' Hrun. destruct g as [g|].
    + destruct (is_alias_of g view); simpl in Hrun.
      * apply bind_ok in Hrun as (? & ? & _ & [-> _]%mret_ok). by left.
      * do 4 apply bind_ok in Hrun as (? & ? & _ & Hrun).
        apply mret_ok in Hrun as [-> _]. by right.
    + apply bind_ok in Hrun as (? & ? & _ & [-> _]%mret_ok). by left.
  - by left.
  - right. exists view. split; [|done].
    by exists (bucket_index loc), bkt, (replica_index index), rep,
      (intra_bucket_index loc).
Qed.

Lemma keeps_grads_mark_variable_ready_sparse index :
  keeps pass_grads (mark_variable_ready_sparse index).
Proof.
  intros st. split; [apply keeps_mark_variable_ready_sparse|]. revert st.
  change (keeps (λ st st', ∀ w, grad_of st' w = grad_of st w ∨
                    ∃ view, slot st w view ∧ grad_of st' w = Some (Some view))
                (mark_variable_ready_sparse index)).
  eapply (keeps_weaken (λ st st', ∀ w, grad_of st' w = grad_of st w));
    [intros st st' H w; by left|].
  assert (PreOrder (λ st st', ∀ w, grad_of st' w = grad_of st w)) as Hpre.
  { split; [by intros ?|]. intros s1 s2 s3 H1 H2 w. by rewrite H2. }
  unfold mark_variable_ready_sparse, get_replica, get_bucket.
  repeat lazymatch goal with
  | |- keeps _ (runGradCallbackForVariable _ _) => idtac
  | |- _ => keeps_step
  end.
  intros st w.
  match goal with |- context [runGradCallbackForVariable ?v ?cb st] =>
    destruct (runGradCallbackForVariable_grads v cb (λ _, False) st)
      with (w := w) as [H|(_ & _ & _ & [])]; [| |exact H]
  end.
  - intros g s. destruct g as [g|]; monad_unfold; repeat case_match; by simplify_eq.
  - intros g s g' s' Hrun. left. destruct g as [g|].
    + do 3 apply bind_ok in Hrun as (? & ? & _ & Hrun).
      apply bind_ok in Hrun as (? & ? & _ & [-> _]%mret_ok). done.
    + by apply bind_ok in Hrun as (? & ? & [[=] _]%TORCH_CHECK_ok & _).
Qed.

(** Whether it returns or throws, [mark_variable_ready] leaves a gradient
    as it is or replaces it by a bucket view of its variable. *)
Lemma keeps_grads_mark_variable_ready now index :
  keeps pass_grads (mark_variable_ready now index).
Proof.
  intros st. unfold mark_variable_ready. cbv zeta.
  run_step.
  destruct (bool_decide (replica_index index < length (replicas_ st)));
    [|by erewrite bind_fail by reflexivity].
  do 2 run_step.
  destruct (bool_decide (variable_index index < length (variable_locators_ st)));
    [|by erewrite bind_fail by reflexivity].
  do 2 run_step.
  destruct (backward_stats_ st !! replica_index index) as [row|] eqn:Hrow;
    [|by erewrite bind_fail by (unfold lift, at_; rewrite Hrow; reflexivity)].
  erewrite bind_run by (unfold lift, at_; rewrite Hrow; reflexivity). cbv beta.
  destruct (row !! variable_index index) as [z|] eqn:Hz;
    [|by erewrite bind_fail by (unfold lift, at_; rewrite Hz; reflexivity)].
  erewrite bind_run by (unfold lift, at_; rewrite Hz; reflexivity). cbv beta.
  do 2 run_step.
  match goal with |- pass_grads _ (?m ?s1).2 =>
    transitivity s1; [|generalize s1; change (keeps pass_grads m)]
  end.
  { apply pass_grads_same; [|done]. constructor; simpl; try done.
    rewrite list_fmap_insert, length_insert. apply list_insert_id.
    by rewrite list_lookup_fmap, Hrow. }
  repeat lazymatch goal with
  | |- keeps _ (mark_variable_ready_sparse _) => apply keeps_grads_mark_variable_ready_sparse
  | |- keeps _ (mark_variable_ready_dense _) => apply keeps_grads_mark_variable_ready_dense
  | |- keeps _ (decrement_pending _ _) =>
      apply keeps_grads_both; [apply keeps_decrement_pending|apply keeps_same_decrement_pending]
  | |- keeps _ (queue_finalize _ _) =>
      apply keeps_grads_both; [apply keeps_queue_finalize|apply keeps_same_queue_finalize]
  | |- keeps _ (get_bucket _) => unfold get_bucket
  | |- _ => keeps_step
  end.
Qed.

Lemma keeps_grads_mark_all calls : keeps pass_grads (mark_all calls).
Proof.
  unfold mark_all. apply keeps_for_each; [apply _|]. intros [now index].
  apply keeps_grads_mark_variable_ready.
Qed.

(** Where the layout keeps a variable: at the position its locator names. *)
Lemma slot_position st b bkt r rep i v :
  layout_ok st →
  buckets_ st !! b = Some bkt → replicas bkt !! r = Some rep →
  variables rep !! i = Some v →
  ∃ loc, variable_locators_ st !! variable_index v = Some loc ∧
         bucket_index loc = b ∧ replica_index v = r ∧ intra_bucket_index loc = i.
Proof.
  intros Hlay Hb Hr Hv.
  destruct (lo_buckets _ Hlay b bkt Hb) as (_ & _ & Hreps).
  destruct (Hreps r rep Hr) as [Hvars _].
  rewrite Hvars, list_lookup_fmap in Hv.
  destruct (variable_indices bkt !! i) as [x|] eqn:Hx; [|done].
  injection Hv as <-. simpl.
  assert ((variable_indices <$> buckets_ st) !! b = Some (variable_indices bkt)) as Hb1
    by by rewrite list_lookup_fmap, Hb.
  assert (x ∈ variable_indices bkt) as Hin by by eapply list_elem_of_lookup_2.
  assert (x < length (variable_locators_ st)) as Hlt.
  { pose proof (elem_of_concat_lookup _ _ _ _ Hb1 Hin) as Hc.
    rewrite (lo_partition _ Hlay) in Hc. apply elem_of_seq in Hc. lia. }
  destruct (lookup_lt_is_Some_2 _ _ Hlt) as [loc Hloc]. exists loc.
  split; [done|].
  destruct (lo_locators _ Hlay _ _ Hloc) as (bkt' & Hb' & Hx').
  assert (bucket_index loc = b) as Hsame.
  { apply (NoDup_concat_same (variable_indices <$> buckets_ st) _ _
             (variable_indices bkt') (variable_indices bkt) x);
      [by apply NoDup_bucket_partition|by rewrite list_lookup_fmap, Hb'|done| |done].
    by eapply list_elem_of_lookup_2. }
  split; [done|]. split; [done|]. rewrite Hsame, Hb in Hb'. injection Hb' as <-.
  eapply NoDup_lookup; [|exact Hx'|exact Hx].
  eapply (NoDup_concat_lookup (variable_indices <$> buckets_ st) b);
    [by apply NoDup_bucket_partition|done].
Qed.

Lemma slot_unique st v view view' :
  layout_ok st → slot st v view → slot st v view' → view = view'.
Proof.
  intros Hlay (b & bkt & r & rep & i & Hb & Hr & Hv & Hview)
         (b' & bkt' & r' & rep' & i' & Hb' & Hr' & Hv' & Hview').
  destruct (slot_position _ _ _ _ _ _ _ Hlay Hb Hr Hv) as (loc & Hloc & <- & <- & <-).
  destruct (slot_position _ _ _ _ _ _ _ Hlay Hb' Hr' Hv') as (loc' & Hloc' & <- & <- & <-).
  rewrite Hloc in Hloc'. injection Hloc' as <-.
  rewrite Hb in Hb'. injection Hb' as <-. rewrite Hr in Hr'. injection Hr' as <-.
  rewrite Hview in Hview'. by injection Hview'.
Qed.

(** After [mark_variable_ready_dense] has returned, the gradient is
    undefined or shares the storage of the bucket view. *)
Lemma mark_variable_ready_dense_settles index s s' loc bkt rep view :
  variable_locators_ s !! variable_index index = Some loc →
  buckets_ s !! bucket_index loc = Some bkt →
  replicas bkt !! replica_index index = Some rep →
  variables rep !! intra_bucket_index loc = Some index →
  bucket_views rep !! intra_bucket_index loc = Some view →
  mark_variable_ready_dense index s = (Ok tt, s') →
  settled s' index view.
Proof.
  intros Hloc Hb Hr Hv Hview H.
  unfold mark_variable_ready_dense, get_replica, get_bucket in H.
  apply bind_ok in H as (? & s1 & [-> ->]%get_ok & H).
  apply bind_ok in H as (loc' & s1 & [Hloc'%at_ok ->]%lift_ok & H).
  rewrite Hloc in Hloc'. injection Hloc' as <-.
  apply bind_ok in H as (rep' & s1 & Hrep & H).
  apply bind_ok in Hrep as (bkt' & s2 & Hbk & [Hr'%at_ok ->]%lift_ok).
  apply bind_ok in Hbk as (? & s3 & [-> ->]%get_ok & [Hb'%at_ok ->]%lift_ok).
  rewrite Hb in Hb'. injection Hb' as <-. rewrite Hr in Hr'. injection Hr' as <-.
  apply bind_ok in H as (v' & s1 & [Hv'%at_ok ->]%lift_ok & H).
  rewrite Hv in Hv'. injection Hv' as <-.
  apply bind_ok in H as (? & s1 & [_ ->]%lift_ok & H).
  apply bind_ok in H as (? & s1 & [_ ->]%lift_ok & H).
  apply bind_ok in H as (view' & s1 & [Hview'%at_ok ->]%lift_ok & H).
  rewrite Hview in Hview'. injection Hview' as <-.
  apply bind_ok in H as (hook & s1 & [-> ->]%get_ok & H).
  unfold runGradCallbackForVariable in H.
  apply bind_ok in H as (gs & s1 & [-> ->]%get_ok & H).
  apply bind_ok in H as (grad & s1 & [Hgrad ->]%lift_ok & H).
  apply bind_ok in H as (grad' & s1 & Hcb & ->%modify_ok).
  apply result_bind_ok in Hgrad as (row & Hrow%at_ok & Hslot%at_ok).
  assert (grads s1 = grads s ∧ ∀ g, grad' = Some g → is_alias_of g view = true)
    as [Hsame Halias].
  { destruct grad as [g|]; [destruct (is_alias_of g view) eqn:Ha|]; simpl in Hcb.
    - apply bind_ok in Hcb as (? & s2 & Hm & [-> ->]%mret_ok).
      split; [|by intros ? [= <-]].
      destruct (comm_hook_ s); [by apply mret_ok in Hm as [_ ->]|].
      by apply modify_ok in Hm as ->.
    - do 3 apply bind_ok in Hcb as (? & ? & [_ ->]%lift_ok & Hcb).
      apply bind_ok in Hcb as (? & s2 & Hm & [-> ->]%mret_ok). split.
      + destruct (comm_hook_ s); by apply modify_ok in Hm as ->.
      + intros ? [= <-]. unfold is_alias_of. by apply bool_decide_eq_true_2.
    - apply bind_ok in Hcb as (? & s2 & ->%modify_ok & [-> ->]%mret_ok).
      by split. }
  exists grad'. split; [|done].
  rewrite (grad_of_insert _ _ _ row); [by rewrite decide_True| |].
  - by rewrite Hsame.
  - by eapply lookup_lt_Some.
Qed.

(** The same after [mark_variable_ready], for a variable of a bucket of
    dense gradients. *)
Lemma mark_variable_ready_settles now index s s' loc bkt rep view :
  variable_locators_ s !! variable_index index = Some loc →
  buckets_ s !! bucket_index loc = Some bkt →
  expect_sparse_gradient bkt = false →
  replicas bkt !! replica_index index = Some rep →
  variables rep !! intra_bucket_index loc = Some index →
  bucket_views rep !! intra_bucket_index loc = Some view →
  mark_variable_ready now index s = (Ok tt, s') →
  settled s' index view.
Proof.
  intros Hloc Hb Hdense Hr Hv Hview H.
  unfold mark_variable_ready in H. cbv zeta in H.
  apply bind_ok in H as (? & s1 & [-> ->]%get_ok & H).
  apply bind_ok in H as (? & s1 & [_ ->]%TORCH_CHECK_ok & H).
  apply bind_ok in H as (? & s1 & [-> ->]%get_ok & H).
  apply bind_ok in H as (? & s1 & [_ ->]%TORCH_CHECK_ok & H).
  apply bind_ok in H as (stats & s1 & [-> ->]%get_ok & H).
  apply bind_ok in H as (row & s1 & [Hrow%at_ok ->]%lift_ok & H).
  apply bind_ok in H as (? & s1 & [_ ->]%lift_ok & H).
  apply bind_ok in H as (? & s1 & ->%modify_ok & H).
  apply bind_ok in H as (? & s1 & Hs1%modify_ok & H).
  assert (variable_locators_ s1 = variable_locators_ s ∧ buckets_ s1 = buckets_ s)
    as [Hlocs Hbs] by by rewrite Hs1.
  clear Hs1.
  apply bind_ok in H as (? & s2 & [-> ->]%get_ok & H).
  apply bind_ok in H as (loc' & s2 & [Hloc'%at_ok ->]%lift_ok & H).
  rewrite Hlocs, Hloc in Hloc'. injection Hloc' as <-.
  apply bind_ok in H as (bkt' & s2 & Hbk & H).
  apply bind_ok in Hbk as (? & s3 & [-> ->]%get_ok & [Hb'%at_ok ->]%lift_ok).
  rewrite Hbs, Hb in Hb'. injection Hb' as <-.
  apply bind_ok in H as (rep' & s2 & [Hr'%at_ok ->]%lift_ok & H).
  rewrite Hr in Hr'. injection Hr' as <-.
  apply bind_ok in H as (? & s2 & Hchk & H).
  assert (s2 = s1) as ->.
  { destruct (replica_pending rep =? 0)%Z; [|by apply mret_ok in Hchk as [_ ->]].
    apply bind_ok in Hchk as (? & s3 & [-> ->]%get_ok & Hchk).
    apply bind_ok in Hchk as (? & s3 & [_ ->]%TORCH_CHECK_ok & [_ ->]%TORCH_CHECK_ok).
    done. }
  rewrite Hdense in H.
  apply bind_ok in H as ([] & s2 & Hstep & H).
  apply (mark_variable_ready_dense_settles _ _ _ loc bkt rep view) in Hstep as
    (grad & Hgrad & Halias); [|by rewrite ?Hlocs, ?Hbs..].
  assert (grads s' = grads s2) as Hsame.
  { apply bind_ok in H as (? & s3 & Hdec & H).
    pose proof (keeps_same_decrement_pending (bucket_index loc) (replica_index index) s2)
      as H23.
    rewrite Hdec in H23. simpl in H23. rewrite <- H23.
    apply bind_ok in H as (? & s4 & [-> ->]%get_ok & H).
    apply bind_ok in H as (? & s4 & [-> ->]%get_ok & H).
    destruct (bool_decide _); [|by apply mret_ok in H as [_ ->]].
    pose proof (keeps_same_queue_finalize (bucket_index loc) (replica_index index) s3)
      as H34.
    by rewrite H in H34. }
  exists grad. split; [|done]. unfold grad_of in *. by rewrite Hsame.
Qed.

(** A backward pass settles the gradient of every variable it marks in a
    bucket of dense gradients. *)
Lemma mark_all_settles st0 calls : layout_ok st0 → ∀ marked s s',
  pass_frame st0 s →
  (∀ b bkt r rep i v view,
     buckets_ st0 !! b = Some bkt → expect_sparse_gradient bkt = false →
     replicas bkt !! r = Some rep → variables rep !! i = Some v →
     bucket_views rep !! i = Some view → v ∈ marked → settled s v view) →
  mark_all calls s = (Ok tt, s') →
  ∀ b bkt r rep i v view,
    buckets_ st0 !! b = Some bkt → expect_sparse_gradient bkt = false →
    replicas bkt !! r = Some rep → variables rep !! i = Some v →
    bucket_views rep !! i = Some view → v ∈ marked ++ calls.*2 → settled s' v view.
Proof.
  intros Hlay. induction calls as [|[now index] calls IH];
    intros marked s s' Hframe Hinv Hrun.
  { apply mret_ok in Hrun as [_ ->]. rewrite app_nil_r. exact Hinv. }
  unfold mark_all in Hrun. simpl in Hrun.
  apply bind_ok in Hrun as ([] & s1 & Hstep & Hrun).
  pose proof (keeps_grads_mark_variable_ready now index s) as Hgr.
  rewrite Hstep in Hgr. simpl in Hgr. destruct Hgr as [Hf1 Hg1].
  assert (marked ++ ((now, index) :: calls).*2 = (marked ++ [index]) ++ calls.*2)
    as -> by (by rewrite <- app_assoc).
  apply (IH (marked ++ [index]) s1 s'); [by etrans| |exact Hrun].
  intros b bkt r rep i v view Hb Hdense Hr Hv Hview Hin.
  destruct (decide (v = index)) as [->|Hne].
  - destruct (slot_position _ _ _ _ _ _ _ Hlay Hb Hr Hv) as (loc & Hloc & <- & <- & <-).
    destruct (shape_lookup bucket_shape _ _ _ _ (pf_shape _ _ Hframe) Hb)
      as (bkt' & Hb' & Hs).
    injection Hs as _ Hsparse Hreps.
    destruct (shape_lookup replica_shape _ _ _ _ Hreps Hr) as (rep' & Hr' & Hs').
    injection Hs' as Hvars _ _ Hviews.
    apply (mark_variable_ready_settles now index s s1 loc bkt' rep' view);
      [by rewrite (pf_locators _ _ Hframe)|done|congruence|done|congruence|congruence|done].
  - assert (v ∈ marked) as Hm.
    { apply elem_of_app in Hin as [?|Hi%list_elem_of_singleton]; [done|by destruct Hne]. }
    destruct (Hinv _ _ _ _ _ _ _ Hb Hdense Hr Hv Hview Hm) as (grad & Hgrad & Halias).
    destruct (Hg1 v) as [Hsame|(view' & Hslot & Hnew)].
    + exists grad. split; [by rewrite Hsame|done].
    + exists (Some view'). split; [done|]. intros ? [= <-].
      apply (slot_frame_back st0) in Hslot; [|done].
      rewrite (slot_unique st0 v view' view Hlay Hslot).
      * unfold is_alias_of. by apply bool_decide_eq_true_2.
      * by exists b, bkt, r, rep, i.
Qed.

(** ** When [finalize_backward] returns *)

Section finalizing.
Context (pg : Completion) (st : Reducer).
Hypothesis Hlay : layout_ok st.

Lemma finalize_variable_runs b bkt r rep i reduced s :
  finalizing st s →
  buckets_ st !! b = Some bkt → expect_sparse_gradient bkt = false →
  replicas bkt !! r = Some rep → i < length (variables rep) →
  runs (finalize_variable pg bkt r rep i reduced) s
       (λ a s', a = reduced ∧ finalizing st s').
Proof.
  intros HJ Hb Hdense Hr Hi.
  destruct (lo_buckets _ Hlay b bkt Hb) as (_ & Hlen & Hreps).
  destruct (Hreps r rep Hr) as [Hvars Hshape]. rewrite Hdense in Hshape.
  destruct Hshape as (_ & Ho & Hl & Hw).
  assert (length (variables rep) = length (variable_indices bkt)) as Hn
    by by rewrite Hvars, length_fmap.
  destruct (lookup_lt_is_Some_2 (variables rep) i Hi) as [v Hv].
  destruct (lookup_lt_is_Some_2 (offsets rep) i) as [o Hoff]; [lia|].
  destruct (lookup_lt_is_Some_2 (lengths rep) i) as [l Hlength]; [lia|].
  destruct (lookup_lt_is_Some_2 (bucket_views rep) i) as [view Hview]; [lia|].
  destruct (fz_settled _ _ HJ b bkt r rep i v view Hb Hdense Hr Hv Hview)
    as (grad & Hgrad & Halias).
  unfold grad_of in Hgrad.
  destruct (grads s !! replica_index v) as [row|] eqn:Hrow; [|done].
  simpl in Hgrad.
  unfold finalize_variable, runGradCallbackForVariable.
  runs_step. runs_step; [by apply at_lookup|].
  runs_step. runs_step; [by apply at_lookup|].
  runs_step. runs_step; [by apply at_lookup|].
  runs_step. runs_step. rewrite (fz_find_unused _ _ HJ).
  runs_step. runs_step.
  runs_step. runs_step; [by apply at_lookup|].
  runs_step. runs_step. runs_step. runs_step. runs_step.
  { rewrite (at_lookup _ _ _ Hrow). simpl. by apply at_lookup. }
  runs_step.
  apply (runs_mono _ _ (λ grad' s', s' = s ∧ ∃ g, grad' = Some g ∧
                                      is_alias_of g view = true)).
  { cbn [fst negb]. destruct grad as [g|].
    - runs_step. runs_step; [by apply Halias|]. runs_step. split; [done|].
      exists g. split; [done|]. by apply Halias.
    - runs_step. split; [done|]. exists view. split; [done|].
      unfold is_alias_of. by apply bool_decide_eq_true_2. }
  intros grad' ? (-> & g & -> & Hg).
  runs_step. runs_step. cbv beta. cbn [snd]. split; [done|].
  destruct HJ as [J1 J2 J3 J4 J5 J6 J8 J7]. split; simpl; try done.
  - rewrite <- J4. rewrite (list_fmap_alter length _ id), list_alter_id; [done..|].
    apply Forall_forall. intros row' _. by rewrite length_insert.
  - intros b' bkt' r' rep' i' w view' Hb' Hdense' Hr' Hw' Hview'.
    destruct (J7 _ _ _ _ _ _ _ Hb' Hdense' Hr' Hw' Hview') as (grad0 & Hgrad0 & Halias0).
    unfold settled. rewrite (grad_of_insert _ _ _ row);
      [|done|by eapply lookup_lt_Some].
    destruct (decide (w = v)) as [->|Hne]; [|by exists grad0].
    exists (Some g). split; [done|]. intros ? [= <-].
    assert (view' = view) as ->; [|done].
    apply (slot_unique st v); [done| |].
    + by exists b', bkt', r', rep', i'.
    + by exists b, bkt, r, rep, i.
Qed.

Lemma finalize_bucket_dense_runs b bkt reduced s :
  finalizing st s →
  buckets_ st !! b = Some bkt → expect_sparse_gradient bkt = false →
  runs (finalize_bucket_dense pg bkt reduced) s
       (λ a s', a = reduced ∧ finalizing st s').
Proof.
  intros HJ Hb Hdense. unfold finalize_bucket_dense.
  apply (runs_foldM _ (λ _ a s', a = reduced ∧ finalizing st s')
           (imap (λ replica_index replica, (replica_index, replica)) (replicas bkt)))
    with (done := []); [|done..].
  intros done [r rep] rest red s1 Hfull [-> HJ1].
  assert (replicas bkt !! r = Some rep) as Hr.
  { assert ((r, rep) ∈ imap (λ i x, (i, x)) (replicas bkt)) as Hin
      by (rewrite Hfull, elem_of_app, elem_of_cons; tauto).
    apply list_elem_of_lookup in Hin as (j & Hj).
    rewrite list_lookup_imap in Hj.
    destruct (replicas bkt !! j) eqn:Hrj; [|done]. by injection Hj as -> ->. }
  cbn [fst snd].
  apply (runs_foldM _ (λ _ a s', a = reduced ∧ finalizing st s')
           (seq 0 (length (variables rep)))) with (done := []); [|done..].
  intros done' i rest' red' s2 Hfull' [-> HJ2].
  apply (finalize_variable_runs b); [done..|].
  assert (i ∈ seq 0 (length (variables rep))) as Hin
    by (rewrite Hfull', elem_of_app, elem_of_cons; tauto).
  apply elem_of_seq in Hin. lia.
Qed.

Lemma finalize_bucket_runs b reduced s :
  finalizing st s → b < length (buckets_ st) →
  (∀ bkt, buckets_ st !! b = Some bkt → is_Some (work bkt)) →
  runs (finalize_bucket pg b reduced) s (λ a s', a = reduced ∧ finalizing st s').
Proof.
  intros HJ Hlt Hwork.
  destruct (lookup_lt_is_Some_2 _ _ Hlt) as [bkt Hb].
  destruct (Hwork bkt Hb) as [w Hw].
  assert (buckets_ s !! b = Some bkt) as Hbs by by rewrite (fz_buckets _ _ HJ).
  unfold finalize_bucket, get_bucket.
  runs_step. runs_step. runs_step. runs_step; [by apply at_lookup|].
  runs_step. runs_step. rewrite (fz_comm_hook _ _ HJ).
  runs_step. runs_step. runs_step; [by rewrite Hw; apply bool_decide_eq_true_2|].
  rewrite Hw. runs_step.
  assert (finalizing st (set_storages (wait_work pg w (storages s)) s)) as HJ'
    by (by destruct HJ).
  destruct (expect_sparse_gradient bkt) eqn:Hdense; [by runs_step|].
  runs_step. runs_step. runs_step. runs_step; [by apply at_lookup|].
  by apply (finalize_bucket_dense_runs b).
Qed.

End finalizing.

(** [finalize_backward] returns when the backward pass is complete. *)
Lemma finalize_backward_runs pg reduced st :
  layout_ok st →
  expect_autograd_hooks_ st = true → require_finalize_ st = true →
  next_bucket_ st = length (buckets_ st) →
  comm_hook_ st = None → find_unused_parameters_ st = false →
  work_set st → dense_settled st st →
  runs (finalize_backward pg reduced) st
       (λ a st', a = reduced ∧ expect_autograd_hooks_ st' = false ∧
                 require_finalize_ st' = false ∧ buckets_ st' = buckets_ st ∧
                 next_bucket_ st' = next_bucket_ st).
Proof.
  intros Hlay Hhooks Hfin Hnext Hhook Hfu Hwork Hset. unfold finalize_backward.
  runs_step. runs_step. runs_step. runs_step; [done|].
  runs_step. runs_step. runs_step. runs_step. cbn. rewrite Hfin.
  runs_step. runs_step; [done|].
  runs_step. runs_step. runs_step. runs_step. runs_step. runs_step.
  runs_step. runs_step; [by apply bool_decide_eq_true_2|].
  runs_step.
  apply (runs_mono _ _ (λ a s', a = reduced ∧ finalizing st s')).
  - cbn [buckets_ set_require_finalize_ set_expect_autograd_hooks_].
    apply (runs_foldM _ (λ _ a s', a = reduced ∧ finalizing st s')
             (seq 0 (length (buckets_ st)))) with (done := []); [|done|].
    + intros done b rest red s1 Hfull [-> HJ].
      assert (b < length (buckets_ st)) as Hb.
      { assert (b ∈ seq 0 (length (buckets_ st))) as Hin
          by (rewrite Hfull, elem_of_app, elem_of_cons; tauto).
        apply elem_of_seq in Hin. lia. }
      apply finalize_bucket_runs; [done..|].
      intros bkt Hbkt. destruct (Hwork b) as (bkt' & Hbkt' & Hw); [lia|].
      congruence.
    + split; [done|]. by split.
  - intros a s' [-> HJ]. runs_step. runs_step.
    rewrite (fz_find_unused _ _ HJ). runs_step.
    destruct HJ. done.
Qed.

(** ** A whole iteration *)

Lemma layout_ok_unforget st : layout_ok (forget_work st) → layout_ok st.
Proof.
  intros [H1 H2 H3 H4 H5 H6 H7]. simpl in *. constructor; try done.
  - rewrite <- list_fmap_compose in H5. exact H5.
  - intros v loc Hloc. destruct (H6 v loc Hloc) as (core & Hcore & Hv).
    apply list_lookup_fmap_Some_1 in Hcore as (bkt & -> & Hb). by exists bkt.
  - intros b bkt Hb. exact (H7 b (erase_work bkt) (lookup_erase_work _ _ _ Hb)).
Qed.

(** A call of [mark_variable_ready] that returns has set
    [require_finalize_]. *)
Lemma mark_variable_ready_sets_finalize now index st st' :
  mark_variable_ready now index st = (Ok tt, st') → require_finalize_ st' = true.
Proof.
  intros H. pose proof H as H0. unfold mark_variable_ready in H0. cbv zeta in H0.
  apply bind_ok in H0 as (? & s1 & [-> ->]%get_ok & H0).
  apply bind_ok in H0 as (? & s1 & [Hr%bool_decide_eq_true_1 ->]%TORCH_CHECK_ok & H0).
  apply bind_ok in H0 as (? & s1 & [-> ->]%get_ok & H0).
  apply bind_ok in H0 as (? & s1 & [Hv%bool_decide_eq_true_1 ->]%TORCH_CHECK_ok & H0).
  apply bind_ok in H0 as (stats & s1 & [-> ->]%get_ok & H0).
  apply bind_ok in H0 as (row & s1 & [Hrow%at_ok ->]%lift_ok & H0).
  apply bind_ok in H0 as (z & s1 & [Hz%at_ok ->]%lift_ok & _).
  destruct (mark_variable_ready_checked now index st row z Hr Hv Hrow Hz)
    as (rest & Hkeeps & Heq).
  rewrite Heq in H.
  match type of H with rest ?s1 = _ => pose proof (Hkeeps s1) as Hframe end.
  rewrite H in Hframe. by apply (pf_finalize _ _ Hframe).
Qed.

(** After every parameter of every replica was marked, every bucket has
    been launched. *)
Lemma mark_all_complete st0 calls :
  layout_ok st0 → prepared st0 → grads_ok st0 →
  calls.*2 ≡ₚ all_variable_indices st0 →
  ∃ st1, mark_all calls st0 = (Ok tt, st1) ∧ layout_ok st1 ∧
         next_bucket_ st1 = length (buckets_ st1).
Proof.
  intros Hlay Hprep Hgr Hperm.
  pose proof (pass_inv_prepared st0 Hlay Hprep Hgr) as Hinv0.
  destruct (mark_all_run calls [] st0 Hinv0)
    as (st1 & Hrun & Hinv & Hnext & Hreps & Hlocs & Hlen).
  { simpl. rewrite Hperm. apply NoDup_all_variable_indices. }
  { simpl. apply Forall_forall. intros vi Hvi. by rewrite <- Hperm. }
  simpl in Hinv. exists st1. split; [done|].
  destruct Hinv as (Hlay1 & _ & Hcnt). split; [by apply layout_ok_unforget|].
  pose proof (co_next _ _ Hcnt) as Hle. simpl in Hle. rewrite length_fmap in Hle.
  destruct (decide (next_bucket_ st1 = length (buckets_ st1))) as [|Hlt]; [done|].
  destruct (lookup_lt_is_Some_2 (buckets_ st1) (next_bucket_ st1)) as [bkt Hbkt]; [lia|].
  pose proof (lookup_erase_work _ _ _ Hbkt) as Hcore.
  destruct (co_waiting _ _ Hcnt _ Hcore).
  rewrite (co_bucket _ _ Hcnt _ _ Hcore). simpl.
  rewrite waiting_replicas_none; [done|].
  apply Forall_lookup. intros r rep Hrep.
  rewrite (co_replica _ _ Hcnt _ _ _ _ Hcore Hrep).
  destruct (lo_buckets _ Hlay1 _ _ Hcore) as (_ & Hlen1 & Hvars).
  destruct (Hvars r rep Hrep) as [-> _]. rewrite length_fmap.
  rewrite (marked_in_perm _ _ _ _ (all_variable_indices (forget_work st1))).
  2:{ rewrite Hperm. unfold all_variable_indices. simpl. by rewrite Hreps, Hlocs. }
  rewrite (marked_in_all _ _ (erase_work bkt) Hlay1 Hcore); [simpl; lia|].
  simpl in Hlen1 |- *. rewrite <- Hlen1. by eapply lookup_lt_Some.
Qed.

(** X18. A complete iteration without communication hook and without
    [find_unused_parameters_]: started from a prepared reducer with at least
    one parameter whose gradients pass the checks of [mark_variable_ready],
    any sequence of [mark_variable_ready] calls that marks every parameter
    of every replica exactly once succeeds, and the [finalize_backward] that
    follows passes all its assertions and returns: it leaves
    [local_used_maps_reduced_] and the buckets as they are and resets
    [expect_autograd_hooks_] and [require_finalize_]; every bucket has been
    launched. *)
Theorem backward_pass_finalizes pg reduced st0 calls :
  layout_ok st0 → prepared st0 → grads_ok st0 →
  expect_autograd_hooks_ st0 = true → comm_hook_ st0 = None →
  find_unused_parameters_ st0 = false →
  0 < length (variable_locators_ st0) →
  calls.*2 ≡ₚ all_variable_indices st0 →
  ∃ st1 st2,
    mark_all calls st0 = (Ok tt, st1) ∧
    finalize_backward pg reduced st1 = (Ok reduced, st2) ∧
    expect_autograd_hooks_ st2 = false ∧ require_finalize_ st2 = false ∧
    buckets_ st2 = buckets_ st1 ∧ next_bucket_ st2 = length (buckets_ st2).
Proof.
  intros Hlay Hprep Hgr Hhooks Hhook Hfu Hparams Hperm.
  destruct (mark_all_complete st0 calls Hlay Hprep Hgr Hperm)
    as (st1 & Hrun & Hlay1 & Hnext1).
  pose proof (keeps_mark_all calls st0) as Hframe. rewrite Hrun in Hframe.
  simpl in Hframe.
  pose proof (keeps_handles_mark_all calls st0) as Hhandles. rewrite Hrun in Hhandles.
  simpl in Hhandles.
  assert (require_finalize_ st1 = true) as Hfin.
  { destruct calls as [|[now index] calls].
    - apply Permutation_nil_l in Hperm. exfalso.
      assert ({| replica_index := 0; variable_index := 0 |} ∈ all_variable_indices st0)
        as Hin.
      { apply elem_of_all_variable_indices. simpl.
        split; [exact (lo_replicas _ Hlay)|done]. }
      rewrite <- Hperm in Hin. by apply elem_of_nil in Hin.
    - unfold mark_all in Hrun. simpl in Hrun.
      apply bind_ok in Hrun as ([] & s1 & Hstep & Hrest).
      apply mark_variable_ready_sets_finalize in Hstep.
      pose proof (keeps_mark_all calls s1) as Hf. unfold mark_all in Hf.
      rewrite Hrest in Hf. by apply (pf_finalize _ _ Hf). }
  assert (dense_settled st1 st1) as Hset.
  { intros b bkt r rep i v view Hb Hdense Hr Hv Hview.
    destruct (shape_lookup bucket_shape _ _ _ _ (eq_sym (pf_shape _ _ Hframe)) Hb)
      as (bkt0 & Hb0 & Hs).
    injection Hs as _ Hsparse Hreps.
    destruct (shape_lookup replica_shape _ _ _ _ Hreps Hr) as (rep0 & Hr0 & Hs').
    injection Hs' as Hvars _ _ Hviews.
    apply (mark_all_settles st0 calls Hlay [] st0 st1) with b bkt0 r rep0 i;
      [reflexivity| |done|done|congruence|done|congruence|congruence|].
    - intros ? ? ? ? ? ? ? _ _ _ _ _ Hin. by apply elem_of_nil in Hin.
    - simpl. rewrite Hperm. apply elem_of_all_variable_indices.
      destruct (slot_position _ _ _ _ _ _ _ Hlay1 Hb Hr Hv)
        as (loc & Hloc & _ & -> & _).
      rewrite <- (pf_replicas _ _ Hframe), <- (pf_locators _ _ Hframe). split.
      + destruct (lo_buckets _ Hlay1 _ _ Hb) as (_ & <- & _).
        by eapply lookup_lt_Some.
      + by eapply lookup_lt_Some. }
  destruct (finalize_backward_runs pg reduced st1 Hlay1) as (a & st2 & Hrun2 & HQ);
    [by rewrite (pf_hooks _ _ Hframe)|done|done|
     by rewrite (pf_comm_hook _ _ Hframe)|by rewrite (pf_find_unused _ _ Hframe)| |done|].
  - apply (ph_work _ _ Hhandles); [done|]. intros b Hb.
    rewrite (pr_next _ Hprep) in Hb. lia.
  - destruct HQ as (-> & H1 & H2 & H3 & H4).
    exists st1, st2. split_and!; [done..|]. by rewrite H4, H3.
Qed.
Lemma sample_two_buckets_layout : layout_ok sample_two_buckets.
Proof.
  constructor.
  - vm_compute. lia.
  - vm_compute. repeat constructor.
  - split; [vm_compute; reflexivity|vm_compute; repeat constructor].
  - split; [vm_compute; reflexivity|vm_compute; repeat constructor].
  - vm_compute. reflexivity.
  - intros v loc Hloc.
    destruct v as [|[|v]]; vm_compute in Hloc; [| |discriminate].
    all: injection Hloc as <-; eexists; split; vm_compute; reflexivity.
  - intros b bkt Hb.
    destruct b as [|[|b]]; vm_compute in Hb; [| |discriminate].
    all: injection Hb as <-; split; [vm_compute; discriminate|].
    all: split; [vm_compute; reflexivity|].
    all: intros r rep Hr; destruct r as [|r]; vm_compute in Hr; [|discriminate].
    all: injection Hr as <-; split; [vm_compute; reflexivity|].
    all: vm_compute; split; [eexists; reflexivity|repeat split].
Qed.

Lemma sample_two_buckets_prepared : prepared sample_two_buckets.
Proof.
  constructor.
  - vm_compute. reflexivity.
  - vm_compute. reflexivity.
  - vm_compute. discriminate.
  - intros b bkt Hb.
    destruct b as [|[|b]]; vm_compute in Hb; [| |discriminate].
    all: injection Hb as <-; split; [vm_compute; reflexivity|].
    all: intros r rep Hr; destruct r as [|r]; vm_compute in Hr; [|discriminate].
    all: injection Hr as <-; vm_compute; reflexivity.
Qed.

Lemma sample_two_buckets_grads_ok : grads_ok sample_two_buckets.
Proof.
  intros r v loc bkt rep Hloc Hb Hr.
  destruct v as [|[|v]]; vm_compute in Hloc; [| |discriminate].
  all: injection Hloc as <-; vm_compute in Hb; injection Hb as <-.
  all: destruct r as [|r]; vm_compute in Hr; [|discriminate].
  all: injection Hr as <-; eexists; split; [vm_compute; reflexivity|].
  all: vm_compute; intros g view [= <-] [= <-] Halias; discriminate.
Qed.

(** Two buckets [[0]] and [[1]], parameter 1 marked before parameter 0. *)
Lemma backward_pass_finalizes_witness :
  ∃ st1 st2,
    mark_all [(5%Z, v1); (7%Z, v0)] sample_two_buckets = (Ok tt, st1) ∧
    finalize_backward sample_completion false st1 = (Ok false, st2) ∧
    expect_autograd_hooks_ st2 = false ∧ require_finalize_ st2 = false ∧
    buckets_ st2 = buckets_ st1 ∧ next_bucket_ st2 = length (buckets_ st2).
Proof.
  apply (backward_pass_finalizes sample_completion false sample_two_buckets
           [(5%Z, v1); (7%Z, v0)]).
  - exact sample_two_buckets_layout.
  - exact sample_two_buckets_prepared.
  - exact sample_two_buckets_grads_ok.
  - vm_compute. reflexivity.
  - vm_compute. reflexivity.
  - vm_compute. reflexivity.
  - vm_compute. lia.
  - vm_compute. apply perm_swap.
Defined.

(** X19. [finalize_backward] returns once the backward pass is complete.
    Without communication hook and without [find_unused_parameters_], in a
    reducer with a well-formed layout: if autograd hooks were expected, a
    gradient was marked ready ([require_finalize_]), every bucket was
    launched ([next_bucket_ == buckets_.size()]) and has its work handle,
    and every gradient of a bucket of dense gradients is undefined or shares
    the storage of its bucket view, then [finalize_backward] passes all its
    assertions and returns [local_used_maps_reduced_] as it was; both flags
    are reset and the buckets stay as they are. *)
Theorem finalize_backward_returns pg reduced st :
  layout_ok st →
  expect_autograd_hooks_ st = true → require_finalize_ st = true →
  next_bucket_ st = length (buckets_ st) →
  comm_hook_ st = None → find_unused_parameters_ st = false →
  work_set st → dense_settled st st →
  ∃ st', finalize_backward pg reduced st = (Ok reduced, st') ∧
         expect_autograd_hooks_ st' = false ∧ require_finalize_ st' = false ∧
         buckets_ st' = buckets_ st.
Proof.
  intros Hlay Hhooks Hfin Hnext Hhook Hfu Hwork Hset.
  destruct (finalize_backward_runs pg reduced st Hlay Hhooks Hfin Hnext Hhook Hfu
              Hwork Hset) as (a & st' & Hrun & -> & H1 & H2 & H3 & _).
  by exists st'.
Qed.

(** Both buckets of [sample_launched] were launched; its gradients are
    undefined. *)
Lemma finalize_backward_returns_witness :
  ∃ st', finalize_backward sample_completion false sample_launched = (Ok false, st') ∧
         expect_autograd_hooks_ st' = false ∧ require_finalize_ st' = false ∧
         buckets_ st' = buckets_ sample_launched.
Proof.
  apply (finalize_backward_returns sample_completion false sample_launched).
  - constructor.
    + vm_compute. lia.
    + vm_compute. repeat constructor.
    + split; [vm_compute; reflexivity|vm_compute; repeat constructor].
    + split; [vm_compute; reflexivity|vm_compute; repeat constructor].
    + vm_compute. reflexivity.
    + intros v loc Hloc.
      destruct v as [|[|v]]; vm_compute in Hloc; [| |discriminate].
      all: injection Hloc as <-; eexists; split; vm_compute; reflexivity.
    + intros b bkt Hb.
      destruct b as [|[|b]]; vm_compute in Hb; [| |discriminate].
      all: injection Hb as <-; split; [vm_compute; discriminate|].
      all: split; [vm_compute; reflexivity|].
      all: intros r rep Hr; destruct r as [|r]; vm_compute in Hr; [|discriminate].
      all: injection Hr as <-; split; [vm_compute; reflexivity|].
      all: vm_compute; split; [eexists; reflexivity|repeat split].
  - vm_compute. reflexivity.
  - vm_compute. reflexivity.
  - vm_compute. reflexivity.
  - vm_compute. reflexivity.
  - vm_compute. reflexivity.
  - intros b Hb. destruct b as [|[|b]]; [| |vm_compute in Hb; lia].
    all: eexists; split; [vm_compute; reflexivity|vm_compute; by eexists].
  - intros b bkt r rep i v view Hb Hdense Hr Hv Hview.
    destruct b as [|[|b]]; vm_compute in Hb; [| |discriminate].
    all: injection Hb as <-.
    all: destruct r as [|r]; vm_compute in Hr; [|discriminate].
    all: injection Hr as <-.
    all: destruct i as [|i]; vm_compute in Hv; [|discriminate].
    all: injection Hv as <-; exists None; split; [vm_compute; reflexivity|done].
Defined.
